(** * Fibonacci heap with unsigned 64-bit keys: a shallow embedding

    The C library keeps a forest of heap-ordered trees.  Nodes are linked by
    raw pointers (father, first son, next/previous brother); roots are filed
    in an array of doubly linked lists indexed by the number of sons of the
    root.  The embedding keeps the pointer structure: nodes live in a store
    indexed by addresses, every C assignment [p->f = v] is a read-modify-write
    of the store at [p], and every dereference of a NULL or dangling pointer
    is an explicit [Crash].  Loops that walk the pointer structure carry
    fuel, computed from the size of the store; running out of fuel is the
    separate outcome [Loop].

    Allocation is assumed to succeed: the [calloc] failure branches of the
    source are not reachable in the model. *)

From stdpp Require Import functions base gmap list.
From Stdlib Require Import ZArith Lia Sorted.

Local Open Scope Z_scope.

(** ** Machine integers *)

Definition UINT64_MAX : Z := 2 ^ 64 - 1.
Definition ULONG_MAX : Z := 2 ^ 64 - 1.

(** Arithmetic on [uint64_t] and [ulong] wraps modulo [2^64]. *)
Definition wrap64 (z : Z) : Z := z mod 2 ^ 64.

(** ** Data model *)

Abbreviation addr := nat.

(** [FibTree]: a tree is a pointer to its root node. *)
Record FibTree := mkTree { _root : addr }.

(** Modelled from the spec: the ordered-list collaborator
    (DoubleLinkedList/doubleLinkedList.h is not part of the sources).  A
    record carries its payload, here always a [FibTree]; a list is the
    sequence of its records, first to last; a record handle is the record
    itself. *)
Record DLRecord := mkRec { recData : FibTree }.

Abbreviation DLList := (list DLRecord).

Global Instance FibTree_eq_dec : EqDecision FibTree.
Proof. solve_decision. Defined.

Global Instance DLRecord_eq_dec : EqDecision DLRecord.
Proof. solve_decision. Defined.

(** Modelled from the spec: [create()]. *)
Definition createDLList : DLList := [].

(** Modelled from the spec: [isEmpty(list)]. *)
Definition isListEmpty (l : DLList) : bool :=
  match l with [] => true | _ => false end.

(** Modelled from the spec: [count(list)]. *)
Definition recsCount (l : DLList) : Z := Z.of_nat (length l).

(** Modelled from the spec: [appendLast(payload, list) -> handle]. *)
Definition addAsLast (t : FibTree) (l : DLList) : DLRecord * DLList :=
  (mkRec t, l ++ [mkRec t]).

(** Modelled from the spec: appending an existing record. *)
Definition addAsLastRecord (r : DLRecord) (l : DLList) : DLList := l ++ [r].

(** Modelled from the spec: [removeFirst(list)], on records. *)
Definition popFirstRecord (l : DLList) : option (DLRecord * DLList) :=
  match l with [] => None | r :: l' => Some (r, l') end.

(** Modelled from the spec: [removeLast(list)], on records. *)
Definition popLastRecord (l : DLList) : option (DLRecord * DLList) :=
  match last l with None => None | Some r => Some (r, removelast l) end.

(** Modelled from the spec: [removeByHandle(handle, list)].  Removing a
    record that is not in the list has no defined result. *)
Fixpoint popRecord (r : DLRecord) (l : DLList) : option DLList :=
  match l with
  | [] => None
  | x :: l' =>
      if decide (x = r) then Some l'
      else match popRecord r l' with
           | Some l'' => Some (x :: l'')
           | None => None
           end
  end.

(** [FibTreeNode]. *)
Record FibTreeNode := mkNode {
  key : Z;
  elem : Z;
  _father : option addr;
  _firstSon : option addr;
  _nextBro : option addr;
  _prevBro : option addr;
  _posInForest : option DLRecord;
  _sonsCnt : Z;
  _grief : Z
}.

Definition set_key (v : Z) (n : FibTreeNode) : FibTreeNode :=
  mkNode v (elem n) (_father n) (_firstSon n) (_nextBro n) (_prevBro n)
         (_posInForest n) (_sonsCnt n) (_grief n).
Definition set_elem (v : Z) (n : FibTreeNode) : FibTreeNode :=
  mkNode (key n) v (_father n) (_firstSon n) (_nextBro n) (_prevBro n)
         (_posInForest n) (_sonsCnt n) (_grief n).
Definition set_father (v : option addr) (n : FibTreeNode) : FibTreeNode :=
  mkNode (key n) (elem n) v (_firstSon n) (_nextBro n) (_prevBro n)
         (_posInForest n) (_sonsCnt n) (_grief n).
Definition set_firstSon (v : option addr) (n : FibTreeNode) : FibTreeNode :=
  mkNode (key n) (elem n) (_father n) v (_nextBro n) (_prevBro n)
         (_posInForest n) (_sonsCnt n) (_grief n).
Definition set_nextBro (v : option addr) (n : FibTreeNode) : FibTreeNode :=
  mkNode (key n) (elem n) (_father n) (_firstSon n) v (_prevBro n)
         (_posInForest n) (_sonsCnt n) (_grief n).
Definition set_prevBro (v : option addr) (n : FibTreeNode) : FibTreeNode :=
  mkNode (key n) (elem n) (_father n) (_firstSon n) (_nextBro n) v
         (_posInForest n) (_sonsCnt n) (_grief n).
Definition set_posInForest (v : option DLRecord) (n : FibTreeNode)
  : FibTreeNode :=
  mkNode (key n) (elem n) (_father n) (_firstSon n) (_nextBro n) (_prevBro n)
         v (_sonsCnt n) (_grief n).
Definition set_sonsCnt (v : Z) (n : FibTreeNode) : FibTreeNode :=
  mkNode (key n) (elem n) (_father n) (_firstSon n) (_nextBro n) (_prevBro n)
         (_posInForest n) v (_grief n).
Definition set_grief (v : Z) (n : FibTreeNode) : FibTreeNode :=
  mkNode (key n) (elem n) (_father n) (_firstSon n) (_nextBro n) (_prevBro n)
         (_posInForest n) (_sonsCnt n) v.

(** [FibHeap]. *)
Record FibHeap := mkHeap {
  _forest : list DLList;
  min : option addr;
  _maxTreeOrd : Z;
  nodesCount : Z
}.

Definition set_forest (v : list DLList) (h : FibHeap) : FibHeap :=
  mkHeap v (min h) (_maxTreeOrd h) (nodesCount h).
Definition set_min (v : option addr) (h : FibHeap) : FibHeap :=
  mkHeap (_forest h) v (_maxTreeOrd h) (nodesCount h).
Definition set_maxTreeOrd (v : Z) (h : FibHeap) : FibHeap :=
  mkHeap (_forest h) (min h) v (nodesCount h).
Definition set_nodesCount (v : Z) (h : FibHeap) : FibHeap :=
  mkHeap (_forest h) (min h) (_maxTreeOrd h) v.

(** The program state: the heap structure and the store of tree nodes.  A
    node taken out of the heap stays in the store: it belongs to the caller
    until [eraseFibTreeNode] frees it. *)
Record State := mkState {
  heap : FibHeap;
  mem : gmap addr FibTreeNode
}.

(** A [FibHeap *] argument is either NULL or the heap of the state. *)
Variant hptr := Heap.

(** ** Outcomes and the state monad *)

Inductive Res (A : Type) : Type :=
| Ok (a : A) (s : State)
| Crash
| Loop.
Arguments Ok {A} a s.
Arguments Crash {A}.
Arguments Loop {A}.

Definition M (A : Type) : Type := State → Res A.

Definition ret {A} (a : A) : M A := λ s, Ok a s.

Definition bind {A B} (m : M A) (f : A → M B) : M B :=
  λ s, match m s with
       | Ok a s' => f a s'
       | Crash => Crash
       | Loop => Loop
       end.

Definition crash {A} : M A := λ _, Crash.
Definition loop {A} : M A := λ _, Loop.

Notation "x <- m ;; k" := (bind m (λ x, k))
  (at level 100, m at next level, right associativity).
Notation "m ;;; k" := (bind m (λ _, k))
  (at level 100, right associativity).

Definition getHeap : M FibHeap := λ s, Ok (heap s) s.

Definition modHeap (f : FibHeap → FibHeap) : M unit :=
  λ s, Ok tt (mkState (f (heap s)) (mem s)).

(** [*p] for a node pointer that is known not to be NULL. *)
Definition load (a : addr) : M FibTreeNode :=
  λ s, match mem s !! a with Some n => Ok n s | None => Crash end.

(** [p->field = v]. *)
Definition assign (a : addr) (f : FibTreeNode → FibTreeNode) : M unit :=
  λ s, match mem s !! a with
       | Some n => Ok tt (mkState (heap s) (<[a := f n]> (mem s)))
       | None => Crash
       end.

(** [(heap->_forest)[i]], read and written in place. *)
Definition forest_get (i : Z) : M DLList :=
  λ s, match _forest (heap s) !! Z.to_nat i with
       | Some l => Ok l s
       | None => Crash
       end.

Definition forest_set (i : Z) (l : DLList) : M unit :=
  λ s, match _forest (heap s) !! Z.to_nat i with
       | Some _ =>
           Ok tt (mkState (set_forest (<[Z.to_nat i := l]> (_forest (heap s)))
                                      (heap s)) (mem s))
       | None => Crash
       end.

(** [calloc(1, sizeof(FibTreeNode))]: a zeroed node at a fresh address. *)
Definition calloc_node : M addr :=
  λ s, let a := fresh (dom (mem s)) in
       Ok a (mkState (heap s)
               (<[a := mkNode 0 0 None None None None None 0 0]> (mem s))).

(** Fuel for the walks along brothers and fathers. *)
Definition walk_fuel (s : State) : nat := S (size (mem s)).

(** ** Library functions *)

(** The size of a pointer to a list, on the 64-bit target where [ulong]
    and [size_t] have 64 bits. *)
Definition sizeof_ptr : Z := 8.

(** [calloc(n, size)] answers NULL when the byte count [n * size] does not
    fit [size_t]; an array whose size fits is taken to be allocated. *)
Definition calloc_fits (n size : Z) : bool := n * size <? 2 ^ 64.

Definition createFibHeap (initMaxTreeOrd : Z) : option FibHeap :=
  if initMaxTreeOrd =? 0 then None
  else if calloc_fits initMaxTreeOrd sizeof_ptr
  then Some (mkHeap (replicate (Z.to_nat initMaxTreeOrd) createDLList)
                    None initMaxTreeOrd 0)
  else None.

Fixpoint isHeapEmpty_for (n : nat) (i : Z) : M Z :=
  match n with
  | O => ret 1
  | S n' =>
      l <- forest_get i ;;
      if isListEmpty l then isHeapEmpty_for n' (i + 1) else ret 0
  end.

Definition isHeapEmpty (heap : option hptr) : M Z :=
  match heap with
  | None => ret (-1)
  | Some _ =>
      h <- getHeap ;;
      isHeapEmpty_for (Z.to_nat (_maxTreeOrd h)) 0
  end.

Definition fhFindMin (heap : option hptr) : M Z :=
  match heap with
  | None => ret 0
  | Some _ =>
      h <- getHeap ;;
      match min h with
      | None => ret 0
      | Some m => n <- load m ;; ret (elem n)
      end
  end.

(** The slow mode of [_updateMin]: the inner [while] over one list. *)
Fixpoint updateMin_while (l : DLList) (acc : option addr * Z)
  : M (option addr * Z) :=
  match l with
  | [] => ret acc
  | curr :: l' =>
      n <- load (_root (recData curr)) ;;
      if key n <? snd acc
      then updateMin_while l' (Some (_root (recData curr)), key n)
      else updateMin_while l' acc
  end.

(** The slow mode of [_updateMin]: the outer [for] over the forest. *)
Fixpoint updateMin_for (n : nat) (i : Z) (acc : option addr * Z)
  : M (option addr * Z) :=
  match n with
  | O => ret acc
  | S n' =>
      l <- forest_get i ;;
      acc' <- updateMin_while l acc ;;
      updateMin_for n' (i + 1) acc'
  end.

Definition _updateMin (newNode : option addr) : M unit :=
  e <- isHeapEmpty (Some Heap) ;;
  if e =? 0 then
    match newNode with
    | None =>
        h <- getHeap ;;
        r <- updateMin_for (Z.to_nat (_maxTreeOrd h)) 0 (None, UINT64_MAX) ;;
        modHeap (set_min (fst r))
    | Some a =>
        h <- getHeap ;;
        match min h with
        | None => modHeap (set_min (Some a))
        | Some m =>
            nn <- load a ;;
            mn <- load m ;;
            if key nn <? key mn then modHeap (set_min (Some a)) else ret tt
        end
    end
  else modHeap (set_min None).

Definition _insertNode (node : addr) : M (option addr) :=
  let newTree := mkTree node in
  l <- forest_get 0 ;;
  let '(newTreeRec, l') := addAsLast newTree l in
  forest_set 0 l' ;;;
  assign node (set_posInForest (Some newTreeRec)) ;;;
  _updateMin (Some node) ;;;
  modHeap (λ h, set_nodesCount (wrap64 (nodesCount h + 1)) h) ;;;
  ret (Some (_root newTree)).

Definition fhInsert (heap : option hptr) (elem : Z) (key : Z)
  : M (option addr) :=
  match heap with
  | None => ret None
  | Some _ =>
      h <- getHeap ;;
      if nodesCount h =? ULONG_MAX then ret None
      else
        newNode <- calloc_node ;;
        assign newNode (λ _, mkNode key elem None None None None None 0 0) ;;;
        _insertNode newNode
  end.

Fixpoint _cascadedDetach_rec (fuel : nat) (decNode : addr) : M unit :=
  match fuel with
  | O => loop
  | S fuel' =>
      d <- load decNode ;;
      match _father d with
      | None => crash
      | Some father =>
          f <- load father ;;
          (if decide (_firstSon f = Some decNode)
           then assign father (set_firstSon (_nextBro d)) else ret tt) ;;;
          d <- load decNode ;;
          (match _prevBro d with
           | Some p => assign p (set_nextBro (_nextBro d))
           | None => ret tt
           end) ;;;
          d <- load decNode ;;
          (match _nextBro d with
           | Some nx => assign nx (set_prevBro (_prevBro d))
           | None => ret tt
           end) ;;;
          assign decNode (set_father None) ;;;
          assign decNode (set_nextBro None) ;;;
          assign decNode (set_prevBro None) ;;;
          assign father (λ f, set_sonsCnt (wrap64 (_sonsCnt f - 1)) f) ;;;
          d <- load decNode ;;
          l <- forest_get (_sonsCnt d) ;;
          let '(newTreeRec, l') := addAsLast (mkTree decNode) l in
          forest_set (_sonsCnt d) l' ;;;
          assign decNode (set_posInForest (Some newTreeRec)) ;;;
          assign decNode (set_grief 0) ;;;
          f <- load father ;;
          match _father f with
          | Some _ =>
              if _grief f =? 1 then _cascadedDetach_rec fuel' father
              else assign father (set_grief 1)
          | None =>
              match _posInForest f with
              | None => crash
              | Some r =>
                  l1 <- forest_get (wrap64 (_sonsCnt f + 1)) ;;
                  match popRecord r l1 with
                  | None => crash
                  | Some l1' =>
                      forest_set (wrap64 (_sonsCnt f + 1)) l1' ;;;
                      l0 <- forest_get (_sonsCnt f) ;;
                      forest_set (_sonsCnt f) (addAsLastRecord r l0)
                  end
              end
          end
      end
  end.

Definition _cascadedDetach (decNode : addr) : M unit :=
  λ s, _cascadedDetach_rec (walk_fuel s) decNode s.

Definition fhDecreaseKey (heap : option hptr) (node : option addr) (dec : Z)
  : M (option addr) :=
  match heap, node with
  | Some _, Some a =>
      assign a (λ n, set_key (wrap64 (key n - dec)) n) ;;;
      n <- load a ;;
      (match _father n with
       | Some f =>
           fn <- load f ;;
           if key n <? key fn then _cascadedDetach a else ret tt
       | None => ret tt
       end) ;;;
      n <- load a ;;
      (match _father n with
       | None => _updateMin (Some a)
       | Some _ => ret tt
       end) ;;;
      ret (Some a)
  | _, _ => ret None
  end.

Fixpoint cutSubtrees_while (fuel : nat) (currSon : option addr) : M unit :=
  match currSon with
  | None => ret tt
  | Some c =>
      match fuel with
      | O => loop
      | S fuel' =>
          assign c (set_father None) ;;;
          n <- load c ;;
          cutSubtrees_while fuel' (_nextBro n)
      end
  end.

Definition _cutSubtrees (tree : FibTree) : M unit :=
  r <- load (_root tree) ;;
  λ s, cutSubtrees_while (walk_fuel s) (_firstSon r) s.

Definition _mergeRecordedTrees (tree otherTree : FibTree)
    (firstTreeRecord otherTreeRecord : DLRecord) : M DLRecord :=
  let thisRoot := _root tree in
  let otherRoot := _root otherTree in
  t <- load thisRoot ;;
  o <- load otherRoot ;;
  if key t <=? key o then
    assign otherRoot (set_father (Some thisRoot)) ;;;
    assign otherRoot (set_nextBro None) ;;;
    assign otherRoot (set_prevBro None) ;;;
    assign otherRoot (set_posInForest None) ;;;
    assign thisRoot (λ t, set_sonsCnt (wrap64 (_sonsCnt t + 1)) t) ;;;
    t <- load thisRoot ;;
    (match _firstSon t with
     | Some fs =>
         assign otherRoot (set_nextBro (Some fs)) ;;;
         assign fs (set_prevBro (Some otherRoot)) ;;;
         assign thisRoot (set_firstSon (Some otherRoot))
     | None => assign thisRoot (set_firstSon (Some otherRoot))
     end) ;;;
    ret firstTreeRecord
  else
    assign thisRoot (set_father (Some otherRoot)) ;;;
    assign thisRoot (set_nextBro None) ;;;
    assign thisRoot (set_prevBro None) ;;;
    assign thisRoot (set_posInForest None) ;;;
    assign otherRoot (λ o, set_sonsCnt (wrap64 (_sonsCnt o + 1)) o) ;;;
    o <- load otherRoot ;;
    (match _firstSon o with
     | Some fs =>
         assign thisRoot (set_nextBro (Some fs)) ;;;
         assign fs (set_prevBro (Some thisRoot)) ;;;
         assign otherRoot (set_firstSon (Some thisRoot))
     | None => assign otherRoot (set_firstSon (Some thisRoot))
     end) ;;;
    ret otherTreeRecord.

(** The [for] and [while] loops of [_rebuild], as one recursion: either
    merge two trees of list [i] and stay, or move on to list [i + 1]. *)
Fixpoint rebuild_loop (fuel : nat) (i : Z) : M unit :=
  match fuel with
  | O => loop
  | S fuel' =>
      h <- getHeap ;;
      if i <? _maxTreeOrd h then
        l <- forest_get i ;;
        if recsCount l >? 1 then
          match popFirstRecord l with
          | None => crash
          | Some (aRecordedTree, l1) =>
              match popLastRecord l1 with
              | None => crash
              | Some (bRecordedTree, l2) =>
                  forest_set i l2 ;;;
                  newRecordedTree <-
                    _mergeRecordedTrees (recData aRecordedTree)
                      (recData bRecordedTree) aRecordedTree bRecordedTree ;;
                  h <- getHeap ;;
                  (if i + 1 >=? _maxTreeOrd h then
                     modHeap (λ h, set_forest
                       (resize (Z.to_nat (wrap64 (_maxTreeOrd h + 1)))
                               createDLList (_forest h)) h) ;;;
                     forest_set (i + 1) createDLList ;;;
                     modHeap (λ h, set_maxTreeOrd
                                     (wrap64 (_maxTreeOrd h + 1)) h)
                   else ret tt) ;;;
                  l' <- forest_get (i + 1) ;;
                  forest_set (i + 1) (addAsLastRecord newRecordedTree l') ;;;
                  rebuild_loop fuel' i
              end
          end
        else rebuild_loop fuel' (i + 1)
      else ret tt
  end.

(** The number of records filed in the forest. *)
Fixpoint total (F : list DLList) : nat :=
  match F with
  | [] => O
  | l :: F' => (length l + total F')%nat
  end.

Definition rebuild_fuel (s : State) : nat :=
  S (Z.to_nat (_maxTreeOrd (heap s)) + 2 * total (_forest (heap s)))%nat.

Definition _rebuild : M unit :=
  (λ s, rebuild_loop (rebuild_fuel s) 0 s) ;;;
  _updateMin None.

Fixpoint newRoots_while (fuel : nat) (newRoot : option addr) : M unit :=
  match newRoot with
  | None => ret tt
  | Some c =>
      match fuel with
      | O => loop
      | S fuel' =>
          n <- load c ;;
          let nextOne := _nextBro n in
          assign c (set_nextBro None) ;;;
          assign c (set_prevBro None) ;;;
          n <- load c ;;
          l <- forest_get (_sonsCnt n) ;;
          let '(newTreeRec, l') := addAsLast (mkTree c) l in
          forest_set (_sonsCnt n) l' ;;;
          assign c (set_posInForest (Some newTreeRec)) ;;;
          newRoots_while fuel' nextOne
      end
  end.

Definition fhDeleteMin (heap : option hptr) : M (option addr) :=
  match heap with
  | None => ret None
  | Some _ =>
      e <- isHeapEmpty (Some Heap) ;;
      if e =? 0 then
        h <- getHeap ;;
        match min h with
        | None => crash
        | Some minNode =>
            mn <- load minNode ;;
            match _posInForest mn with
            | None => crash
            | Some treeRecord =>
                let minTree := recData treeRecord in
                l <- forest_get (_sonsCnt mn) ;;
                match popRecord treeRecord l with
                | None => crash
                | Some l' =>
                    forest_set (_sonsCnt mn) l' ;;;
                    _cutSubtrees minTree ;;;
                    mn <- load minNode ;;
                    (λ s, newRoots_while (walk_fuel s) (_firstSon mn) s) ;;;
                    _rebuild ;;;
                    modHeap (λ h, set_nodesCount
                                    (wrap64 (nodesCount h - 1)) h) ;;;
                    assign minNode (set_father None) ;;;
                    assign minNode (set_firstSon None) ;;;
                    assign minNode (set_nextBro None) ;;;
                    assign minNode (set_prevBro None) ;;;
                    assign minNode (set_posInForest None) ;;;
                    assign minNode (set_grief 0) ;;;
                    assign minNode (set_sonsCnt 0) ;;;
                    ret (Some minNode)
                end
            end
        end
      else ret None
  end.

Definition fhDelete (heap : option hptr) (node : option addr)
  : M (option addr) :=
  match heap, node with
  | Some _, Some a =>
      n <- load a ;;
      let key0 := key n in
      fhDecreaseKey heap node (key n) ;;;
      deleted <- fhDeleteMin heap ;;
      match deleted with
      | None => crash
      | Some d => assign d (set_key key0) ;;; ret (Some d)
      end
  | _, _ => ret None
  end.

Definition fhIncreaseKey (heap : option hptr) (node : option addr) (inc : Z)
  : M (option addr) :=
  match heap, node with
  | Some _, Some _ =>
      deletedNode <- fhDelete heap node ;;
      match deletedNode with
      | None => crash
      | Some d =>
          assign d (λ n, set_key (wrap64 (key n + inc)) n) ;;;
          _insertNode d ;;;
          ret (Some d)
      end
  | _, _ => ret None
  end.

(** [free(p)] for a node: it leaves the store.  Freeing what is not
    allocated has no defined result. *)
Definition free (a : addr) : M unit :=
  λ s, match mem s !! a with
       | Some _ => Ok tt (mkState (heap s) (delete a (mem s)))
       | None => Crash
       end.

Definition DELETE_FREE_DATA : Z := 1.

(** [if (opts & DELETE_FREE_DATA) free(elem)]: the payloads live outside
    the store, freeing one leaves the store as it is. *)
Definition free_data (opts : Z) (e : Z) : M unit :=
  if Z.land opts DELETE_FREE_DATA =? 0 then ret tt else ret tt.

(** Modelled from the spec: [removeFirst(list)], giving the payload. *)
Definition popFirst (l : DLList) : option (FibTree * DLList) :=
  match l with [] => None | r :: l' => Some (recData r, l') end.

Fixpoint _eraseSubtree_rec (fuel : nat) (root : addr) (opts : Z) : M unit :=
  match fuel with
  | O => loop
  | S fuel' =>
      r <- load root ;;
      (fix while (n : nat) (currSon : option addr) : M unit :=
         match currSon with
         | None => ret tt
         | Some c =>
             match n with
             | O => loop
             | S n' =>
                 cn <- load c ;;
                 let nextOne := _nextBro cn in
                 _eraseSubtree_rec fuel' c opts ;;;
                 while n' nextOne
             end
         end) fuel' (_firstSon r) ;;;
      free_data opts (elem r) ;;;
      free root
  end.

Definition _eraseSubtree (root : addr) (opts : Z) : M unit :=
  λ s, _eraseSubtree_rec (walk_fuel s) root opts s.

Definition _eraseTree (tree : FibTree) (opts : Z) : M unit :=
  _eraseSubtree (_root tree) opts.

(** The inner [while] of [eraseFibHeap] over the list [i]. *)
Fixpoint erase_while (fuel : nat) (i : Z) (opts : Z) : M unit :=
  match fuel with
  | O => loop
  | S fuel' =>
      l <- forest_get i ;;
      if isListEmpty l then ret tt
      else match popFirst l with
           | None => crash
           | Some (currTree, l') =>
               forest_set i l' ;;;
               _eraseTree currTree opts ;;;
               erase_while fuel' i opts
           end
  end.

Fixpoint erase_for (n : nat) (i : Z) (opts : Z) (trees : bool) : M unit :=
  match n with
  | O => ret tt
  | S n' =>
      (if trees then
         l <- forest_get i ;; erase_while (S (length l)) i opts
       else ret tt) ;;;
      forest_set i [] ;;;
      erase_for n' (i + 1) opts trees
  end.

(** The heap object is not in the store: once erased, its record has no
    list left. *)
Definition eraseFibHeap (heap : option hptr) (opts : Z) : M unit :=
  match heap with
  | None => ret tt
  | Some _ =>
      e <- isHeapEmpty heap ;;
      h <- getHeap ;;
      erase_for (Z.to_nat (_maxTreeOrd h)) 0 opts (e =? 0) ;;;
      modHeap (λ _, mkHeap [] None 0 0)
  end.

Definition eraseFibTreeNode (node : option addr) (opts : Z) : M unit :=
  match node with
  | None => ret tt
  | Some a =>
      n <- load a ;;
      free_data opts (elem n) ;;;
      free a
  end.

(** The state right after [createFibHeap]: no node allocated yet. *)
Definition init_state (h : FibHeap) : State := mkState h ∅.

(** ** Observations on a state *)

(** [a] is the root of a tree filed in some list of the forest. *)
Definition in_forest (s : State) (a : addr) : Prop :=
  ∃ i l r, _forest (heap s) !! i = Some l ∧ r ∈ l ∧ _root (recData r) = a.

(** [c] is a son of [f]: it is met when walking from the first son of [f]
    along the next-brother pointers. *)
Inductive son (s : State) (f : addr) : addr → Prop :=
| son_first nf c :
    mem s !! f = Some nf → _firstSon nf = Some c → son s f c
| son_next b nb c :
    son s f b → mem s !! b = Some nb → _nextBro nb = Some c → son s f c.

(** The live nodes: those reachable from a root filed in the forest. *)
Inductive live (s : State) : addr → Prop :=
| live_root a : in_forest s a → live s a
| live_son f c : live s f → son s f c → live s c.

(** The cached minimum is a live node of smallest key, and it is empty
    exactly when no node is live. *)
Definition min_correct (s : State) : Prop :=
  match min (heap s) with
  | None => ∀ a, ¬ live s a
  | Some m =>
      live s m ∧
      ∃ nm, mem s !! m = Some nm ∧
            ∀ b nb, live s b → mem s !! b = Some nb → key nm ≤ key nb
  end.

(** Every live node that has a father has a key at least its father's. *)
Definition heap_ordered (s : State) : Prop :=
  ∀ c nc p np,
    live s c → mem s !! c = Some nc → _father nc = Some p →
    mem s !! p = Some np → key np ≤ key nc.

(** No root filed in the forest carries the mark. *)
Definition roots_unmarked (s : State) : Prop :=
  ∀ a n, in_forest s a → mem s !! a = Some n → _grief n = 0.

(** Every list of the forest holds at most one tree. *)
Definition one_tree_per_rank (s : State) : Prop :=
  ∀ i l, _forest (heap s) !! i = Some l → (length l ≤ 1)%nat.

(** ** Reachable states

    One call of a public operation on the heap, with a live node where the
    operation takes a node.  Keys are below the bound [B]; when [wrapping]
    is [false] a decrease never exceeds the current key. *)
Inductive step (B : Z) (wrapping : bool) : State → State → Prop :=
| step_insert s e k r s' :
    0 ≤ k < B →
    fhInsert (Some Heap) e k s = Ok r s' →
    step B wrapping s s'
| step_decrease s a n d r s' :
    live s a → mem s !! a = Some n →
    0 ≤ d < 2 ^ 64 → (wrapping = false → d ≤ key n) →
    fhDecreaseKey (Some Heap) (Some a) d s = Ok r s' →
    step B wrapping s s'
| step_deleteMin s r s' :
    fhDeleteMin (Some Heap) s = Ok r s' →
    step B wrapping s s'
| step_delete s a r s' :
    live s a →
    fhDelete (Some Heap) (Some a) s = Ok r s' →
    step B wrapping s s'
| step_increase s a n inc r s' :
    live s a → mem s !! a = Some n →
    0 ≤ inc < 2 ^ 64 → wrap64 (key n + inc) < B →
    fhIncreaseKey (Some Heap) (Some a) inc s = Ok r s' →
    step B wrapping s s'.

Inductive reachable (B : Z) (wrapping : bool) : State → Prop :=
| reach_init n h :
    0 < n < 2 ^ 64 → createFibHeap n = Some h →
    reachable B wrapping (init_state h)
| reach_step s s' :
    reachable B wrapping s → step B wrapping s s' →
    reachable B wrapping s'.

(** ** Well-formed states

    The pointer structure is described against ghost data: the set of live
    nodes, the list of sons of each node (first to last), a height that
    decreases from father to son, the roots that are momentarily not filed
    in the forest, and the list in which each root is filed. *)
Record Ghost := mkGhost {
  gL : gset addr;
  gch : addr → list addr;
  ght : addr → nat;
  gorph : gset addr;
  grk : addr → nat
}.

(** The element before position [i] of a list of sons. *)
Definition prev_at (cs : list addr) (i : nat) : option addr :=
  match i with O => None | S j => cs !! j end.

(** The sons [cs] of [f] are linked as brothers, in order. *)
Definition sibs (m : gmap addr FibTreeNode) (f : addr) (cs : list addr)
  : Prop :=
  ∀ i c, cs !! i = Some c →
    ∃ nc, m !! c = Some nc ∧ _father nc = Some f ∧
          _prevBro nc = prev_at cs i ∧
          _nextBro nc = cs !! S i.

Record GShape (B : Z) (G : Ghost) (s : State) : Prop := mkGShape {
  gs_node : ∀ a, a ∈ gL G →
    ∃ n, mem s !! a = Some n ∧ 0 ≤ key n < B ∧
         _firstSon n = head (gch G a) ∧
         _sonsCnt n = Z.of_nat (length (gch G a));
  gs_rank : ∀ a, a ∈ gL G → a ∉ gorph G →
    Z.of_nat (length (gch G a)) < _maxTreeOrd (heap s);
  gs_sibs : ∀ a, a ∈ gL G → sibs (mem s) a (gch G a);
  gs_nodup : ∀ a, a ∈ gL G → NoDup (gch G a);
  gs_ch : ∀ a c, a ∈ gL G → c ∈ gch G a →
    c ∈ gL G ∧ (ght G c < ght G a)%nat;
  gs_father : ∀ a n f, a ∈ gL G → mem s !! a = Some n →
    _father n = Some f → f ∈ gL G ∧ a ∈ gch G f;
  gs_root : ∀ a n, a ∈ gL G → a ∉ gorph G → mem s !! a = Some n →
    _father n = None →
    _posInForest n = Some (mkRec (mkTree a)) ∧
    ∃ l, _forest (heap s) !! grk G a = Some l ∧ mkRec (mkTree a) ∈ l;
  gs_forest : ∀ i l r, _forest (heap s) !! i = Some l → r ∈ l →
    _root (recData r) ∈ gL G ∧ (_root (recData r) ∉ gorph G) ∧
    grk G (_root (recData r)) = i ∧
    ∃ n, mem s !! _root (recData r) = Some n ∧ _father n = None;
  gs_fnodup : ∀ i l, _forest (heap s) !! i = Some l → NoDup l;
  gs_orph : ∀ a, a ∈ gorph G →
    a ∈ gL G ∧ ∃ n, mem s !! a = Some n ∧ _father n = None;
  gs_len : Z.of_nat (length (_forest (heap s))) = _maxTreeOrd (heap s) ∧
           0 < _maxTreeOrd (heap s) < 2 ^ 64;
  gs_size : Z.of_nat (size (gL G)) < 2 ^ 64
}.

(** The shape between two operations: every root is filed, in the list of
    its number of sons. *)
Record Shape (B : Z) (G : Ghost) (s : State) : Prop := mkShape {
  sh_g : GShape B G s;
  sh_orph : gorph G = ∅;
  sh_rk : ∀ a n, a ∈ gL G → mem s !! a = Some n → _father n = None →
    grk G a = length (gch G a)
}.

(** Heap order, possibly broken between [x] and its father. *)
Definition OrderedEx (x : option addr) (G : Ghost) (s : State) : Prop :=
  ∀ a c na nc, a ∈ gL G → c ∈ gch G a → Some c ≠ x →
    mem s !! a = Some na → mem s !! c = Some nc → key na ≤ key nc.

Definition Ordered (G : Ghost) (s : State) : Prop := OrderedEx None G s.

(** The cached minimum is a live root, and is empty on an empty heap. *)
Definition MinW (G : Ghost) (s : State) : Prop :=
  (∀ m, min (heap s) = Some m →
     m ∈ gL G ∧ ∃ n, mem s !! m = Some n ∧ _father n = None) ∧
  (gL G = ∅ → min (heap s) = None).

(** The cached minimum has the smallest key. *)
Definition MinS (G : Ghost) (s : State) : Prop :=
  ∀ b nb, b ∈ gL G → mem s !! b = Some nb →
    ∃ m nm, min (heap s) = Some m ∧ mem s !! m = Some nm ∧ key nm ≤ key nb.

Record Inv (B : Z) (G : Ghost) (s : State) : Prop := mkInv {
  inv_shape : Shape B G s;
  inv_ord : Ordered G s;
  inv_min : MinW G s;
  inv_cnt : nodesCount (heap s) = Z.of_nat (size (gL G))
}.

(** A valid heap: the data-model invariants hold (heap order, consistent
    ranks and links, a correct cached minimum, an exact node count). *)
Definition valid (s : State) : Prop :=
  ∃ G, Inv (2 ^ 64) G s ∧ MinS G s.

(** The measure that decreases from a node to its father. *)
Definition above (G : Ghost) (a : addr) : nat :=
  size (filter (λ b, (ght G a < ght G b)%nat) (gL G)).

(** Two node records agree on what the shape constrains: the links to
    father and sons always, the links to brothers for a node that has a
    father, the forest handle for a filed root. *)
Definition sim (G : Ghost) (a : addr) (n n' : FibTreeNode) : Prop :=
  _father n' = _father n ∧ _firstSon n' = _firstSon n ∧
  _sonsCnt n' = _sonsCnt n ∧
  (_father n ≠ None →
     _nextBro n' = _nextBro n ∧ _prevBro n' = _prevBro n) ∧
  (_father n = None → a ∉ gorph G → _posInForest n' = _posInForest n).

Definition with_mem (m : gmap addr FibTreeNode) (s : State) : State :=
  mkState (heap s) m.

Definition with_forest (f : list DLList) (s : State) : State :=
  mkState (set_forest f (heap s)) (mem s).

Definition opt_alter (f : FibTreeNode → FibTreeNode) (o : option addr)
    (m : gmap addr FibTreeNode) : gmap addr FibTreeNode :=
  match o with Some a => alter f a m | None => m end.

Definition g_L (v : gset addr) (G : Ghost) : Ghost :=
  mkGhost v (gch G) (ght G) (gorph G) (grk G).
Definition g_ch (v : addr → list addr) (G : Ghost) : Ghost :=
  mkGhost (gL G) v (ght G) (gorph G) (grk G).
Definition g_ht (v : addr → nat) (G : Ghost) : Ghost :=
  mkGhost (gL G) (gch G) v (gorph G) (grk G).
Definition g_orph (v : gset addr) (G : Ghost) : Ghost :=
  mkGhost (gL G) (gch G) (ght G) v (grk G).
Definition g_rk (v : addr → nat) (G : Ghost) : Ghost :=
  mkGhost (gL G) (gch G) (ght G) (gorph G) v.

(** The forest after its array of lists grew by one empty list. *)
Definition extend_forest (h : FibHeap) : FibHeap :=
  mkHeap (_forest h ++ [createDLList]) (min h) (_maxTreeOrd h + 1)
         (nodesCount h).

(** The store after [_cascadedDetach] unlinked [a] from its father [f] and
    its brothers; [na] and [nf] are the records of [a] and [f] before. *)
Definition detach_mem (a f : addr) (na nf : FibTreeNode)
    (m : gmap addr FibTreeNode) : gmap addr FibTreeNode :=
  alter (λ n, set_sonsCnt (wrap64 (_sonsCnt n - 1)) n) f
    (alter (set_prevBro None) a
      (alter (set_nextBro None) a
        (alter (set_father None) a
          (opt_alter (set_prevBro (_prevBro na)) (_nextBro na)
            (opt_alter (set_nextBro (_nextBro na)) (_prevBro na)
              (if decide (_firstSon nf = Some a)
               then alter (set_firstSon (_nextBro na)) f m else m)))))).

(** The store after [_mergeRecordedTrees] made the root [b] the first son
    of the root [a]; [na] is the record of [a] before. *)
Definition merge_mem (a b : addr) (na : FibTreeNode)
    (m : gmap addr FibTreeNode) : gmap addr FibTreeNode :=
  let m1 :=
    alter (λ t, set_sonsCnt (wrap64 (_sonsCnt t + 1)) t) a
      (alter (set_posInForest None) b
        (alter (set_prevBro None) b
          (alter (set_nextBro None) b
            (alter (set_father (Some a)) b m)))) in
  match _firstSon na with
  | Some fs =>
      alter (set_firstSon (Some b)) a
        (alter (set_prevBro (Some b)) fs
          (alter (set_nextBro (Some fs)) b m1))
  | None => alter (set_firstSon (Some b)) a m1
  end.

(** The store after [_cutSubtrees] cleared the father of the sons [cs]. *)
Definition cut_mem (cs : list addr) (m : gmap addr FibTreeNode)
  : gmap addr FibTreeNode :=
  foldl (λ m c, alter (set_father None) c m) m cs.

(** All the lists of the forest are empty. *)
Definition forest_empty (s : State) : bool :=
  forallb isListEmpty (_forest (heap s)).

(** What the slow mode of [_updateMin] computes over one list, and over
    the lists of the forest. *)
Definition scan_list (m : gmap addr FibTreeNode) (l : DLList)
    (acc : option addr * Z) : option addr * Z :=
  foldl (λ acc r,
           match m !! _root (recData r) with
           | Some n =>
               if key n <? snd acc then (Some (_root (recData r)), key n)
               else acc
           | None => acc
           end) acc l.

Definition scan_forest (m : gmap addr FibTreeNode) (F : list DLList)
    (acc : option addr * Z) : option addr * Z :=
  foldl (λ acc l, scan_list m l acc) acc F.

(** The running minimum [acc] of the slow mode is right for the records
    [R] scanned so far. *)
Definition scan_ok (m : gmap addr FibTreeNode) (R : list DLRecord)
    (acc : option addr * Z) : Prop :=
  (∀ r n, r ∈ R → m !! _root (recData r) = Some n → snd acc ≤ key n) ∧
  match fst acc with
  | Some a =>
      ∃ r n, r ∈ R ∧ _root (recData r) = a ∧ m !! a = Some n ∧
             key n = snd acc
  | None => snd acc = UINT64_MAX
  end.

Definition with_min (v : option addr) (s : State) : State :=
  mkState (set_min v (heap s)) (mem s).

(** The cached minimum is right for all live nodes but [a]. *)
Definition MinSx (a : addr) (G : Ghost) (s : State) : Prop :=
  ∀ b nb, b ∈ gL G → b ≠ a → mem s !! b = Some nb →
    ∃ m nm, min (heap s) = Some m ∧ mem s !! m = Some nm ∧ key nm ≤ key nb.

(** What a restructuring step leaves alone: the live nodes, the keys and
    payloads, the cached minimum, the node counter; it adds no son and
    roots stay roots. *)
Record Frame (G : Ghost) (s : State) (G' : Ghost) (s' : State) : Prop :=
  mkFrame {
  fr_L : gL G' = gL G;
  fr_ht : ght G' = ght G;
  fr_min : min (heap s') = min (heap s);
  fr_cnt : nodesCount (heap s') = nodesCount (heap s);
  fr_fwd : ∀ x n, mem s !! x = Some n →
    ∃ n', mem s' !! x = Some n' ∧ key n' = key n ∧ elem n' = elem n ∧
          (_father n = None → _father n' = None);
  fr_bwd : ∀ x n', mem s' !! x = Some n' →
    ∃ n, mem s !! x = Some n ∧ key n = key n';
  fr_ch : ∀ x c, c ∈ gch G' x → c ∈ gch G x
}.

(** The end of the body of [_cascadedDetach], from the test on the father
    of [father] on; [again] is the recursive call. *)
Definition cascade_tail (again : addr → M unit) (father : addr) : M unit :=
  f <- load father ;;
  match _father f with
  | Some _ =>
      if _grief f =? 1 then again father
      else assign father (set_grief 1)
  | None =>
      match _posInForest f with
      | None => crash
      | Some r =>
          l1 <- forest_get (wrap64 (_sonsCnt f + 1)) ;;
          match popRecord r l1 with
          | None => crash
          | Some l1' =>
              forest_set (wrap64 (_sonsCnt f + 1)) l1' ;;;
              l0 <- forest_get (_sonsCnt f) ;;
              forest_set (_sonsCnt f) (addAsLastRecord r l0)
          end
      end
  end.

(** A node record keeps its key and payload, and stays a root if it was
    one. *)
Definition kept (n n' : FibTreeNode) : Prop :=
  key n' = key n ∧ elem n' = elem n ∧ (_father n = None → _father n' = None).

(** One cut of [_cascadedDetach]: [a] was unlinked from its father [f] and
    filed as a root, unmarked; [f] has not been looked at yet. *)
Record CutStep (B : Z) (G : Ghost) (s : State) (a f : addr)
    (G2 : Ghost) (s3 : State) : Prop := mkCutStep {
  cs_shape : GShape B G2 s3;
  cs_orph : gorph G2 = ∅;
  cs_frame : Frame G s G2 s3;
  cs_rk : ∀ x n, x ∈ gL G2 → x ≠ f → mem s3 !! x = Some n →
    _father n = None → grk G2 x = length (gch G2 x);
  cs_rkf : grk G2 f = grk G f;
  cs_fL : f ∈ gL G;
  cs_f : ∃ nf nf3, mem s !! f = Some nf ∧ mem s3 !! f = Some nf3 ∧
    _father nf3 = _father nf ∧ _grief nf3 = _grief nf ∧
    _posInForest nf3 = _posInForest nf ∧
    _sonsCnt nf3 = _sonsCnt nf - 1 ∧ 1 ≤ _sonsCnt nf;
  cs_ch : ∃ k, gch G f !! k = Some a ∧
    gch G2 = <[f := delete k (gch G f)]> (gch G);
  cs_a : ∃ na na3 l, mem s !! a = Some na ∧ mem s3 !! a = Some na3 ∧
    _father na3 = None ∧ _grief na3 = 0 ∧ _sonsCnt na3 = _sonsCnt na ∧
    _firstSon na3 = _firstSon na ∧
    _posInForest na3 = Some (mkRec (mkTree a)) ∧
    _forest (heap s) !! Z.to_nat (_sonsCnt na) = Some l ∧
    _forest (heap s3)
    = <[Z.to_nat (_sonsCnt na) := l ++ [mkRec (mkTree a)]]>
        (_forest (heap s));
  cs_mto : _maxTreeOrd (heap s3) = _maxTreeOrd (heap s);
  cs_grief : ∀ x n, x ≠ a → mem s !! x = Some n →
    ∃ n', mem s3 !! x = Some n' ∧ _grief n' = _grief n
}.

(** The nodes [cs] are linked by their next-brother pointers, in order. *)
Definition chain (m : gmap addr FibTreeNode) (cs : list addr) : Prop :=
  ∀ i c, cs !! i = Some c →
    ∃ nc, m !! c = Some nc ∧ _nextBro nc = cs !! S i.

(** The store after the loop of [fhDeleteMin] over the sons [cs] of the
    removed node made each of them a root. *)
Definition promote_node (c : addr) (n : FibTreeNode) : FibTreeNode :=
  set_posInForest (Some (mkRec (mkTree c)))
    (set_prevBro None (set_nextBro None n)).

(** A node that is out of the heap: every structural field is reset. *)
Definition detached (n : FibTreeNode) : Prop :=
  _father n = None ∧ _firstSon n = None ∧ _nextBro n = None ∧
  _prevBro n = None ∧ _posInForest n = None ∧ _grief n = 0 ∧
  _sonsCnt n = 0.

(** The state in which the key of [d] is set to [k]. *)
Definition with_key (d : addr) (k : Z) (s : State) : State :=
  with_mem (alter (set_key k) d (mem s)) s.

(** The invariant carried along the calls: the data-model invariants for
    keys below [B], and a smallest cached minimum when no key can be
    [UINT64_MAX]. *)
Definition good (B : Z) (s : State) : Prop :=
  ∃ G, Inv B G s ∧ (B ≤ UINT64_MAX → MinS G s).

(** The ghost data of the empty heap. *)
Definition ghost_empty : Ghost := mkGhost ∅ (λ _, []) (λ _, O) ∅ (λ _, O).

(** ** The cascading cut, as the specification words it

    These definitions follow the words of the specification; the theorems
    compare them with [_cascadedDetach]. *)

(** One cut: [a] leaves the sons of its father [f], whose count of sons
    goes down by one; [a] loses its mark and is filed as a root in the list
    of its own, unchanged, number of sons. *)
Record cut_spec (s : State) (a f : addr) (s1 : State) : Prop := mkCutSpec {
  cut_ring : ¬ son s1 f a ∧ ∀ c, c ≠ a → (son s1 f c ↔ son s f c);
  cut_count : ∃ nf nf1,
    mem s !! f = Some nf ∧ mem s1 !! f = Some nf1 ∧
    _sonsCnt nf1 = _sonsCnt nf - 1 ∧
    _father nf1 = _father nf ∧ _grief nf1 = _grief nf;
  cut_node : ∃ na na1 l,
    mem s !! a = Some na ∧ _father na = Some f ∧
    mem s1 !! a = Some na1 ∧ _father na1 = None ∧ _grief na1 = 0 ∧
    _sonsCnt na1 = _sonsCnt na ∧ key na1 = key na ∧ elem na1 = elem na ∧
    _forest (heap s1) !! Z.to_nat (_sonsCnt na) = Some l ∧
    mkRec (mkTree a) ∈ l
}.

(** The former father [f], a root, moves from the list of its old number of
    sons to the list one lower. *)
Definition refile_spec (s1 : State) (f : addr) (s' : State) : Prop :=
  ∃ nf la lb l0,
    mem s1 !! f = Some nf ∧
    _forest (heap s1) !! S (Z.to_nat (_sonsCnt nf))
      = Some (la ++ mkRec (mkTree f) :: lb) ∧
    _forest (heap s1) !! Z.to_nat (_sonsCnt nf) = Some l0 ∧
    s' = with_forest
           (<[Z.to_nat (_sonsCnt nf) := l0 ++ [mkRec (mkTree f)]]>
              (<[S (Z.to_nat (_sonsCnt nf)) := la ++ lb]>
                 (_forest (heap s1)))) s1.

(** The cut of [a] and its propagation to the former father: a root is
    filed one list lower; a marked node that has a father is cut in turn;
    an unmarked node that has a father is marked, and the propagation
    stops. *)
Inductive cascade_spec : State → addr → State → Prop :=
| cascade_root s a f s1 nf s' :
    cut_spec s a f s1 →
    mem s1 !! f = Some nf → _father nf = None →
    refile_spec s1 f s' →
    cascade_spec s a s'
| cascade_marked s a f s1 nf g s' :
    cut_spec s a f s1 →
    mem s1 !! f = Some nf → _father nf = Some g → _grief nf = 1 →
    cascade_spec s1 f s' →
    cascade_spec s a s'
| cascade_unmarked s a f s1 nf g :
    cut_spec s a f s1 →
    mem s1 !! f = Some nf → _father nf = Some g → _grief nf ≠ 1 →
    cascade_spec s a (with_mem (alter (set_grief 1) f (mem s1)) s1).

(** ** Scenarios *)

(** The state an operation leaves. *)
Definition after {A} (m : M A) (s : State) : State :=
  match m s with Ok _ s' => s' | _ => s end.

(** A freshly created heap with [n] lists. *)
Definition fresh_heap (n : Z) : State :=
  init_state (default (mkHeap [] None 0 0) (createFibHeap n)).

(** The keys [ks] inserted one after the other. *)
Definition insert_all (ks : list Z) (s : State) : State :=
  foldl (λ s k, after (fhInsert (Some Heap) 0 k) s) s ks.

(** Five nodes of keys 0 to 4 at the addresses 0 to 4, each a tree of its
    own. *)
Definition five_nodes : State := insert_all [0; 1; 2; 3; 4] (fresh_heap 2).

(** The node of key 0 removed: the nodes 1 to 4 form one tree, in which 3
    is the son of 2 and 2 a son of 1. *)
Definition four_nodes : State := after (fhDeleteMin (Some Heap)) five_nodes.

(** The key of 3 decreased by 2: 3 is cut from 2, which is marked. *)
Definition marked_son : State :=
  after (fhDecreaseKey (Some Heap) (Some 3%nat) 2) four_nodes.

(** The minimum removed again: the marked node 2 becomes a root. *)
Definition marked_root : State := after (fhDeleteMin (Some Heap)) marked_son.

(** Two nodes of keys 3 and 7; then the key of the first, the cached
    minimum, decreased by 5: it wraps around. *)
Definition two_nodes : State := insert_all [3; 7] (fresh_heap 2).

Definition wrapped_min : State :=
  after (fhDecreaseKey (Some Heap) (Some 0%nat) 5) two_nodes.

(** The key of the root 1 of [four_nodes], which has sons, decreased by 2:
    it wraps around. *)
Definition wrapped_root : State :=
  after (fhDecreaseKey (Some Heap) (Some 1%nat) 2) four_nodes.

(** Two nodes of the largest key. *)
Definition two_max : State :=
  insert_all [UINT64_MAX; UINT64_MAX] (fresh_heap 2).

(** Five trees of one node each: the first list of the forest holds five
    trees whose roots have no son, the other lists are empty. *)
Definition five_singletons (s : State) : Prop :=
  ∃ l, _forest (heap s) !! 0%nat = Some l ∧ length l = 5%nat ∧
       (∀ r n, r ∈ l → mem s !! _root (recData r) = Some n →
          _firstSon n = None) ∧
       (∀ i l', i ≠ 0%nat → _forest (heap s) !! i = Some l' → l' = []).

(** ** The heap as a priority queue

    The view a client has of the heap: which nodes are in it, and for each
    its key and payload. *)

(** The data-model invariants but for the choice of the cached minimum:
    shape, heap order, exact node counter, a cached minimum that is a live
    root when there is one. *)
Definition wellformed (s : State) : Prop := ∃ G, Inv (2 ^ 64) G s.

(** A valid heap all of whose keys are below [UINT64_MAX]. *)
Definition sound (s : State) : Prop :=
  ∃ G, Inv UINT64_MAX G s ∧ MinS G s.

(** [m] maps every live node of [s] to its key and payload, and nothing
    else. *)
Definition abstracts (s : State) (m : gmap addr (Z * Z)) : Prop :=
  ∀ a p, m !! a = Some p ↔
         live s a ∧ ∃ n, mem s !! a = Some n ∧ p = (key n, elem n).

(** The pairs of key and payload [kes] inserted one after the other; the
    result tells whether every insertion gave a node. *)
Fixpoint fill (kes : list (Z * Z)) : M bool :=
  match kes with
  | [] => ret true
  | (k, e) :: kes' =>
      r <- fhInsert (Some Heap) e k ;;
      match r with
      | None => ret false
      | Some _ => fill kes'
      end
  end.

(** Up to [n] calls of [fhDeleteMin], stopping at the first that returns
    NULL; the result lists key and payload of the returned nodes. *)
Fixpoint drain (n : nat) : M (list (Z * Z)) :=
  match n with
  | O => ret []
  | S n' =>
      r <- fhDeleteMin (Some Heap) ;;
      match r with
      | None => ret []
      | Some d =>
          nd <- load d ;;
          rest <- drain n' ;;
          ret ((key nd, elem nd) :: rest)
      end
  end.

(** Heapsort: insert everything, then remove the minimum as many times. *)
Definition heapsort (kes : list (Z * Z)) : M (list (Z * Z)) :=
  fill kes ;;; drain (length kes).

(** The entries of [four_nodes]: node, key and payload. *)
Definition four_entries : gmap addr (Z * Z) :=
  list_to_map [(1%nat, (1, 0)); (2%nat, (2, 0)); (3%nat, (3, 0));
               (4%nat, (4, 0))].

(** The entries of [five_nodes]. *)
Definition five_entries : gmap addr (Z * Z) :=
  list_to_map [(0%nat, (0, 0)); (1%nat, (1, 0)); (2%nat, (2, 0));
               (3%nat, (3, 0)); (4%nat, (4, 0))].

(** A computation frees no node and changes no payload: whatever was
    allocated before is allocated after, with the same payload. *)
Definition keeps {A} (m : M A) : Prop :=
  ∀ s r s', m s = Ok r s' →
    ∀ a n, mem s !! a = Some n →
      ∃ n', mem s' !! a = Some n' ∧ elem n' = elem n.

(** ** Subtrees

    [anc G x a]: the live node [x] is [a] or one of its descendants. *)
Inductive anc (G : Ghost) : addr → addr → Prop :=
| anc_refl a : a ∈ gL G → anc G a a
| anc_step x f a : f ∈ gL G → x ∈ gch G f → anc G f a → anc G x a.

(** The number of live nodes among [D] that are lower than [a]: a bound on
    the number of sons and on the depth of the subtree of [a] within
    [D]. *)
Definition below (G : Ghost) (D : gset addr) (a : addr) : nat :=
  size (filter (λ b, (ght G b < ght G a)%nat) (gL G ∩ D)).

(** [x] is in the tree of one of the records of the lists [Fs]. *)
Definition covered (G : Ghost) (Fs : list DLList) (x : addr) : Prop :=
  ∃ l r, l ∈ Fs ∧ r ∈ l ∧ anc G x (_root (recData r)).

(** The [while] of [_eraseSubtree] over the sons, with the recursive call
    [again] as a parameter. *)
Definition erase_sons (again : addr → M unit)
  : nat → option addr → M unit :=
  fix while (n : nat) (currSon : option addr) : M unit :=
    match currSon with
    | None => ret tt
    | Some c =>
        match n with
        | O => loop
        | S n' =>
            cn <- load c ;;
            let nextOne := _nextBro cn in
            again c ;;;
            while n' nextOne
        end
    end.

(** The state in which the cached minimum is lost: two nodes of key
    [UINT64_MAX] are inserted and one of them is extracted. *)
Definition lost_min : State := after (fhDeleteMin (Some Heap)) two_max.

(** * Proofs *)

(** Settle the [decide]s that the context determines. *)
Ltac dec_tac :=
  repeat match goal with
  | |- context [decide ?P] =>
      first [ rewrite (decide_True (P := P)) by (done || congruence)
            | rewrite (decide_False (P := P)) by (done || congruence) ]
  end.

(** ** Stepping through the monad *)

Lemma assign_alter a f s n :
  mem s !! a = Some n →
  assign a f s = Ok tt (with_mem (alter f a (mem s)) s).
Proof.
  intros H. unfold assign, with_mem. rewrite H. do 2 f_equal.
  apply map_eq. intros x. rewrite lookup_alter, lookup_insert.
  case_decide; subst; [by rewrite H|done].
Qed.

Lemma bind_load {B} a n (k : FibTreeNode → M B) s :
  mem s !! a = Some n → bind (load a) k s = k n s.
Proof. intros H. unfold bind, load. by rewrite H. Qed.

Lemma bind_assign {B} a f n (k : unit → M B) s :
  mem s !! a = Some n →
  bind (assign a f) k s = k tt (with_mem (alter f a (mem s)) s).
Proof. intros H. unfold bind. by rewrite (assign_alter _ _ _ _ H). Qed.

Lemma bind_forest_get {B} i l (k : DLList → M B) s :
  _forest (heap s) !! Z.to_nat i = Some l →
  bind (forest_get i) k s = k l s.
Proof. intros H. unfold bind, forest_get. by rewrite H. Qed.

Lemma bind_forest_set {B} i l l0 (k : unit → M B) s :
  _forest (heap s) !! Z.to_nat i = Some l0 →
  bind (forest_set i l) k s
  = k tt (with_forest (<[Z.to_nat i := l]> (_forest (heap s))) s).
Proof. intros H. unfold bind, forest_set. by rewrite H. Qed.

Lemma bind_Ok {A B} (m : M A) (k : A → M B) s a s' :
  m s = Ok a s' → bind m k s = k a s'.
Proof. intros H. unfold bind. by rewrite H. Qed.

Lemma wrap64_small z : 0 ≤ z < 2 ^ 64 → wrap64 z = z.
Proof. intros. unfold wrap64. by apply Z.mod_small. Qed.

Lemma wrap64_range z : 0 ≤ wrap64 z < 2 ^ 64.
Proof. unfold wrap64. apply Z.mod_pos_bound. lia. Qed.

(** ** Ghost-level facts *)

Lemma rec_eta (r : DLRecord) : r = mkRec (mkTree (_root (recData r))).
Proof. by destruct r as [[?]]. Qed.

Lemma lookup_mem_inj (m : gmap addr FibTreeNode) a n n' :
  m !! a = Some n → m !! a = Some n' → n = n'.
Proof. congruence. Qed.

Section shape_facts.
Context {B : Z} {G : Ghost} {s : State} (HG : GShape B G s).

Lemma gs_lookup a : a ∈ gL G → is_Some (mem s !! a).
Proof. intros Ha. destruct (gs_node _ _ _ HG a Ha) as (n & ? & _). eauto. Qed.

Lemma gs_son_father f c :
  f ∈ gL G → c ∈ gch G f →
  ∃ nc, mem s !! c = Some nc ∧ _father nc = Some f.
Proof.
  intros Hf Hc. apply list_elem_of_lookup_1 in Hc as [i Hi].
  destruct (gs_sibs _ _ _ HG f Hf i c Hi) as (nc & ? & ? & _). eauto.
Qed.

Lemma gs_son_ne f c : f ∈ gL G → c ∈ gch G f → c ≠ f.
Proof.
  intros Hf Hc ->. destruct (gs_ch _ _ _ HG f f Hf Hc) as [_ ?]. lia.
Qed.

(** A node is the son of at most one father. *)
Lemma gs_son_unique f g c :
  f ∈ gL G → g ∈ gL G → c ∈ gch G f → c ∈ gch G g → f = g.
Proof.
  intros Hf Hg Hcf Hcg.
  destruct (gs_son_father f c Hf Hcf) as (n1 & H1 & F1).
  destruct (gs_son_father g c Hg Hcg) as (n2 & H2 & F2).
  congruence.
Qed.

Lemma gs_rank_lt_size a :
  a ∈ gL G → (length (gch G a) < size (gL G))%nat.
Proof.
  intros Ha.
  assert (NoDup (a :: gch G a)) as Hnd.
  { apply NoDup_cons. split; [|by apply (gs_nodup _ _ _ HG)].
    intros Hin. by apply (gs_son_ne a a). }
  assert (a :: gch G a ⊆+ elements (gL G)) as Hsub.
  { apply NoDup_submseteq; [done|]. intros x Hx.
    apply elem_of_elements. apply elem_of_cons in Hx as [->|Hx]; [done|].
    by apply (gs_ch _ _ _ HG a x). }
  apply submseteq_length in Hsub. simpl in Hsub.
  unfold size, set_size. simpl. lia.
Qed.

Lemma gs_size_mem : (size (gL G) ≤ size (mem s))%nat.
Proof.
  rewrite <- size_dom. apply subseteq_size. intros a Ha.
  apply elem_of_dom. by apply gs_lookup.
Qed.

Lemma above_father a n f :
  a ∈ gL G → mem s !! a = Some n → _father n = Some f →
  (above G f < above G a)%nat.
Proof.
  intros Ha Hn Hf.
  destruct (gs_father _ _ _ HG a n f Ha Hn Hf) as [HfL Hin].
  destruct (gs_ch _ _ _ HG f a HfL Hin) as [_ Hlt].
  unfold above. apply subset_size. apply elem_of_subset. split.
  - intros x Hx. apply elem_of_filter in Hx as [Hx ?].
    apply elem_of_filter. split; [lia|done].
  - intros Hall. specialize (Hall f).
    rewrite !elem_of_filter in Hall.
    destruct Hall as [? _]; [split; [lia|done]|lia].
Qed.

Lemma above_le_size a : (above G a ≤ size (gL G))%nat.
Proof.
  unfold above. apply subseteq_size. intros x Hx.
  by apply elem_of_filter in Hx as [_ ?].
Qed.

(** Induction from a node up to its ancestors. *)
Lemma up_ind (P : addr → Prop) :
  (∀ a n, a ∈ gL G → mem s !! a = Some n →
     (∀ f, _father n = Some f → P f) → P a) →
  ∀ a, a ∈ gL G → P a.
Proof.
  intros Hstep a.
  remember (above G a) as k eqn:Hk. revert a Hk.
  induction k as [k IH] using lt_wf_ind. intros a -> Ha.
  destruct (gs_lookup a Ha) as [n Hn].
  apply (Hstep a n Ha Hn). intros f Hf.
  destruct (gs_father _ _ _ HG a n f Ha Hn Hf) as [HfL _].
  apply (IH (above G f)); [by eapply above_father|done|done].
Qed.
End shape_facts.

(** ** Changes that the shape does not see *)

Lemma GShape_sim B G s s' :
  GShape B G s →
  _forest (heap s') = _forest (heap s) →
  _maxTreeOrd (heap s') = _maxTreeOrd (heap s) →
  (∀ a n, a ∈ gL G → mem s !! a = Some n →
     ∃ n', mem s' !! a = Some n' ∧ sim G a n n' ∧ 0 ≤ key n' < B) →
  GShape B G s'.
Proof.
  intros HG HF HM Hsim.
  assert (∀ a n', a ∈ gL G → mem s' !! a = Some n' →
            ∃ n, mem s !! a = Some n ∧ sim G a n n' ∧ 0 ≤ key n' < B)
    as Hback.
  { intros a n' Ha Hn'. destruct (gs_lookup HG a Ha) as [n Hn].
    destruct (Hsim a n Ha Hn) as (n'' & Hn'' & ? & ?).
    assert (n'' = n') by congruence. subst. eauto. }
  split.
  - intros a Ha. destruct (gs_node _ _ _ HG a Ha) as (n & Hn & _ & Hfs & Hcnt).
    destruct (Hsim a n Ha Hn) as (n' & Hn' & (_ & Efs & Ecnt & _) & Hk).
    exists n'. rewrite Efs, Ecnt. done.
  - intros a Ha Ho. rewrite HM. by apply (gs_rank _ _ _ HG).
  - intros a Ha i c Hi.
    destruct (gs_sibs _ _ _ HG a Ha i c Hi) as (nc & Hnc & Hfa & Hpv & Hnx).
    assert (c ∈ gL G) as Hc.
    { apply (gs_ch _ _ _ HG a c Ha). by eapply list_elem_of_lookup_2. }
    destruct (Hsim c nc Hc Hnc) as (n' & Hn' & (Efa & _ & _ & Ebro & _) & _).
    exists n'. destruct Ebro as [-> ->]; [congruence|]. rewrite Efa. done.
  - apply (gs_nodup _ _ _ HG).
  - apply (gs_ch _ _ _ HG).
  - intros a n' f Ha Hn' Hf.
    destruct (Hback a n' Ha Hn') as (n & Hn & (Efa & _) & _).
    apply (gs_father _ _ _ HG a n f Ha Hn). congruence.
  - intros a n' Ha Ho Hn' Hf.
    destruct (Hback a n' Ha Hn') as (n & Hn & (Efa & _ & _ & _ & Epos) & _).
    rewrite HF. rewrite Efa in Hf. rewrite (Epos Hf Ho).
    by apply (gs_root _ _ _ HG a n).
  - intros i l r Hl Hr. rewrite HF in Hl.
    destruct (gs_forest _ _ _ HG i l r Hl Hr) as (HL & Ho & Hrk & n & Hn & Hfa).
    destruct (Hsim _ n HL Hn) as (n' & Hn' & (Efa & _) & _).
    repeat split; try done. exists n'. split; [done|congruence].
  - intros i l Hl. rewrite HF in Hl. by apply (gs_fnodup _ _ _ HG i).
  - intros a Ha. destruct (gs_orph _ _ _ HG a Ha) as (HL & n & Hn & Hfa).
    split; [done|].
    destruct (Hsim _ n HL Hn) as (n' & Hn' & (Efa & _) & _).
    exists n'. split; [done|congruence].
  - rewrite HF, HM. apply (gs_len _ _ _ HG).
  - apply (gs_size _ _ _ HG).
Qed.

Lemma sim_refl G a n : sim G a n n.
Proof. by repeat split. Qed.

(** Changing one node in a way the shape does not see. *)
Lemma GShape_alter B G s a f :
  GShape B G s →
  (∀ n, mem s !! a = Some n → a ∈ gL G →
     sim G a n (f n) ∧ 0 ≤ key (f n) < B) →
  GShape B G (with_mem (alter f a (mem s)) s).
Proof.
  intros HG Hf. apply (GShape_sim B G s); [done..|].
  intros x n Hx Hn. simpl. rewrite lookup_alter. case_decide as Hax.
  - subst x. rewrite Hn. simpl. exists (f n). split; [done|]. by apply Hf.
  - exists n. split; [done|]. split; [apply sim_refl|].
    destruct (gs_node _ _ _ HG x Hx) as (n0 & Hn0 & ? & _).
    by assert (n0 = n) as <- by congruence.
Qed.

(** Changing the cached minimum or the node counter. *)
Lemma GShape_heap B G s h :
  GShape B G s →
  _forest h = _forest (heap s) → _maxTreeOrd h = _maxTreeOrd (heap s) →
  GShape B G (mkState h (mem s)).
Proof.
  intros HG HF HM. apply (GShape_sim B G s); [done..|].
  intros x n Hx Hn. exists n. split; [done|]. split; [apply sim_refl|].
  destruct (gs_node _ _ _ HG x Hx) as (n0 & Hn0 & ? & _).
  by assert (n0 = n) as <- by congruence.
Qed.

(** ** Filing roots in the forest *)

Lemma rec_root_inj (r r' : DLRecord) :
  _root (recData r) = _root (recData r') → r = r'.
Proof. destruct r as [[?]], r' as [[?]]. simpl. by intros ->. Qed.

(** Taking a record out of its list leaves its root unfiled. *)
Lemma GShape_unfile B G s i l1 r l2 :
  GShape B G s →
  _forest (heap s) !! i = Some (l1 ++ r :: l2) →
  GShape B (g_orph (gorph G ∪ {[_root (recData r)]}) G)
    (with_forest (<[i := l1 ++ l2]> (_forest (heap s))) s).
Proof.
  intros HG Hl.
  pose proof (gs_fnodup _ _ _ HG i _ Hl) as Hnd.
  apply NoDup_app in Hnd as (Hnd1 & Hnd12 & Hnd2).
  apply NoDup_cons in Hnd2 as [Hr2 Hnd2].
  assert (r ∉ l1) as Hr1 by (intros Hin; apply (Hnd12 r Hin); left).
  destruct (gs_forest _ _ _ HG i _ r Hl) as (HrL & Hro & Hrrk & nr & Hnr & Hrf).
  { apply elem_of_app. right. left. }
  assert (i < length (_forest (heap s)))%nat as Hi
    by (by eapply lookup_lt_Some).
  split; simpl.
  - apply (gs_node _ _ _ HG).
  - intros a Ha Ho. apply (gs_rank _ _ _ HG a Ha). set_solver.
  - apply (gs_sibs _ _ _ HG).
  - apply (gs_nodup _ _ _ HG).
  - apply (gs_ch _ _ _ HG).
  - apply (gs_father _ _ _ HG).
  - intros a n Ha Ho Hn Hfa.
    assert ((a ∉ gorph G) ∧ a ≠ _root (recData r)) as [Ho' Hne]
      by set_solver.
    destruct (gs_root _ _ _ HG a n Ha Ho' Hn Hfa) as (Hpos & l0 & Hl0 & Hin).
    split; [done|].
    destruct (decide (grk G a = i)) as [Heq|Hneq].
    + rewrite Heq in Hl0. rewrite Heq, list_lookup_insert_eq by done.
      eexists; split; [done|].
      assert (l0 = l1 ++ r :: l2) as -> by congruence.
      rewrite !elem_of_app, elem_of_cons in Hin.
      apply elem_of_app. destruct Hin as [?|[Heqr|?]]; [by left| |by right].
      subst r. done.
    + rewrite list_lookup_insert_ne by done. eauto.
  - intros j l r' Hl' Hr'.
    destruct (decide (i = j)) as [<-|Hneq].
    + rewrite list_lookup_insert_eq in Hl' by done.
      injection Hl' as <-.
      destruct (gs_forest _ _ _ HG i _ r' Hl)
        as (HL & Ho & Hrk & n & Hn & Hfa).
      { rewrite elem_of_app, elem_of_cons. rewrite elem_of_app in Hr'.
        tauto. }
      assert (r' ≠ r) as Hne.
      { intros ->. apply elem_of_app in Hr'. tauto. }
      repeat split; try done; [|eauto].
      intros Hin. apply elem_of_union in Hin as [?|Hin]; [done|].
      apply elem_of_singleton in Hin. by apply rec_root_inj in Hin.
    + rewrite list_lookup_insert_ne in Hl' by done.
      destruct (gs_forest _ _ _ HG j l r' Hl' Hr')
        as (HL & Ho & Hrk & n & Hn & Hfa).
      repeat split; try done; [|eauto].
      intros Hin. apply elem_of_union in Hin as [?|Hin]; [done|].
      apply elem_of_singleton in Hin. congruence.
  - intros j l Hl'.
    destruct (decide (i = j)) as [<-|Hneq].
    + rewrite list_lookup_insert_eq in Hl' by done. injection Hl' as <-.
      apply NoDup_app. repeat split; try done.
      intros x Hx1 Hx2. apply (Hnd12 x Hx1). by right.
    + rewrite list_lookup_insert_ne in Hl' by done.
      by apply (gs_fnodup _ _ _ HG j).
  - intros a Ha. apply elem_of_union in Ha as [Ha|Ha].
    + by apply (gs_orph _ _ _ HG).
    + apply elem_of_singleton in Ha as ->. eauto.
  - rewrite length_insert. apply (gs_len _ _ _ HG).
  - apply (gs_size _ _ _ HG).
Qed.

(** Appending the record of an unfiled root to a list files it there. *)
Lemma GShape_file B G s a n i l :
  GShape B G s →
  a ∈ gorph G → mem s !! a = Some n →
  _posInForest n = Some (mkRec (mkTree a)) →
  _forest (heap s) !! i = Some l →
  Z.of_nat (length (gch G a)) < _maxTreeOrd (heap s) →
  GShape B (g_rk (<[a := i]> (grk G)) (g_orph (gorph G ∖ {[a]}) G))
    (with_forest (<[i := l ++ [mkRec (mkTree a)]]> (_forest (heap s))) s).
Proof.
  intros HG Hao Hn Hpos Hl Hrank.
  destruct (gs_orph _ _ _ HG a Hao) as (HaL & n0 & Hn0 & Hfa0).
  assert (n0 = n) as -> by congruence.
  assert (i < length (_forest (heap s)))%nat as Hi
    by (by eapply lookup_lt_Some).
  assert (∀ j l' r, _forest (heap s) !! j = Some l' → r ∈ l' →
            _root (recData r) ≠ a) as Hnotin.
  { intros j l' r Hl' Hr Heq.
    destruct (gs_forest _ _ _ HG j l' r Hl' Hr) as (_ & Hno & _).
    by rewrite Heq in Hno. }
  split; simpl.
  - apply (gs_node _ _ _ HG).
  - intros x Hx Ho. destruct (decide (x = a)) as [->|Hne]; [done|].
    apply (gs_rank _ _ _ HG x Hx). set_solver.
  - apply (gs_sibs _ _ _ HG).
  - apply (gs_nodup _ _ _ HG).
  - apply (gs_ch _ _ _ HG).
  - apply (gs_father _ _ _ HG).
  - intros x nx Hx Ho Hnx Hfa.
    destruct (decide (x = a)) as [->|Hne].
    + assert (nx = n) as -> by congruence. split; [done|].
      rewrite fn_lookup_insert, list_lookup_insert_eq by done.
      eexists; split; [done|]. apply elem_of_app. right. left.
    + assert (x ∉ gorph G) as Ho' by set_solver.
      destruct (gs_root _ _ _ HG x nx Hx Ho' Hnx Hfa) as (Hp & l0 & Hl0 & Hin).
      split; [done|]. rewrite fn_lookup_insert_ne by done.
      destruct (decide (grk G x = i)) as [Heq|Hneq].
      * rewrite Heq in Hl0. rewrite Heq, list_lookup_insert_eq by done.
        eexists; split; [done|]. assert (l0 = l) as -> by congruence.
        apply elem_of_app. by left.
      * rewrite list_lookup_insert_ne by done. eauto.
  - intros j l' r Hl' Hr.
    destruct (decide (i = j)) as [<-|Hneq].
    + rewrite list_lookup_insert_eq in Hl' by done. injection Hl' as <-.
      apply elem_of_app in Hr as [Hr|Hr].
      * destruct (gs_forest _ _ _ HG i l r Hl Hr)
          as (HL & Ho & Hrk & n' & Hn' & Hfa).
        assert (_root (recData r) ≠ a) as Hne by (by eapply Hnotin).
        rewrite fn_lookup_insert_ne by done.
        repeat split; try done; [set_solver|eauto].
      * apply list_elem_of_singleton in Hr as ->. simpl.
        rewrite fn_lookup_insert.
        repeat split; try done; [set_solver|eauto].
    + rewrite list_lookup_insert_ne in Hl' by done.
      destruct (gs_forest _ _ _ HG j l' r Hl' Hr)
        as (HL & Ho & Hrk & n' & Hn' & Hfa).
      assert (_root (recData r) ≠ a) as Hne by (by eapply Hnotin).
      rewrite fn_lookup_insert_ne by done.
      repeat split; try done; [set_solver|eauto].
  - intros j l' Hl'.
    destruct (decide (i = j)) as [<-|Hneq].
    + rewrite list_lookup_insert_eq in Hl' by done. injection Hl' as <-.
      apply NoDup_app. split; [by apply (gs_fnodup _ _ _ HG i)|].
      split; [|apply NoDup_singleton].
      intros r Hr Hr'. apply list_elem_of_singleton in Hr' as ->.
      by apply (Hnotin i l _ Hl Hr).
    + rewrite list_lookup_insert_ne in Hl' by done.
      by apply (gs_fnodup _ _ _ HG j).
  - intros x Hx. apply (gs_orph _ _ _ HG). set_solver.
  - rewrite length_insert. apply (gs_len _ _ _ HG).
  - apply (gs_size _ _ _ HG).
Qed.

(** Growing the forest by one empty list. *)
Lemma GShape_extend B G s :
  GShape B G s →
  _maxTreeOrd (heap s) + 1 < 2 ^ 64 →
  GShape B G (mkState (extend_forest (heap s)) (mem s)).
Proof.
  intros HG Hlt.
  split; simpl.
  - apply (gs_node _ _ _ HG).
  - intros a Ha Ho. pose proof (gs_rank _ _ _ HG a Ha Ho). lia.
  - apply (gs_sibs _ _ _ HG).
  - apply (gs_nodup _ _ _ HG).
  - apply (gs_ch _ _ _ HG).
  - apply (gs_father _ _ _ HG).
  - intros a n Ha Ho Hn Hfa.
    destruct (gs_root _ _ _ HG a n Ha Ho Hn Hfa) as (Hp & l0 & Hl0 & Hin).
    split; [done|]. exists l0. split; [|done].
    by apply lookup_app_l_Some.
  - intros j l r Hl Hr.
    apply lookup_app_Some in Hl as [Hl|[_ Hl]].
    + by apply (gs_forest _ _ _ HG j l r).
    + apply list_lookup_singleton_Some in Hl as [_ <-].
      by apply elem_of_nil in Hr.
  - intros j l Hl.
    apply lookup_app_Some in Hl as [Hl|[_ Hl]].
    + by apply (gs_fnodup _ _ _ HG j).
    + apply list_lookup_singleton_Some in Hl as [_ <-]. apply NoDup_nil_2.
  - apply (gs_orph _ _ _ HG).
  - rewrite length_app. simpl. destruct (gs_len _ _ _ HG). lia.
  - apply (gs_size _ _ _ HG).
Qed.

(** ** Unlinking a son *)

Lemma lookup_opt_alter f o (m : gmap addr FibTreeNode) x :
  opt_alter f o m !! x
  = if decide (o = Some x) then f <$> m !! x else m !! x.
Proof.
  destruct o as [y|]; simpl.
  - rewrite lookup_alter. repeat case_decide; congruence.
  - done.
Qed.

Lemma detach_lookup a f na nf m x :
  a ≠ f → m !! a = Some na → m !! f = Some nf →
  _prevBro na ≠ Some a → _prevBro na ≠ Some f →
  _nextBro na ≠ Some a → _nextBro na ≠ Some f →
  (_nextBro na = None ∨ _prevBro na ≠ _nextBro na) →
  detach_mem a f na nf m !! x =
    if decide (x = a)
    then Some (set_prevBro None (set_nextBro None (set_father None na)))
    else if decide (x = f)
    then Some (set_sonsCnt (wrap64 (_sonsCnt nf - 1))
                 (if decide (_firstSon nf = Some a)
                  then set_firstSon (_nextBro na) nf else nf))
    else if decide (_prevBro na = Some x)
    then set_nextBro (_nextBro na) <$> m !! x
    else if decide (_nextBro na = Some x)
    then set_prevBro (_prevBro na) <$> m !! x
    else m !! x.
Proof.
  intros Haf Ha Hf Hpa Hpf Hna Hnf Hpn. unfold detach_mem.
  rewrite !lookup_alter, !lookup_opt_alter.
  destruct (decide (x = a)) as [->|Hxa]; [|destruct (decide (x = f)) as [->|Hxf]].
  - dec_tac. case_decide; [rewrite lookup_alter_ne by done|]; by rewrite Ha.
  - dec_tac. case_decide; [rewrite lookup_alter_eq|]; by rewrite Hf.
  - dec_tac.
    assert ((if decide (_firstSon nf = Some a)
             then alter (set_firstSon (_nextBro na)) f m else m) !! x
            = m !! x) as ->.
    { case_decide; [by rewrite lookup_alter_ne|done]. }
    destruct (decide (_prevBro na = Some x)) as [Hp|Hp]; [|done].
    rewrite decide_False; [done|]. destruct Hpn; congruence.
Qed.

Lemma prev_at_delete_le (cs : list addr) k i :
  (i ≤ k)%nat → prev_at (delete k cs) i = prev_at cs i.
Proof.
  intros Hik. destruct i as [|j]; [done|]. simpl.
  apply list_lookup_delete_lt. lia.
Qed.

Lemma prev_at_delete_gt (cs : list addr) k i :
  (k < i)%nat → prev_at (delete k cs) i = prev_at cs (S i).
Proof.
  intros Hik. destruct i as [|j]; [lia|]. simpl.
  apply list_lookup_delete_ge. lia.
Qed.

Lemma elem_of_delete_ne (cs : list addr) k a x :
  cs !! k = Some a → x ∈ cs → x ≠ a → x ∈ delete k cs.
Proof.
  intros Hk Hx Hne. apply list_elem_of_lookup_1 in Hx as [i Hi].
  assert (i ≠ k) by congruence.
  destruct (decide (i < k)%nat).
  - apply (list_elem_of_lookup_2 _ i). by rewrite list_lookup_delete_lt.
  - apply (list_elem_of_lookup_2 _ (pred i)).
    rewrite list_lookup_delete_ge by lia.
    by replace (S (pred i)) with i by lia.
Qed.

Lemma elem_of_delete_in (cs : list addr) k x :
  x ∈ delete k cs → x ∈ cs.
Proof. apply (sublist_subseteq _ _ (sublist_delete cs k)). Qed.

Lemma GShape_detach B G s a na f nf k :
  GShape B G s →
  a ∈ gL G → mem s !! a = Some na → _father na = Some f →
  mem s !! f = Some nf → gch G f !! k = Some a →
  GShape B (g_ch (<[f := delete k (gch G f)]> (gch G))
              (g_orph (gorph G ∪ {[a]}) G))
    (with_mem (detach_mem a f na nf (mem s)) s).
Proof.
  intros HG Ha Hna Hfa Hnf Hk.
  destruct (gs_father _ _ _ HG a na f Ha Hna Hfa) as [Hf Hin].
  set (cs := gch G f) in *.
  pose proof (gs_nodup _ _ _ HG f Hf) as Hnd. fold cs in Hnd.
  destruct (gs_sibs _ _ _ HG f Hf k a Hk) as (na' & Hna' & _ & HP & HN).
  assert (na' = na) as -> by congruence. clear Hna'. fold cs in HP, HN.
  assert (a ≠ f) as Haf by (by apply (gs_son_ne HG f a)).
  assert (∀ j c, cs !! j = Some c → c ≠ f) as Hcf.
  { intros j c Hj. apply (gs_son_ne HG f c Hf).
    by eapply list_elem_of_lookup_2. }
  assert (∀ j, cs !! j = Some a → j = k) as Hka.
  { intros j Hj. by apply (NoDup_lookup cs j k a). }
  assert (_prevBro na ≠ Some a) as Hpa.
  { rewrite HP. destruct k as [|j]; simpl; [done|].
    intros Hj. apply Hka in Hj. lia. }
  assert (_prevBro na ≠ Some f) as Hpf.
  { rewrite HP. destruct k as [|j]; simpl; [done|].
    intros Hj. by apply Hcf in Hj. }
  assert (_nextBro na ≠ Some a) as Hna_a.
  { rewrite HN. intros Hj. apply Hka in Hj. lia. }
  assert (_nextBro na ≠ Some f) as Hna_f.
  { rewrite HN. intros Hj. by apply Hcf in Hj. }
  assert (_nextBro na = None ∨ _prevBro na ≠ _nextBro na) as Hpn.
  { destruct (_nextBro na) as [c|] eqn:E; [right|by left].
    rewrite HP. destruct k as [|j]; simpl; [done|].
    intros Hj. pose proof (NoDup_lookup cs _ _ c Hnd Hj (eq_sym HN)). lia. }
  pose proof (λ x, detach_lookup a f na nf (mem s) x
                     Haf Hna Hnf Hpa Hpf Hna_a Hna_f Hpn) as Hlk.
  set (m' := detach_mem a f na nf (mem s)) in *.
  (* the records of [a] and [f] afterwards *)
  assert (m' !! a =
          Some (set_prevBro None (set_nextBro None (set_father None na))))
    as Hma by (rewrite Hlk; by dec_tac).
  destruct (gs_node _ _ _ HG f Hf) as (nf0 & Hnf0 & Hkf & Hfsf & Hcntf).
  assert (nf0 = nf) as -> by congruence. clear Hnf0. fold cs in Hfsf, Hcntf.
  pose proof (gs_rank_lt_size HG f Hf) as Hrl. fold cs in Hrl.
  pose proof (gs_size _ _ _ HG) as Hsz.
  assert (length cs ≠ 0)%nat as Hlen0.
  { intros E. apply nil_length_inv in E. by rewrite E in Hk. }
  assert (∃ nf', m' !! f = Some nf' ∧ key nf' = key nf ∧
            _father nf' = _father nf ∧ _prevBro nf' = _prevBro nf ∧
            _nextBro nf' = _nextBro nf ∧
            _posInForest nf' = _posInForest nf ∧
            _firstSon nf' = head (delete k cs) ∧
            _sonsCnt nf' = Z.of_nat (length (delete k cs)))
    as (nf' & Hmf & Hkf' & Hff' & Hpf' & Hnf' & Hposf' & Hfsf' & Hcntf').
  { eexists. split; [rewrite Hlk; by dec_tac|].
    rewrite length_delete by eauto.
    rewrite !head_lookup. rewrite head_lookup in Hfsf.
    case_decide as Hd; simpl; repeat split; try done.
    - rewrite Hfsf in Hd. apply Hka in Hd. subst k.
      by rewrite list_lookup_delete_ge by lia.
    - rewrite Hcntf. rewrite wrap64_small by lia. lia.
    - rewrite list_lookup_delete_lt; [done|].
      destruct k; [|lia]. rewrite Hfsf in Hd. done.
    - rewrite Hcntf. rewrite wrap64_small by lia. lia. }
  (* the records of the other nodes afterwards *)
  assert (∀ x n, x ≠ a → x ≠ f → mem s !! x = Some n →
            ∃ n', m' !! x = Some n' ∧ key n' = key n ∧
              _father n' = _father n ∧ _firstSon n' = _firstSon n ∧
              _sonsCnt n' = _sonsCnt n ∧
              _posInForest n' = _posInForest n ∧
              _nextBro n' = (if decide (_prevBro na = Some x)
                             then _nextBro na else _nextBro n) ∧
              _prevBro n' = (if decide (_nextBro na = Some x)
                             then _prevBro na else _prevBro n))
    as Hother.
  { intros x n Hxa Hxf Hn. rewrite Hlk. dec_tac. rewrite Hn.
    destruct (decide (_prevBro na = Some x)) as [Hp|Hp].
    - rewrite (decide_False (P := _nextBro na = Some x))
        by (destruct Hpn; congruence).
      simpl. eexists. split; [reflexivity|]. by repeat split.
    - destruct (decide (_nextBro na = Some x)); simpl;
        (eexists; split; [reflexivity|]); by repeat split. }
  (* what stays the same in every node but [a] *)
  assert (∀ x n, x ≠ a → mem s !! x = Some n →
            ∃ n', m' !! x = Some n' ∧ key n' = key n ∧
              _father n' = _father n ∧
              _posInForest n' = _posInForest n) as Hkeep.
  { intros x n Hxa Hn. destruct (decide (x = f)) as [->|Hxf].
    - assert (n = nf) as -> by congruence. exists nf'. by repeat split.
    - destruct (Hother x n Hxa Hxf Hn) as (n' & ? & ? & ? & _ & _ & ? & _).
      exists n'. by repeat split. }
  assert (∀ x n', x ≠ a → m' !! x = Some n' →
            ∃ n, mem s !! x = Some n ∧ key n' = key n ∧
              _father n' = _father n ∧
              _posInForest n' = _posInForest n) as Hkeep'.
  { intros x n' Hxa Hn'.
    destruct (mem s !! x) as [n|] eqn:Hn.
    - destruct (Hkeep x n Hxa Hn) as (n'' & ? & ? & ? & ?).
      assert (n'' = n') as -> by congruence. eauto.
    - rewrite Hlk in Hn'. rewrite Hn in Hn'. dec_tac.
      destruct (decide (x = f)) as [->|?]; [congruence|].
      repeat case_decide; simpl in Hn'; congruence. }
  split; simpl.
  - (* gs_node *)
    intros x Hx. destruct (decide (x = a)) as [->|Hxa]; [|destruct (decide (x = f)) as [->|Hxf]].
    + destruct (gs_node _ _ _ HG a Ha) as (n0 & Hn0 & Hk0 & Hfs0 & Hcnt0).
      assert (n0 = na) as -> by congruence.
      rewrite fn_lookup_insert_ne by done. eexists. split; [exact Hma|done].
    + rewrite fn_lookup_insert. exists nf'. rewrite Hkf'. done.
    + destruct (gs_node _ _ _ HG x Hx) as (n0 & Hn0 & Hk0 & Hfs0 & Hcnt0).
      destruct (Hother x n0 Hxa Hxf Hn0) as (n' & Hn' & E1 & E2 & E3 & E4 & _).
      rewrite fn_lookup_insert_ne by done.
      exists n'. rewrite E1, E3, E4. done.
  - (* gs_rank *)
    intros x Hx Ho. assert (x ∉ gorph G) as Ho' by set_solver.
    pose proof (gs_rank _ _ _ HG x Hx Ho') as Hr.
    destruct (decide (x = f)) as [->|Hxf].
    + rewrite fn_lookup_insert. rewrite length_delete by eauto.
      fold cs in Hr. lia.
    + by rewrite fn_lookup_insert_ne.
  - (* gs_sibs *)
    intros x Hx i c Hi. destruct (decide (x = f)) as [->|Hxf].
    + rewrite fn_lookup_insert in Hi |- *.
      destruct (decide (i < k)%nat) as [Hlt|Hge].
      * rewrite list_lookup_delete_lt in Hi by done.
        destruct (gs_sibs _ _ _ HG f Hf i c Hi) as (nc & Hnc & Hfc & Hpc & Hnxc).
        fold cs in Hpc, Hnxc.
        assert (c ≠ a) as Hca by (intros ->; apply Hka in Hi; lia).
        assert (c ≠ f) as Hcf' by (by eapply Hcf).
        destruct (Hother c nc Hca Hcf' Hnc)
          as (n' & Hn' & _ & E2 & _ & _ & _ & E6 & E7).
        exists n'. split; [done|]. split; [congruence|].
        rewrite E6, E7. rewrite prev_at_delete_le by lia.
        rewrite (decide_False (P := _nextBro na = Some c)).
        2:{ rewrite HN. intros Hj.
            pose proof (NoDup_lookup cs _ _ c Hnd Hj Hi). lia. }
        split; [done|].
        destruct (decide (S i = k)) as [<-|Hne].
        -- rewrite decide_True by (rewrite HP; done).
           rewrite HN. by rewrite list_lookup_delete_ge by lia.
        -- rewrite decide_False.
           2:{ rewrite HP. destruct k as [|j]; simpl; [done|].
               intros Hj. pose proof (NoDup_lookup cs _ _ c Hnd Hj Hi). lia. }
           rewrite list_lookup_delete_lt by lia. done.
      * rewrite list_lookup_delete_ge in Hi by lia.
        destruct (gs_sibs _ _ _ HG f Hf (S i) c Hi)
          as (nc & Hnc & Hfc & Hpc & Hnxc).
        fold cs in Hpc, Hnxc.
        assert (c ≠ a) as Hca by (intros ->; apply Hka in Hi; lia).
        assert (c ≠ f) as Hcf' by (by eapply Hcf).
        destruct (Hother c nc Hca Hcf' Hnc)
          as (n' & Hn' & _ & E2 & _ & _ & _ & E6 & E7).
        exists n'. split; [done|]. split; [congruence|].
        rewrite E6, E7.
        rewrite (decide_False (P := _prevBro na = Some c)).
        2:{ rewrite HP. destruct k as [|j]; simpl; [done|].
            intros Hj. pose proof (NoDup_lookup cs _ _ c Hnd Hj Hi). lia. }
        rewrite (list_lookup_delete_ge _ _ (S i)) by lia.
        split; [|done].
        destruct (decide (i = k)) as [->|Hne].
        -- rewrite decide_True by (rewrite HN; done).
           rewrite HP. by rewrite prev_at_delete_le.
        -- rewrite decide_False.
           2:{ rewrite HN. intros Hj.
               pose proof (NoDup_lookup cs _ _ c Hnd Hj Hi). lia. }
           rewrite prev_at_delete_gt by lia. done.
    + rewrite fn_lookup_insert_ne in Hi |- * by done.
      destruct (gs_sibs _ _ _ HG x Hx i c Hi) as (nc & Hnc & Hfc & Hpc & Hnxc).
      assert (c ≠ a) as Hca by (intros ->; congruence).
      destruct (decide (c = f)) as [->|Hcf'].
      * assert (nc = nf) as -> by congruence.
        exists nf'. split; [done|]. split; [congruence|]. split; congruence.
      * destruct (Hother c nc Hca Hcf' Hnc)
          as (n' & Hn' & _ & E2 & _ & _ & _ & E6 & E7).
        exists n'. split; [done|]. split; [congruence|].
        rewrite E6, E7.
        assert (∀ j, cs !! j ≠ Some c) as Hnot.
        { intros j Hj.
          destruct (gs_sibs _ _ _ HG f Hf j c Hj) as (nc' & ? & ? & _).
          congruence. }
        rewrite !decide_False; [done| |].
        -- rewrite HP. destruct k; simpl; [done|apply Hnot].
        -- rewrite HN. apply Hnot.
  - (* gs_nodup *)
    intros x Hx. destruct (decide (x = f)) as [->|Hxf].
    + rewrite fn_lookup_insert.
      eapply sublist_NoDup; [done|apply sublist_delete].
    + rewrite fn_lookup_insert_ne by done. by apply (gs_nodup _ _ _ HG).
  - (* gs_ch *)
    intros x c Hx Hc. apply (gs_ch _ _ _ HG x c Hx).
    destruct (decide (x = f)) as [->|Hxf].
    + rewrite fn_lookup_insert in Hc. by eapply elem_of_delete_in.
    + by rewrite fn_lookup_insert_ne in Hc.
  - (* gs_father *)
    intros x n' g Hx Hn' Hg.
    destruct (decide (x = a)) as [->|Hxa].
    { rewrite Hma in Hn'. injection Hn' as <-. done. }
    destruct (Hkeep' x n' Hxa Hn') as (n & Hn & _ & Efa & _).
    rewrite Efa in Hg.
    destruct (gs_father _ _ _ HG x n g Hx Hn Hg) as [HgL Hxg].
    split; [done|]. destruct (decide (g = f)) as [->|Hgf].
    + rewrite fn_lookup_insert. by eapply elem_of_delete_ne.
    + by rewrite fn_lookup_insert_ne.
  - (* gs_root *)
    intros x n' Hx Ho Hn' Hfx.
    assert ((x ∉ gorph G) ∧ x ≠ a) as [Ho' Hxa] by set_solver.
    destruct (Hkeep' x n' Hxa Hn') as (n & Hn & _ & Efa & Epos).
    rewrite Efa in Hfx. rewrite Epos.
    by apply (gs_root _ _ _ HG x n).
  - (* gs_forest *)
    intros i l r Hl Hr.
    destruct (gs_forest _ _ _ HG i l r Hl Hr) as (HL & Ho & Hrk & n & Hn & Hfr).
    assert (_root (recData r) ≠ a) as Hne by (intros E; congruence).
    destruct (Hkeep _ n Hne Hn) as (n' & Hn' & _ & Efa & _).
    repeat split; try done; [set_solver|].
    exists n'. split; [done|congruence].
  - apply (gs_fnodup _ _ _ HG).
  - (* gs_orph *)
    intros x Hx. apply elem_of_union in Hx as [Hx|Hx].
    + destruct (gs_orph _ _ _ HG x Hx) as (HL & n & Hn & Hfx).
      split; [done|].
      assert (x ≠ a) as Hne by (intros E; congruence).
      destruct (Hkeep _ n Hne Hn) as (n' & Hn' & _ & Efa & _).
      exists n'. split; [done|congruence].
    + apply elem_of_singleton in Hx as ->. split; [done|].
      eexists. split; [exact Hma|done].
  - apply (gs_len _ _ _ HG).
  - apply (gs_size _ _ _ HG).
Qed.

(** ** Linking a root below another *)

Lemma merge_lookup a b na nb m x :
  a ≠ b → m !! a = Some na → m !! b = Some nb →
  _firstSon na ≠ Some a → _firstSon na ≠ Some b →
  merge_mem a b na m !! x =
    if decide (x = a)
    then Some (set_firstSon (Some b)
                 (set_sonsCnt (wrap64 (_sonsCnt na + 1)) na))
    else if decide (x = b)
    then Some (set_nextBro (_firstSon na)
                 (set_posInForest None
                    (set_prevBro None (set_father (Some a) nb))))
    else if decide (_firstSon na = Some x)
    then set_prevBro (Some b) <$> m !! x
    else m !! x.
Proof.
  intros Hab Ha Hb Hfa Hfb. unfold merge_mem.
  destruct (_firstSon na) as [fs|] eqn:Hfs.
  - rewrite !lookup_alter.
    destruct (decide (x = a)) as [->|Hxa];
      [|destruct (decide (x = b)) as [->|Hxb]].
    + dec_tac. by rewrite Ha.
    + dec_tac. by rewrite Hb.
    + dec_tac. destruct (decide (fs = x)) as [->|Hne]; dec_tac; done.
  - rewrite !lookup_alter.
    destruct (decide (x = a)) as [->|Hxa];
      [|destruct (decide (x = b)) as [->|Hxb]].
    + dec_tac. by rewrite Ha.
    + dec_tac. by rewrite Hb.
    + dec_tac. done.
Qed.

Lemma GShape_merge B G s a b na nb :
  GShape B G s →
  a ∈ gorph G → b ∈ gorph G → a ≠ b →
  mem s !! a = Some na → mem s !! b = Some nb →
  Z.of_nat (length (gch G b)) < _maxTreeOrd (heap s) →
  GShape B
    (g_ht (<[a := Nat.max (ght G a) (S (ght G b))]> (ght G))
       (g_ch (<[a := b :: gch G a]> (gch G))
          (g_orph (gorph G ∖ {[b]}) G)))
    (with_mem (merge_mem a b na (mem s)) s).
Proof.
  intros HG Hao Hbo Hab Hna Hnb Hrank.
  destruct (gs_orph _ _ _ HG a Hao) as (Ha & na0 & Hna0 & Hfa).
  assert (na0 = na) as -> by congruence. clear Hna0.
  destruct (gs_orph _ _ _ HG b Hbo) as (Hb & nb0 & Hnb0 & Hfb).
  assert (nb0 = nb) as -> by congruence. clear Hnb0.
  set (cs := gch G a) in *.
  destruct (gs_node _ _ _ HG a Ha) as (n0 & Hn0 & Hka & Hfsa & Hcnta).
  assert (n0 = na) as -> by congruence. clear Hn0. fold cs in Hfsa, Hcnta.
  pose proof (gs_nodup _ _ _ HG a Ha) as Hnd. fold cs in Hnd.
  pose proof (gs_rank_lt_size HG a Ha) as Hrl. fold cs in Hrl.
  pose proof (gs_size _ _ _ HG) as Hsz.
  (* a root is nobody's son *)
  assert (∀ x c nc, x ∈ gL G → c ∈ gch G x → mem s !! c = Some nc →
            _father nc = Some x) as Hson.
  { intros x c nc Hx Hc Hnc.
    destruct (gs_son_father HG x c Hx Hc) as (nc' & ? & ?). congruence. }
  assert (∀ x, x ∈ gL G → a ∉ gch G x) as Hanot.
  { intros x Hx Hin. pose proof (Hson x a na Hx Hin Hna). congruence. }
  assert (∀ x, x ∈ gL G → b ∉ gch G x) as Hbnot.
  { intros x Hx Hin. pose proof (Hson x b nb Hx Hin Hnb). congruence. }
  assert (_firstSon na ≠ Some a) as Hfsa_a.
  { rewrite Hfsa. intros E. apply (Hanot a Ha). by apply head_Some_elem_of. }
  assert (_firstSon na ≠ Some b) as Hfsa_b.
  { rewrite Hfsa. intros E. apply (Hbnot a Ha). by apply head_Some_elem_of. }
  pose proof (λ x, merge_lookup a b na nb (mem s) x Hab Hna Hnb Hfsa_a Hfsa_b)
    as Hlk.
  set (m' := merge_mem a b na (mem s)) in *.
  assert (m' !! a = Some (set_firstSon (Some b)
                            (set_sonsCnt (wrap64 (_sonsCnt na + 1)) na)))
    as Hma by (rewrite Hlk; by dec_tac).
  assert (m' !! b = Some (set_nextBro (_firstSon na)
                 (set_posInForest None
                    (set_prevBro None (set_father (Some a) nb)))))
    as Hmb by (rewrite Hlk; by dec_tac).
  assert (∀ x n, x ≠ a → x ≠ b → mem s !! x = Some n →
            ∃ n', m' !! x = Some n' ∧ key n' = key n ∧
              _father n' = _father n ∧ _firstSon n' = _firstSon n ∧
              _sonsCnt n' = _sonsCnt n ∧
              _posInForest n' = _posInForest n ∧
              _nextBro n' = _nextBro n ∧
              _prevBro n' = (if decide (_firstSon na = Some x)
                             then Some b else _prevBro n))
    as Hother.
  { intros x n Hxa Hxb Hn. rewrite Hlk. dec_tac. rewrite Hn.
    destruct (decide (_firstSon na = Some x)); simpl;
      (eexists; split; [reflexivity|]); by repeat split. }
  assert (∀ x n, x ≠ b → mem s !! x = Some n →
            ∃ n', m' !! x = Some n' ∧ key n' = key n ∧
              _father n' = _father n ∧
              _posInForest n' = _posInForest n) as Hkeep.
  { intros x n Hxb Hn. destruct (decide (x = a)) as [->|Hxa].
    - assert (n = na) as -> by congruence. eexists. split; [exact Hma|done].
    - destruct (Hother x n Hxa Hxb Hn) as (n' & ? & ? & ? & _ & _ & ? & _).
      exists n'. by repeat split. }
  assert (∀ x n', x ≠ b → m' !! x = Some n' →
            ∃ n, mem s !! x = Some n ∧ key n' = key n ∧
              _father n' = _father n ∧
              _posInForest n' = _posInForest n) as Hkeep'.
  { intros x n' Hxb Hn'.
    destruct (mem s !! x) as [n|] eqn:Hn.
    - destruct (Hkeep x n Hxb Hn) as (n'' & ? & ? & ? & ?).
      assert (n'' = n') as -> by congruence. eauto.
    - rewrite Hlk in Hn'. rewrite Hn in Hn'. dec_tac.
      destruct (decide (x = a)) as [->|?]; [congruence|].
      repeat case_decide; simpl in Hn'; congruence. }
  split; simpl.
  - (* gs_node *)
    intros x Hx. destruct (decide (x = a)) as [->|Hxa];
      [|destruct (decide (x = b)) as [->|Hxb]].
    + rewrite fn_lookup_insert. eexists. split; [exact Hma|]. simpl.
      split; [done|]. split; [done|].
      rewrite Hcnta. rewrite wrap64_small by lia. lia.
    + destruct (gs_node _ _ _ HG b Hb) as (n0 & Hn0 & Hk0 & Hfs0 & Hcnt0).
      assert (n0 = nb) as -> by congruence.
      rewrite fn_lookup_insert_ne by done. eexists. split; [exact Hmb|done].
    + destruct (gs_node _ _ _ HG x Hx) as (n0 & Hn0 & Hk0 & Hfs0 & Hcnt0).
      destruct (Hother x n0 Hxa Hxb Hn0) as (n' & Hn' & E1 & E2 & E3 & E4 & _).
      rewrite fn_lookup_insert_ne by done.
      exists n'. rewrite E1, E3, E4. done.
  - (* gs_rank *)
    intros x Hx Ho. destruct (decide (x = a)) as [->|Hxa]; [set_solver|].
    rewrite fn_lookup_insert_ne by done.
    destruct (decide (x = b)) as [->|Hxb]; [done|].
    apply (gs_rank _ _ _ HG x Hx). set_solver.
  - (* gs_sibs *)
    intros x Hx i c Hi. destruct (decide (x = a)) as [->|Hxa].
    + rewrite fn_lookup_insert in Hi |- *.
      destruct i as [|i]; simpl in Hi.
      * injection Hi as <-. eexists. split; [exact Hmb|]. simpl.
        split; [done|]. split; [done|]. by rewrite Hfsa, head_lookup.
      * destruct (gs_sibs _ _ _ HG a Ha i c Hi) as (nc & Hnc & Hfc & Hpc & Hnxc).
        fold cs in Hpc, Hnxc.
        assert (c ∈ cs) as Hcin by (by eapply list_elem_of_lookup_2).
        assert (c ≠ a) as Hca by (intros ->; by apply (Hanot a Ha)).
        assert (c ≠ b) as Hcb by (intros ->; by apply (Hbnot a Ha)).
        destruct (Hother c nc Hca Hcb Hnc)
          as (n' & Hn' & _ & E2 & _ & _ & _ & E6 & E7).
        exists n'. split; [done|]. split; [congruence|].
        rewrite E6, E7. split; [|done].
        rewrite Hfsa, head_lookup.
        destruct i as [|i].
        -- by rewrite decide_True.
        -- rewrite decide_False; [by rewrite Hpc|].
           intros E. pose proof (NoDup_lookup cs _ _ c Hnd E Hi). lia.
    + rewrite fn_lookup_insert_ne in Hi |- * by done.
      destruct (gs_sibs _ _ _ HG x Hx i c Hi) as (nc & Hnc & Hfc & Hpc & Hnxc).
      assert (c ≠ a) as Hca by (intros ->; congruence).
      assert (c ≠ b) as Hcb by (intros ->; congruence).
      destruct (Hother c nc Hca Hcb Hnc)
        as (n' & Hn' & _ & E2 & _ & _ & _ & E6 & E7).
      exists n'. split; [done|]. split; [congruence|].
      rewrite E6, E7. split; [|done].
      rewrite decide_False; [done|].
      rewrite Hfsa. intros E. apply head_Some_elem_of in E.
      pose proof (Hson a c nc Ha E Hnc). congruence.
  - (* gs_nodup *)
    intros x Hx. destruct (decide (x = a)) as [->|Hxa].
    + rewrite fn_lookup_insert. apply NoDup_cons. split; [|done].
      by apply Hbnot.
    + rewrite fn_lookup_insert_ne by done. by apply (gs_nodup _ _ _ HG).
  - (* gs_ch *)
    intros x c Hx Hc. destruct (decide (x = a)) as [->|Hxa].
    + rewrite fn_lookup_insert in Hc. rewrite fn_lookup_insert.
      apply elem_of_cons in Hc as [->|Hc].
      * split; [done|]. rewrite fn_lookup_insert_ne by done. lia.
      * destruct (gs_ch _ _ _ HG a c Ha Hc) as [HcL Hlt].
        split; [done|].
        assert (c ≠ a) by (intros ->; by apply (Hanot a Ha)).
        rewrite fn_lookup_insert_ne by congruence.
        lia.
    + rewrite fn_lookup_insert_ne in Hc by done.
      destruct (gs_ch _ _ _ HG x c Hx Hc) as [HcL Hlt].
      split; [done|]. rewrite (fn_lookup_insert_ne _ a x) by done.
      assert (c ≠ a) by (intros ->; by apply (Hanot x Hx)).
      rewrite fn_lookup_insert_ne by congruence.
      done.
  - (* gs_father *)
    intros x n' g Hx Hn' Hg.
    destruct (decide (x = b)) as [->|Hxb].
    { rewrite Hmb in Hn'. injection Hn' as <-. simpl in Hg.
      injection Hg as <-. split; [done|].
      rewrite fn_lookup_insert. left. }
    destruct (Hkeep' x n' Hxb Hn') as (n & Hn & _ & Efa & _).
    rewrite Efa in Hg.
    destruct (gs_father _ _ _ HG x n g Hx Hn Hg) as [HgL Hxg].
    split; [done|]. destruct (decide (g = a)) as [->|Hga].
    + rewrite fn_lookup_insert. by right.
    + by rewrite fn_lookup_insert_ne.
  - (* gs_root *)
    intros x n' Hx Ho Hn' Hfx.
    destruct (decide (x = b)) as [->|Hxb].
    { rewrite Hmb in Hn'. injection Hn' as <-. done. }
    assert (x ∉ gorph G) as Ho' by set_solver.
    destruct (Hkeep' x n' Hxb Hn') as (n & Hn & _ & Efa & Epos).
    rewrite Efa in Hfx. rewrite Epos.
    by apply (gs_root _ _ _ HG x n).
  - (* gs_forest *)
    intros i l r Hl Hr.
    destruct (gs_forest _ _ _ HG i l r Hl Hr) as (HL & Ho & Hrk & n & Hn & Hfr).
    assert (_root (recData r) ≠ b) as Hne by (intros E; congruence).
    destruct (Hkeep _ n Hne Hn) as (n' & Hn' & _ & Efa & _).
    repeat split; try done; [set_solver|].
    exists n'. split; [done|congruence].
  - apply (gs_fnodup _ _ _ HG).
  - (* gs_orph *)
    intros x Hx. apply elem_of_difference in Hx as [Hx Hxb].
    destruct (gs_orph _ _ _ HG x Hx) as (HL & n & Hn & Hfx).
    split; [done|].
    assert (x ≠ b) as Hne by set_solver.
    destruct (Hkeep _ n Hne Hn) as (n' & Hn' & _ & Efa & _).
    exists n'. split; [done|congruence].
  - apply (gs_len _ _ _ HG).
  - apply (gs_size _ _ _ HG).
Qed.

(** ** Cutting the sons of a root, adopting a node *)

Lemma cut_mem_lookup cs (m : gmap addr FibTreeNode) x :
  cut_mem cs m !! x
  = if decide (x ∈ cs) then set_father None <$> m !! x else m !! x.
Proof.
  unfold cut_mem. revert m. induction cs as [|c cs IH]; intros m; simpl.
  - by destruct (decide (x ∈ [])) as [H%elem_of_nil|].
  - rewrite IH. rewrite lookup_alter.
    destruct (decide (x = c)) as [->|Hne].
    + rewrite (decide_True (P := c = c)) by done.
      rewrite (decide_True (P := c ∈ c :: cs)) by left.
      case_decide; [|done]. destruct (m !! c); done.
    + rewrite (decide_False (P := c = x)) by congruence.
      destruct (decide (x ∈ cs)).
      * rewrite decide_True by (by right). done.
      * rewrite decide_False; [done|]. rewrite elem_of_cons. tauto.
Qed.

Lemma GShape_orphan B G s m s' :
  GShape B G s →
  m ∈ gorph G →
  _forest (heap s') = _forest (heap s) →
  _maxTreeOrd (heap s') = _maxTreeOrd (heap s) →
  (∀ x, x ≠ m → mem s' !! x =
     if decide (x ∈ gch G m) then set_father None <$> mem s !! x
     else mem s !! x) →
  GShape B (g_L (gL G ∖ {[m]})
              (g_orph ((gorph G ∖ {[m]}) ∪ list_to_set (gch G m)) G)) s'.
Proof.
  intros HG Hmo HF HM Hlk.
  destruct (gs_orph _ _ _ HG m Hmo) as (Hm & nm & Hnm & Hfm).
  assert (∀ x c nc, x ∈ gL G → c ∈ gch G x → mem s !! c = Some nc →
            _father nc = Some x) as Hson.
  { intros x c nc Hx Hc Hnc.
    destruct (gs_son_father HG x c Hx Hc) as (nc' & ? & ?). congruence. }
  assert (∀ x, x ∈ gL G → m ∉ gch G x) as Hmnot.
  { intros x Hx Hin. pose proof (Hson x m nm Hx Hin Hnm). congruence. }
  assert (∀ x n, x ≠ m → x ∉ gch G m → mem s !! x = Some n →
            mem s' !! x = Some n) as Hsame.
  { intros x n Hxm Hx Hn. rewrite Hlk by done. by rewrite decide_False. }
  assert (∀ x n, x ≠ m → mem s !! x = Some n →
            ∃ n', mem s' !! x = Some n' ∧ key n' = key n ∧
              _firstSon n' = _firstSon n ∧ _sonsCnt n' = _sonsCnt n ∧
              _nextBro n' = _nextBro n ∧ _prevBro n' = _prevBro n ∧
              _posInForest n' = _posInForest n ∧
              _father n' = if decide (x ∈ gch G m) then None else _father n)
    as Hkeep.
  { intros x n Hxm Hn. rewrite Hlk by done. rewrite Hn.
    case_decide; simpl; (eexists; split; [reflexivity|]); by repeat split. }
  assert (∀ x n', x ≠ m → mem s' !! x = Some n' →
            ∃ n, mem s !! x = Some n ∧
              _posInForest n' = _posInForest n ∧
              _father n' = if decide (x ∈ gch G m) then None else _father n)
    as Hkeep'.
  { intros x n' Hxm Hn'. destruct (mem s !! x) as [n|] eqn:Hn.
    - destruct (Hkeep x n Hxm Hn) as (n'' & ? & _ & _ & _ & _ & _ & ? & ?).
      assert (n'' = n') as -> by congruence. eauto.
    - rewrite Hlk in Hn' by done. rewrite Hn in Hn'.
      case_decide; simpl in Hn'; congruence. }
  split; simpl.
  - intros x Hx. apply elem_of_difference in Hx as [Hx Hxm].
    rewrite elem_of_singleton in Hxm.
    destruct (gs_node _ _ _ HG x Hx) as (n & Hn & Hk & Hfs & Hcnt).
    destruct (Hkeep x n Hxm Hn) as (n' & Hn' & E1 & E2 & E3 & _).
    exists n'. rewrite E1, E2, E3. done.
  - intros x Hx Ho. apply elem_of_difference in Hx as [Hx Hxm].
    rewrite HM. apply (gs_rank _ _ _ HG x Hx). set_solver.
  - intros x Hx i c Hi. apply elem_of_difference in Hx as [Hx Hxm].
    rewrite elem_of_singleton in Hxm.
    destruct (gs_sibs _ _ _ HG x Hx i c Hi) as (nc & Hnc & Hfc & Hpc & Hnxc).
    exists nc. split; [|done]. apply Hsame; [| |done].
    + intros ->. apply (Hmnot x Hx). by eapply list_elem_of_lookup_2.
    + intros Hin. pose proof (Hson m c nc Hm Hin Hnc). congruence.
  - intros x Hx. apply elem_of_difference in Hx as [Hx _].
    by apply (gs_nodup _ _ _ HG).
  - intros x c Hx Hc. apply elem_of_difference in Hx as [Hx Hxm].
    destruct (gs_ch _ _ _ HG x c Hx Hc) as [HcL Hlt]. split; [|done].
    apply elem_of_difference. split; [done|].
    rewrite elem_of_singleton. intros ->. by apply (Hmnot x Hx).
  - intros x n' g Hx Hn' Hg. apply elem_of_difference in Hx as [Hx Hxm].
    rewrite elem_of_singleton in Hxm.
    destruct (Hkeep' x n' Hxm Hn') as (n & Hn & _ & Efa).
    destruct (decide (x ∈ gch G m)) as [Hin|Hnin]; [congruence|].
    rewrite Efa in Hg.
    destruct (gs_father _ _ _ HG x n g Hx Hn Hg) as [HgL Hxg].
    split; [|done]. apply elem_of_difference. split; [done|].
    rewrite elem_of_singleton. by intros ->.
  - intros x n' Hx Ho Hn' Hfx. apply elem_of_difference in Hx as [Hx Hxm].
    rewrite elem_of_singleton in Hxm.
    assert (x ∉ gch G m) as Hnin.
    { intros Hin. apply Ho. apply elem_of_union. right.
      by apply elem_of_list_to_set. }
    assert (x ∉ gorph G) as Ho' by set_solver.
    destruct (Hkeep' x n' Hxm Hn') as (n & Hn & Epos & Efa).
    rewrite decide_False in Efa by done.
    rewrite Efa in Hfx. rewrite Epos, HF.
    by apply (gs_root _ _ _ HG x n).
  - intros i l r Hl Hr. rewrite HF in Hl.
    destruct (gs_forest _ _ _ HG i l r Hl Hr) as (HL & Ho & Hrk & n & Hn & Hfr).
    assert (_root (recData r) ≠ m) as Hne by (intros E; congruence).
    assert (_root (recData r) ∉ gch G m) as Hnin.
    { intros Hin. pose proof (Hson m _ n Hm Hin Hn). congruence. }
    split; [set_solver|]. split.
    { rewrite elem_of_union, elem_of_list_to_set. set_solver. }
    split; [done|]. exists n. split; [|done]. by apply Hsame.
  - intros i l Hl. rewrite HF in Hl. by apply (gs_fnodup _ _ _ HG i).
  - intros x Hx. apply elem_of_union in Hx as [Hx|Hx].
    + apply elem_of_difference in Hx as [Hx Hxm].
      rewrite elem_of_singleton in Hxm.
      destruct (gs_orph _ _ _ HG x Hx) as (HL & n & Hn & Hfx).
      split; [set_solver|].
      destruct (Hkeep x n Hxm Hn) as (n' & Hn' & _ & _ & _ & _ & _ & _ & Efa).
      exists n'. split; [done|]. rewrite Efa. by case_decide.
    + apply elem_of_list_to_set in Hx.
      destruct (gs_ch _ _ _ HG m x Hm Hx) as [HxL _].
      assert (x ≠ m) as Hxm by (intros ->; by apply (Hmnot m Hm)).
      split; [set_solver|].
      destruct (gs_lookup HG x HxL) as [n Hn].
      destruct (Hkeep x n Hxm Hn) as (n' & Hn' & _ & _ & _ & _ & _ & _ & Efa).
      exists n'. split; [done|]. rewrite Efa. by rewrite decide_True.
  - rewrite HF, HM. apply (gs_len _ _ _ HG).
  - pose proof (gs_size _ _ _ HG).
    assert (size (gL G ∖ {[m]}) ≤ size (gL G))%nat
      by (apply subseteq_size; set_solver).
    lia.
Qed.

Lemma GShape_adopt B G s a n s' :
  GShape B G s →
  a ∉ gL G →
  _forest (heap s') = _forest (heap s) →
  _maxTreeOrd (heap s') = _maxTreeOrd (heap s) →
  (∀ x, x ≠ a → mem s' !! x = mem s !! x) →
  mem s' !! a = Some n →
  _father n = None → _firstSon n = None → _sonsCnt n = 0 →
  0 ≤ key n < B →
  Z.of_nat (size (gL G)) + 1 < 2 ^ 64 →
  GShape B (g_L (gL G ∪ {[a]})
              (g_ch (<[a := []]> (gch G)) (g_orph (gorph G ∪ {[a]}) G))) s'.
Proof.
  intros HG Ha HF HM Hlk Hn Hfa Hfs Hcnt Hk Hsz.
  assert (∀ x, x ∈ gL G → x ≠ a) as Hne by (intros x Hx ->; done).
  split; simpl.
  - intros x Hx. apply elem_of_union in Hx as [Hx|Hx].
    + rewrite fn_lookup_insert_ne by (by apply not_eq_sym, Hne).
      rewrite Hlk by (by apply Hne). by apply (gs_node _ _ _ HG).
    + apply elem_of_singleton in Hx as ->. rewrite fn_lookup_insert.
      exists n. by rewrite Hfs, Hcnt.
  - intros x Hx Ho. apply elem_of_union in Hx as [Hx|Hx]; [|set_solver].
    rewrite fn_lookup_insert_ne by (by apply not_eq_sym, Hne).
    rewrite HM. apply (gs_rank _ _ _ HG x Hx). set_solver.
  - intros x Hx i c Hi. apply elem_of_union in Hx as [Hx|Hx].
    + rewrite fn_lookup_insert_ne in Hi |- * by (by apply not_eq_sym, Hne).
      destruct (gs_sibs _ _ _ HG x Hx i c Hi) as (nc & Hnc & ?).
      exists nc. split; [|done]. rewrite Hlk; [done|].
      apply Hne. apply (gs_ch _ _ _ HG x c Hx).
      by eapply list_elem_of_lookup_2.
    + apply elem_of_singleton in Hx as ->. by rewrite fn_lookup_insert in Hi.
  - intros x Hx. apply elem_of_union in Hx as [Hx|Hx].
    + rewrite fn_lookup_insert_ne by (by apply not_eq_sym, Hne).
      by apply (gs_nodup _ _ _ HG).
    + apply elem_of_singleton in Hx as ->. rewrite fn_lookup_insert.
      apply NoDup_nil_2.
  - intros x c Hx Hc. apply elem_of_union in Hx as [Hx|Hx].
    + rewrite fn_lookup_insert_ne in Hc by (by apply not_eq_sym, Hne).
      destruct (gs_ch _ _ _ HG x c Hx Hc). split; [set_solver|done].
    + apply elem_of_singleton in Hx as ->. rewrite fn_lookup_insert in Hc.
      by apply elem_of_nil in Hc.
  - intros x n' g Hx Hn' Hg. apply elem_of_union in Hx as [Hx|Hx].
    + rewrite Hlk in Hn' by (by apply Hne).
      destruct (gs_father _ _ _ HG x n' g Hx Hn' Hg) as [HgL Hxg].
      split; [set_solver|].
      by rewrite fn_lookup_insert_ne by (by apply not_eq_sym, Hne).
    + apply elem_of_singleton in Hx as ->. congruence.
  - intros x n' Hx Ho Hn' Hfx.
    apply elem_of_union in Hx as [Hx|Hx]; [|set_solver].
    rewrite Hlk in Hn' by (by apply Hne). rewrite HF.
    apply (gs_root _ _ _ HG x n' Hx); [set_solver|done..].
  - intros i l r Hl Hr. rewrite HF in Hl.
    destruct (gs_forest _ _ _ HG i l r Hl Hr) as (HL & Ho & Hrk & n' & Hn' & Hfr).
    pose proof (Hne _ HL).
    split; [set_solver|]. split; [set_solver|]. split; [done|].
    exists n'. split; [|done]. by rewrite Hlk.
  - intros i l Hl. rewrite HF in Hl. by apply (gs_fnodup _ _ _ HG i).
  - intros x Hx. apply elem_of_union in Hx as [Hx|Hx].
    + destruct (gs_orph _ _ _ HG x Hx) as (HL & n' & Hn' & Hfx).
      split; [set_solver|]. exists n'. split; [|done].
      rewrite Hlk; [done|by apply Hne].
    + apply elem_of_singleton in Hx as ->. split; [set_solver|eauto].
  - rewrite HF, HM. apply (gs_len _ _ _ HG).
  - rewrite size_union by set_solver. rewrite size_singleton. lia.
Qed.

(** ** [isHeapEmpty] and [_updateMin] *)

Lemma isHeapEmpty_for_spec n i s :
  0 ≤ i → (Z.to_nat i + n = length (_forest (heap s)))%nat →
  isHeapEmpty_for n i s
  = Ok (if forallb isListEmpty (drop (Z.to_nat i) (_forest (heap s)))
        then 1 else 0) s.
Proof.
  revert i. induction n as [|n IH]; intros i Hi Hlen; simpl.
  - rewrite drop_ge by lia. done.
  - destruct (_forest (heap s) !! Z.to_nat i) as [l|] eqn:Hl.
    2:{ apply lookup_ge_None in Hl. lia. }
    rewrite (bind_forest_get _ _ _ _ Hl).
    rewrite (drop_S _ _ _ Hl). simpl.
    destruct (isListEmpty l); [|done].
    rewrite IH by lia. by replace (Z.to_nat (i + 1)) with (S (Z.to_nat i)) by lia.
Qed.

Lemma isHeapEmpty_spec s :
  Z.of_nat (length (_forest (heap s))) = _maxTreeOrd (heap s) →
  isHeapEmpty (Some Heap) s = Ok (if forest_empty s then 1 else 0) s.
Proof.
  intros Hlen. unfold isHeapEmpty, bind, getHeap.
  rewrite isHeapEmpty_for_spec by lia. done.
Qed.

Lemma forest_empty_true s :
  forest_empty s = true ↔
  ∀ i l, _forest (heap s) !! i = Some l → l = [].
Proof.
  unfold forest_empty. rewrite forallb_forall. split.
  - intros H i l Hl. apply list_elem_of_lookup_2, list_elem_of_In, H in Hl.
    by destruct l.
  - intros H l Hl. apply list_elem_of_In, list_elem_of_lookup_1 in Hl as [i Hi].
    by rewrite (H i l Hi).
Qed.

(** Every live node sits below a root. *)
Lemma gs_has_root B G s a :
  GShape B G s → a ∈ gL G →
  ∃ r n, r ∈ gL G ∧ mem s !! r = Some n ∧ _father n = None.
Proof.
  intros HG. revert a. apply (up_ind HG). intros a n Ha Hn IH.
  destruct (_father n) as [f|] eqn:Hf; [by apply (IH f)|eauto].
Qed.

Lemma forest_empty_live B G s :
  Shape B G s → (forest_empty s = true ↔ gL G = ∅).
Proof.
  intros [HG Ho Hrk]. rewrite forest_empty_true. split.
  - intros Hall. apply leibniz_equiv. apply elem_of_equiv_empty. intros a Ha.
    destruct (gs_has_root B G s a HG Ha) as (r & n & Hr & Hn & Hf).
    destruct (gs_root _ _ _ HG r n Hr) as (_ & l & Hl & Hin); [set_solver|done..|].
    rewrite (Hall _ _ Hl) in Hin. by apply elem_of_nil in Hin.
  - intros HL i l Hl. destruct l as [|r l]; [done|].
    destruct (gs_forest _ _ _ HG i _ r Hl) as (Hr & _); [left|]. set_solver.
Qed.

Lemma updateMin_while_spec l acc s :
  (∀ r, r ∈ l → is_Some (mem s !! _root (recData r))) →
  updateMin_while l acc s = Ok (scan_list (mem s) l acc) s.
Proof.
  revert acc. induction l as [|r l IH]; intros acc Hl; simpl; [done|].
  destruct (Hl r) as [n Hn]; [left|].
  rewrite (bind_load _ _ _ _ Hn). rewrite Hn.
  destruct (key n <? snd acc); apply IH; intros; apply Hl; by right.
Qed.

Lemma updateMin_for_spec n i acc s :
  0 ≤ i → (Z.to_nat i + n = length (_forest (heap s)))%nat →
  (∀ j l r, _forest (heap s) !! j = Some l → r ∈ l →
     is_Some (mem s !! _root (recData r))) →
  updateMin_for n i acc s
  = Ok (scan_forest (mem s) (drop (Z.to_nat i) (_forest (heap s))) acc) s.
Proof.
  intros Hi Hlen Hall. revert i acc Hi Hlen.
  induction n as [|n IH]; intros i acc Hi Hlen; simpl.
  - rewrite drop_ge by lia. done.
  - destruct (_forest (heap s) !! Z.to_nat i) as [l|] eqn:Hl.
    2:{ apply lookup_ge_None in Hl. lia. }
    rewrite (bind_forest_get _ _ _ _ Hl).
    rewrite (bind_Ok _ _ _ _ _
      (updateMin_while_spec l acc s (λ r Hr, Hall _ l r Hl Hr))).
    rewrite IH by lia. rewrite (drop_S _ _ _ Hl). simpl.
    by replace (Z.to_nat (i + 1)) with (S (Z.to_nat i)) by lia.
Qed.

Lemma scan_list_ok m R l acc :
  scan_ok m R acc → scan_ok m (R ++ l) (scan_list m l acc).
Proof.
  revert R acc. induction l as [|r l IH]; intros R acc Hok; simpl.
  - by rewrite app_nil_r.
  - replace (R ++ r :: l) with ((R ++ [r]) ++ l) by (by rewrite <- app_assoc).
    apply IH. destruct Hok as [Hle Hacc].
    destruct (m !! _root (recData r)) as [n|] eqn:Hn.
    + destruct (Z.ltb_spec (key n) (snd acc)) as [Hlt|Hge].
      * split; simpl.
        -- intros r' n' Hr' Hn'. apply elem_of_app in Hr' as [Hr'|Hr'].
           ++ pose proof (Hle r' n' Hr' Hn'). lia.
           ++ apply list_elem_of_singleton in Hr' as ->.
              assert (n' = n) as -> by congruence. lia.
        -- exists r, n. split; [|done]. apply elem_of_app. right. left.
      * split.
        -- intros r' n' Hr' Hn'. apply elem_of_app in Hr' as [Hr'|Hr'].
           ++ by apply (Hle r' n').
           ++ apply list_elem_of_singleton in Hr' as ->.
              assert (n' = n) as -> by congruence. lia.
        -- destruct (fst acc) as [a|]; [|done].
           destruct Hacc as (r0 & n0 & ? & ? & ? & ?).
           exists r0, n0. split; [|done]. apply elem_of_app. by left.
    + split.
      * intros r' n' Hr' Hn'. apply elem_of_app in Hr' as [Hr'|Hr'].
        -- by apply (Hle r' n').
        -- apply list_elem_of_singleton in Hr' as ->. congruence.
      * destruct (fst acc) as [a|]; [|done].
        destruct Hacc as (r0 & n0 & ? & ? & ? & ?).
        exists r0, n0. split; [|done]. apply elem_of_app. by left.
Qed.

Lemma scan_forest_ok m R F acc :
  scan_ok m R acc → scan_ok m (R ++ concat F) (scan_forest m F acc).
Proof.
  revert R acc. induction F as [|l F IH]; intros R acc Hok; simpl.
  - by rewrite app_nil_r.
  - rewrite app_assoc. apply IH. by apply scan_list_ok.
Qed.

Lemma scan_forest_all m F :
  scan_ok m (concat F) (scan_forest m F (None, UINT64_MAX)).
Proof. apply (scan_forest_ok m [] F). split; [|done]. by intros ??[]%elem_of_nil. Qed.

Lemma elem_of_concat_lookup (F : list DLList) r :
  r ∈ concat F ↔ ∃ i l, F !! i = Some l ∧ r ∈ l.
Proof.
  induction F as [|l0 F IH]; simpl.
  - split; [by intros []%elem_of_nil|]. by intros (i & l & H & _).
  - rewrite elem_of_app, IH. split.
    + intros [H|(i & l & H1 & H2)]; [by exists 0%nat, l0|by exists (S i), l].
    + intros ([|i] & l & H1 & H2); simpl in H1;
        [injection H1 as ->; by left|right; eauto].
Qed.

(** The slow mode of [_updateMin]. *)
Lemma updateMin_slow B G s :
  GShape B G s →
  ∃ m', _updateMin None s = Ok tt (with_min m' s) ∧
    (forest_empty s = true → m' = None) ∧
    (∀ a, m' = Some a →
       ∃ na, a ∈ gL G ∧ mem s !! a = Some na ∧ _father na = None ∧
         ∀ i l r n, _forest (heap s) !! i = Some l → r ∈ l →
           mem s !! _root (recData r) = Some n → key na ≤ key n) ∧
    (m' = None → B ≤ UINT64_MAX → forest_empty s = true).
Proof.
  intros HG. destruct (gs_len _ _ _ HG) as [Hlen Hmto].
  unfold _updateMin.
  rewrite (bind_Ok _ _ _ _ _ (isHeapEmpty_spec s Hlen)).
  destruct (forest_empty s) eqn:Hfe; simpl.
  { exists None. unfold modHeap, with_min. repeat split; try done. }
  unfold bind at 1. unfold getHeap.
  assert (updateMin_for (Z.to_nat (_maxTreeOrd (heap s))) 0
            (None, UINT64_MAX) s
          = Ok (scan_forest (mem s) (drop (Z.to_nat 0) (_forest (heap s)))
                  (None, UINT64_MAX)) s) as Hfor.
  { apply updateMin_for_spec; [lia|lia|].
    intros j l r Hl Hr.
    destruct (gs_forest _ _ _ HG j l r Hl Hr) as (_ & _ & _ & n & Hn & _).
    eauto. }
  rewrite (bind_Ok _ _ _ _ _ Hfor).
  simpl. rewrite drop_0.
  pose proof (scan_forest_all (mem s) (_forest (heap s))) as [Hle Hacc].
  set (acc := scan_forest (mem s) (_forest (heap s)) (None, UINT64_MAX)) in *.
  exists (fst acc). unfold modHeap, with_min. split; [done|].
  split; [done|]. split.
  - intros a Ha. rewrite Ha in Hacc.
    destruct Hacc as (r & n & Hr & Hra & Hn & Hk).
    apply elem_of_concat_lookup in Hr as (i & l & Hl & Hr).
    destruct (gs_forest _ _ _ HG i l r Hl Hr) as (HL & _ & _ & n' & Hn' & Hf).
    rewrite Hra in HL, Hn'. assert (n' = n) as -> by congruence.
    exists n. repeat split; try done.
    intros i' l' r' n'' Hl' Hr' Hn''. rewrite Hk.
    apply (Hle r' n''); [|done]. apply elem_of_concat_lookup. eauto.
  - intros Hnone HB. rewrite Hnone in Hacc.
    apply not_true_iff_false in Hfe. exfalso. apply Hfe.
    apply forest_empty_true. intros i l Hl. destruct l as [|r l]; [done|].
    destruct (gs_forest _ _ _ HG i _ r Hl) as (HL & _ & _ & n & Hn & _); [left|].
    destruct (gs_node _ _ _ HG _ HL) as (n0 & Hn0 & Hk & _).
    assert (n0 = n) as -> by congruence.
    assert (snd acc ≤ key n).
    { apply (Hle r n); [|done]. apply elem_of_concat_lookup.
      exists i, (r :: l). split; [done|left]. }
    lia.
Qed.

(** The fast mode of [_updateMin]. *)
Lemma updateMin_fast s a na :
  Z.of_nat (length (_forest (heap s))) = _maxTreeOrd (heap s) →
  mem s !! a = Some na →
  (∀ m, min (heap s) = Some m → is_Some (mem s !! m)) →
  ∃ m', _updateMin (Some a) s = Ok tt (with_min m' s) ∧
    (forest_empty s = true → m' = None) ∧
    (forest_empty s = false → min (heap s) = None → m' = Some a) ∧
    (forest_empty s = false → ∀ m nm, min (heap s) = Some m →
       mem s !! m = Some nm →
       m' = if key na <? key nm then Some a else Some m).
Proof.
  intros Hlen Hna Hmin. unfold _updateMin.
  rewrite (bind_Ok _ _ _ _ _ (isHeapEmpty_spec s Hlen)).
  destruct (forest_empty s) eqn:Hfe; simpl.
  { exists None. unfold modHeap, with_min. by repeat split. }
  unfold bind at 1. unfold getHeap.
  destruct (min (heap s)) as [m|] eqn:Hm.
  - destruct (Hmin m eq_refl) as [nm Hnm].
    rewrite (bind_load _ _ _ _ Hna), (bind_load _ _ _ _ Hnm).
    destruct (key na <? key nm) eqn:Hlt.
    + exists (Some a). unfold modHeap, with_min. repeat split; try done.
      intros _ m0 nm0 [= <-] Hnm0. assert (nm0 = nm) as -> by congruence.
      by rewrite Hlt.
    + exists (Some m). unfold ret, with_min. split.
      { f_equal. destruct s as [[] ?]. simpl in *. by rewrite Hm. }
      repeat split; try done.
      intros _ m0 nm0 [= <-] Hnm0. assert (nm0 = nm) as -> by congruence.
      by rewrite Hlt.
  - exists (Some a). unfold modHeap, with_min. by repeat split.
Qed.

Lemma MinS_fast B G s a na m' :
  Shape B G s → MinW G s → MinSx a G s →
  a ∈ gL G → mem s !! a = Some na → _father na = None →
  (forest_empty s = true → m' = None) →
  (forest_empty s = false → min (heap s) = None → m' = Some a) →
  (forest_empty s = false → ∀ m nm, min (heap s) = Some m →
     mem s !! m = Some nm →
     m' = if key na <? key nm then Some a else Some m) →
  MinS G (with_min m' s).
Proof.
  intros HS HW HX Ha Hna Hfa H1 H2 H3.
  assert (forest_empty s = false) as Hfe.
  { apply not_true_iff_false. rewrite (forest_empty_live B G s HS).
    set_solver. }
  intros b nb Hb Hnb. simpl in *.
  destruct (min (heap s)) as [m|] eqn:Hm.
  - destruct HW as [HW _]. destruct (HW m Hm) as (HmL & nm & Hnm & _).
    rewrite (H3 Hfe m nm eq_refl Hnm).
    destruct (Z.ltb_spec (key na) (key nm)) as [Hlt|Hge].
    + exists a, na. split; [done|]. split; [done|].
      destruct (decide (b = a)) as [->|Hne].
      * assert (nb = na) as -> by congruence. lia.
      * destruct (HX b nb Hb Hne Hnb) as (m0 & nm0 & Hm0 & Hnm0 & Hle).
        assert (m0 = m) as -> by congruence.
        assert (nm0 = nm) as -> by congruence. lia.
    + exists m, nm. split; [done|]. split; [done|].
      destruct (decide (b = a)) as [->|Hne].
      * assert (nb = na) as -> by congruence. lia.
      * destruct (HX b nb Hb Hne Hnb) as (m0 & nm0 & Hm0 & Hnm0 & Hle).
        assert (m0 = m) as -> by congruence.
        assert (nm0 = nm) as -> by congruence. lia.
  - rewrite (H2 Hfe eq_refl). exists a, na. split; [done|]. split; [done|].
    destruct (decide (b = a)) as [->|Hne].
    + assert (nb = na) as -> by congruence. lia.
    + destruct (HX b nb Hb Hne Hnb) as (m0 & nm0 & ? & _). congruence.
Qed.

Lemma MinW_fast B G s a na m' :
  Shape B G s →
  (∀ m, min (heap s) = Some m →
     m ∈ gL G ∧ ∃ n, mem s !! m = Some n ∧ _father n = None) →
  a ∈ gL G → mem s !! a = Some na → _father na = None →
  (forest_empty s = true → m' = None) →
  (forest_empty s = false → min (heap s) = None → m' = Some a) →
  (forest_empty s = false → ∀ m nm, min (heap s) = Some m →
     mem s !! m = Some nm →
     m' = if key na <? key nm then Some a else Some m) →
  MinW G (with_min m' s).
Proof.
  intros HS HW Ha Hna Hfa H1 H2 H3.
  assert (forest_empty s = false) as Hfe.
  { apply not_true_iff_false. rewrite (forest_empty_live B G s HS).
    set_solver. }
  split; simpl; [|set_solver].
  intros m0 Hm0. destruct (min (heap s)) as [m|] eqn:Hm.
  - destruct (HW m eq_refl) as (HmL & nm & Hnm & Hfm).
    rewrite (H3 Hfe m nm eq_refl Hnm) in Hm0.
    destruct (key na <? key nm); injection Hm0 as <-; eauto.
  - rewrite (H2 Hfe eq_refl) in Hm0. injection Hm0 as <-. eauto.
Qed.

(** With heap order, a root that is smallest among the filed roots is
    smallest among all live nodes. *)
Lemma min_of_roots B G s z :
  Shape B G s → Ordered G s →
  (∀ i l r n, _forest (heap s) !! i = Some l → r ∈ l →
     mem s !! _root (recData r) = Some n → z ≤ key n) →
  ∀ b nb, b ∈ gL G → mem s !! b = Some nb → z ≤ key nb.
Proof.
  intros [HG Ho Hrk] Hord Hroots b nb Hb. revert nb. revert b Hb.
  apply (up_ind HG (λ b, ∀ nb, mem s !! b = Some nb → z ≤ key nb)).
  intros b n Hb Hn IH nb Hnb. assert (nb = n) as -> by congruence.
  destruct (_father n) as [f|] eqn:Hf.
  - destruct (gs_father _ _ _ HG b n f Hb Hn Hf) as [HfL Hin].
    destruct (gs_lookup HG f HfL) as [nf Hnf].
    pose proof (IH f eq_refl nf Hnf).
    assert (key nf ≤ key n); [|lia].
    by apply (Hord f b nf n).
  - destruct (gs_root _ _ _ HG b n Hb) as (_ & l & Hl & Hin);
      [set_solver|done..|].
    by apply (Hroots _ l _ n Hl Hin).
Qed.

(** ** Preservation of the order and of the cached minimum *)

Lemma OrderedEx_keys o G G' s s' :
  OrderedEx o G s →
  (∀ a c, a ∈ gL G' → c ∈ gch G' a → Some c ≠ o →
     a ∈ gL G ∧ c ∈ gch G a) →
  (∀ x n', mem s' !! x = Some n' →
     ∃ n, mem s !! x = Some n ∧ key n = key n') →
  OrderedEx o G' s'.
Proof.
  intros Hord Hch Hkeys a c na nc Ha Hc Hne Hna Hnc.
  destruct (Hch a c Ha Hc Hne) as [Ha' Hc'].
  destruct (Hkeys a na Hna) as (na0 & Hna0 & <-).
  destruct (Hkeys c nc Hnc) as (nc0 & Hnc0 & <-).
  by apply (Hord a c).
Qed.

Lemma lookup_alter_key (m : gmap addr FibTreeNode) f a x n' :
  (∀ n, key (f n) = key n) →
  alter f a m !! x = Some n' →
  ∃ n, m !! x = Some n ∧ key n = key n'.
Proof.
  intros Hf. rewrite lookup_alter. case_decide as E.
  - subst. destruct (m !! x) as [n|]; simpl; [|done].
    intros [= <-]. eauto.
  - eauto.
Qed.

(** ** [_insertNode] and [fhInsert] *)

Lemma insertNode_inv B G s d nd :
  Inv B G s →
  d ∉ gL G → mem s !! d = Some nd →
  _father nd = None → _firstSon nd = None → _sonsCnt nd = 0 →
  0 ≤ key nd < B →
  nodesCount (heap s) + 1 < 2 ^ 64 →
  ∃ s' G',
    _insertNode d s = Ok (Some d) s' ∧ Inv B G' s' ∧
    gL G' = gL G ∪ {[d]} ∧
    (MinS G s → MinS G' s').
Proof.
  intros [[HG Ho Hrk] Hord HW Hcnt] Hd Hnd Hfa Hfs Hsc Hk Hfull.
  destruct (gs_len _ _ _ HG) as [Hlen Hmto].
  destruct (_forest (heap s) !! 0%nat) as [l|] eqn:Hl.
  2:{ apply lookup_ge_None in Hl. lia. }
  (* the ghost data after the insertion *)
  set (G1 := g_L (gL G ∪ {[d]})
               (g_ch (<[d := []]> (gch G)) (g_orph (gorph G ∪ {[d]}) G))).
  assert (GShape B G1 s) as HG1.
  { apply (GShape_adopt B G s d nd s); try done. lia. }
  set (s1 := with_mem (alter (set_posInForest (Some (mkRec (mkTree d)))) d
                         (mem s)) s).
  assert (GShape B G1 s1) as HG1'.
  { apply GShape_alter; [done|]. intros n Hn _.
    assert (n = nd) as -> by congruence. split; [|done].
    repeat split; try done. intros _ Hno. exfalso. apply Hno.
    unfold G1. simpl. set_solver. }
  set (G2 := g_rk (<[d := 0%nat]> (grk G1)) (g_orph (gorph G1 ∖ {[d]}) G1)).
  set (s2 := with_forest (<[0%nat := l ++ [mkRec (mkTree d)]]>
                            (_forest (heap s1))) s1).
  assert (GShape B G2 s2) as HG2.
  { apply (GShape_file B G1 s1 d
             (set_posInForest (Some (mkRec (mkTree d))) nd)); try done.
    - unfold G1. simpl. set_solver.
    - unfold s1. simpl. rewrite lookup_alter_eq. by rewrite Hnd.
    - unfold G1. simpl. rewrite fn_lookup_insert. simpl. lia. }
  assert (∀ x n, mem s2 !! x = Some n →
            ∃ n0, mem s !! x = Some n0 ∧ key n0 = key n ∧
                  _father n0 = _father n) as Hback.
  { intros x n. unfold s2, s1. simpl. rewrite lookup_alter.
    case_decide as E.
    - subst. rewrite Hnd. simpl. intros [= <-]. eauto.
    - eauto. }
  assert (Shape B G2 s2) as HS2.
  { split; [done| |].
    - unfold G2, G1. simpl. rewrite Ho. set_solver.
    - intros x n Hx Hn Hfx. unfold G2, G1. simpl.
      destruct (decide (x = d)) as [->|Hne].
      + by rewrite !fn_lookup_insert.
      + rewrite !fn_lookup_insert_ne by done.
        destruct (Hback x n Hn) as (n0 & Hn0 & _ & Efa).
        apply (Hrk x n0); [|done|congruence].
        unfold G2, G1 in Hx. simpl in Hx. set_solver. }
  assert (Ordered G2 s2) as Hord2.
  { apply (OrderedEx_keys None G G2 s s2 Hord).
    - intros a c Ha Hc _. unfold G2, G1 in Ha, Hc. simpl in Ha, Hc.
      destruct (decide (a = d)) as [->|Hne].
      + rewrite fn_lookup_insert in Hc. by apply elem_of_nil in Hc.
      + rewrite fn_lookup_insert_ne in Hc by done. set_solver.
    - intros x n Hn. destruct (Hback x n Hn) as (n0 & ? & ? & _). eauto. }
  assert (mem s2 !! d = Some (set_posInForest (Some (mkRec (mkTree d))) nd))
    as Hnd2.
  { unfold s2, s1. simpl. rewrite lookup_alter_eq. by rewrite Hnd. }
  assert (∀ m, min (heap s2) = Some m →
            m ∈ gL G2 ∧ ∃ n, mem s2 !! m = Some n ∧ _father n = None) as HW2.
  { intros m Hm. destruct HW as [HW _].
    destruct (HW m Hm) as (HmL & n & Hn & Hfm).
    split; [unfold G2, G1; simpl; set_solver|].
    unfold s2, s1. simpl. rewrite lookup_alter.
    case_decide; subst; rewrite Hn; simpl; eauto. }
  destruct (updateMin_fast s2 d _ (proj1 (gs_len _ _ _ HG2)) Hnd2)
    as (m' & Hum & Hm1 & Hm2 & Hm3).
  { intros m Hm. destruct (HW2 m Hm) as (_ & n & ? & _). eauto. }
  assert (d ∈ gL G2) as HdL by (unfold G2, G1; simpl; set_solver).
  set (s3 := with_min m' s2).
  exists (mkState (set_nodesCount (wrap64 (nodesCount (heap s3) + 1))
                                  (heap s3)) (mem s3)), G2.
  split.
  { unfold _insertNode.
    rewrite (bind_forest_get 0 _ _ _ Hl). simpl.
    rewrite (bind_forest_set 0 _ _ _ _ Hl).
    erewrite bind_assign by (simpl; exact Hnd).
    change (with_mem _ _) with s2.
    rewrite (bind_Ok _ _ _ _ _ Hum). done. }
  split; [|split; [done|]].
  - split.
    + split.
      * apply (GShape_heap B G2 s3); [|done..].
        apply (GShape_heap B G2 s2); done.
      * by destruct HS2.
      * intros x n Hx Hn. by apply (sh_rk _ _ _ HS2 x n).
    + intros a c na nc Ha Hc Hne Hna Hnc. by apply (Hord2 a c).
    + apply (MinW_fast B G2 s2 d _ m' HS2 HW2 HdL Hnd2 Hfa Hm1 Hm2 Hm3).
    + simpl. rewrite Hcnt. rewrite wrap64_small.
      * rewrite size_union by set_solver. rewrite size_singleton. lia.
      * rewrite Hcnt in Hfull. lia.
  - intros HMS.
    assert (MinS G2 s3) as HMS3.
    { apply (MinS_fast B G2 s2 d (set_posInForest (Some (mkRec (mkTree d))) nd)
               m' HS2); try done.
      - split; [done|]. unfold G2, G1. simpl. set_solver.
      - intros b nb Hb Hne Hnb.
        destruct (Hback b nb Hnb) as (n0 & Hn0 & Ek & _).
        assert (b ∈ gL G) as HbL.
        { unfold G2, G1 in Hb. simpl in Hb. set_solver. }
        destruct (HMS b n0 HbL Hn0) as (m & nm & Hm & Hnm & Hle).
        exists m, nm. split; [done|]. split; [|lia].
        unfold s2, s1. simpl. rewrite lookup_alter_ne; [done|].
        intros <-. destruct HW as [HW _].
        by destruct (HW d Hm) as (? & _). }
    intros b nb Hb Hnb. by apply (HMS3 b nb).
Qed.

Lemma Inv_frame B G s s' :
  Inv B G s →
  heap s' = heap s →
  (∀ x, x ∈ gL G → mem s' !! x = mem s !! x) →
  Inv B G s'.
Proof.
  intros [[HG Ho Hrk] Hord HW Hcnt] Hh Hm.
  assert (GShape B G s') as HG'.
  { apply (GShape_sim B G s); [done|by rewrite Hh..|].
    intros a n Ha Hn. exists n. rewrite Hm by done.
    split; [done|]. split; [apply sim_refl|].
    destruct (gs_node _ _ _ HG a Ha) as (n0 & ? & ? & _).
    by assert (n0 = n) as -> by congruence. }
  split.
  - split; [done..|]. intros a n Ha Hn. rewrite Hm in Hn by done.
    by apply Hrk.
  - intros a c na nc Ha Hc Hne Hna Hnc.
    pose proof (proj1 (gs_ch _ _ _ HG a c Ha Hc)) as HcL.
    rewrite Hm in Hna, Hnc by done. by apply (Hord a c).
  - destruct HW as [HW1 HW2]. split; rewrite Hh; [|done].
    intros m Hmin. destruct (HW1 m Hmin) as (HmL & n & Hn & Hf).
    split; [done|]. exists n. by rewrite Hm.
  - by rewrite Hh.
Qed.

Lemma MinS_frame G s s' :
  MinW G s → MinS G s →
  heap s' = heap s →
  (∀ x, x ∈ gL G → mem s' !! x = mem s !! x) →
  MinS G s'.
Proof.
  intros [HW _] HS Hh Hm b nb Hb Hnb. rewrite Hm in Hnb by done.
  destruct (HS b nb Hb Hnb) as (m & nm & Hmin & Hnm & Hle).
  exists m, nm. rewrite Hh. split; [done|]. split; [|done].
  rewrite Hm; [done|]. by destruct (HW m Hmin).
Qed.

Lemma fhInsert_inv B G s e k :
  Inv B G s → 0 ≤ k < B →
  nodesCount (heap s) ≠ ULONG_MAX →
  ∃ a s' G',
    fhInsert (Some Heap) e k s = Ok (Some a) s' ∧ Inv B G' s' ∧
    mem s !! a = None ∧ gL G' = gL G ∪ {[a]} ∧
    (MinS G s → MinS G' s').
Proof.
  intros HI Hk Hfull.
  set (a := fresh (dom (mem s))).
  assert (mem s !! a = None) as Hfresh.
  { apply not_elem_of_dom. apply is_fresh. }
  set (nd := mkNode k e None None None None None 0 0).
  set (s1 := mkState (heap s) (<[a := nd]> (mem s))).
  assert (a ∉ gL G) as HaL.
  { intros Ha. destruct (gs_lookup (sh_g _ _ _ (inv_shape _ _ _ HI)) a Ha).
    congruence. }
  assert (∀ x, x ∈ gL G → mem s1 !! x = mem s !! x) as Hsame.
  { intros x Hx. unfold s1. simpl. rewrite lookup_insert_ne; [done|].
    by intros <-. }
  assert (Inv B G s1) as HI1 by (by apply (Inv_frame B G s)).
  pose proof (inv_cnt _ _ _ HI) as Hcnt.
  pose proof (gs_size _ _ _ (sh_g _ _ _ (inv_shape _ _ _ HI))) as Hsz.
  destruct (insertNode_inv B G s1 a nd HI1 HaL) as (s' & G' & Hex & HI' & HL & HM);
    try done.
  { unfold s1. simpl. apply lookup_insert_eq. }
  { unfold s1. simpl. unfold ULONG_MAX in Hfull. lia. }
  exists a, s', G'. split.
  { unfold fhInsert. unfold bind at 1. unfold getHeap.
    destruct (Z.eqb_spec (nodesCount (heap s)) ULONG_MAX) as [E|_]; [done|].
    unfold bind at 1. unfold calloc_node. fold a.
    erewrite bind_assign by (simpl; apply lookup_insert_eq).
    rewrite <- Hex. f_equal. unfold with_mem, s1. simpl. f_equal.
    apply map_eq. intros x. destruct (decide (a = x)) as [<-|Hne].
    - by rewrite lookup_alter_eq, !lookup_insert_eq.
    - by rewrite lookup_alter_ne, !lookup_insert_ne by done. }
  split; [done|]. split; [done|]. split; [done|].
  intros HMS. apply HM. apply (MinS_frame G s); try done.
  apply (inv_min _ _ _ HI).
Qed.

Lemma fhInsert_full e k s :
  nodesCount (heap s) = ULONG_MAX →
  fhInsert (Some Heap) e k s = Ok None s.
Proof.
  intros H. unfold fhInsert, bind, getHeap. rewrite H. done.
Qed.

(** ** One cut of [_cascadedDetach] *)

Lemma popRecord_spec r (l : DLList) :
  NoDup l → r ∈ l →
  ∃ l1 l2, l = l1 ++ r :: l2 ∧ popRecord r l = Some (l1 ++ l2).
Proof.
  induction l as [|x l IH]; intros Hnd Hr; [by apply elem_of_nil in Hr|].
  apply NoDup_cons in Hnd as [Hx Hnd]. simpl.
  destruct (decide (x = r)) as [->|Hne].
  - by exists [], l.
  - apply elem_of_cons in Hr as [->|Hr]; [done|].
    destruct (IH Hnd Hr) as (l1 & l2 & -> & ->).
    by exists (x :: l1), l2.
Qed.

Lemma with_mem_id s : with_mem (mem s) s = s.
Proof. by destruct s. Qed.

Lemma bind_opt_assign {A} g o (k : unit → M A) s :
  (∀ p, o = Some p → is_Some (mem s !! p)) →
  bind (match o with Some p => assign p g | None => ret tt end) k s
  = k tt (with_mem (opt_alter g o (mem s)) s).
Proof.
  intros H. destruct o as [p|]; simpl.
  - destruct (H p eq_refl) as [n Hn]. by rewrite (bind_assign _ _ _ _ _ Hn).
  - by rewrite with_mem_id.
Qed.

Lemma bind_if_assign {A} (P : Prop) `{Decision P} p g n (k : unit → M A) s :
  mem s !! p = Some n →
  bind (if decide P then assign p g else ret tt) k s
  = k tt (with_mem (if decide P then alter g p (mem s) else mem s) s).
Proof.
  intros Hn. destruct (decide P).
  - by rewrite (bind_assign _ _ _ _ _ Hn).
  - by rewrite with_mem_id.
Qed.

Lemma kept_refl n : kept n n.
Proof. by repeat split. Qed.

Lemma kept_trans n1 n2 n3 : kept n1 n2 → kept n2 n3 → kept n1 n3.
Proof.
  intros (? & ? & ?) (? & ? & ?). repeat split; try congruence. auto.
Qed.

Lemma alter_kept g y (m : gmap addr FibTreeNode) x n :
  (∀ n, kept n (g n)) → m !! x = Some n →
  ∃ n', alter g y m !! x = Some n' ∧ kept n n'.
Proof.
  intros Hg Hn. rewrite lookup_alter. case_decide.
  - subst. rewrite Hn. simpl. eauto.
  - rewrite Hn. eauto using kept_refl.
Qed.

Lemma alter_kept_inv g y (m : gmap addr FibTreeNode) x n' :
  (∀ n, kept n (g n)) → alter g y m !! x = Some n' →
  ∃ n, m !! x = Some n ∧ kept n n'.
Proof.
  intros Hg. rewrite lookup_alter. case_decide.
  - subst. destruct (m !! x) as [n|]; simpl; [|done].
    intros [= <-]. eauto.
  - eauto using kept_refl.
Qed.

Lemma opt_alter_kept g o (m : gmap addr FibTreeNode) x n :
  (∀ n, kept n (g n)) → m !! x = Some n →
  ∃ n', opt_alter g o m !! x = Some n' ∧ kept n n'.
Proof.
  destruct o; simpl; [apply alter_kept|]. eauto using kept_refl.
Qed.

Lemma opt_alter_kept_inv g o (m : gmap addr FibTreeNode) x n' :
  (∀ n, kept n (g n)) → opt_alter g o m !! x = Some n' →
  ∃ n, m !! x = Some n ∧ kept n n'.
Proof.
  destruct o; simpl; [apply alter_kept_inv|]. eauto using kept_refl.
Qed.

Lemma opt_alter_None g o (m : gmap addr FibTreeNode) x :
  m !! x = None → opt_alter g o m !! x = None.
Proof. destruct o; simpl; [by rewrite lookup_alter_None|done]. Qed.

Ltac kept_tac := intros; by repeat split.

Lemma detach_kept a f na nf (m : gmap addr FibTreeNode) x n :
  m !! x = Some n →
  ∃ n', detach_mem a f na nf m !! x = Some n' ∧ kept n n'.
Proof.
  intros Hn. unfold detach_mem.
  assert (∃ n0, (if decide (_firstSon nf = Some a)
                 then alter (set_firstSon (_nextBro na)) f m else m) !! x
                = Some n0 ∧ kept n n0) as (n0 & H0 & K0).
  { case_decide; [apply alter_kept; [kept_tac|done]|eauto using kept_refl]. }
  destruct (opt_alter_kept (set_nextBro (_nextBro na)) (_prevBro na) _ x n0
              ltac:(kept_tac) H0) as (n1 & H1 & K1).
  destruct (opt_alter_kept (set_prevBro (_prevBro na)) (_nextBro na) _ x n1
              ltac:(kept_tac) H1) as (n2 & H2 & K2).
  destruct (alter_kept (set_father None) a _ x n2 ltac:(kept_tac) H2)
    as (n3 & H3 & K3).
  destruct (alter_kept (set_nextBro None) a _ x n3 ltac:(kept_tac) H3)
    as (n4 & H4 & K4).
  destruct (alter_kept (set_prevBro None) a _ x n4 ltac:(kept_tac) H4)
    as (n5 & H5 & K5).
  destruct (alter_kept (λ n, set_sonsCnt (wrap64 (_sonsCnt n - 1)) n) f _ x n5
              ltac:(kept_tac) H5) as (n6 & H6 & K6).
  exists n6. split; [done|]. eauto 10 using kept_trans.
Qed.

Lemma detach_kept_inv a f na nf (m : gmap addr FibTreeNode) x n' :
  detach_mem a f na nf m !! x = Some n' →
  ∃ n, m !! x = Some n ∧ kept n n'.
Proof.
  intros Hn'. destruct (m !! x) as [n|] eqn:Hn.
  - destruct (detach_kept a f na nf m x n Hn) as (n'' & ? & ?).
    assert (n'' = n') as -> by congruence. eauto.
  - exfalso. cut (detach_mem a f na nf m !! x = None); [congruence|].
    unfold detach_mem. rewrite !lookup_alter_None.
    do 2 apply opt_alter_None.
    case_decide; [by rewrite lookup_alter_None|done].
Qed.

Lemma detach_distinct B G s a na f nf k :
  GShape B G s →
  a ∈ gL G → mem s !! a = Some na → _father na = Some f →
  mem s !! f = Some nf → gch G f !! k = Some a →
  a ≠ f ∧ _prevBro na ≠ Some a ∧ _prevBro na ≠ Some f ∧
  _nextBro na ≠ Some a ∧ _nextBro na ≠ Some f ∧
  (_nextBro na = None ∨ _prevBro na ≠ _nextBro na) ∧
  (∀ p, _prevBro na = Some p → is_Some (mem s !! p)) ∧
  (∀ p, _nextBro na = Some p → is_Some (mem s !! p)).
Proof.
  intros HG Ha Hna Hfa Hnf Hk.
  destruct (gs_father _ _ _ HG a na f Ha Hna Hfa) as [Hf Hin].
  set (cs := gch G f) in *.
  pose proof (gs_nodup _ _ _ HG f Hf) as Hnd. fold cs in Hnd.
  destruct (gs_sibs _ _ _ HG f Hf k a Hk) as (na' & Hna' & _ & HP & HN).
  assert (na' = na) as -> by congruence. clear Hna'. fold cs in HP, HN.
  assert (∀ j c, cs !! j = Some c → c ≠ f ∧ is_Some (mem s !! c)) as Hcf.
  { intros j c Hj. assert (c ∈ cs) by (by eapply list_elem_of_lookup_2).
    split; [by apply (gs_son_ne HG f c Hf)|].
    apply (gs_lookup HG). by apply (gs_ch _ _ _ HG f c). }
  assert (∀ j, cs !! j = Some a → j = k) as Hka.
  { intros j Hj. by apply (NoDup_lookup cs j k a). }
  split; [by apply (gs_son_ne HG f a)|].
  split. { rewrite HP. destruct k as [|j]; simpl; [done|].
           intros Hj. apply Hka in Hj. lia. }
  split. { rewrite HP. destruct k as [|j]; simpl; [done|].
           intros Hj. by apply Hcf in Hj as [? _]. }
  split. { rewrite HN. intros Hj. apply Hka in Hj. lia. }
  split. { rewrite HN. intros Hj. by apply Hcf in Hj as [? _]. }
  split. { destruct (_nextBro na) as [c|] eqn:E; [right|by left].
           rewrite HP. destruct k as [|j]; simpl; [done|].
           intros Hj.
           pose proof (NoDup_lookup cs _ _ c Hnd Hj (eq_sym HN)). lia. }
  split.
  - intros p Hp. rewrite HP in Hp. destruct k as [|j]; simpl in Hp; [done|].
    by apply Hcf in Hp as [_ ?].
  - intros p Hp. rewrite HN in Hp. by apply Hcf in Hp as [_ ?].
Qed.

Lemma GShape_alter_keep B G s a f :
  GShape B G s →
  (∀ n, mem s !! a = Some n → a ∈ gL G →
     sim G a n (f n) ∧ key (f n) = key n) →
  GShape B G (with_mem (alter f a (mem s)) s).
Proof.
  intros HG Hf. apply GShape_alter; [done|]. intros n Hn Ha.
  destruct (Hf n Hn Ha) as [Hs Hk]. split; [done|]. rewrite Hk.
  destruct (gs_node _ _ _ HG a Ha) as (n0 & Hn0 & ? & _).
  by assert (n0 = n) as -> by congruence.
Qed.

Lemma cut_exec B G s a na f :
  Shape B G s → a ∈ gL G → mem s !! a = Some na → _father na = Some f →
  ∃ s3 G2,
    (∀ fuel, _cascadedDetach_rec (S fuel) a s
             = cascade_tail (_cascadedDetach_rec fuel) f s3) ∧
    CutStep B G s a f G2 s3.
Proof.
  intros [HG Ho Hrk] Ha Hna Hfa.
  destruct (gs_father _ _ _ HG a na f Ha Hna Hfa) as [Hf Hin].
  apply list_elem_of_lookup_1 in Hin as [k Hk].
  destruct (gs_lookup HG f Hf) as [nf Hnf].
  destruct (detach_distinct B G s a na f nf k HG Ha Hna Hfa Hnf Hk)
    as (Haf & Hpa & Hpf & Hna_a & Hna_f & Hpn & Hpd & Hnd).
  pose proof (λ x, detach_lookup a f na nf (mem s) x
                     Haf Hna Hnf Hpa Hpf Hna_a Hna_f Hpn) as Hlk.
  set (G1 := g_ch (<[f := delete k (gch G f)]> (gch G))
               (g_orph (gorph G ∪ {[a]}) G)).
  set (s1 := with_mem (detach_mem a f na nf (mem s)) s).
  assert (GShape B G1 s1) as HG1 by (by apply GShape_detach).
  set (na1 := set_prevBro None (set_nextBro None (set_father None na))).
  assert (mem s1 !! a = Some na1) as Hna1.
  { unfold s1. simpl. rewrite Hlk. by dec_tac. }
  set (nf1 := set_sonsCnt (wrap64 (_sonsCnt nf - 1))
                (if decide (_firstSon nf = Some a)
                 then set_firstSon (_nextBro na) nf else nf)).
  assert (mem s1 !! f = Some nf1) as Hnf1.
  { unfold s1. simpl. rewrite Hlk. by dec_tac. }
  destruct (gs_node _ _ _ HG a Ha) as (na0 & Hna0 & Hka & Hfsa & Hcnta).
  assert (na0 = na) as -> by congruence. clear Hna0.
  destruct (gs_node _ _ _ HG f Hf) as (nf0 & Hnf0 & Hkf & Hfsf & Hcntf).
  assert (nf0 = nf) as -> by congruence. clear Hnf0.
  assert (a ∉ gorph G) as Hano by (rewrite Ho; set_solver).
  pose proof (gs_rank _ _ _ HG a Ha Hano) as Hranka.
  destruct (gs_len _ _ _ HG) as [Hlen Hmto].
  set (i := length (gch G a)) in *.
  destruct (_forest (heap s) !! i) as [l|] eqn:Hl.
  2:{ apply lookup_ge_None in Hl. lia. }
  set (r := mkRec (mkTree a)).
  set (s1p := with_mem (alter (set_posInForest (Some r)) a (mem s1)) s1).
  assert (GShape B G1 s1p) as HG1p.
  { apply GShape_alter_keep; [done|]. intros n Hn _.
    split; [|done]. repeat split; try done.
    intros _ Hno. exfalso. apply Hno. unfold G1. simpl. set_solver. }
  set (G2 := g_rk (<[a := i]> (grk G1)) (g_orph (gorph G1 ∖ {[a]}) G1)).
  set (s2 := with_forest (<[i := l ++ [r]]> (_forest (heap s1p))) s1p).
  assert (GShape B G2 s2) as HG2.
  { apply (GShape_file B G1 s1p a (set_posInForest (Some r) na1)); try done.
    - unfold G1. simpl. set_solver.
    - unfold s1p. cbn [mem with_mem]. rewrite lookup_alter_eq. by rewrite Hna1.
    - unfold G1. simpl. rewrite fn_lookup_insert_ne by done. done. }
  set (s3 := with_mem (alter (set_grief 0) a (mem s2)) s2).
  assert (GShape B G2 s3) as HG3.
  { apply GShape_alter_keep; [done|]. intros n Hn _. split; [|done].
    by repeat split. }
  assert (mem s3 !! a = Some (set_grief 0 (set_posInForest (Some r) na1)))
    as Hna3.
  { unfold s3, s2, s1p. cbn [mem with_mem with_forest].
    rewrite !lookup_alter_eq. by rewrite Hna1. }
  assert (∀ x, x ≠ a → mem s3 !! x = mem s1 !! x) as Hs31.
  { intros x Hx. unfold s3, s2, s1p. cbn [mem with_mem with_forest].
    by rewrite !lookup_alter_ne by done. }
  assert (length (gch G f) ≠ 0)%nat as Hlen0.
  { intros E. apply nil_length_inv in E. by rewrite E in Hk. }
  pose proof (gs_rank_lt_size HG f Hf) as Hrl.
  pose proof (gs_size _ _ _ HG) as Hsz.
  (* nodes other than [a]: the father and the mark are as before *)
  assert (∀ x n, x ≠ a → mem s !! x = Some n →
            ∃ n', mem s3 !! x = Some n' ∧ _father n' = _father n ∧
                  _grief n' = _grief n ∧
                  _posInForest n' = _posInForest n) as Hfwd.
  { intros x n Hxa Hn. rewrite (Hs31 x Hxa). unfold s1. simpl.
    rewrite Hlk. dec_tac. destruct (decide (x = f)) as [->|Hxf].
    - assert (n = nf) as -> by congruence. eexists. split; [done|].
      simpl. by case_decide.
    - rewrite Hn. repeat case_decide; simpl; eauto. }
  assert (∀ x n', x ≠ a → mem s3 !! x = Some n' →
            ∃ n, mem s !! x = Some n ∧ _father n' = _father n) as Hbwd.
  { intros x n' Hxa Hn'. destruct (mem s !! x) as [n|] eqn:Hn.
    - destruct (Hfwd x n Hxa Hn) as (n'' & ? & ? & _).
      assert (n'' = n') as -> by congruence. eauto.
    - rewrite (Hs31 x Hxa) in Hn'. unfold s1 in Hn'. simpl in Hn'.
      apply detach_kept_inv in Hn' as (? & ? & _). congruence. }
  exists s3, G2. split.
  { intros fuel. simpl.
    rewrite (bind_load _ _ _ _ Hna). rewrite Hfa.
    rewrite (bind_load _ _ _ _ Hnf).
    rewrite (bind_if_assign _ _ _ _ _ _ Hnf).
    erewrite bind_load.
    2:{ simpl. case_decide; [rewrite lookup_alter_ne by done|]; exact Hna. }
    rewrite bind_opt_assign.
    2:{ intros p Hp. simpl. pose proof (Hpd p Hp).
        case_decide; [by apply lookup_alter_is_Some|done]. }
    erewrite bind_load.
    2:{ simpl. rewrite lookup_opt_alter. dec_tac.
        case_decide; [rewrite lookup_alter_ne by done|]; exact Hna. }
    rewrite bind_opt_assign.
    2:{ intros p Hp. simpl. pose proof (Hnd p Hp).
        rewrite lookup_opt_alter.
        assert (is_Some ((if decide (_firstSon nf = Some a)
                          then alter (set_firstSon (_nextBro na)) f (mem s)
                          else mem s) !! p)) as [n0 Hn0].
        { case_decide; [by apply lookup_alter_is_Some|done]. }
        rewrite Hn0. destruct (decide (_prevBro na = Some p)); simpl; eauto. }
    erewrite bind_assign.
    2:{ simpl. rewrite !lookup_opt_alter. dec_tac.
        case_decide; [rewrite lookup_alter_ne by done|]; exact Hna. }
    erewrite bind_assign by (simpl; rewrite lookup_alter_eq,
      !lookup_opt_alter; dec_tac;
      case_decide; [rewrite lookup_alter_ne by done|]; by rewrite Hna).
    erewrite bind_assign by (simpl; rewrite !lookup_alter_eq,
      !lookup_opt_alter; dec_tac;
      case_decide; [rewrite lookup_alter_ne by done|]; by rewrite Hna).
    rewrite (bind_assign f _ (if decide (_firstSon nf = Some a)
                              then set_firstSon (_nextBro na) nf else nf)).
    2:{ simpl. rewrite !lookup_alter_ne, !lookup_opt_alter by done. dec_tac.
        case_decide; [rewrite lookup_alter_eq|]; by rewrite Hnf. }
    change (with_mem _ _) with s1.
    rewrite (bind_load _ _ _ _ Hna1). simpl.
    erewrite (bind_forest_get (_sonsCnt na))
      by (rewrite Hcnta, Nat2Z.id; exact Hl).
    simpl.
    erewrite (bind_forest_set (_sonsCnt na))
      by (rewrite Hcnta, Nat2Z.id; exact Hl).
    erewrite bind_assign by (simpl; exact Hna1).
    erewrite bind_assign
      by (cbn [mem with_mem with_forest]; rewrite lookup_alter_eq;
          by rewrite Hna1).
    rewrite Hcnta, Nat2Z.id. reflexivity. }
  split; try done.
  - unfold G2, G1. simpl. rewrite Ho. set_solver.
  - split; try done.
    + intros x n Hn.
      destruct (detach_kept a f na nf (mem s) x n Hn) as (n1 & Hn1 & K1).
      destruct (alter_kept (set_posInForest (Some r)) a _ x n1
                  ltac:(kept_tac) Hn1) as (n2 & Hn2 & K2).
      destruct (alter_kept (set_grief 0) a _ x n2 ltac:(kept_tac) Hn2)
        as (n3 & Hn3 & K3).
      exists n3. split; [exact Hn3|].
      destruct (kept_trans _ _ _ K1 (kept_trans _ _ _ K2 K3)) as (? & ? & ?).
      done.
    + intros x n' Hn'. unfold s3, s2, s1p, s1 in Hn'. simpl in Hn'.
      apply alter_kept_inv in Hn' as (n2 & Hn2 & K2); [|kept_tac].
      apply alter_kept_inv in Hn2 as (n1 & Hn1 & K1); [|kept_tac].
      apply detach_kept_inv in Hn1 as (n & Hn & K).
      exists n. split; [done|].
      destruct (kept_trans _ _ _ K (kept_trans _ _ _ K1 K2)) as (? & _).
      done.
    + intros x c. unfold G2, G1. simpl.
      destruct (decide (x = f)) as [->|Hne].
      * rewrite fn_lookup_insert. apply elem_of_delete_in.
      * by rewrite fn_lookup_insert_ne.
  - intros x n Hx Hxf Hn Hfx. unfold G2, G1. simpl.
    rewrite (fn_lookup_insert_ne _ f x) by done.
    destruct (decide (x = a)) as [->|Hxa].
    + by rewrite fn_lookup_insert.
    + rewrite fn_lookup_insert_ne by done.
      destruct (Hbwd x n Hxa Hn) as (n0 & Hn0 & Efa).
      apply (Hrk x n0); [done|done|congruence].
  - unfold G2, G1. simpl. by rewrite fn_lookup_insert_ne.
  - exists nf, nf1. rewrite (Hs31 f) by done.
    split; [done|]. split; [done|]. unfold nf1. simpl.
    rewrite Hcntf. rewrite wrap64_small by lia.
    repeat split; try (by case_decide); lia.
  - exists k. done.
  - exists na, (set_grief 0 (set_posInForest (Some r) na1)), l.
    rewrite Hcnta, Nat2Z.id. by repeat split.
  - intros x n Hxa Hn. destruct (Hfwd x n Hxa Hn) as (n' & ? & _ & ? & _).
    eauto.
Qed.

(** ** The cascade of cuts *)

Lemma Frame_refl G s : Frame G s G s.
Proof.
  split; try done.
  - intros x n Hn. exists n. by repeat split.
  - intros x n Hn. eauto.
Qed.

Lemma Frame_trans G1 s1 G2 s2 G3 s3 :
  Frame G1 s1 G2 s2 → Frame G2 s2 G3 s3 → Frame G1 s1 G3 s3.
Proof.
  intros [L1 H1 M1 C1 F1 B1 Ch1] [L2 H2 M2 C2 F2 B2 Ch2].
  split; try congruence.
  - intros x n Hn. destruct (F1 x n Hn) as (n' & Hn' & ? & ? & ?).
    destruct (F2 x n' Hn') as (n'' & Hn'' & ? & ? & ?).
    exists n''. repeat split; try congruence. auto.
  - intros x n'' Hn''. destruct (B2 x n'' Hn'') as (n' & Hn' & ?).
    destruct (B1 x n' Hn') as (n & Hn & ?). exists n. split; congruence.
  - intros x c Hc. by apply Ch1, Ch2.
Qed.

(** A change of the forest only. *)
Lemma Frame_forest G s G' s' :
  gL G' = gL G → ght G' = ght G → gch G' = gch G →
  mem s' = mem s → min (heap s') = min (heap s) →
  nodesCount (heap s') = nodesCount (heap s) →
  Frame G s G' s'.
Proof.
  intros HL Hh Hc Hm Hmin Hcnt. split; try done.
  - intros x n Hn. exists n. rewrite Hm. by repeat split.
  - intros x n Hn. rewrite Hm in Hn. eauto.
  - intros x c. by rewrite Hc.
Qed.

(** A change of one node that keeps its key and payload. *)
Lemma Frame_alter G s g a :
  (∀ n, kept n (g n)) →
  Frame G s G (with_mem (alter g a (mem s)) s).
Proof.
  intros Hg. split; try done.
  - intros x n Hn. destruct (alter_kept g a (mem s) x n Hg Hn)
      as (n' & Hn' & ? & ? & ?). eauto.
  - intros x n' Hn'. apply alter_kept_inv in Hn' as (n & Hn & ? & _);
      [eauto|done].
Qed.

Lemma above_frame G s G' s' a :
  Frame G s G' s' → above G' a = above G a.
Proof. intros F. unfold above. by rewrite (fr_L _ _ _ _ F), (fr_ht _ _ _ _ F). Qed.

Lemma cascade_ok B fuel :
  ∀ G s a na f,
    Shape B G s → a ∈ gL G → mem s !! a = Some na → _father na = Some f →
    (above G a < fuel)%nat →
    ∃ s' G',
      _cascadedDetach_rec fuel a s = Ok tt s' ∧ Shape B G' s' ∧
      Frame G s G' s' ∧
      (∃ na', mem s' !! a = Some na' ∧ _father na' = None) ∧
      (∀ x, x ∈ gL G' → a ∉ gch G' x).
Proof.
  induction fuel as [|fuel IH]; intros G s a na f HS Ha Hna Hfa Hfuel; [lia|].
  destruct (cut_exec B G s a na f HS Ha Hna Hfa) as (s3 & G2 & Hex & HC).
  destruct HC as [HG2 Ho2 HF2 Hrk2 Hrkf HfL (nf & nf3 & Hnf & Hnf3 & Effa & Efgr
    & Efpos & Efcnt & Hcnt1) (k & Hk & Hch2)
    (na0 & na3 & l & Hna0 & Hna3 & Hfa3 & Hgr3 & Hcnt3 & Hfs3 & Hpos3 & Hl & HF3)
    Hmto Hgrief].
  assert (na0 = na) as -> by congruence. clear Hna0.
  destruct HS as [HG Ho Hrk].
  pose proof (gs_nodup _ _ _ HG f HfL) as Hnd.
  assert (∀ x, x ∈ gL G2 → a ∉ gch G2 x) as Hanot.
  { intros x Hx. rewrite Hch2. rewrite (fr_L _ _ _ _ HF2) in Hx.
    destruct (decide (x = f)) as [->|Hne].
    - rewrite fn_lookup_insert. intros Hin.
      apply list_elem_of_lookup_1 in Hin as [j Hj].
      rewrite list_lookup_delete in Hj.
      pose proof (NoDup_lookup _ _ _ _ Hnd Hj Hk). case_decide; lia.
    - rewrite fn_lookup_insert_ne by done. intros Hin. apply Hne.
      apply (gs_son_unique HG x f a Hx HfL Hin).
      by eapply list_elem_of_lookup_2. }
  rewrite Hex. unfold cascade_tail.
  rewrite (bind_load _ _ _ _ Hnf3).
  destruct (_father nf3) as [g|] eqn:Hfg.
  - destruct (_grief nf3 =? 1) eqn:Hgr.
    + (* the father is marked: cut it too *)
      assert (Shape B G2 s3) as HS3.
      { split; [done..|]. intros x n Hx Hn Hfx.
        apply (Hrk2 x n Hx); [|done..]. intros ->. congruence. }
      destruct (IH G2 s3 f nf3 g HS3) as (s' & G' & Hex' & HS' & HF' & _ & _);
        try done.
      { by rewrite (fr_L _ _ _ _ HF2). }
      { rewrite (above_frame _ _ _ _ f HF2).
        pose proof (above_father HG a na f Ha Hna Hfa). lia. }
      exists s', G'. split; [done|]. split; [done|].
      split; [by eapply Frame_trans|]. split.
      * destruct (fr_fwd _ _ _ _ HF' a na3 Hna3) as (n' & Hn' & _ & _ & Hr).
        exists n'. split; [done|]. by apply Hr.
      * intros x Hx Hin. apply (fr_ch _ _ _ _ HF') in Hin.
        rewrite (fr_L _ _ _ _ HF') in Hx. by apply (Hanot x).
    + (* the father is not marked: mark it *)
      rewrite (assign_alter _ _ _ _ Hnf3).
      set (s4 := with_mem (alter (set_grief 1) f (mem s3)) s3).
      exists s4, G2. split; [done|].
      assert (Frame G2 s3 G2 s4) as HF4 by (apply Frame_alter; kept_tac).
      split; [|split; [by eapply Frame_trans|split; [|done]]].
      * split; [|done|].
        -- apply GShape_alter_keep; [done|]. intros n Hn _. by repeat split.
        -- intros x n Hx Hn Hfx. destruct (decide (x = f)) as [->|Hne].
           ++ unfold s4 in Hn. simpl in Hn. rewrite lookup_alter_eq, Hnf3 in Hn.
              injection Hn as <-. simpl in Hfx. congruence.
           ++ unfold s4 in Hn. simpl in Hn.
              rewrite lookup_alter_ne in Hn by done. by apply (Hrk2 x n).
      * destruct (fr_fwd _ _ _ _ HF4 a na3 Hna3) as (n' & Hn' & _ & _ & Hr).
        exists n'. split; [done|]. by apply Hr.
  - (* the father is a root: file it one list lower *)
    assert (f ∉ gorph G2) as Hfo2 by (rewrite Ho2; set_solver).
    assert (f ∈ gL G2) as HfL2 by (by rewrite (fr_L _ _ _ _ HF2)).
    destruct (gs_root _ _ _ HG2 f nf3 HfL2 Hfo2 Hnf3 Hfg)
      as (Hpos & l1 & Hl1 & Hin1).
    rewrite Hpos.
    destruct (gs_node _ _ _ HG f HfL) as (nf0 & Hnf0 & _ & _ & Hcntf).
    assert (nf0 = nf) as -> by congruence. clear Hnf0.
    assert (f ∉ gorph G) as Hfo by (rewrite Ho; set_solver).
    pose proof (gs_rank _ _ _ HG f HfL Hfo) as Hrankf.
    destruct (gs_len _ _ _ HG) as [Hlen Hmto'].
    set (len := length (gch G f)) in *.
    assert (grk G2 f = len) as Hrkf2.
    { rewrite Hrkf. apply (Hrk f nf); [done..|congruence]. }
    rewrite Hrkf2 in Hl1.
    assert (wrap64 (_sonsCnt nf3 + 1) = Z.of_nat len) as Ew.
    { rewrite Efcnt, Hcntf. rewrite wrap64_small; lia. }
    rewrite Ew.
    rewrite (bind_forest_get (Z.of_nat len) l1) by (by rewrite Nat2Z.id).
    destruct (popRecord_spec (mkRec (mkTree f)) l1) as (la & lb & El1 & Hpop);
      [by apply (gs_fnodup _ _ _ HG2 len)|done|].
    rewrite Hpop.
    rewrite (bind_forest_set (Z.of_nat len) _ l1) by (by rewrite Nat2Z.id).
    rewrite Nat2Z.id.
    set (s4 := with_forest (<[len := la ++ lb]> (_forest (heap s3))) s3).
    set (G3 := g_orph (gorph G2 ∪ {[f]}) G2).
    assert (GShape B G3 s4) as HG4.
    { rewrite El1 in Hl1.
      apply (GShape_unfile B G2 s3 len la (mkRec (mkTree f)) lb HG2 Hl1). }
    assert (length (gch G2 f) = pred len) as Hlen2.
    { rewrite Hch2, fn_lookup_insert. rewrite length_delete by eauto.
      unfold len. lia. }
    assert (len ≠ 0)%nat as Hlen0 by lia.
    assert (Z.to_nat (_sonsCnt nf3) = pred len) as Ecnt3 by lia.
    destruct (_forest (heap s4) !! pred len) as [l0|] eqn:Hl0.
    2:{ apply lookup_ge_None in Hl0. unfold s4 in Hl0. simpl in Hl0.
        rewrite length_insert in Hl0. rewrite HF3, length_insert in Hl0. lia. }
    rewrite (bind_forest_get (_sonsCnt nf3) l0) by (by rewrite Ecnt3).
    unfold forest_set. rewrite Ecnt3, Hl0.
    set (s5 := mkState _ _).
    set (G4 := g_rk (<[f := pred len]> (grk G3)) (g_orph (gorph G3 ∖ {[f]}) G3)).
    assert (GShape B G4 s5) as HG5.
    { apply (GShape_file B G3 s4 f nf3 (pred len) l0); try done.
      - unfold G3. simpl. set_solver.
      - unfold G3, s4. simpl. rewrite Hlen2, Hmto. lia. }
    exists s5, G4. split; [done|].
    assert (Frame G2 s3 G4 s5) as HF5 by (by apply Frame_forest).
    split; [|split; [by eapply Frame_trans|split; [|done]]].
    + split; [done| |].
      * unfold G4, G3. simpl. rewrite Ho2. set_solver.
      * intros x n Hx Hn Hfx. unfold G4, G3. simpl.
        destruct (decide (x = f)) as [->|Hne].
        -- by rewrite fn_lookup_insert.
        -- rewrite fn_lookup_insert_ne by done. by apply (Hrk2 x n).
    + destruct (fr_fwd _ _ _ _ HF5 a na3 Hna3) as (n' & Hn' & _ & _ & Hr).
      exists n'. split; [done|]. by apply Hr.
Qed.

Lemma cascadedDetach_ok B G s a na f :
  Shape B G s → a ∈ gL G → mem s !! a = Some na → _father na = Some f →
  ∃ s' G',
    _cascadedDetach a s = Ok tt s' ∧ Shape B G' s' ∧
    Frame G s G' s' ∧
    (∃ na', mem s' !! a = Some na' ∧ _father na' = None) ∧
    (∀ x, x ∈ gL G' → a ∉ gch G' x).
Proof.
  intros HS Ha Hna Hfa. unfold _cascadedDetach.
  apply (cascade_ok B (walk_fuel s) G s a na f); try done.
  unfold walk_fuel.
  pose proof (above_le_size (G := G) a).
  pose proof (gs_size_mem (sh_g _ _ _ HS)). lia.
Qed.

(** ** [fhDecreaseKey] *)

Lemma Shape_alter_keep B G s a f :
  Shape B G s →
  (∀ n, mem s !! a = Some n → a ∈ gL G →
     sim G a n (f n) ∧ 0 ≤ key (f n) < B) →
  Shape B G (with_mem (alter f a (mem s)) s).
Proof.
  intros [HG Ho Hrk] Hf. split; [by apply GShape_alter|done|].
  intros x n' Hx Hn' Hfx. simpl in Hn'. rewrite lookup_alter in Hn'.
  case_decide as E.
  - subst. destruct (mem s !! x) as [n|] eqn:Hn; [|done].
    injection Hn' as <-. destruct (Hf n eq_refl Hx) as [(Efa & _) _].
    apply (Hrk x n); [done..|congruence].
  - by apply (Hrk x n').
Qed.

Lemma fhDecreaseKey_ok B G s a na d :
  Inv B G s → a ∈ gL G → mem s !! a = Some na →
  0 ≤ wrap64 (key na - d) < B →
  ∃ s' G',
    fhDecreaseKey (Some Heap) (Some a) d s = Ok (Some a) s' ∧
    Shape B G' s' ∧ MinW G' s' ∧
    nodesCount (heap s') = nodesCount (heap s) ∧ gL G' = gL G ∧
    (∃ na', mem s' !! a = Some na' ∧ key na' = wrap64 (key na - d) ∧
            elem na' = elem na) ∧
    (∀ x n, x ≠ a → mem s !! x = Some n →
       ∃ n', mem s' !! x = Some n' ∧ key n' = key n ∧ elem n' = elem n) ∧
    (wrap64 (key na - d) ≤ key na → Ordered G' s') ∧
    (wrap64 (key na - d) ≤ key na → MinS G s → MinS G' s').
Proof.
  intros [HS Hord HW Hcnt] Ha Hna Hk'.
  set (k' := wrap64 (key na - d)) in *.
  set (s0 := with_mem (alter (λ n, set_key (wrap64 (key n - d)) n) a (mem s)) s).
  set (na0 := set_key k' na).
  assert (mem s0 !! a = Some na0) as Hna0.
  { unfold s0. simpl. rewrite lookup_alter_eq. by rewrite Hna. }
  assert (∀ x, x ≠ a → mem s0 !! x = mem s !! x) as Hs0.
  { intros x Hx. unfold s0. simpl. by rewrite lookup_alter_ne. }
  assert (Shape B G s0) as HS0.
  { apply Shape_alter_keep; [done|]. intros n Hn _.
    assert (n = na) as -> by congruence. split; [by repeat split|done]. }
  pose proof (sh_g _ _ _ HS) as HG. pose proof (sh_g _ _ _ HS0) as HG0.
  assert (Frame G s0 G s0) as HFr by apply Frame_refl.
  (* a root has no father in the ghost data either *)
  assert (∀ x, x ∈ gL G → _father na = None → a ∉ gch G x) as Hroot.
  { intros x Hx Hfa Hin.
    destruct (gs_son_father HG x a Hx Hin) as (n & Hn & Hf). congruence. }
  (* the order, but for [a] and its father *)
  assert (k' ≤ key na → OrderedEx (Some a) G s0) as Hord0.
  { intros Hle x c nx nc Hx Hc Hne Hnx Hnc.
    assert (c ≠ a) as Hca by congruence.
    rewrite Hs0 in Hnc by done.
    destruct (decide (x = a)) as [->|Hxa].
    - assert (nx = na0) as -> by congruence. simpl.
      pose proof (Hord a c na nc Ha Hc ltac:(done) Hna Hnc). lia.
    - rewrite Hs0 in Hnx by done. by apply (Hord x c). }
  (* the cached minimum, but for [a] *)
  assert (k' ≤ key na → MinS G s → MinSx a G s0) as Hmin0.
  { intros Hle HMS b nb Hb Hba Hnb. rewrite Hs0 in Hnb by done.
    destruct (HMS b nb Hb Hnb) as (m & nm & Hm & Hnm & Hle').
    destruct (decide (m = a)) as [->|Hma].
    - exists a, na0. assert (nm = na) as -> by congruence.
      repeat split; try done. simpl. lia.
    - exists m, nm. rewrite Hs0 by done. done. }
  assert (∀ m, min (heap s0) = Some m →
            m ∈ gL G ∧ ∃ n, mem s0 !! m = Some n ∧ _father n = None) as HW0.
  { intros m Hm. destruct HW as [HW _].
    destruct (HW m Hm) as (HmL & n & Hn & Hf). split; [done|].
    destruct (decide (m = a)) as [->|Hma].
    - exists na0. assert (n = na) as -> by congruence. done.
    - exists n. by rewrite Hs0. }
  assert (∀ s1,
            (∀ x n, mem s0 !! x = Some n →
               ∃ n', mem s1 !! x = Some n' ∧ key n' = key n ∧
                     elem n' = elem n) →
            ∀ x n, x ≠ a → mem s !! x = Some n →
              ∃ n', mem s1 !! x = Some n' ∧ key n' = key n ∧ elem n' = elem n)
    as Hothers.
  { intros s1 H x n Hx Hn. rewrite <- Hs0 in Hn by done. by apply H. }
  unfold fhDecreaseKey.
  rewrite (bind_assign _ _ _ _ _ Hna). fold s0.
  rewrite (bind_load _ _ _ _ Hna0). simpl.
  destruct (_father na) as [f|] eqn:Hfa.
  - destruct (gs_father _ _ _ HG a na f Ha Hna Hfa) as [HfL Hin].
    destruct (gs_lookup HG f HfL) as [nf Hnf].
    assert (a ≠ f) as Haf by (by apply (gs_son_ne HG f a)).
    assert (mem s0 !! f = Some nf) as Hnf0 by (by rewrite Hs0).
    destruct (Z.ltb_spec k' (key nf)) as [Hlt|Hge].
    + (* the key went below the father's: cut *)
      destruct (cascadedDetach_ok B G s0 a na0 f HS0 Ha Hna0 Hfa)
        as (s1 & G1 & Hex & HS1 & HF1 & (na1 & Hna1 & Hfa1) & Hanot).
      assert ((fn <- load f;;
               if k' <? key fn then _cascadedDetach a else ret ()) s0
              = Ok tt s1) as Hinner.
      { rewrite (bind_load _ _ _ _ Hnf0).
        destruct (Z.ltb_spec k' (key nf)); [done|lia]. }
      rewrite (bind_Ok _ _ _ _ _ Hinner).
      rewrite (bind_load _ _ _ _ Hna1). rewrite Hfa1.
      pose proof (sh_g _ _ _ HS1) as HG1.
      assert (a ∈ gL G1) as Ha1 by (by rewrite (fr_L _ _ _ _ HF1)).
      assert (∀ m, min (heap s1) = Some m →
                m ∈ gL G1 ∧ ∃ n, mem s1 !! m = Some n ∧ _father n = None)
        as HW1.
      { intros m Hm. rewrite (fr_min _ _ _ _ HF1) in Hm.
        destruct (HW0 m Hm) as (HmL & n & Hn & Hf).
        rewrite (fr_L _ _ _ _ HF1). split; [done|].
        destruct (fr_fwd _ _ _ _ HF1 m n Hn) as (n' & Hn' & _ & _ & Hr).
        exists n'. split; [done|]. by apply Hr. }
      destruct (updateMin_fast s1 a na1 (proj1 (gs_len _ _ _ HG1)) Hna1)
        as (m' & Hum & Hm1 & Hm2 & Hm3).
      { intros m Hm. destruct (HW1 m Hm) as (_ & n & ? & _). eauto. }
      rewrite (bind_Ok _ _ _ _ _ Hum).
      exists (with_min m' s1), G1. split; [done|].
      assert (key na1 = k') as Hk1.
      { destruct (fr_bwd _ _ _ _ HF1 a na1 Hna1) as (n & Hn & <-).
        by assert (n = na0) as -> by congruence. }
      split.
      { destruct HS1 as [HG1' Ho1 Hrk1]. split; [|done|done].
        by apply (GShape_heap B G1 s1). }
      split. { by apply (MinW_fast B G1 s1 a na1 m' HS1 HW1). }
      split. { simpl. by rewrite (fr_cnt _ _ _ _ HF1). }
      split. { apply (fr_L _ _ _ _ HF1). }
      split.
      { exists na1. split; [done|]. split; [done|].
        destruct (fr_fwd _ _ _ _ HF1 a na0 Hna0) as (n' & Hn' & _ & He & _).
        assert (n' = na1) as -> by congruence. done. }
      split.
      { apply Hothers. intros x n Hn. simpl.
        destruct (fr_fwd _ _ _ _ HF1 x n Hn) as (n' & ? & ? & ? & _). eauto. }
      split.
      * intros Hle x c nx nc Hx Hc _ Hnx Hnc.
        assert (OrderedEx (Some a) G1 s1) as Ho1.
        { apply (OrderedEx_keys (Some a) G G1 s0 s1 (Hord0 Hle)).
          - intros x' c' Hx' Hc' _. rewrite <- (fr_L _ _ _ _ HF1).
            split; [done|]. by apply (fr_ch _ _ _ _ HF1).
          - apply (fr_bwd _ _ _ _ HF1). }
        apply (Ho1 x c nx nc Hx Hc); [|done..].
        intros [= ->]. by apply (Hanot x).
      * intros Hle HMS.
        apply (MinS_fast B G1 s1 a na1 m' HS1); try done.
        { split; [done|]. intros E. rewrite E in Ha1. set_solver. }
        intros b nb Hb Hba Hnb.
        destruct (fr_bwd _ _ _ _ HF1 b nb Hnb) as (nb0 & Hnb0 & Ekb).
        rewrite (fr_L _ _ _ _ HF1) in Hb.
        destruct (Hmin0 Hle HMS b nb0 Hb Hba Hnb0) as (m & nm & Hm & Hnm & Hle').
        destruct (fr_fwd _ _ _ _ HF1 m nm Hnm) as (nm' & Hnm' & Ekm & _).
        exists m, nm'. rewrite (fr_min _ _ _ _ HF1). split; [done|].
        split; [done|]. lia.
    + (* the heap order still holds *)
      assert ((fn <- load f;;
               if k' <? key fn then _cascadedDetach a else ret ()) s0
              = Ok tt s0) as Hinner.
      { rewrite (bind_load _ _ _ _ Hnf0).
        destruct (Z.ltb_spec k' (key nf)); [lia|done]. }
      rewrite (bind_Ok _ _ _ _ _ Hinner).
      rewrite (bind_load _ _ _ _ Hna0). simpl. rewrite Hfa.
      exists s0, G. split; [done|]. split; [done|].
      split. { split; [done|]. apply HW. }
      split; [done|]. split; [done|].
      split. { exists na0. by repeat split. }
      split. { apply Hothers. intros x n Hn. eauto. }
      split.
      * intros Hle x c nx nc Hx Hc _ Hnx Hnc.
        destruct (decide (c = a)) as [->|Hca].
        -- assert (x = f) as ->.
           { destruct (gs_son_father HG x a Hx Hc) as (n & Hn & Hf).
             congruence. }
           assert (nx = nf) as -> by congruence.
           assert (nc = na0) as -> by congruence. simpl. lia.
        -- apply (Hord0 Hle x c nx nc Hx Hc); [congruence|done..].
      * intros Hle HMS b nb Hb Hnb.
        destruct (decide (b = a)) as [->|Hba].
        -- assert (nb = na0) as -> by congruence. simpl.
           destruct (HMS f nf HfL Hnf) as (m & nm & Hm & Hnm & Hle').
           assert (m ≠ a) as Hma.
           { intros ->. destruct HW as [HW _].
             destruct (HW a Hm) as (_ & n & Hn & Hf). congruence. }
           exists m, nm. rewrite Hs0 by done. repeat split; try done. lia.
        -- by apply (Hmin0 Hle HMS b nb).
  - (* [a] is a root *)
    unfold bind at 1. unfold ret at 1.
    rewrite (bind_load _ _ _ _ Hna0). simpl. rewrite Hfa.
    destruct (updateMin_fast s0 a na0 (proj1 (gs_len _ _ _ HG0)) Hna0)
      as (m' & Hum & Hm1 & Hm2 & Hm3).
    { intros m Hm. destruct (HW0 m Hm) as (_ & n & ? & _). eauto. }
    rewrite (bind_Ok _ _ _ _ _ Hum).
    exists (with_min m' s0), G. split; [done|].
    split.
    { destruct HS0 as [HG0' Ho0 Hrk0]. split; [|done|done].
      by apply (GShape_heap B G s0). }
    split. { by apply (MinW_fast B G s0 a na0 m' HS0 HW0). }
    split; [done|]. split; [done|].
    split. { exists na0. by repeat split. }
    split. { apply Hothers. intros x n Hn. simpl. eauto. }
    split.
    + intros Hle x c nx nc Hx Hc _ Hnx Hnc.
      apply (Hord0 Hle x c nx nc Hx Hc); [|done..].
      intros [= ->]. by apply (Hroot x).
    + intros Hle HMS.
      apply (MinS_fast B G s0 a na0 m' HS0); try done.
      * split; [done|]. intros E. rewrite E in Ha. set_solver.
      * by apply Hmin0.
Qed.

(** ** The loops of [fhDeleteMin] over the sons of the removed node *)

Lemma chain_tail m c cs : chain m (c :: cs) → chain m cs.
Proof. intros H i x Hx. by apply (H (S i) x). Qed.

Lemma chain_ext m m' cs :
  chain m cs → (∀ c, c ∈ cs → m' !! c = m !! c) → chain m' cs.
Proof.
  intros H Hm i c Hi. rewrite Hm by (by eapply list_elem_of_lookup_2).
  by apply H.
Qed.

Lemma cutSubtrees_while_spec cs :
  ∀ fuel s, chain (mem s) cs → NoDup cs → (length cs ≤ fuel)%nat →
    cutSubtrees_while fuel (head cs) s
    = Ok tt (with_mem (cut_mem cs (mem s)) s).
Proof.
  induction cs as [|c cs IH]; intros fuel s Hch Hnd Hfuel; simpl.
  - unfold cut_mem. simpl. rewrite with_mem_id. by destruct fuel.
  - destruct fuel as [|fuel]; [simpl in Hfuel; lia|]. simpl.
    destruct (Hch 0%nat c eq_refl) as (nc & Hnc & Hnx). simpl in Hnx.
    rewrite (bind_assign _ _ _ _ _ Hnc).
    erewrite bind_load by (simpl; rewrite lookup_alter_eq; by rewrite Hnc).
    simpl. rewrite Hnx. rewrite <- head_lookup.
    apply NoDup_cons in Hnd as [Hc Hnd].
    rewrite IH; [done| |done|simpl in Hfuel; lia].
    apply (chain_ext (mem s)); [by eapply chain_tail|].
    intros x Hx. simpl. rewrite lookup_alter_ne; [done|]. by intros ->.
Qed.

Lemma sibs_chain m f cs : sibs m f cs → chain m cs.
Proof.
  intros H i c Hi. destruct (H i c Hi) as (nc & ? & _ & _ & ?). eauto.
Qed.

(** The loop that files the sons [cs], already fatherless, as roots. *)
Lemma newRoots_ok B cs :
  ∀ fuel G s,
    GShape B G s → NoDup cs →
    (∀ c, c ∈ cs → c ∈ gorph G ∧
                   Z.of_nat (length (gch G c)) < _maxTreeOrd (heap s)) →
    chain (mem s) cs → (length cs ≤ fuel)%nat →
    ∃ s' G',
      newRoots_while fuel (head cs) s = Ok tt s' ∧ GShape B G' s' ∧
      gorph G' = gorph G ∖ list_to_set cs ∧
      gL G' = gL G ∧ gch G' = gch G ∧ ght G' = ght G ∧
      (∀ x, x ∉ cs → grk G' x = grk G x) ∧
      (∀ c, c ∈ cs → grk G' c = length (gch G c)) ∧
      (∀ x, mem s' !! x =
         if decide (x ∈ cs) then promote_node x <$> mem s !! x
         else mem s !! x) ∧
      min (heap s') = min (heap s) ∧
      nodesCount (heap s') = nodesCount (heap s) ∧
      _maxTreeOrd (heap s') = _maxTreeOrd (heap s).
Proof.
  induction cs as [|c cs IH]; intros fuel G s HG Hnd Hcs Hch Hfuel; simpl.
  - exists s, G. split; [by destruct fuel|]. split; [done|].
    split; [simpl; set_solver|]. repeat split; try done.
    by intros c []%elem_of_nil.
  - destruct fuel as [|fuel]; [simpl in Hfuel; lia|]. simpl.
    apply NoDup_cons in Hnd as [Hc Hnd].
    destruct (Hch 0%nat c eq_refl) as (nc & Hnc & Hnx). simpl in Hnx.
    destruct (Hcs c) as [Hco Hrank]; [left|].
    destruct (gs_orph _ _ _ HG c Hco) as (HcL & nc0 & Hnc0 & Hfc).
    assert (nc0 = nc) as -> by congruence. clear Hnc0.
    destruct (gs_node _ _ _ HG c HcL) as (nc0 & Hnc0 & _ & _ & Hcnt).
    assert (nc0 = nc) as -> by congruence. clear Hnc0.
    destruct (gs_len _ _ _ HG) as [Hlen Hmto].
    set (i := length (gch G c)) in *.
    destruct (_forest (heap s) !! i) as [l|] eqn:Hl.
    2:{ apply lookup_ge_None in Hl. lia. }
    set (r := mkRec (mkTree c)).
    set (s1 := with_mem (alter (promote_node c) c (mem s)) s).
    assert (GShape B G s1) as HG1.
    { apply GShape_alter_keep; [done|]. intros n Hn _.
      assert (n = nc) as -> by congruence.
      split; [|done]. repeat split; (done || congruence). }
    set (G1 := g_rk (<[c := i]> (grk G)) (g_orph (gorph G ∖ {[c]}) G)).
    set (s2 := with_forest (<[i := l ++ [r]]> (_forest (heap s1))) s1).
    assert (GShape B G1 s2) as HG2.
    { apply (GShape_file B G s1 c (promote_node c nc)); try done.
      unfold s1. simpl. rewrite lookup_alter_eq. by rewrite Hnc. }
    destruct (IH fuel G1 s2 HG2 Hnd)
      as (s' & G' & Hex & HG' & Eo & EL & Ech & Eht & Erk1 & Erk2 & Emem
          & Emin & Ecnt & Emto).
    { intros x Hx. destruct (Hcs x) as [Hxo Hxr]; [by right|].
      split; [|done]. unfold G1. simpl.
      apply elem_of_difference. split; [done|].
      rewrite elem_of_singleton. by intros ->. }
    { apply (chain_ext (mem s)); [by eapply chain_tail|].
      intros x Hx. unfold s2, s1. simpl. rewrite lookup_alter_ne; [done|].
      by intros ->. }
    { simpl in Hfuel. lia. }
    exists s', G'. split.
    { rewrite (bind_load _ _ _ _ Hnc).
      rewrite (bind_assign _ _ _ _ _ Hnc).
      erewrite bind_assign by (simpl; rewrite lookup_alter_eq; by rewrite Hnc).
      erewrite bind_load
        by (simpl; rewrite !lookup_alter_eq; by rewrite Hnc).
      simpl.
      erewrite (bind_forest_get (_sonsCnt nc))
        by (rewrite Hcnt, Nat2Z.id; exact Hl).
      simpl.
      erewrite (bind_forest_set (_sonsCnt nc))
        by (rewrite Hcnt, Nat2Z.id; exact Hl).
      erewrite bind_assign
        by (simpl; rewrite !lookup_alter_eq; by rewrite Hnc).
      rewrite Hnx, <- head_lookup. rewrite <- Hex. f_equal.
      unfold s2, s1, with_forest, with_mem. simpl.
      rewrite Hcnt, Nat2Z.id. f_equal.
      apply map_eq. intros x. rewrite !lookup_alter.
      case_decide; [|done]. subst. rewrite !decide_True by done.
      by rewrite Hnc. }
    split; [done|]. split.
    { rewrite Eo. unfold G1. simpl. set_solver. }
    split; [done|]. split; [done|]. split; [done|]. split.
    { intros x Hx. rewrite Erk1 by set_solver. unfold G1. simpl.
      rewrite fn_lookup_insert_ne; [done|]. set_solver. }
    split.
    { intros x Hx. apply elem_of_cons in Hx as [->|Hx].
      - rewrite Erk1 by done. unfold G1. simpl. by rewrite fn_lookup_insert.
      - by rewrite Erk2. }
    split.
    { intros x. rewrite Emem. unfold s2, s1. simpl. rewrite lookup_alter.
      destruct (decide (x = c)) as [->|Hne].
      - rewrite decide_False by done. rewrite decide_True by done.
        by rewrite decide_True by left.
      - rewrite (decide_False (P := c = x)) by done.
        destruct (decide (x ∈ cs)).
        + by rewrite decide_True by (by right).
        + rewrite decide_False; [done|]. set_solver. }
    done.
Qed.

(** The first half of [fhDeleteMin]: the minimum [m] leaves the forest and
    its sons become roots. *)
Lemma promote_ok B G s m nm la lb :
  Shape B G s → m ∈ gL G → mem s !! m = Some nm → _father nm = None →
  _forest (heap s) !! length (gch G m)
  = Some (la ++ mkRec (mkTree m) :: lb) →
  ∃ s3 G3,
    (∀ A (k : M A),
       (forest_set (_sonsCnt nm) (la ++ lb) ;;;
        _cutSubtrees (mkTree m) ;;;
        mn <- load m ;;
        (λ s, newRoots_while (walk_fuel s) (_firstSon mn) s) ;;;
        k) s = k s3) ∧
    Shape B G3 s3 ∧
    gL G3 = gL G ∖ {[m]} ∧ gch G3 = gch G ∧ ght G3 = ght G ∧
    (∀ x, x ≠ m → mem s3 !! x =
       if decide (x ∈ gch G m)
       then promote_node x <$> (set_father None <$> mem s !! x)
       else mem s !! x) ∧
    mem s3 !! m = Some nm ∧
    min (heap s3) = min (heap s) ∧
    nodesCount (heap s3) = nodesCount (heap s) ∧
    _maxTreeOrd (heap s3) = _maxTreeOrd (heap s).
Proof.
  intros [HG Ho Hrk] Hm Hnm Hfm Hl.
  set (cs := gch G m) in *.
  destruct (gs_node _ _ _ HG m Hm) as (n0 & Hn0 & _ & Hfs & Hcnt).
  assert (n0 = nm) as -> by congruence. clear Hn0. fold cs in Hfs, Hcnt.
  pose proof (gs_nodup _ _ _ HG m Hm) as Hnd. fold cs in Hnd.
  assert (m ∉ cs) as Hmcs by (intros Hin; by apply (gs_son_ne HG m m)).
  (* the record of [m] leaves its list *)
  set (s1 := with_forest (<[length cs := la ++ lb]> (_forest (heap s))) s).
  set (G1 := g_orph (gorph G ∪ {[m]}) G).
  assert (GShape B G1 s1) as HG1.
  { apply (GShape_unfile B G s (length cs) la (mkRec (mkTree m)) lb HG Hl). }
  (* the sons lose their father *)
  set (s2 := with_mem (cut_mem cs (mem s1)) s1).
  set (G2 := g_L (gL G1 ∖ {[m]})
               (g_orph ((gorph G1 ∖ {[m]}) ∪ list_to_set (gch G1 m)) G1)).
  assert (GShape B G2 s2) as HG2.
  { apply (GShape_orphan B G1 s1 m s2 HG1); try done.
    - unfold G1. simpl. set_solver.
    - intros x _. unfold s2. simpl. apply cut_mem_lookup. }
  assert (mem s2 !! m = Some nm) as Hnm2.
  { unfold s2, s1. simpl. rewrite cut_mem_lookup. by rewrite decide_False. }
  assert (chain (mem s2) cs) as Hch2.
  { intros i c Hi.
    destruct (gs_sibs _ _ _ HG m Hm i c Hi) as (nc & Hnc & _ & _ & Hnx).
    exists (set_father None nc). split; [|done].
    unfold s2, s1. simpl. rewrite cut_mem_lookup.
    rewrite decide_True by (by eapply list_elem_of_lookup_2).
    by rewrite Hnc. }
  assert (gorph G2 = list_to_set cs) as Ho2.
  { unfold G2, G1. simpl. rewrite Ho. set_solver. }
  assert (length cs ≤ walk_fuel s2)%nat as Hfuel.
  { unfold walk_fuel. pose proof (gs_size_mem HG2).
    assert (cs ⊆+ elements (gL G2)) as Hsub.
    { apply NoDup_submseteq; [done|]. intros x Hx.
      apply elem_of_elements. destruct (gs_orph _ _ _ HG2 x); [|done].
      rewrite Ho2. by apply elem_of_list_to_set. }
    apply submseteq_length in Hsub.
    unfold size, set_size in *. simpl in *. lia. }
  destruct (newRoots_ok B cs (walk_fuel s2) G2 s2 HG2 Hnd)
    as (s3 & G3 & Hex & HG3 & Eo & EL & Ech & Eht & Erk1 & Erk2 & Emem
        & Emin & Ecnt & Emto); try done.
  { intros c Hc. split; [rewrite Ho2; by apply elem_of_list_to_set|].
    assert (c ∈ gL G) as HcL by (by apply (gs_ch _ _ _ HG m c)).
    apply (gs_rank _ _ _ HG c HcL). rewrite Ho. set_solver. }
  exists s3, G3. split.
  { intros A k.
    erewrite (bind_forest_set (_sonsCnt nm))
      by (rewrite Hcnt, Nat2Z.id; exact Hl).
    rewrite Hcnt, Nat2Z.id. fold s1.
    assert (_cutSubtrees (mkTree m) s1 = Ok tt s2) as Hcut.
    { unfold _cutSubtrees. change (_root (mkTree m)) with m.
      rewrite (bind_load m nm) by done. cbv beta.
      rewrite Hfs. apply cutSubtrees_while_spec.
      - by eapply sibs_chain, (gs_sibs _ _ _ HG m).
      - done.
      - unfold walk_fuel. simpl. unfold walk_fuel in Hfuel.
        unfold s2 in Hfuel. simpl in Hfuel.
        pose proof (gs_rank_lt_size HG m Hm).
        pose proof (gs_size_mem HG). fold cs in H. lia. }
    rewrite (bind_Ok _ _ _ _ _ Hcut).
    rewrite (bind_load _ _ _ _ Hnm2). rewrite Hfs.
    unfold bind at 1. by rewrite Hex. }
  assert (∀ x, x ≠ m → mem s3 !! x =
            if decide (x ∈ cs)
            then promote_node x <$> (set_father None <$> mem s !! x)
            else mem s !! x) as Hmem3.
  { intros x Hx. rewrite Emem. unfold s2, s1. simpl. rewrite cut_mem_lookup.
    by destruct (decide (x ∈ cs)). }
  split.
  { split; [done| |].
    - rewrite Eo, Ho2. set_solver.
    - intros x n Hx Hn Hfx. rewrite Ech. unfold G2, G1. simpl.
      destruct (decide (x ∈ cs)) as [Hin|Hnin]; [by apply Erk2|].
      rewrite Erk1 by done. unfold G2, G1. simpl.
      rewrite EL in Hx. unfold G2, G1 in Hx. simpl in Hx.
      assert (x ≠ m) as Hxm by set_solver.
      rewrite Hmem3 in Hn by done. rewrite decide_False in Hn by done.
      apply (Hrk x n); [set_solver|done..]. }
  split. { rewrite EL. unfold G2, G1. simpl. done. }
  split. { rewrite Ech. done. }
  split. { rewrite Eht. done. }
  split; [done|].
  split. { rewrite Emem. by rewrite decide_False. }
  done.
Qed.

(** ** [_mergeRecordedTrees] *)

Lemma merge_exec_le a b na nb ra rb s :
  a ≠ b → mem s !! a = Some na → mem s !! b = Some nb →
  (∀ fs, _firstSon na = Some fs →
     is_Some (mem s !! fs) ∧ fs ≠ a ∧ fs ≠ b) →
  key na ≤ key nb →
  _mergeRecordedTrees (mkTree a) (mkTree b) ra rb s
  = Ok ra (with_mem (merge_mem a b na (mem s)) s).
Proof.
  intros Hab Hna Hnb Hfs Hle. unfold _mergeRecordedTrees.
  change (_root (mkTree a)) with a. change (_root (mkTree b)) with b.
  rewrite (bind_load _ _ _ _ Hna), (bind_load _ _ _ _ Hnb).
  destruct (Z.leb_spec (key na) (key nb)) as [_|?]; [|lia].
  rewrite (bind_assign _ _ _ _ _ Hnb).
  erewrite bind_assign by (simpl; rewrite lookup_alter_eq; by rewrite Hnb).
  erewrite bind_assign by (simpl; rewrite !lookup_alter_eq; by rewrite Hnb).
  erewrite bind_assign by (simpl; rewrite !lookup_alter_eq; by rewrite Hnb).
  erewrite bind_assign
    by (simpl; rewrite !lookup_alter_ne by congruence; exact Hna).
  erewrite bind_load
    by (simpl; rewrite lookup_alter_eq, !lookup_alter_ne by congruence;
        by rewrite Hna).
  simpl. unfold merge_mem.
  destruct (_firstSon na) as [fs|] eqn:Efs.
  - destruct (Hfs fs eq_refl) as ([nfs Hnfs] & Hfa & Hfb).
    unfold bind at 1.
    erewrite bind_assign
      by (simpl; rewrite lookup_alter_ne, !lookup_alter_eq by congruence;
          by rewrite Hnb).
    erewrite bind_assign
      by (simpl; rewrite !lookup_alter_ne by congruence; exact Hnfs).
    erewrite assign_alter
      by (simpl; rewrite !lookup_alter_ne, lookup_alter_eq,
            !lookup_alter_ne by congruence; by rewrite Hna).
    reflexivity.
  - unfold bind at 1.
    erewrite assign_alter
      by (simpl; rewrite lookup_alter_eq, !lookup_alter_ne by congruence;
          by rewrite Hna).
    reflexivity.
Qed.

Lemma merge_exec_gt a b na nb ra rb s :
  a ≠ b → mem s !! a = Some na → mem s !! b = Some nb →
  (∀ fs, _firstSon nb = Some fs →
     is_Some (mem s !! fs) ∧ fs ≠ a ∧ fs ≠ b) →
  key nb < key na →
  _mergeRecordedTrees (mkTree a) (mkTree b) ra rb s
  = Ok rb (with_mem (merge_mem b a nb (mem s)) s).
Proof.
  intros Hab Hna Hnb Hfs Hle. unfold _mergeRecordedTrees.
  change (_root (mkTree a)) with a. change (_root (mkTree b)) with b.
  rewrite (bind_load _ _ _ _ Hna), (bind_load _ _ _ _ Hnb).
  destruct (Z.leb_spec (key na) (key nb)) as [?|_]; [lia|].
  rewrite (bind_assign _ _ _ _ _ Hna).
  erewrite bind_assign by (simpl; rewrite lookup_alter_eq; by rewrite Hna).
  erewrite bind_assign by (simpl; rewrite !lookup_alter_eq; by rewrite Hna).
  erewrite bind_assign by (simpl; rewrite !lookup_alter_eq; by rewrite Hna).
  erewrite bind_assign
    by (simpl; rewrite !lookup_alter_ne by congruence; exact Hnb).
  erewrite bind_load
    by (simpl; rewrite lookup_alter_eq, !lookup_alter_ne by congruence;
        by rewrite Hnb).
  simpl. unfold merge_mem.
  destruct (_firstSon nb) as [fs|] eqn:Efs.
  - destruct (Hfs fs eq_refl) as ([nfs Hnfs] & Hfa & Hfb).
    unfold bind at 1.
    erewrite bind_assign
      by (simpl; rewrite lookup_alter_ne, !lookup_alter_eq by congruence;
          by rewrite Hna).
    erewrite bind_assign
      by (simpl; rewrite !lookup_alter_ne by congruence; exact Hnfs).
    erewrite assign_alter
      by (simpl; rewrite !lookup_alter_ne, lookup_alter_eq,
            !lookup_alter_ne by congruence; by rewrite Hnb).
    reflexivity.
  - unfold bind at 1.
    erewrite assign_alter
      by (simpl; rewrite lookup_alter_eq, !lookup_alter_ne by congruence;
          by rewrite Hnb).
    reflexivity.
Qed.

Lemma total_insert (F : list DLList) i l l' :
  F !! i = Some l →
  (total (<[i := l']> F) + length l = total F + length l')%nat.
Proof.
  revert i. induction F as [|x F IH]; intros i Hi; [done|].
  destruct i as [|i]; simpl in *.
  - injection Hi as ->. lia.
  - specialize (IH i Hi). lia.
Qed.

Lemma total_snoc_nil (F : list DLList) : total (F ++ [[]]) = total F.
Proof. induction F as [|x F IH]; simpl; [done|]. by rewrite IH. Qed.

(** ** One merge of [_rebuild] *)

Lemma extend_exec {A} (k : unit → M A) s iz :
  Z.of_nat (length (_forest (heap s))) = _maxTreeOrd (heap s) →
  iz + 1 = _maxTreeOrd (heap s) → _maxTreeOrd (heap s) + 1 < 2 ^ 64 →
  0 ≤ iz →
  bind (modHeap (λ h, set_forest
               (resize (Z.to_nat (wrap64 (_maxTreeOrd h + 1)))
                       createDLList (_forest h)) h) ;;;
        forest_set (iz + 1) createDLList ;;;
        modHeap (λ h, set_maxTreeOrd (wrap64 (_maxTreeOrd h + 1)) h)) k s
  = k tt (mkState (extend_forest (heap s)) (mem s)).
Proof.
  intros Hlen Hiz Hlt Hi0.
  set (F := _forest (heap s)) in *.
  assert (resize (Z.to_nat (wrap64 (_maxTreeOrd (heap s) + 1))) createDLList F
          = F ++ [[]]) as Eres.
  { rewrite wrap64_small by lia. rewrite resize_ge by lia.
    replace (Z.to_nat (_maxTreeOrd (heap s) + 1) - length F)%nat
      with 1%nat by lia. done. }
  assert ((F ++ [[]]) !! Z.to_nat (iz + 1) = Some []) as Hnew.
  { replace (Z.to_nat (iz + 1)) with (length F + 0)%nat by lia.
    by rewrite lookup_app_r', Nat.add_0_r || rewrite lookup_app_r by lia;
       replace (length F + 0 - length F)%nat with 0%nat by lia. }
  unfold bind, modHeap, forest_set. simpl. fold F. rewrite Eres, Hnew.
  simpl. f_equal. f_equal. unfold extend_forest, set_maxTreeOrd. simpl.
  fold F. rewrite list_insert_id by done.
  rewrite wrap64_small by lia. done.
Qed.

Lemma link_ok B G s p c np nc iz :
  GShape B G s → gorph G = {[p; c]} → p ≠ c →
  mem s !! p = Some np → mem s !! c = Some nc →
  key np ≤ key nc →
  Ordered G s →
  (∀ x n, x ∈ gL G → x ∉ gorph G → mem s !! x = Some n →
     _father n = None → grk G x = length (gch G x)) →
  0 ≤ iz → length (gch G p) = Z.to_nat iz →
  length (gch G c) = Z.to_nat iz → iz < _maxTreeOrd (heap s) →
  _posInForest np = Some (mkRec (mkTree p)) →
  ∃ s4 G4,
    (∀ A (k : M A),
       (h <- getHeap ;;
        (if iz + 1 >=? _maxTreeOrd h then
           modHeap (λ h, set_forest
                     (resize (Z.to_nat (wrap64 (_maxTreeOrd h + 1)))
                             createDLList (_forest h)) h) ;;;
           forest_set (iz + 1) createDLList ;;;
           modHeap (λ h, set_maxTreeOrd (wrap64 (_maxTreeOrd h + 1)) h)
         else ret tt) ;;;
        l' <- forest_get (iz + 1) ;;
        forest_set (iz + 1) (addAsLastRecord (mkRec (mkTree p)) l') ;;;
        k) (with_mem (merge_mem p c np (mem s)) s) = k s4) ∧
    Shape B G4 s4 ∧ Ordered G4 s4 ∧ gL G4 = gL G ∧
    (∀ x n, mem s !! x = Some n →
       ∃ n', mem s4 !! x = Some n' ∧ key n' = key n ∧ elem n' = elem n) ∧
    (∀ x, x ∉ gL G → mem s4 !! x = mem s !! x) ∧
    min (heap s4) = min (heap s) ∧
    nodesCount (heap s4) = nodesCount (heap s) ∧
    _maxTreeOrd (heap s) ≤ _maxTreeOrd (heap s4) ≤ _maxTreeOrd (heap s) + 1 ∧
    (∀ j, j ≠ S (Z.to_nat iz) → (j < length (_forest (heap s)))%nat →
       _forest (heap s4) !! j = _forest (heap s) !! j) ∧
    total (_forest (heap s4)) = S (total (_forest (heap s))).
Proof.
  intros HG Ho Hpc Hnp Hnc Hle Hord Hrk Hiz0 Hlp Hlc Hiz Hpos.
  assert (p ∈ gorph G) as Hpo by (rewrite Ho; set_solver).
  assert (c ∈ gorph G) as Hco by (rewrite Ho; set_solver).
  destruct (gs_orph _ _ _ HG p Hpo) as (Hp & np0 & Hnp0 & Hfp).
  assert (np0 = np) as -> by congruence. clear Hnp0.
  destruct (gs_orph _ _ _ HG c Hco) as (Hc & nc0 & Hnc0 & Hfc).
  assert (nc0 = nc) as -> by congruence. clear Hnc0.
  set (i := Z.to_nat iz) in *.
  destruct (gs_node _ _ _ HG p Hp) as (n0 & Hn0 & Hkp & Hfsp & Hcntp).
  assert (n0 = np) as -> by congruence. clear Hn0.
  (* the first son of [p], if any, is neither [p] nor [c] *)
  assert (∀ x y ny, x ∈ gL G → y ∈ gch G x → mem s !! y = Some ny →
            _father ny = Some x) as Hson.
  { intros x y ny Hx Hy Hny.
    destruct (gs_son_father HG x y Hx Hy) as (n' & ? & ?). congruence. }
  assert (_firstSon np ≠ Some p) as Hfsp_p.
  { rewrite Hfsp. intros E. apply head_Some_elem_of in E.
    pose proof (Hson p p np Hp E Hnp). congruence. }
  assert (_firstSon np ≠ Some c) as Hfsp_c.
  { rewrite Hfsp. intros E. apply head_Some_elem_of in E.
    pose proof (Hson p c nc Hp E Hnc). congruence. }
  pose proof (λ x, merge_lookup p c np nc (mem s) x Hpc Hnp Hnc Hfsp_p Hfsp_c)
    as Hlk.
  set (s2 := with_mem (merge_mem p c np (mem s)) s).
  set (G2 := g_ht (<[p := Nat.max (ght G p) (S (ght G c))]> (ght G))
               (g_ch (<[p := c :: gch G p]> (gch G))
                  (g_orph (gorph G ∖ {[c]}) G))).
  assert (GShape B G2 s2) as HG2.
  { apply (GShape_merge B G s p c np nc); try done. rewrite Hlc. lia. }
  set (np2 := set_firstSon (Some c)
                (set_sonsCnt (wrap64 (_sonsCnt np + 1)) np)).
  assert (mem s2 !! p = Some np2) as Hnp2.
  { unfold s2. simpl. rewrite Hlk. by dec_tac. }
  assert (length (gch G2 p) = S i) as Hlp2.
  { unfold G2. simpl. rewrite fn_lookup_insert. simpl. by rewrite Hlp. }
  assert (p ∈ gL G2) as Hp2 by done.
  pose proof (gs_rank_lt_size HG2 p Hp2) as Hrl. rewrite Hlp2 in Hrl.
  pose proof (gs_size _ _ _ HG2) as Hsz.
  destruct (gs_len _ _ _ HG2) as [Hlen2 Hmto2].
  assert (_maxTreeOrd (heap s2) = _maxTreeOrd (heap s)) as Emto2 by done.
  assert (_forest (heap s2) = _forest (heap s)) as Efor2 by done.
  (* nodes other than [c] keep their father; all keep key and payload *)
  assert (∀ x n, mem s !! x = Some n →
            ∃ n', mem s2 !! x = Some n' ∧ key n' = key n ∧ elem n' = elem n ∧
                  (x ≠ c → _father n' = _father n)) as Hfwd.
  { intros x n Hn. unfold s2. simpl. rewrite Hlk.
    destruct (decide (x = p)) as [->|Hxp].
    - assert (n = np) as -> by congruence. eexists. split; [done|]. done.
    - destruct (decide (x = c)) as [->|Hxc].
      + assert (n = nc) as -> by congruence. eexists. split; [done|]. done.
      + rewrite Hn. case_decide; simpl; eauto. }
  assert (∀ x n', mem s2 !! x = Some n' →
            ∃ n, mem s !! x = Some n ∧ key n' = key n ∧
                 (x ≠ c → _father n' = _father n)) as Hbwd.
  { intros x n' Hn'. destruct (mem s !! x) as [n|] eqn:Hn.
    - destruct (Hfwd x n Hn) as (n'' & ? & ? & ? & ?).
      assert (n'' = n') as -> by congruence. eauto.
    - unfold s2 in Hn'. simpl in Hn'. rewrite Hlk, Hn in Hn'.
      destruct (decide (x = p)) as [->|?]; [congruence|].
      destruct (decide (x = c)) as [->|?]; [congruence|].
      case_decide; simpl in Hn'; congruence. }
  (* the forest, extended if needed *)
  assert (∃ s3,
    (∀ A (k : unit → M A),
       bind (if iz + 1 >=? _maxTreeOrd (heap s2) then
           modHeap (λ h, set_forest
                     (resize (Z.to_nat (wrap64 (_maxTreeOrd h + 1)))
                             createDLList (_forest h)) h) ;;;
           forest_set (iz + 1) createDLList ;;;
           modHeap (λ h, set_maxTreeOrd (wrap64 (_maxTreeOrd h + 1)) h)
         else ret tt) k s2 = k tt s3) ∧
    GShape B G2 s3 ∧ mem s3 = mem s2 ∧
    min (heap s3) = min (heap s2) ∧
    nodesCount (heap s3) = nodesCount (heap s2) ∧
    iz + 1 < _maxTreeOrd (heap s3) ∧
    _maxTreeOrd (heap s2) ≤ _maxTreeOrd (heap s3) ≤ _maxTreeOrd (heap s2) + 1 ∧
    (∀ j, (j < length (_forest (heap s2)))%nat →
       _forest (heap s3) !! j = _forest (heap s2) !! j) ∧
    (length (_forest (heap s2)) ≤ length (_forest (heap s3)))%nat ∧
    total (_forest (heap s3)) = total (_forest (heap s2)))
    as (s3 & Hex3 & HG3 & Em3 & Emin3 & Ecnt3 & Hiz3 & Hmto3 & Hf3 & Hlen3 & Etot3).
  { destruct (iz + 1 >=? _maxTreeOrd (heap s2)) eqn:E.
    - apply Z.geb_le in E.
      assert (iz + 1 = _maxTreeOrd (heap s2)) as Eiz by lia.
      assert (_maxTreeOrd (heap s2) + 1 < 2 ^ 64) as Hlt by lia.
      exists (mkState (extend_forest (heap s2)) (mem s2)). split.
      { intros A k. by apply extend_exec. }
      split; [by apply GShape_extend|]. simpl.
      repeat split; try done; try lia.
      + intros j Hj. by rewrite lookup_app_l.
      + rewrite length_app. lia.
      + apply total_snoc_nil.
    - rewrite Z.geb_leb in E. apply Z.leb_gt in E.
      exists s2. split; [by intros A k|]. split; [done|].
      repeat split; try done; lia. }
  destruct (gs_len _ _ _ HG3) as [Hlen3' Hmto3'].
  destruct (_forest (heap s3) !! S i) as [l'|] eqn:Hl'.
  2:{ apply lookup_ge_None in Hl'. lia. }
  set (r := mkRec (mkTree p)).
  set (s4 := with_forest (<[S i := l' ++ [r]]> (_forest (heap s3))) s3).
  set (G4 := g_rk (<[p := S i]> (grk G2)) (g_orph (gorph G2 ∖ {[p]}) G2)).
  assert (GShape B G4 s4) as HG4.
  { apply (GShape_file B G2 s3 p np2); try done.
    - unfold G2. simpl. rewrite Ho. set_solver.
    - by rewrite Em3.
    - rewrite Hlp2. lia. }
  assert (Z.to_nat (iz + 1) = S i) as Eiz1 by lia.
  exists s4, G4. split.
  { intros A k. unfold bind at 1. unfold getHeap. fold s2.
    rewrite Hex3.
    rewrite (bind_forest_get (iz + 1) l') by (by rewrite Eiz1).
    rewrite (bind_forest_set (iz + 1) _ l') by (by rewrite Eiz1).
    by rewrite Eiz1. }
  split.
  { split; [done| |].
    - unfold G4, G2. simpl. rewrite Ho. set_solver.
    - intros x n Hx Hn Hfx. unfold G4, G2. simpl.
      destruct (decide (x = p)) as [->|Hxp].
      + rewrite !fn_lookup_insert. simpl. by rewrite Hlp.
      + rewrite !fn_lookup_insert_ne by done.
        unfold s4 in Hn. simpl in Hn. rewrite Em3 in Hn.
        destruct (Hbwd x n Hn) as (n0 & Hn0 & _ & Efa).
        destruct (decide (x = c)) as [->|Hxc].
        * unfold s2 in Hn. simpl in Hn. rewrite Hlk in Hn.
          rewrite decide_False, decide_True in Hn by done.
          injection Hn as <-. done.
        * apply (Hrk x n0); [done| |done|].
          -- rewrite Ho. set_solver.
          -- rewrite <- Efa by done. done. }
  split.
  { intros x y nx ny Hx Hy _ Hnx Hny.
    unfold s4 in Hnx, Hny. simpl in Hnx, Hny. rewrite Em3 in Hnx, Hny.
    destruct (Hbwd x nx Hnx) as (nx0 & Hnx0 & -> & _).
    destruct (Hbwd y ny Hny) as (ny0 & Hny0 & -> & _).
    unfold G4, G2 in Hy. simpl in Hy.
    destruct (decide (x = p)) as [->|Hxp].
    - rewrite fn_lookup_insert in Hy.
      apply elem_of_cons in Hy as [->|Hy].
      + assert (nx0 = np) as -> by congruence.
        by assert (ny0 = nc) as -> by congruence.
      + by apply (Hord p y).
    - rewrite fn_lookup_insert_ne in Hy by done. by apply (Hord x y). }
  split; [done|]. split.
  { intros x n Hn. destruct (Hfwd x n Hn) as (n' & Hn' & ? & ? & _).
    exists n'. unfold s4. simpl. rewrite Em3. done. }
  split.
  { intros x Hx. unfold s4. simpl. rewrite Em3. unfold s2. simpl.
    rewrite Hlk. rewrite !decide_False; [done| | |].
    - rewrite Hfsp. intros E. apply head_Some_elem_of in E.
      by apply (gs_ch _ _ _ HG p x Hp) in E as [? _].
    - by intros ->.
    - by intros ->. }
  split; [done|]. split; [done|]. split; [simpl; lia|]. split.
  { intros j Hj1 Hj2. unfold s4. simpl.
    rewrite list_lookup_insert_ne by done. rewrite <- Efor2.
    apply Hf3. by rewrite Efor2. }
  unfold s4. simpl.
  pose proof (total_insert (_forest (heap s3)) (S i) l' (l' ++ [r]) Hl') as Ht.
  rewrite length_app in Ht. simpl in Ht. rewrite Etot3, Efor2 in Ht.
  lia.
Qed.

(** ** [_rebuild] *)

Lemma popLastRecord_snoc (l : DLList) r :
  popLastRecord (l ++ [r]) = Some (r, l).
Proof.
  unfold popLastRecord. by rewrite last_snoc, removelast_last.
Qed.

Lemma bind_getHeap {A} (k : FibHeap → M A) s :
  bind getHeap k s = k (heap s) s.
Proof. done. Qed.

Lemma rebuild_loop_ok B fuel :
  ∀ G s iz,
    Shape B G s → Ordered G s →
    0 ≤ iz ≤ _maxTreeOrd (heap s) →
    (∀ j l, (j < Z.to_nat iz)%nat → _forest (heap s) !! j = Some l →
       (length l ≤ 1)%nat) →
    (Z.to_nat (_maxTreeOrd (heap s) - iz) + 2 * total (_forest (heap s))
       < fuel)%nat →
    ∃ s' G',
      rebuild_loop fuel iz s = Ok tt s' ∧
      Shape B G' s' ∧ Ordered G' s' ∧ one_tree_per_rank s' ∧
      gL G' = gL G ∧
      (∀ x n, mem s !! x = Some n →
         ∃ n', mem s' !! x = Some n' ∧ key n' = key n ∧ elem n' = elem n) ∧
      (∀ x, x ∉ gL G → mem s' !! x = mem s !! x) ∧
      min (heap s') = min (heap s) ∧
      nodesCount (heap s') = nodesCount (heap s).
Proof.
  induction fuel as [|fuel IH]; intros G s iz HS Hord Hiz Hdone Hfuel; [lia|].
  pose proof HS as [HG Ho Hrk].
  destruct (gs_len _ _ _ HG) as [Hlen Hmto].
  simpl. rewrite bind_getHeap.
  destruct (Z.ltb_spec iz (_maxTreeOrd (heap s))) as [Hlt|Hge].
  2:{ (* every list has been dealt with *)
      exists s, G. split; [done|]. split; [done|]. split; [done|].
      split.
      { intros j l Hl. apply (Hdone j l); [|done].
        apply lookup_lt_Some in Hl. lia. }
      split; [done|]. split; [eauto|]. done. }
  set (i := Z.to_nat iz).
  destruct (_forest (heap s) !! i) as [l|] eqn:Hl.
  2:{ apply lookup_ge_None in Hl. lia. }
  rewrite (bind_forest_get iz l) by done.
  unfold recsCount.
  destruct (Z.gtb_spec (Z.of_nat (length l)) 1) as [Hgt|Hle].
  2:{ (* at most one tree: go to the next list *)
      destruct (IH G s (iz + 1) HS Hord) as (s' & G' & Hex & Hrest); [lia| |lia|].
      { intros j l0 Hj Hl0. destruct (decide (j = i)) as [->|Hne].
        - assert (l0 = l) as -> by congruence. lia.
        - apply (Hdone j l0); [lia|done]. }
      exists s', G'. split; [done|]. exact Hrest. }
  (* two trees or more: merge the first and the last *)
  destruct l as [|ra l1]; [simpl in Hgt; lia|].
  destruct (last l1) as [rb|] eqn:Hlast.
  2:{ apply last_None in Hlast. subst. simpl in Hgt. lia. }
  apply last_Some in Hlast as [l2 ->].
  unfold popFirstRecord. rewrite popLastRecord_snoc.
  rewrite (bind_forest_set iz l2 _) by exact Hl. fold i.
  destruct ra as [[a]], rb as [[b]]. simpl recData.
  set (ra := mkRec (mkTree a)) in *. set (rb := mkRec (mkTree b)) in *.
  set (s1 := with_forest (<[i := l2]> (_forest (heap s))) s).
  (* the two roots *)
  destruct (gs_forest _ _ _ HG i _ ra Hl) as (Ha & _ & Hrka & na & Hna & Hfa);
    [left|]. simpl in Ha, Hrka, Hna.
  destruct (gs_forest _ _ _ HG i _ rb Hl) as (Hb & _ & Hrkb & nb & Hnb & Hfb).
  { right. apply elem_of_app. right. left. } simpl in Hb, Hrkb, Hnb.
  pose proof (gs_fnodup _ _ _ HG i _ Hl) as Hnd.
  assert (a ≠ b) as Hab.
  { intros ->. apply NoDup_cons in Hnd as [Hnin _]. apply Hnin.
    apply elem_of_app. right. left. }
  assert (a ∉ gorph G ∧ b ∉ gorph G) as [Hao Hbo] by (rewrite Ho; set_solver).
  destruct (gs_root _ _ _ HG a na Ha Hao Hna Hfa) as (Hposa & _).
  destruct (gs_root _ _ _ HG b nb Hb Hbo Hnb Hfb) as (Hposb & _).
  pose proof (Hrk a na Ha Hna Hfa) as Hla. rewrite Hrka in Hla.
  pose proof (Hrk b nb Hb Hnb Hfb) as Hlb. rewrite Hrkb in Hlb.
  (* the state once both records are out of the list *)
  set (G1 := g_orph {[a; b]} G).
  assert (GShape B G1 s1) as HG1.
  { pose proof (GShape_unfile B G s i [] ra (l2 ++ [rb]) HG Hl) as HA.
    simpl in HA.
    set (sA := with_forest (<[i := l2 ++ [rb]]> (_forest (heap s))) s) in *.
    assert (_forest (heap sA) !! i = Some (l2 ++ rb :: [])) as HlA.
    { unfold sA. simpl. rewrite list_lookup_insert_eq; [done|].
      by eapply lookup_lt_Some. }
    pose proof (GShape_unfile B _ sA i l2 rb [] HA HlA) as HB2.
    simpl in HB2. rewrite app_nil_r, list_insert_insert_eq in HB2.
    replace (gorph G ∪ {[a]} ∪ {[b]}) with ({[a; b]} : gset addr) in HB2
      by (rewrite Ho; set_solver).
    exact HB2. }
  assert (Ordered G1 s1) as Hord1 by exact Hord.
  assert (∀ x n, x ∈ gL G1 → x ∉ gorph G1 → mem s1 !! x = Some n →
            _father n = None → grk G1 x = length (gch G1 x)) as Hrk1.
  { intros x n Hx _ Hn Hfx. by apply (Hrk x n). }
  assert (iz < _maxTreeOrd (heap s1)) as Hlt1 by done.
  assert (∀ fs n, n = na ∨ n = nb → _firstSon n = Some fs →
            is_Some (mem s1 !! fs) ∧ fs ≠ a ∧ fs ≠ b) as Hfsab.
  { intros fs n Hn Hfs.
    assert (∃ x, x ∈ gL G ∧ fs ∈ gch G x) as (x & Hx & Hin).
    { destruct Hn as [->| ->].
      - exists a. split; [done|].
        destruct (gs_node _ _ _ HG a Ha) as (n0 & Hn0 & _ & E & _).
        assert (n0 = na) as -> by congruence. rewrite Hfs in E.
        by apply head_Some_elem_of.
      - exists b. split; [done|].
        destruct (gs_node _ _ _ HG b Hb) as (n0 & Hn0 & _ & E & _).
        assert (n0 = nb) as -> by congruence. rewrite Hfs in E.
        by apply head_Some_elem_of. }
    destruct (gs_son_father HG x fs Hx Hin) as (nfs & Hnfs & Hffs).
    split; [eauto|]. split; intros ->; congruence. }
  (* what the rest of the loop needs from the merged state *)
  assert (∀ s4 G4,
    rebuild_loop fuel iz s4 = rebuild_loop fuel iz s4 →
    Shape B G4 s4 → Ordered G4 s4 → gL G4 = gL G →
    (∀ x n, mem s1 !! x = Some n →
       ∃ n', mem s4 !! x = Some n' ∧ key n' = key n ∧ elem n' = elem n) →
    (∀ x, x ∉ gL G → mem s4 !! x = mem s1 !! x) →
    min (heap s4) = min (heap s1) →
    nodesCount (heap s4) = nodesCount (heap s1) →
    _maxTreeOrd (heap s1) ≤ _maxTreeOrd (heap s4)
      ≤ _maxTreeOrd (heap s1) + 1 →
    (∀ j, j ≠ S i → (j < length (_forest (heap s1)))%nat →
       _forest (heap s4) !! j = _forest (heap s1) !! j) →
    total (_forest (heap s4)) = S (total (_forest (heap s1))) →
    ∃ s' G',
      rebuild_loop fuel iz s4 = Ok tt s' ∧
      Shape B G' s' ∧ Ordered G' s' ∧ one_tree_per_rank s' ∧
      gL G' = gL G ∧
      (∀ x n, mem s !! x = Some n →
         ∃ n', mem s' !! x = Some n' ∧ key n' = key n ∧ elem n' = elem n) ∧
      (∀ x, x ∉ gL G → mem s' !! x = mem s !! x) ∧
      min (heap s') = min (heap s) ∧
      nodesCount (heap s') = nodesCount (heap s)) as Hrest.
  { intros s4 G4 _ HS4 Hord4 EL4 Hk4 Hout4 Emin4 Ecnt4 Hmto4 Hf4 Etot4.
    pose proof (total_insert (_forest (heap s)) i _ l2 Hl) as Ht.
    rewrite length_cons, length_app in Ht. simpl in Ht.
    assert (length (_forest (heap s1)) = length (_forest (heap s))) as El1.
    { unfold s1. simpl. by rewrite length_insert. }
    assert (total (_forest (heap s1))
            = total (<[i := l2]> (_forest (heap s)))) as Et1 by done.
    assert (_maxTreeOrd (heap s1) = _maxTreeOrd (heap s)) as Em1 by done.
    destruct (IH G4 s4 iz HS4 Hord4)
      as (s' & G' & Hex & HS' & Hord' & H1 & EL' & Hk' & Hout' & Emin' & Ecnt').
    { lia. }
    { intros j l0 Hj Hl0. rewrite Hf4 in Hl0 by lia.
      unfold s1 in Hl0. simpl in Hl0.
      rewrite list_lookup_insert_ne in Hl0 by lia. apply (Hdone j l0); [lia|done]. }
    { rewrite Etot4. lia. }
    exists s', G'. split; [done|]. split; [done|]. split; [done|].
    split; [done|]. split; [congruence|]. split.
    { intros x n Hn. destruct (Hk4 x n Hn) as (n1 & Hn1 & ? & ?).
      destruct (Hk' x n1 Hn1) as (n2 & Hn2 & ? & ?).
      exists n2. split; [done|]. split; congruence. }
    split.
    { intros x Hx. rewrite Hout' by (by rewrite EL4). by rewrite Hout4. }
    split; [by rewrite Emin', Emin4|by rewrite Ecnt', Ecnt4]. }
  destruct (Z.le_gt_cases (key na) (key nb)) as [Hkle|Hkgt].
  - (* [a] stays the root *)
    rewrite (bind_Ok _ _ _ _ _
      (merge_exec_le a b na nb ra rb s1 Hab Hna Hnb
         (λ fs, Hfsab fs na (or_introl eq_refl)) Hkle)).
    destruct (link_ok B G1 s1 a b na nb iz HG1 eq_refl Hab Hna Hnb Hkle
                Hord1 Hrk1 (proj1 Hiz) (eq_sym Hla) (eq_sym Hlb) Hlt1 Hposa)
      as (s4 & G4 & Hex4 & HS4 & Hord4 & EL4 & Hk4 & Hout4 & Emin4 & Ecnt4
          & Hmto4 & Hf4 & Etot4).
    rewrite Hex4. by apply (Hrest s4 G4).
  - (* [b] becomes the root *)
    rewrite (bind_Ok _ _ _ _ _
      (merge_exec_gt a b na nb ra rb s1 Hab Hna Hnb
         (λ fs, Hfsab fs nb (or_intror eq_refl)) Hkgt)).
    assert (gorph G1 = {[b; a]}) as Ho1 by (unfold G1; simpl; set_solver).
    destruct (link_ok B G1 s1 b a nb na iz HG1 Ho1 (not_eq_sym Hab) Hnb Hna
                ltac:(lia) Hord1 Hrk1 (proj1 Hiz) (eq_sym Hlb) (eq_sym Hla)
                Hlt1 Hposb)
      as (s4 & G4 & Hex4 & HS4 & Hord4 & EL4 & Hk4 & Hout4 & Emin4 & Ecnt4
          & Hmto4 & Hf4 & Etot4).
    rewrite Hex4. by apply (Hrest s4 G4).
Qed.

(** ** [fhDeleteMin] *)

Lemma fhDeleteMin_ok B G s m :
  Inv B G s → min (heap s) = Some m →
  ∃ s' G' nm nm',
    fhDeleteMin (Some Heap) s = Ok (Some m) s' ∧
    Inv B G' s' ∧ gL G' = gL G ∖ {[m]} ∧
    (B ≤ UINT64_MAX → MinS G' s') ∧
    one_tree_per_rank s' ∧
    nodesCount (heap s') = nodesCount (heap s) - 1 ∧
    mem s !! m = Some nm ∧ mem s' !! m = Some nm' ∧
    key nm' = key nm ∧ elem nm' = elem nm ∧
    _father nm' = None ∧ _firstSon nm' = None ∧ _nextBro nm' = None ∧
    _prevBro nm' = None ∧ _posInForest nm' = None ∧ _grief nm' = 0 ∧
    _sonsCnt nm' = 0 ∧
    (∀ x n, x ≠ m → mem s !! x = Some n →
       ∃ n', mem s' !! x = Some n' ∧ key n' = key n ∧ elem n' = elem n).
Proof.
  intros [HS Hord [HW1 HW2] Hcnt] Hmin.
  pose proof HS as [HG Ho Hrk].
  destruct (HW1 m Hmin) as (Hm & nm & Hnm & Hfm).
  destruct (gs_len _ _ _ HG) as [Hlen Hmto].
  assert (forest_empty s = false) as Hfe.
  { apply not_true_iff_false. rewrite (forest_empty_live B G s HS).
    set_solver. }
  assert (m ∉ gorph G) as Hmo by (rewrite Ho; set_solver).
  destruct (gs_root _ _ _ HG m nm Hm Hmo Hnm Hfm) as (Hpos & l & Hl & Hin).
  rewrite (Hrk m nm Hm Hnm Hfm) in Hl.
  destruct (popRecord_spec (mkRec (mkTree m)) l) as (la & lb & -> & Hpop);
    [by eapply (gs_fnodup _ _ _ HG)|done|].
  destruct (gs_node _ _ _ HG m Hm) as (n0 & Hn0 & _ & _ & Hcntm).
  assert (n0 = nm) as -> by congruence. clear Hn0.
  (* the sons become roots *)
  destruct (promote_ok B G s m nm la lb HS Hm Hnm Hfm Hl)
    as (s3 & G3 & Hex3 & HS3 & EL3 & Ech3 & Eht3 & Hmem3 & Hnm3 & Emin3
        & Ecnt3 & Emto3).
  assert (∀ x n3, mem s3 !! x = Some n3 →
            ∃ n, mem s !! x = Some n ∧ key n3 = key n ∧ elem n3 = elem n)
    as Hb3.
  { intros x n3 Hn3. destruct (decide (x = m)) as [->|Hxm].
    - exists nm. by assert (n3 = nm) as -> by congruence.
    - rewrite Hmem3 in Hn3 by done.
      destruct (mem s !! x) as [n|]; case_decide; simpl in Hn3; try done;
        injection Hn3 as <-; eauto. }
  assert (∀ x n, mem s !! x = Some n →
            ∃ n3, mem s3 !! x = Some n3 ∧ key n3 = key n ∧ elem n3 = elem n)
    as Hf3.
  { intros x n Hn. destruct (decide (x = m)) as [->|Hxm].
    - exists nm. by assert (n = nm) as -> by congruence.
    - rewrite Hmem3 by done. rewrite Hn. case_decide; simpl; eauto. }
  assert (Ordered G3 s3) as Hord3.
  { apply (OrderedEx_keys None G G3 s s3 Hord).
    - intros a c Ha Hc _. rewrite EL3 in Ha. rewrite Ech3 in Hc.
      split; [set_solver|done].
    - intros x n3 Hn3. destruct (Hb3 x n3 Hn3) as (n & ? & ? & _). eauto. }
  (* the merges *)
  destruct (rebuild_loop_ok B (rebuild_fuel s3) G3 s3 0 HS3 Hord3)
    as (s5 & G5 & Hex5 & HS5 & Hord5 & Hone5 & EL5 & Hk5 & Hout5 & Emin5
        & Ecnt5).
  { destruct (gs_len _ _ _ (sh_g _ _ _ HS3)). lia. }
  { intros j l0 Hj. simpl in Hj. lia. }
  { unfold rebuild_fuel. lia. }
  (* the new minimum *)
  destruct (updateMin_slow B G5 s5 (sh_g _ _ _ HS5))
    as (m' & Hex6 & Hm1 & Hm2 & Hm3).
  set (s7 := mkState (set_nodesCount (wrap64 (nodesCount (heap s5) - 1))
                        (set_min m' (heap s5))) (mem s5)).
  assert (m ∉ gL G5) as HmL5 by (rewrite EL5, EL3; set_solver).
  assert (mem s7 !! m = Some nm) as Hnm7.
  { unfold s7. simpl. rewrite Hout5 by (rewrite EL3; set_solver). done. }
  pose proof (gs_size _ _ _ HG) as Hsz.
  assert (size (gL G) ≠ 0%nat) as Hsz0.
  { intros E. apply size_empty_iff in E. set_solver. }
  assert (size (gL G5) = pred (size (gL G))) as Esz5.
  { rewrite EL5, EL3. rewrite size_difference by set_solver.
    rewrite size_singleton. lia. }
  assert (Inv B G5 s7) as HI7.
  { split.
    - destruct HS5 as [HG5 Ho5 Hrk5]. split; [|done|done].
      by apply (GShape_heap B G5 s5).
    - exact Hord5.
    - split; simpl.
      + intros a Ha. destruct (Hm2 a Ha) as (na & HaL & Hna & Hfa & _). eauto.
      + intros E. apply Hm1. by apply (forest_empty_live B G5 s5 HS5).
    - simpl. rewrite Ecnt5, Ecnt3, Hcnt. rewrite wrap64_small by lia. lia. }
  set (g := λ n : FibTreeNode,
         set_sonsCnt 0 (set_grief 0 (set_posInForest None
           (set_prevBro None (set_nextBro None (set_firstSon None
             (set_father None n))))))).
  set (m8 := alter (set_sonsCnt 0) m (alter (set_grief 0) m
               (alter (set_posInForest None) m (alter (set_prevBro None) m
                 (alter (set_nextBro None) m (alter (set_firstSon None) m
                   (alter (set_father None) m (mem s7)))))))).
  set (s8 := with_mem m8 s7).
  assert (mem s8 !! m = Some (g nm)) as Hnm8.
  { unfold s8, m8. cbn [mem with_mem]. rewrite !lookup_alter_eq.
    by rewrite Hnm7. }
  assert (∀ x, x ≠ m → mem s8 !! x = mem s7 !! x) as Hs8.
  { intros x Hx. unfold s8, m8. cbn [mem with_mem].
    by rewrite !lookup_alter_ne. }
  assert (Inv B G5 s8) as HI8.
  { apply (Inv_frame B G5 s7); [done|done|].
    intros x Hx. apply Hs8. by intros ->. }
  exists s8, G5, nm, (g nm). split.
  { unfold fhDeleteMin.
    rewrite (bind_Ok _ _ _ _ _ (isHeapEmpty_spec s Hlen)). rewrite Hfe.
    simpl. rewrite bind_getHeap. rewrite Hmin.
    rewrite (bind_load _ _ _ _ Hnm). rewrite Hpos.
    erewrite (bind_forest_get (_sonsCnt nm))
      by (rewrite Hcntm, Nat2Z.id; exact Hl).
    rewrite Hpop. simpl recData. rewrite Hex3.
    unfold _rebuild.
    assert (((λ s, rebuild_loop (rebuild_fuel s) 0 s);;; _updateMin None) s3
            = Ok tt (with_min m' s5)) as Hreb.
    { unfold bind at 1. rewrite Hex5. exact Hex6. }
    rewrite (bind_Ok _ _ _ _ _ Hreb).
    unfold bind at 1. unfold modHeap at 1.
    change (mkState _ (mem (with_min m' s5))) with s7.
    erewrite bind_assign by exact Hnm7.
    erewrite bind_assign
      by (cbn [mem with_mem]; rewrite !lookup_alter_eq; by rewrite Hnm7).
    erewrite bind_assign
      by (cbn [mem with_mem]; rewrite !lookup_alter_eq; by rewrite Hnm7).
    erewrite bind_assign
      by (cbn [mem with_mem]; rewrite !lookup_alter_eq; by rewrite Hnm7).
    erewrite bind_assign
      by (cbn [mem with_mem]; rewrite !lookup_alter_eq; by rewrite Hnm7).
    erewrite bind_assign
      by (cbn [mem with_mem]; rewrite !lookup_alter_eq; by rewrite Hnm7).
    erewrite bind_assign
      by (cbn [mem with_mem]; rewrite !lookup_alter_eq; by rewrite Hnm7).
    reflexivity. }
  split; [done|]. split; [by rewrite EL5|]. split.
  { intros HB. apply (MinS_frame G5 s7 s8); [apply HI7| |done|].
    2:{ intros x Hx. apply Hs8. by intros ->. }
    intros b nb Hb Hnb. simpl in Hnb.
    destruct m' as [a|].
    - destruct (Hm2 a eq_refl) as (na & HaL & Hna & Hfa & Hleast).
      exists a, na. split; [done|]. split; [done|].
      apply (min_of_roots B G5 s5 (key na) HS5 Hord5 Hleast b nb Hb Hnb).
    - exfalso. pose proof (Hm3 eq_refl HB) as E.
      apply (forest_empty_live B G5 s5 HS5) in E. set_solver. }
  split. { exact Hone5. }
  split. { simpl. rewrite Ecnt5, Ecnt3, Hcnt. rewrite wrap64_small by lia. lia. }
  split; [done|]. split; [done|]. repeat split; try done.
  intros x n Hx Hn. rewrite Hs8 by done. simpl.
  destruct (Hf3 x n Hn) as (n3 & Hn3 & ? & ?).
  destruct (Hk5 x n3 Hn3) as (n5 & Hn5 & ? & ?).
  exists n5. split; [done|]. split; congruence.
Qed.

(** On an empty heap, [fhDeleteMin] gives back nothing. *)
Lemma fhDeleteMin_empty s :
  Z.of_nat (length (_forest (heap s))) = _maxTreeOrd (heap s) →
  forest_empty s = true →
  fhDeleteMin (Some Heap) s = Ok None s.
Proof.
  intros Hlen Hfe. unfold fhDeleteMin.
  rewrite (bind_Ok _ _ _ _ _ (isHeapEmpty_spec s Hlen)). by rewrite Hfe.
Qed.

(** With live nodes but no cached minimum, [fhDeleteMin] dereferences
    NULL. *)
Lemma fhDeleteMin_crash s :
  Z.of_nat (length (_forest (heap s))) = _maxTreeOrd (heap s) →
  forest_empty s = false → min (heap s) = None →
  fhDeleteMin (Some Heap) s = Crash.
Proof.
  intros Hlen Hfe Hmin. unfold fhDeleteMin.
  rewrite (bind_Ok _ _ _ _ _ (isHeapEmpty_spec s Hlen)). rewrite Hfe.
  simpl. rewrite bind_getHeap. by rewrite Hmin.
Qed.

(** ** The live nodes are the nodes of the ghost set *)

Lemma son_ghost B G s f c :
  GShape B G s → f ∈ gL G → (son s f c ↔ c ∈ gch G f).
Proof.
  intros HG Hf. split.
  - induction 1 as [nf c Hnf Hc|b nb c _ IH Hnb Hc].
    + destruct (gs_node _ _ _ HG f Hf) as (n & Hn & _ & Hfs & _).
      assert (n = nf) as -> by congruence. rewrite Hfs in Hc.
      destruct (gch G f); [done|]. injection Hc as ->. apply elem_of_cons. by left.
    + apply list_elem_of_lookup_1 in IH as [i Hi].
      destruct (gs_sibs _ _ _ HG f Hf i b Hi) as (n & Hn & _ & _ & Hnx).
      assert (n = nb) as -> by congruence. rewrite Hnx in Hc.
      by eapply list_elem_of_lookup_2.
  - intros Hc. apply list_elem_of_lookup_1 in Hc as [i Hi]. revert c Hi.
    induction i as [|i IH]; intros c Hi.
    + destruct (gs_node _ _ _ HG f Hf) as (n & Hn & _ & Hfs & _).
      apply (son_first s f n c Hn). rewrite Hfs.
      destruct (gch G f); [done|]. simpl in Hi. by injection Hi as ->.
    + assert (is_Some (gch G f !! i)) as [b Hb].
      { apply lookup_lt_is_Some. apply lookup_lt_Some in Hi. lia. }
      destruct (gs_sibs _ _ _ HG f Hf i b Hb) as (nb & Hnb & _ & _ & Hnx).
      apply (son_next s f b nb c (IH b Hb) Hnb). by rewrite Hnx.
Qed.

Lemma live_ghost B G s a :
  Shape B G s → (live s a ↔ a ∈ gL G).
Proof.
  intros [HG Ho Hrk]. split.
  - induction 1 as [a (i & l & r & Hl & Hr & <-)|f c _ IH Hson].
    + by destruct (gs_forest _ _ _ HG i l r Hl Hr) as [? _].
    + apply (son_ghost B G s f c HG IH) in Hson.
      by destruct (gs_ch _ _ _ HG f c IH Hson).
  - revert a. apply (up_ind HG). intros a n Ha Hn IH.
    destruct (_father n) as [f|] eqn:Hf.
    + destruct (gs_father _ _ _ HG a n f Ha Hn Hf) as [HfL Hin].
      apply (live_son s f a (IH f eq_refl)).
      by apply (son_ghost B G s f a HG HfL).
    + destruct (gs_root _ _ _ HG a n Ha) as (_ & l & Hl & Hin);
        [rewrite Ho; set_solver|done..|].
      apply live_root. by exists (grk G a), l, (mkRec (mkTree a)).
Qed.

Lemma Inv_heap_ordered B G s : Inv B G s → heap_ordered s.
Proof.
  intros [HS Hord _ _] c nc p np Hc Hnc Hf Hnp.
  apply (live_ghost B G s c HS) in Hc.
  destruct (gs_father _ _ _ (sh_g _ _ _ HS) c nc p Hc Hnc Hf) as [Hp Hin].
  by apply (Hord p c np nc Hp Hin).
Qed.

Lemma Inv_min_correct B G s : Inv B G s → MinS G s → min_correct s.
Proof.
  intros [HS _ [HW1 HW2] _] HM. unfold min_correct.
  destruct (min (heap s)) as [m|] eqn:Hmin.
  - destruct (HW1 m eq_refl) as (Hm & nm & Hnm & _).
    split; [by apply (live_ghost B G s m HS)|].
    exists nm. split; [done|]. intros b nb Hb Hnb.
    apply (live_ghost B G s b HS) in Hb.
    destruct (HM b nb Hb Hnb) as (m' & nm' & E & Hnm' & Hle).
    rewrite Hmin in E. injection E as <-. by assert (nm' = nm) as -> by congruence.
  - intros a Ha. apply (live_ghost B G s a HS) in Ha.
    destruct (gs_lookup (sh_g _ _ _ HS) a Ha) as [na Hna].
    destruct (HM a na Ha Hna) as (m' & ? & E & _). by rewrite Hmin in E.
Qed.

Lemma Inv_roots_rank B G s a n :
  Inv B G s → in_forest s a → mem s !! a = Some n →
  ∃ l, _forest (heap s) !! Z.to_nat (_sonsCnt n) = Some l ∧
       mkRec (mkTree a) ∈ l.
Proof.
  intros [[HG Ho Hrk] _ _ _] (i & l & r & Hl & Hr & <-) Hn.
  destruct (gs_forest _ _ _ HG i l r Hl Hr) as (HL & _ & Hi & n' & Hn' & Hf).
  assert (n' = n) as -> by congruence.
  destruct (gs_node _ _ _ HG _ HL) as (n'' & Hn'' & _ & _ & Hc).
  assert (n'' = n) as -> by congruence.
  rewrite Hc, Nat2Z.id. rewrite <- (Hrk _ n HL Hn Hf), Hi.
  exists l. split; [done|]. by destruct r as [[?]].
Qed.

(** ** [fhDelete] *)

Lemma fhDelete_run B G s a na :
  Inv B G s → a ∈ gL G → mem s !! a = Some na →
  ∃ s1 G1 na1,
    fhDecreaseKey (Some Heap) (Some a) (key na) s = Ok (Some a) s1 ∧
    Inv B G1 s1 ∧ gL G1 = gL G ∧
    mem s1 !! a = Some na1 ∧ key na1 = 0 ∧ elem na1 = elem na ∧
    (∀ x n, x ≠ a → mem s !! x = Some n →
       ∃ n', mem s1 !! x = Some n' ∧ key n' = key n ∧ elem n' = elem n) ∧
    (MinS G s → MinS G1 s1) ∧
    match min (heap s1) with
    | None => fhDelete (Some Heap) (Some a) s = Crash
    | Some d =>
        ∃ s2 G2 nd1 nd2,
          fhDeleteMin (Some Heap) s1 = Ok (Some d) s2 ∧
          fhDelete (Some Heap) (Some a) s
            = Ok (Some d) (with_key d (key na) s2) ∧
          Inv B G2 (with_key d (key na) s2) ∧ gL G2 = gL G ∖ {[d]} ∧
          (B ≤ UINT64_MAX → MinS G2 (with_key d (key na) s2)) ∧
          one_tree_per_rank s2 ∧
          nodesCount (heap s2) = nodesCount (heap s) - 1 ∧
          mem s1 !! d = Some nd1 ∧ mem s2 !! d = Some nd2 ∧
          key nd2 = key nd1 ∧ elem nd2 = elem nd1 ∧ detached nd2 ∧
          (∀ x n, x ≠ d → mem s1 !! x = Some n →
             ∃ n', mem s2 !! x = Some n' ∧ key n' = key n ∧ elem n' = elem n)
    end.
Proof.
  intros HI Ha Hna.
  destruct (gs_node _ _ _ (sh_g _ _ _ (inv_shape _ _ _ HI)) a Ha)
    as (n0 & Hn0 & Hrange & _).
  assert (n0 = na) as -> by congruence. clear Hn0.
  assert (wrap64 (key na - key na) = 0) as Ew.
  { rewrite Z.sub_diag. by apply wrap64_small. }
  destruct (fhDecreaseKey_ok B G s a na (key na) HI Ha Hna)
    as (s1 & G1 & Hex1 & HS1 & HW1 & Ecnt1 & EL1 & (na1 & Hna1 & Hk1 & He1)
        & Hoth1 & Hord1 & HM1); [lia|].
  rewrite Ew in Hk1, Hord1, HM1.
  assert (Inv B G1 s1) as HI1.
  { split; [done|apply Hord1; lia|done|].
    rewrite Ecnt1, EL1. apply (inv_cnt _ _ _ HI). }
  exists s1, G1, na1. split; [done|]. split; [done|]. split; [done|].
  split; [done|]. split; [done|]. split; [done|]. split; [done|].
  split; [intros HM; apply HM1; [lia|done]|].
  destruct (min (heap s1)) as [d|] eqn:Hmin.
  - destruct (fhDeleteMin_ok B G1 s1 d HI1 Hmin)
      as (s2 & G2 & nd1 & nd2 & Hex2 & HI2 & EL2 & HM2 & Hone & Ecnt2 & Hnd1
          & Hnd2 & Hk2 & He2 & Hf1 & Hf2 & Hf3 & Hf4 & Hf5 & Hf6 & Hf7 & Hoth2).
    assert (d ∉ gL G2) as HdL by (rewrite EL2; set_solver).
    assert (∀ x, x ∈ gL G2 →
              mem (with_key d (key na) s2) !! x = mem s2 !! x) as Hfr.
    { intros x Hx. unfold with_key. cbn [mem with_mem].
      apply lookup_alter_ne. by intros ->. }
    exists s2, G2, nd1, nd2. split; [done|]. split.
    { unfold fhDelete. rewrite (bind_load _ _ _ _ Hna).
      rewrite (bind_Ok _ _ _ _ _ Hex1). rewrite (bind_Ok _ _ _ _ _ Hex2).
      by rewrite (bind_assign _ _ _ _ _ Hnd2). }
    split; [by apply (Inv_frame B G2 s2)|].
    split; [by rewrite EL2, EL1|]. split.
    { intros HB. apply (MinS_frame G2 s2); [apply HI2|by apply HM2|done..]. }
    split; [done|]. split; [by rewrite Ecnt2, Ecnt1|].
    by repeat split.
  - unfold fhDelete. rewrite (bind_load _ _ _ _ Hna).
    rewrite (bind_Ok _ _ _ _ _ Hex1). unfold bind at 1.
    rewrite fhDeleteMin_crash; [done| | |done].
    + apply (gs_len _ _ _ (sh_g _ _ _ HS1)).
    + apply not_true_iff_false. rewrite (forest_empty_live B G1 s1 HS1).
      rewrite <- EL1 in Ha. set_solver.
Qed.

Lemma fhDelete_inv B G s a r s' :
  Inv B G s → a ∈ gL G →
  fhDelete (Some Heap) (Some a) s = Ok r s' →
  ∃ G', Inv B G' s' ∧ (B ≤ UINT64_MAX → MinS G' s').
Proof.
  intros HI Ha Hex.
  destruct (gs_lookup (sh_g _ _ _ (inv_shape _ _ _ HI)) a Ha) as [na Hna].
  destruct (fhDelete_run B G s a na HI Ha Hna)
    as (s1 & G1 & na1 & _ & _ & _ & _ & _ & _ & _ & _ & Hcase).
  destruct (min (heap s1)) as [d|]; [|congruence].
  destruct Hcase as (s2 & G2 & nd1 & nd2 & _ & Hex' & HI2 & _ & HM2 & _).
  rewrite Hex' in Hex. injection Hex as <- <-. eauto.
Qed.

(** ** [fhIncreaseKey] *)

Lemma fhIncreaseKey_inv B G s a na inc r s' :
  Inv B G s → a ∈ gL G → mem s !! a = Some na →
  wrap64 (key na + inc) < B →
  fhIncreaseKey (Some Heap) (Some a) inc s = Ok r s' →
  ∃ G', Inv B G' s' ∧ (B ≤ UINT64_MAX → MinS G' s').
Proof.
  intros HI Ha Hna Hlt Hex.
  destruct (fhDelete_run B G s a na HI Ha Hna)
    as (s1 & G1 & na1 & _ & HI1 & EL1 & _ & _ & _ & _ & _ & Hcase).
  unfold fhIncreaseKey in Hex.
  destruct (min (heap s1)) as [d|] eqn:Hmin.
  2:{ unfold bind at 1 in Hex. by rewrite Hcase in Hex. }
  destruct Hcase as (s2 & G2 & nd1 & nd2 & _ & Hex' & HI2 & EL2 & HM2 & _
                     & Ecnt2 & _ & Hnd2 & _ & _ & Hdet & _).
  rewrite (bind_Ok _ _ _ _ _ Hex') in Hex.
  set (s3 := with_key d (key na) s2) in *.
  assert (mem s3 !! d = Some (set_key (key na) nd2)) as Hnd3.
  { unfold s3, with_key. cbn [mem with_mem]. rewrite lookup_alter_eq.
    by rewrite Hnd2. }
  rewrite (bind_assign _ _ _ _ _ Hnd3) in Hex.
  set (s4 := with_mem _ s3) in Hex.
  assert (d ∉ gL G2) as HdL by (rewrite EL2; set_solver).
  assert (mem s4 !! d
          = Some (set_key (wrap64 (key na + inc)) (set_key (key na) nd2)))
    as Hnd4.
  { unfold s4. cbn [mem with_mem]. rewrite lookup_alter_eq. by rewrite Hnd3. }
  assert (Inv B G2 s4) as HI4.
  { apply (Inv_frame B G2 s3); [done|done|]. intros x Hx. unfold s4.
    cbn [mem with_mem]. apply lookup_alter_ne. by intros ->. }
  destruct Hdet as (Hf1 & Hf2 & _ & _ & _ & _ & Hf7).
  pose proof (gs_size _ _ _ (sh_g _ _ _ (inv_shape _ _ _ HI))) as Hsz.
  pose proof (inv_cnt _ _ _ HI) as Hcnt.
  destruct (insertNode_inv B G2 s4 d _ HI4 HdL Hnd4)
    as (s5 & G5 & Hex5 & HI5 & EL5 & HM5); [done|done|done| | |].
  { simpl. pose proof (wrap64_range (key na + inc)). lia. }
  { change (nodesCount (heap s4)) with (nodesCount (heap s2)). lia. }
  unfold bind at 1 in Hex. rewrite Hex5 in Hex.
  injection Hex as <- <-. exists G5. split; [done|].
  intros HB. apply HM5.
  apply (MinS_frame G2 s3); [apply HI2|by apply HM2|done|].
  intros x Hx. unfold s4. cbn [mem with_mem]. apply lookup_alter_ne.
  by intros ->.
Qed.

(** ** Reachable states are good *)

Lemma Inv_init B n h :
  0 < n < 2 ^ 64 → createFibHeap n = Some h →
  Inv B ghost_empty (init_state h) ∧ MinS ghost_empty (init_state h).
Proof.
  intros Hn Hc. unfold createFibHeap in Hc.
  destruct (n =? 0) eqn:E; [done|].
  destruct (calloc_fits n sizeof_ptr); [|done]. injection Hc as <-.
  assert (∀ i l, replicate (Z.to_nat n) createDLList !! i = Some l → l = [])
    as Hrep.
  { intros i l Hl. by apply lookup_replicate in Hl as [-> _]. }
  split; [split; [split; [split|..]|..]|]; simpl; try set_solver.
  - intros i l r Hl Hr. apply Hrep in Hl as ->. by apply elem_of_nil in Hr.
  - intros i l Hl. apply Hrep in Hl as ->. constructor.
  - rewrite length_replicate. lia.
  - intros a c na nc Ha. set_solver.
  - split; simpl; [done|done].
  - intros b nb Hb. set_solver.
Qed.

Lemma step_good B s s' :
  B ≤ 2 ^ 64 → good B s → step B false s s' → good B s'.
Proof.
  intros HB64 (G & HI & HM) Hstep.
  pose proof (inv_shape _ _ _ HI) as HS.
  destruct Hstep as [s e k r s' Hk Hex|s a n d r s' Ha Hn Hd Hle Hex
                    |s r s' Hex|s a r s' Ha Hex|s a n inc r s' Ha Hn Hi Hlt Hex].
  - destruct (decide (nodesCount (heap s) = ULONG_MAX)) as [Hfull|Hfull].
    + rewrite fhInsert_full in Hex by done. injection Hex as _ <-.
      by exists G.
    + destruct (fhInsert_inv B G s e k HI Hk Hfull)
        as (a & s1 & G1 & Hex1 & HI1 & _ & _ & HM1).
      rewrite Hex1 in Hex. injection Hex as _ <-. exists G1.
      split; [done|]. intros HB. by apply HM1, HM.
  - apply (live_ghost B G s a HS) in Ha. specialize (Hle eq_refl).
    destruct (gs_node _ _ _ (sh_g _ _ _ HS) a Ha) as (n0 & Hn0 & Hrange & _).
    assert (n0 = n) as -> by congruence.
    assert (wrap64 (key n - d) = key n - d) as Ew by (apply wrap64_small; lia).
    destruct (fhDecreaseKey_ok B G s a n d HI Ha Hn)
      as (s1 & G1 & Hex1 & HS1 & HW1 & Ecnt1 & EL1 & _ & _ & Hord1 & HM1);
      [lia|].
    rewrite Hex1 in Hex. injection Hex as _ <-. exists G1. split.
    + split; [done|apply Hord1; lia|done|].
      rewrite Ecnt1, EL1. apply (inv_cnt _ _ _ HI).
    + intros HB. apply HM1; [lia|by apply HM].
  - pose proof (gs_len _ _ _ (sh_g _ _ _ HS)) as [Hlen _].
    destruct (forest_empty s) eqn:Hfe.
    + rewrite fhDeleteMin_empty in Hex by done. injection Hex as _ <-.
      by exists G.
    + destruct (min (heap s)) as [m|] eqn:Hmin.
      * destruct (fhDeleteMin_ok B G s m HI Hmin)
          as (s1 & G1 & nm & nm' & Hex1 & HI1 & _ & HM1 & _).
        rewrite Hex1 in Hex. injection Hex as _ <-. exists G1. eauto.
      * rewrite fhDeleteMin_crash in Hex by done. done.
  - apply (live_ghost B G s a HS) in Ha.
    by apply (fhDelete_inv B G s a r s' HI Ha).
  - apply (live_ghost B G s a HS) in Ha.
    by apply (fhIncreaseKey_inv B G s a n inc r s' HI Ha Hn).
Qed.

Lemma reachable_good B s : B ≤ 2 ^ 64 → reachable B false s → good B s.
Proof.
  intros HB64. induction 1 as [n h Hn Hc|s s' _ IH Hstep].
  - destruct (Inv_init B n h Hn Hc) as [HI HM]. by exists ghost_empty.
  - by apply (step_good B s s').
Qed.

(** ** The cascading cut follows its specification *)

Lemma CutStep_spec B G s a na f G2 s3 :
  Shape B G s → a ∈ gL G → mem s !! a = Some na → _father na = Some f →
  CutStep B G s a f G2 s3 → cut_spec s a f s3.
Proof.
  intros [HG Ho Hrk] Ha Hna Hfa
    [HG2 Ho2 HF2 Hrk2 Hrkf HfL (nf & nf3 & Hnf & Hnf3 & Effa & Efgr
    & Efpos & Efcnt & Hcnt1) (k & Hk & Hch2)
    (na0 & na3 & l & Hna0 & Hna3 & Hfa3 & Hgr3 & Hcnt3 & Hfs3 & Hpos3 & Hl & HF3)
    Hmto Hgrief].
  assert (na0 = na) as -> by congruence. clear Hna0.
  pose proof (gs_nodup _ _ _ HG f HfL) as Hnd.
  assert (f ∈ gL G2) as HfL2 by (by rewrite (fr_L _ _ _ _ HF2)).
  assert (gch G2 f = delete k (gch G f)) as Echf.
  { by rewrite Hch2, fn_lookup_insert. }
  split.
  - split.
    + rewrite (son_ghost B G2 s3 f a HG2 HfL2), Echf. intros Hin.
      apply list_elem_of_lookup_1 in Hin as [j Hj].
      rewrite list_lookup_delete in Hj.
      pose proof (NoDup_lookup _ _ _ _ Hnd Hj Hk). case_decide; lia.
    + intros c Hc. rewrite (son_ghost B G2 s3 f c HG2 HfL2), Echf.
      rewrite (son_ghost B G s f c HG HfL). split.
      * apply elem_of_delete_in.
      * intros Hin. by apply (elem_of_delete_ne _ k a).
  - exists nf, nf3. by repeat split.
  - destruct (fr_fwd _ _ _ _ HF2 a na Hna) as (n' & Hn' & Hk' & He' & _).
    assert (n' = na3) as -> by congruence.
    exists na, na3, (l ++ [mkRec (mkTree a)]).
    repeat split; try done.
    + rewrite HF3. apply list_lookup_insert_eq. by eapply lookup_lt_Some.
    + set_solver.
Qed.

Lemma cascade_trace B fuel :
  ∀ G s a na f,
    Shape B G s → a ∈ gL G → mem s !! a = Some na → _father na = Some f →
    (above G a < fuel)%nat →
    ∃ s', _cascadedDetach_rec fuel a s = Ok tt s' ∧ cascade_spec s a s'.
Proof.
  induction fuel as [|fuel IH]; intros G s a na f HS Ha Hna Hfa Hfuel; [lia|].
  destruct (cut_exec B G s a na f HS Ha Hna Hfa) as (s3 & G2 & Hex & HC).
  pose proof (CutStep_spec B G s a na f G2 s3 HS Ha Hna Hfa HC) as Hcut.
  destruct HC as [HG2 Ho2 HF2 Hrk2 Hrkf HfL (nf & nf3 & Hnf & Hnf3 & Effa & Efgr
    & Efpos & Efcnt & Hcnt1) _
    (na0 & na3 & l & Hna0 & Hna3 & Hfa3 & Hgr3 & Hcnt3 & Hfs3 & Hpos3 & Hl & HF3)
    Hmto _].
  destruct HS as [HG Ho Hrk].
  rewrite Hex. unfold cascade_tail.
  rewrite (bind_load _ _ _ _ Hnf3).
  destruct (_father nf3) as [g|] eqn:Hfg.
  - destruct (_grief nf3 =? 1) eqn:Hgr.
    + assert (Shape B G2 s3) as HS3.
      { split; [done..|]. intros x n Hx Hn Hfx.
        apply (Hrk2 x n Hx); [|done..]. intros ->. congruence. }
      destruct (IH G2 s3 f nf3 g HS3) as (s' & Hex' & Hspec'); try done.
      { by rewrite (fr_L _ _ _ _ HF2). }
      { rewrite (above_frame _ _ _ _ f HF2).
        pose proof (above_father HG a na f Ha Hna Hfa). lia. }
      exists s'. split; [done|].
      apply (cascade_marked s a f s3 nf3 g s'); try done.
      by apply Z.eqb_eq.
    + rewrite (assign_alter _ _ _ _ Hnf3). eexists. split; [done|].
      apply (cascade_unmarked s a f s3 nf3 g); try done.
      by apply Z.eqb_neq.
  - assert (f ∉ gorph G2) as Hfo2 by (rewrite Ho2; set_solver).
    assert (f ∈ gL G2) as HfL2 by (by rewrite (fr_L _ _ _ _ HF2)).
    destruct (gs_root _ _ _ HG2 f nf3 HfL2 Hfo2 Hnf3 Hfg)
      as (Hpos & l1 & Hl1 & Hin1).
    rewrite Hpos.
    destruct (gs_node _ _ _ HG f HfL) as (nf0 & Hnf0 & _ & _ & Hcntf).
    assert (nf0 = nf) as -> by congruence. clear Hnf0.
    assert (f ∉ gorph G) as Hfo by (rewrite Ho; set_solver).
    pose proof (gs_rank _ _ _ HG f HfL Hfo) as Hrankf.
    destruct (gs_len _ _ _ HG) as [Hlen Hmto'].
    set (len := length (gch G f)) in *.
    assert (grk G2 f = len) as Hrkf2.
    { rewrite Hrkf. apply (Hrk f nf); [done..|congruence]. }
    rewrite Hrkf2 in Hl1.
    assert (wrap64 (_sonsCnt nf3 + 1) = Z.of_nat len) as Ew.
    { rewrite Efcnt, Hcntf. rewrite wrap64_small; lia. }
    rewrite Ew.
    rewrite (bind_forest_get (Z.of_nat len) l1) by (by rewrite Nat2Z.id).
    destruct (popRecord_spec (mkRec (mkTree f)) l1) as (la & lb & El1 & Hpop);
      [by apply (gs_fnodup _ _ _ HG2 len)|done|].
    rewrite Hpop.
    rewrite (bind_forest_set (Z.of_nat len) _ l1) by (by rewrite Nat2Z.id).
    rewrite Nat2Z.id.
    assert (len ≠ 0)%nat as Hlen0 by lia.
    assert (Z.to_nat (_sonsCnt nf3) = pred len) as Ecnt3 by lia.
    destruct (_forest (heap s3) !! pred len) as [l0|] eqn:Hl0.
    2:{ apply lookup_ge_None in Hl0. rewrite HF3, length_insert in Hl0. lia. }
    rewrite (bind_forest_get (_sonsCnt nf3) l0).
    2:{ rewrite Ecnt3. cbn [heap with_forest _forest set_forest].
        rewrite list_lookup_insert_ne by lia. done. }
    unfold forest_set. rewrite Ecnt3.
    cbn [heap with_forest _forest set_forest].
    rewrite list_lookup_insert_ne by lia. rewrite Hl0.
    eexists. split; [done|].
    apply (cascade_root s a f s3 nf3); try done.
    exists nf3, la, lb, l0. rewrite Ecnt3.
    replace (S (pred len)) with len by lia.
    split; [done|]. split; [by rewrite <- El1|]. split; [done|].
    done.
Qed.

(** ** Valid states *)

Lemma GShape_mono B B' G s : B ≤ B' → GShape B G s → GShape B' G s.
Proof.
  intros HB [H1 H2 H3 H4 H5 H6 H7 H8 H9 H10 H11 H12]. split; try done.
  intros a Ha. destruct (H1 a Ha) as (n & Hn & Hk & Hrest).
  exists n. split; [done|]. split; [lia|done].
Qed.

Lemma Inv_mono B B' G s : B ≤ B' → Inv B G s → Inv B' G s.
Proof.
  intros HB [[HG Ho Hrk] Hord HW Hcnt]. split; [split|..]; try done.
  by apply (GShape_mono B B').
Qed.

Lemma reachable_valid s : reachable UINT64_MAX false s → valid s.
Proof.
  intros Hr. destruct (reachable_good UINT64_MAX s) as (G & HI & HM);
    [unfold UINT64_MAX; lia|done|].
  exists G. split; [|apply HM; lia].
  apply (Inv_mono UINT64_MAX); [unfold UINT64_MAX; lia|done].
Qed.

Lemma alter_ext_at (f g : FibTreeNode → FibTreeNode) a n
    (m : gmap addr FibTreeNode) :
  m !! a = Some n → f n = g n → alter f a m = alter g a m.
Proof.
  intros Hn Hfg. apply map_eq. intros x. rewrite !lookup_alter.
  case_decide; [subst; rewrite Hn; simpl; by rewrite Hfg|done].
Qed.

Lemma after_Ok {A} (m : M A) s r s' : m s = Ok r s' → after m s = s'.
Proof. intros H. unfold after. by rewrite H. Qed.

(** ** The scenarios are reachable *)

Lemma reach_fresh B w : reachable B w (fresh_heap 2).
Proof. apply (reach_init B w 2); [lia|reflexivity]. Qed.

Lemma reach_insert B w s k :
  0 ≤ k < B →
  reachable B w s → reachable B w (after (fhInsert (Some Heap) 0 k) s).
Proof.
  intros Hk Hr. unfold after.
  destruct (fhInsert (Some Heap) 0 k s) as [r s'| |] eqn:E; [|done..].
  apply (reach_step B w s s' Hr). by apply (step_insert B w s 0 k r s').
Qed.

Lemma reach_deleteMin B w s :
  reachable B w s → reachable B w (after (fhDeleteMin (Some Heap)) s).
Proof.
  intros Hr. unfold after.
  destruct (fhDeleteMin (Some Heap) s) as [r s'| |] eqn:E; [|done..].
  apply (reach_step B w s s' Hr). by apply (step_deleteMin B w s r s').
Qed.

Lemma reach_decrease B w s a n d :
  live s a → mem s !! a = Some n → 0 ≤ d < 2 ^ 64 →
  (w = false → d ≤ key n) →
  reachable B w s →
  reachable B w (after (fhDecreaseKey (Some Heap) (Some a) d) s).
Proof.
  intros Ha Hn Hd Hw Hr. unfold after.
  destruct (fhDecreaseKey (Some Heap) (Some a) d s) as [r s'| |] eqn:E;
    [|done..].
  apply (reach_step B w s s' Hr).
  by apply (step_decrease B w s a n d r s').
Qed.

Lemma reach_five_nodes B w : 4 < B → reachable B w five_nodes.
Proof.
  intros HB. unfold five_nodes, insert_all. simpl.
  repeat (apply reach_insert; [lia|]). apply reach_fresh.
Qed.

Lemma reach_four_nodes B w : 4 < B → reachable B w four_nodes.
Proof. intros HB. by apply reach_deleteMin, reach_five_nodes. Qed.

Lemma live_four_nodes_3 : live four_nodes 3%nat.
Proof.
  apply (live_son _ 2%nat); [apply (live_son _ 1%nat)|].
  - apply live_root. exists 2%nat, [mkRec (mkTree 1%nat)], (mkRec (mkTree 1%nat)).
    split; [vm_compute; reflexivity|]. split; [set_solver|done].
  - eapply son_first; [vm_compute; reflexivity|reflexivity].
  - eapply son_first; [vm_compute; reflexivity|reflexivity].
Qed.

(** * The claims *)

(** C7: on a valid heap, when the decreased key of a live node [a] with
    father [f] is smaller than the key of [f], [fhDecreaseKey] runs the
    cascading cut of the specification ([cascade_spec]: [a] leaves the sons
    of [f], whose count of sons goes down by one, [a] is unmarked and filed
    as a root in the list of its own unchanged number of sons; then [f] is
    refiled one list lower if it is a root, cut in turn if it has a father
    and is marked, marked if it has a father and is not marked), then
    updates the cached minimum with [a], and returns [a]. *)
Theorem C7_cascading_cut s a na f nf d :
  valid s → live s a → mem s !! a = Some na → _father na = Some f →
  mem s !! f = Some nf → wrap64 (key na - d) < key nf →
  ∃ s1 s',
    cascade_spec (with_key a (wrap64 (key na - d)) s) a s1 ∧
    _updateMin (Some a) s1 = Ok tt s' ∧
    fhDecreaseKey (Some Heap) (Some a) d s = Ok (Some a) s'.
Proof.
  intros (G & [HS Hord HW Hcnt] & HM) Ha Hna Hfa Hnf Hlt.
  apply (live_ghost _ G s a HS) in Ha.
  set (k' := wrap64 (key na - d)) in *.
  set (s0 := with_key a k' s).
  set (na0 := set_key k' na).
  assert (mem s0 !! a = Some na0) as Hna0.
  { unfold s0, with_key. cbn [mem with_mem]. rewrite lookup_alter_eq.
    by rewrite Hna. }
  assert (a ≠ f) as Haf.
  { destruct (gs_father _ _ _ (sh_g _ _ _ HS) a na f Ha Hna Hfa) as [HfL Hin].
    by apply (gs_son_ne (sh_g _ _ _ HS) f a). }
  assert (mem s0 !! f = Some nf) as Hnf0.
  { unfold s0, with_key. cbn [mem with_mem]. by rewrite lookup_alter_ne. }
  assert (Shape (2 ^ 64) G s0) as HS0.
  { apply Shape_alter_keep; [done|]. intros n Hn _.
    assert (n = na) as -> by congruence.
    split; [by repeat split|apply wrap64_range]. }
  assert (above G a < walk_fuel s0)%nat as Hfuel.
  { unfold walk_fuel. pose proof (above_le_size (G := G) a).
    pose proof (gs_size_mem (sh_g _ _ _ HS0)). lia. }
  destruct (cascade_trace _ (walk_fuel s0) G s0 a na0 f HS0 Ha Hna0 Hfa Hfuel)
    as (s1 & Hex1 & Hspec).
  destruct (cascadedDetach_ok _ G s0 a na0 f HS0 Ha Hna0 Hfa)
    as (s1' & G1 & Hex1' & HS1 & HF1 & (na1 & Hna1 & Hfa1) & _).
  unfold _cascadedDetach in Hex1'. rewrite Hex1 in Hex1'.
  injection Hex1' as <-.
  destruct (updateMin_fast s1 a na1
              (proj1 (gs_len _ _ _ (sh_g _ _ _ HS1))) Hna1)
    as (m' & Hum & _).
  { intros m Hm. rewrite (fr_min _ _ _ _ HF1) in Hm.
    destruct HW as [HW _]. destruct (HW m Hm) as (HmL & _).
    apply (gs_lookup (sh_g _ _ _ HS1)). by rewrite (fr_L _ _ _ _ HF1). }
  exists s1, (with_min m' s1). split; [done|]. split; [done|].
  unfold fhDecreaseKey.
  rewrite (bind_assign _ _ _ _ _ Hna).
  rewrite (alter_ext_at (λ n, set_key (wrap64 (key n - d)) n) (set_key k')
             a na (mem s) Hna eq_refl).
  change (with_mem (alter (set_key k') a (mem s)) s) with s0.
  rewrite (bind_load _ _ _ _ Hna0). simpl _father. rewrite Hfa.
  assert ((fn <- load f;;
           if key na0 <? key fn then _cascadedDetach a else ret ()) s0
          = Ok tt s1) as Hinner.
  { rewrite (bind_load _ _ _ _ Hnf0). change (key na0) with k'.
    destruct (Z.ltb_spec k' (key nf)); [done|lia]. }
  rewrite (bind_Ok _ _ _ _ _ Hinner).
  rewrite (bind_load _ _ _ _ Hna1). rewrite Hfa1.
  by rewrite (bind_Ok _ _ _ _ _ Hum).
Qed.

Lemma C7_cascading_cut_witness :
  ∃ s1 s',
    cascade_spec (with_key 3%nat 1 four_nodes) 3%nat s1 ∧
    _updateMin (Some 3%nat) s1 = Ok tt s' ∧
    fhDecreaseKey (Some Heap) (Some 3%nat) 2 four_nodes = Ok (Some 3%nat) s'.
Proof.
  apply (C7_cascading_cut four_nodes 3%nat
           (mkNode 3 0 (Some 2%nat) None None None None 0 0) 2%nat
           (mkNode 2 0 (Some 1%nat) (Some 3%nat) (Some 4%nat) None None 1 0) 2).
  - apply reachable_valid, reach_four_nodes. unfold UINT64_MAX. lia.
  - apply live_four_nodes_3.
  - vm_compute. reflexivity.
  - reflexivity.
  - vm_compute. reflexivity.
  - vm_compute. reflexivity.
Defined.

Lemma live_four_nodes_1 : live four_nodes 1%nat.
Proof.
  apply live_root. exists 2%nat, [mkRec (mkTree 1%nat)], (mkRec (mkTree 1%nat)).
  split; [vm_compute; reflexivity|]. split; [repeat constructor|done].
Qed.

Lemma reach_marked_root : reachable UINT64_MAX false marked_root.
Proof.
  apply reach_deleteMin.
  apply (reach_decrease _ _ _ _
           (mkNode 3 0 (Some 2%nat) None None None None 0 0)).
  - apply live_four_nodes_3.
  - vm_compute. reflexivity.
  - lia.
  - intros _. simpl. lia.
  - apply reach_four_nodes. unfold UINT64_MAX. lia.
Qed.

(** C2 (as stated, refuted): after inserting the keys 3 and 7 and
    decreasing the first by 5, a state reached through the public
    operations, the cached minimum has the wrapped key [2^64 - 2] while a
    live node has key 7. *)
Lemma C2_counterexample :
  reachable (2 ^ 64) true wrapped_min ∧ ¬ min_correct wrapped_min.
Proof.
  split.
  - apply (reach_decrease _ _ _ _ (mkNode 3 0 None None None None
                                     (Some (mkRec (mkTree 0%nat))) 0 0)).
    + apply live_root.
      exists 0%nat, [mkRec (mkTree 0%nat); mkRec (mkTree 1%nat)],
        (mkRec (mkTree 0%nat)).
      split; [vm_compute; reflexivity|]. split; [repeat constructor|done].
    + vm_compute. reflexivity.
    + lia.
    + done.
    + unfold two_nodes, insert_all. simpl.
      repeat (apply reach_insert; [lia|]). apply reach_fresh.
  - unfold min_correct.
    assert (min (heap wrapped_min) = Some 0%nat) as -> by (vm_compute; reflexivity).
    intros (_ & nm & Hnm & Hle).
    assert (mem wrapped_min !! 0%nat
            = Some (mkNode (2 ^ 64 - 2) 0 None None None None
                      (Some (mkRec (mkTree 0%nat))) 0 0)) as E0
      by (vm_compute; reflexivity).
    rewrite E0 in Hnm. injection Hnm as <-.
    enough (2 ^ 64 - 2 ≤ 7) by lia.
    apply (Hle 1%nat (mkNode 7 0 None None None None
                        (Some (mkRec (mkTree 1%nat))) 0 0)).
    + apply live_root.
      exists 0%nat, [mkRec (mkTree 0%nat); mkRec (mkTree 1%nat)],
        (mkRec (mkTree 1%nat)).
      split; [vm_compute; reflexivity|]. split; [repeat constructor|done].
    + vm_compute. reflexivity.
Qed.

(** C2 (amended): in every state reached from a freshly created heap
    through the public operations, with keys below [UINT64_MAX] and no
    decrease by more than the key of the node, the cached minimum is a live
    node whose key is the smallest among the live nodes, and it is empty
    exactly when no node is live. *)
Theorem C2_min_correct s : reachable UINT64_MAX false s → min_correct s.
Proof.
  intros Hr.
  destruct (reachable_good UINT64_MAX s) as (G & HI & HM);
    [unfold UINT64_MAX; lia|done|].
  apply (Inv_min_correct UINT64_MAX G s HI). apply HM. lia.
Qed.

Lemma C2_min_correct_witness : min_correct four_nodes.
Proof.
  apply (C2_min_correct four_nodes). apply reach_four_nodes.
  unfold UINT64_MAX. lia.
Defined.

(** C3 (as stated, refuted): in [four_nodes] the root 1 has the son 2;
    decreasing the key 1 of the root by 2 wraps it to [2^64 - 1], above the
    key 2 of its son. *)
Lemma C3_counterexample :
  reachable (2 ^ 64) true wrapped_root ∧ ¬ heap_ordered wrapped_root.
Proof.
  split.
  - apply (reach_decrease _ _ _ _ (mkNode 1 0 None (Some 2%nat) None None
                                     (Some (mkRec (mkTree 1%nat))) 2 0)).
    + apply live_four_nodes_1.
    + vm_compute. reflexivity.
    + lia.
    + done.
    + apply reach_four_nodes. lia.
  - intros H.
    enough (2 ^ 64 - 1 ≤ 2) by lia.
    apply (H 2%nat (mkNode 2 0 (Some 1%nat) (Some 3%nat) (Some 4%nat)
                      None None 1 0)
             1%nat (mkNode (2 ^ 64 - 1) 0 None (Some 2%nat) None None
                      (Some (mkRec (mkTree 1%nat))) 2 0)).
    + apply (live_son _ 1%nat).
      * apply live_root.
        exists 2%nat, [mkRec (mkTree 1%nat)], (mkRec (mkTree 1%nat)).
        split; [vm_compute; reflexivity|]. split; [repeat constructor|done].
      * eapply son_first; [vm_compute; reflexivity|reflexivity].
    + vm_compute. reflexivity.
    + reflexivity.
    + vm_compute. reflexivity.
Qed.

(** C3 (amended): in every state reached from a freshly created heap
    through the public operations, with no decrease by more than the key
    of the node, every live node that has a father has a key at least the
    key of its father. *)
Theorem C3_heap_ordered s : reachable (2 ^ 64) false s → heap_ordered s.
Proof.
  intros Hr.
  destruct (reachable_good (2 ^ 64) s) as (G & HI & _); [lia|done|].
  apply (Inv_heap_ordered (2 ^ 64) G s HI).
Qed.

Lemma C3_heap_ordered_witness : heap_ordered four_nodes.
Proof.
  apply (C3_heap_ordered four_nodes). apply reach_four_nodes. lia.
Defined.

(** C4 (the code at the failing input): insert the keys 0 to 4, remove the
    minimum, decrease the key of node 3 by 2 (it is cut from node 2, which
    is marked), remove the minimum again: node 2 is promoted to a root by
    [fhDeleteMin] and is filed in the forest with its mark still set. *)
Theorem C4_marked_root :
  reachable UINT64_MAX false marked_root ∧
  in_forest marked_root 2%nat ∧
  (∃ n, mem marked_root !! 2%nat = Some n ∧ _father n = None ∧ _grief n = 1) ∧
  ¬ roots_unmarked marked_root.
Proof.
  assert (in_forest marked_root 2%nat) as Hin.
  { exists 0%nat, [mkRec (mkTree 2%nat)], (mkRec (mkTree 2%nat)).
    split; [vm_compute; reflexivity|]. split; [repeat constructor|done]. }
  assert (mem marked_root !! 2%nat
          = Some (mkNode 2 0 None None None None
                    (Some (mkRec (mkTree 2%nat))) 0 1)) as E
    by (vm_compute; reflexivity).
  split; [apply reach_marked_root|]. split; [done|]. split; [eauto|].
  intros H. specialize (H 2%nat _ Hin E). done.
Qed.

(** C1 (the code at the failing input): two nodes of key [UINT64_MAX] are
    inserted in a fresh heap; the first [fhDeleteMin] returns one of them
    and leaves the cached minimum empty although the other node is still
    filed in the forest; the second [fhDeleteMin] dereferences the empty
    minimum. *)
Theorem C1_heapsort_max_keys :
  reachable (2 ^ 64) false two_max ∧
  ∃ d s',
    fhDeleteMin (Some Heap) two_max = Ok (Some d) s' ∧
    min (heap s') = None ∧ in_forest s' 1%nat ∧
    fhDeleteMin (Some Heap) s' = Crash.
Proof.
  split.
  - unfold two_max, insert_all. simpl.
    repeat (apply reach_insert; [unfold UINT64_MAX; lia|]). apply reach_fresh.
  - eexists _, _. split; [vm_compute; reflexivity|].
    split; [reflexivity|]. split.
    + exists 0%nat, [mkRec (mkTree 1%nat)], (mkRec (mkTree 1%nat)).
      split; [reflexivity|]. split; [repeat constructor|done].
    + vm_compute. reflexivity.
Qed.

Lemma with_min_id s : with_min (min (heap s)) s = s.
Proof. by destruct s as [[]]. Qed.

Lemma set_key_id n : set_key (key n) n = n.
Proof. by destruct n. Qed.

(** C10: on a valid heap, decreasing the key of a live node by 0 returns
    the node and leaves the whole state as it was: same store (keys, links,
    marks), same forest, same cached minimum, same node counter. *)
Theorem C10_zero_decrease s a :
  valid s → live s a →
  fhDecreaseKey (Some Heap) (Some a) 0 s = Ok (Some a) s.
Proof.
  intros (G & [HS Hord HW Hcnt] & HM) Ha.
  apply (live_ghost _ G s a HS) in Ha.
  pose proof (sh_g _ _ _ HS) as HG.
  destruct (gs_node _ _ _ HG a Ha) as (na & Hna & Hrange & _).
  assert (alter (λ n, set_key (wrap64 (key n - 0)) n) a (mem s) = mem s) as Ealt.
  { apply alter_id. intros n Hn. assert (n = na) as -> by congruence.
    rewrite Z.sub_0_r, wrap64_small by done. apply set_key_id. }
  unfold fhDecreaseKey.
  rewrite (bind_assign _ _ _ _ _ Hna). rewrite Ealt, with_mem_id.
  rewrite (bind_load _ _ _ _ Hna).
  destruct (_father na) as [f|] eqn:Hfa.
  - destruct (gs_father _ _ _ HG a na f Ha Hna Hfa) as [HfL Hin].
    destruct (gs_lookup HG f HfL) as [nf Hnf].
    pose proof (Hord f a nf na HfL Hin ltac:(done) Hnf Hna) as Hle.
    assert ((fn <- load f;;
             if key na <? key fn then _cascadedDetach a else ret ()) s
            = Ok tt s) as Hinner.
    { rewrite (bind_load _ _ _ _ Hnf).
      destruct (Z.ltb_spec (key na) (key nf)); [lia|done]. }
    rewrite (bind_Ok _ _ _ _ _ Hinner).
    rewrite (bind_load _ _ _ _ Hna). by rewrite Hfa.
  - unfold bind at 1. unfold ret at 1.
    rewrite (bind_load _ _ _ _ Hna). rewrite Hfa.
    destruct (HM a na Ha Hna) as (m & nm & Hmin & Hnm & Hle).
    destruct (updateMin_fast s a na (proj1 (gs_len _ _ _ HG)) Hna)
      as (m' & Hum & _ & _ & Hm3).
    { intros m0 Hm0. destruct HW as [HW _].
      destruct (HW m0 Hm0) as (_ & n & ? & _). eauto. }
    rewrite (bind_Ok _ _ _ _ _ Hum).
    assert (forest_empty s = false) as Hfe.
    { apply not_true_iff_false. rewrite (forest_empty_live _ G s HS).
      set_solver. }
    rewrite (Hm3 Hfe m nm Hmin Hnm).
    destruct (Z.ltb_spec (key na) (key nm)); [lia|].
    rewrite <- Hmin, with_min_id. done.
Qed.

Lemma C10_zero_decrease_witness :
  fhDecreaseKey (Some Heap) (Some 3%nat) 0 four_nodes = Ok (Some 3%nat) four_nodes.
Proof.
  apply (C10_zero_decrease four_nodes 3%nat).
  - apply reachable_valid, reach_four_nodes. unfold UINT64_MAX. lia.
  - apply live_four_nodes_3.
Defined.

(** C8: on a valid heap, [fhDecreaseKey] on a live node with an amount
    [d] of type [uint64_t] returns the node and sets its key to the old key
    minus [d] modulo [2^64]; on a key 3 and the amount 5 the new key is
    [2^64 - 2]: the underflow is not refused. *)
Theorem C8_decrease_wraps s a na d :
  valid s → live s a → mem s !! a = Some na → 0 ≤ d < 2 ^ 64 →
  ∃ s' na',
    fhDecreaseKey (Some Heap) (Some a) d s = Ok (Some a) s' ∧
    mem s' !! a = Some na' ∧
    key na' = wrap64 (key na - d) ∧
    (key na = 3 → d = 5 → key na' = 2 ^ 64 - 2).
Proof.
  intros (G & HI & HM) Ha Hna Hd.
  apply (live_ghost _ G s a (inv_shape _ _ _ HI)) in Ha.
  destruct (fhDecreaseKey_ok _ G s a na d HI Ha Hna (wrap64_range _))
    as (s' & G' & Hex & _ & _ & _ & _ & (na' & Hna' & Hk & _) & _).
  exists s', na'. split; [done|]. split; [done|]. split; [done|].
  intros E3 E5. rewrite Hk, E3, E5. reflexivity.
Qed.

Lemma C8_decrease_wraps_witness :
  ∃ s' na',
    fhDecreaseKey (Some Heap) (Some 3%nat) 5 four_nodes = Ok (Some 3%nat) s' ∧
    mem s' !! 3%nat = Some na' ∧
    key na' = wrap64 (3 - 5) ∧
    (3 = 3 → 5 = 5 → key na' = 2 ^ 64 - 2).
Proof.
  apply (C8_decrease_wraps four_nodes 3%nat
           (mkNode 3 0 (Some 2%nat) None None None None 0 0) 5).
  - apply reachable_valid, reach_four_nodes. unfold UINT64_MAX. lia.
  - apply live_four_nodes_3.
  - vm_compute. reflexivity.
  - lia.
Defined.

(** C9: [createFibHeap 0] fails with the null result; on a valid heap
    with no live node [fhDeleteMin] returns null and [fhFindMin] returns 0,
    leaving the state as it is; every public operation called with a null
    heap, or with a null node where it takes one, returns its sentinel
    (null, 0, or -1 for [isHeapEmpty]; nothing for the erasers) and leaves
    the state as it is: none of these calls crashes or loops. *)
Theorem C9_boundary :
  createFibHeap 0 = None ∧
  (∀ s, valid s → (∀ a, ¬ live s a) →
     fhDeleteMin (Some Heap) s = Ok None s ∧
     fhFindMin (Some Heap) s = Ok 0 s) ∧
  (∀ s node e k d opts,
     isHeapEmpty None s = Ok (-1) s ∧
     fhFindMin None s = Ok 0 s ∧
     fhInsert None e k s = Ok None s ∧
     fhDecreaseKey None node d s = Ok None s ∧
     fhDecreaseKey (Some Heap) None d s = Ok None s ∧
     fhDeleteMin None s = Ok None s ∧
     fhDelete None node s = Ok None s ∧
     fhDelete (Some Heap) None s = Ok None s ∧
     fhIncreaseKey None node d s = Ok None s ∧
     fhIncreaseKey (Some Heap) None d s = Ok None s ∧
     eraseFibHeap None opts s = Ok tt s ∧
     eraseFibTreeNode None opts s = Ok tt s).
Proof.
  split; [reflexivity|]. split.
  - intros s (G & [HS Hord [_ HW] Hcnt] & HM) Hno.
    assert (gL G = ∅) as HL.
    { apply leibniz_equiv, elem_of_equiv_empty. intros a Ha.
      apply (Hno a). by apply (live_ghost _ G s a HS). }
    split.
    + apply fhDeleteMin_empty; [apply (gs_len _ _ _ (sh_g _ _ _ HS))|].
      by apply (forest_empty_live _ G s HS).
    + unfold fhFindMin. rewrite bind_getHeap. by rewrite (HW HL).
  - intros s node e k d opts. by destruct node.
Qed.

Lemma C9_boundary_witness :
  fhDeleteMin (Some Heap) (fresh_heap 2) = Ok None (fresh_heap 2) ∧
  fhFindMin (Some Heap) (fresh_heap 2) = Ok 0 (fresh_heap 2).
Proof.
  apply (proj1 (proj2 C9_boundary) (fresh_heap 2)).
  - apply reachable_valid, reach_fresh.
  - intros a Ha.
    assert (∀ s b, live s b → s = fresh_heap 2 → False) as Hno;
      [|by apply (Hno _ a Ha)].
    clear a Ha. intros s b Hb ->.
    induction Hb as [b (i & l & r & Hl & Hr & _)|f c _ IH _]; [|done].
    destruct i as [|[|i]]; simpl in Hl; [| |done];
      injection Hl as <-; by apply elem_of_nil in Hr.
Defined.



Lemma singletons_count B G s :
  Inv B G s → five_singletons s → nodesCount (heap s) = 5.
Proof.
  intros [[HG Ho Hrk] _ _ Hcnt] (l & Hl & Hlen & Hsing & Hrest).
  set (roots := (λ r, _root (recData r)) <$> l).
  assert (∀ a, a ∈ gL G → a ∈ roots) as Hsub.
  { apply (up_ind HG). intros a n Ha Hn IH.
    destruct (_father n) as [f|] eqn:Hf.
    - exfalso. specialize (IH f eq_refl).
      apply list_elem_of_fmap in IH as (r & -> & Hr).
      destruct (gs_father _ _ _ HG a n _ Ha Hn Hf) as [HfL Hin].
      destruct (gs_node _ _ _ HG _ HfL) as (nf & Hnf & _ & Hfs & _).
      rewrite (Hsing r nf Hr Hnf) in Hfs.
      destruct (gch G (_root (recData r))); [by apply elem_of_nil in Hin|done].
    - destruct (gs_root _ _ _ HG a n Ha) as (_ & l' & Hl' & Hin);
        [rewrite Ho; set_solver|done..|].
      destruct (decide (grk G a = 0%nat)) as [E|E].
      + rewrite E, Hl in Hl'. injection Hl' as <-.
        apply list_elem_of_fmap. by exists (mkRec (mkTree a)).
      + rewrite (Hrest _ _ E Hl') in Hin. by apply elem_of_nil in Hin. }
  assert (gL G = list_to_set roots) as EL.
  { apply leibniz_equiv. intros a. rewrite elem_of_list_to_set. split.
    - apply Hsub.
    - intros Hin. apply list_elem_of_fmap in Hin as (r & -> & Hr).
      by destruct (gs_forest _ _ _ HG 0%nat l r Hl Hr) as [? _]. }
  assert (NoDup roots) as Hnd.
  { apply NoDup_fmap_2; [|by apply (gs_fnodup _ _ _ HG 0%nat)].
    intros [[x]] [[y]] E. simpl in E. by subst. }
  rewrite Hcnt, EL, size_list_to_set by done.
  unfold roots. rewrite length_fmap, Hlen. done.
Qed.

(** C6: on a valid heap with a live node, [fhDeleteMin] returns the node
    of the cached minimum, with key and payload kept and every structural
    field reset (no father, no son, no brother, no handle into the forest,
    no mark, no son counted); the node is not live any more, the node
    counter is one less, and every list of the forest holds at most one
    tree.  From five trees of one node each the counter is 4 afterwards.
    The heap that is left is well formed; its live nodes are the live
    nodes of before other than the one returned, and every other node has
    kept its key and its payload. *)
Theorem C6_fhDeleteMin s :
  valid s → (∃ a, live s a) →
  ∃ m nm s' nm',
    min (heap s) = Some m ∧ mem s !! m = Some nm ∧
    fhDeleteMin (Some Heap) s = Ok (Some m) s' ∧
    mem s' !! m = Some nm' ∧ detached nm' ∧
    key nm' = key nm ∧ elem nm' = elem nm ∧
    ¬ live s' m ∧
    nodesCount (heap s') = nodesCount (heap s) - 1 ∧
    one_tree_per_rank s' ∧
    (five_singletons s → nodesCount (heap s') = 4) ∧
    wellformed s' ∧
    (∀ x, live s' x ↔ live s x ∧ x ≠ m) ∧
    (∀ x n, x ≠ m → mem s !! x = Some n →
       ∃ n', mem s' !! x = Some n' ∧ key n' = key n ∧ elem n' = elem n).
Proof.
  intros (G & HI & HM) [a Ha].
  pose proof (inv_shape _ _ _ HI) as HS.
  apply (live_ghost _ G s a HS) in Ha.
  destruct (gs_lookup (sh_g _ _ _ HS) a Ha) as [na Hna].
  destruct (HM a na Ha Hna) as (m & nm0 & Hmin & _).
  destruct (fhDeleteMin_ok _ G s m HI Hmin)
    as (s' & G' & nm & nm' & Hex & HI' & EL' & _ & Hone & Ecnt & Hnm & Hnm'
        & Hk & He & Hf1 & Hf2 & Hf3 & Hf4 & Hf5 & Hf6 & Hf7 & Hoth).
  exists m, nm, s', nm'. split; [done|]. split; [done|]. split; [done|].
  split; [done|]. split; [by repeat split|]. split; [done|]. split; [done|].
  split.
  { rewrite (live_ghost _ G' s' m (inv_shape _ _ _ HI')), EL'. set_solver. }
  split; [done|]. split; [done|]. split.
  { intros H5. rewrite Ecnt, (singletons_count _ G s HI H5). done. }
  split; [by exists G'|]. split; [|done].
  intros x. rewrite (live_ghost _ G' s' x (inv_shape _ _ _ HI')), EL'.
  rewrite (live_ghost _ G s x HS). set_solver.
Qed.

Lemma five_nodes_singletons : five_singletons five_nodes.
Proof.
  exists [mkRec (mkTree 0%nat); mkRec (mkTree 1%nat); mkRec (mkTree 2%nat);
          mkRec (mkTree 3%nat); mkRec (mkTree 4%nat)].
  split; [vm_compute; reflexivity|]. split; [reflexivity|]. split.
  - intros r n Hr.
    repeat (apply elem_of_cons in Hr as [->|Hr];
            [intros E; vm_compute in E; by injection E as <-|]).
    inversion Hr.
  - intros i l' Hi Hl'. destruct i as [|[|i]]; [exfalso; by apply Hi| |].
    + vm_compute in Hl'. by injection Hl' as <-.
    + vm_compute in Hl'. destruct i; discriminate Hl'.
Qed.

Lemma C6_fhDeleteMin_witness :
  ∃ m s',
    fhDeleteMin (Some Heap) five_nodes = Ok (Some m) s' ∧
    one_tree_per_rank s' ∧ nodesCount (heap s') = 4 ∧
    wellformed s' ∧ (∀ x, live s' x ↔ live five_nodes x ∧ x ≠ m).
Proof.
  destruct (C6_fhDeleteMin five_nodes)
    as (m & nm & s' & nm' & _ & _ & Hex & _ & _ & _ & _ & _ & _ & Hone & H4
        & Hwf & Hlive & _).
  - apply reachable_valid, reach_five_nodes. unfold UINT64_MAX. lia.
  - exists 0%nat. apply live_root.
    exists 0%nat, [mkRec (mkTree 0%nat); mkRec (mkTree 1%nat);
                   mkRec (mkTree 2%nat); mkRec (mkTree 3%nat);
                   mkRec (mkTree 4%nat)], (mkRec (mkTree 0%nat)).
    split; [vm_compute; reflexivity|]. split; [repeat constructor|done].
  - exists m, s'. split; [done|]. split; [done|].
    split; [apply H4, five_nodes_singletons|]. split; done.
Defined.

(** * Further properties of the library *)

(** ** The priority-queue view *)

Lemma sound_valid s : sound s → valid s.
Proof.
  intros (G & HI & HM). exists G. split; [|done].
  apply (Inv_mono UINT64_MAX); [unfold UINT64_MAX; lia|done].
Qed.

Lemma valid_wellformed s : valid s → wellformed s.
Proof. intros (G & HI & _). by exists G. Qed.

Lemma sound_good s : sound s ↔ good UINT64_MAX s.
Proof.
  split; intros (G & HI & HM); exists G; split; try done.
  apply HM. lia.
Qed.

Lemma reachable_sound s : reachable UINT64_MAX false s → sound s.
Proof.
  intros Hr. apply sound_good. apply reachable_good; [|done].
  unfold UINT64_MAX. lia.
Qed.

Lemma reachable_wellformed s : reachable (2 ^ 64) false s → wellformed s.
Proof.
  intros Hr. destruct (reachable_good (2 ^ 64) s) as (G & HI & _);
    [lia|done|]. by exists G.
Qed.

Lemma abstracts_intro B G s (m : gmap addr (Z * Z)) :
  Shape B G s → dom m = gL G →
  (∀ a n, a ∈ gL G → mem s !! a = Some n → m !! a = Some (key n, elem n)) →
  abstracts s m.
Proof.
  intros HS Hdom Hm a p. rewrite (live_ghost B G s a HS). split.
  - intros Hp. assert (a ∈ gL G) as Ha.
    { rewrite <- Hdom. apply elem_of_dom. eauto. }
    split; [done|]. destruct (gs_lookup (sh_g _ _ _ HS) a Ha) as [n Hn].
    exists n. split; [done|]. rewrite (Hm a n Ha Hn) in Hp. congruence.
  - intros (Ha & n & Hn & ->). by apply Hm.
Qed.

Lemma abstracts_dom B G s (m : gmap addr (Z * Z)) :
  Shape B G s → abstracts s m → dom m = gL G.
Proof.
  intros HS Hm. apply leibniz_equiv. intros a. rewrite elem_of_dom. split.
  - intros [p Hp]. apply Hm in Hp as [Ha _]. by apply (live_ghost B G s a HS).
  - intros Ha. destruct (gs_lookup (sh_g _ _ _ HS) a Ha) as [n Hn].
    exists (key n, elem n). apply Hm. split; [|eauto].
    by apply (live_ghost B G s a HS).
Qed.

Lemma abstracts_lookup B G s (m : gmap addr (Z * Z)) a n :
  Shape B G s → abstracts s m → a ∈ gL G → mem s !! a = Some n →
  m !! a = Some (key n, elem n).
Proof.
  intros HS Hm Ha Hn. apply Hm. split; [|eauto].
  by apply (live_ghost B G s a HS).
Qed.

Lemma abstracts_unique s (m m' : gmap addr (Z * Z)) :
  abstracts s m → abstracts s m' → m = m'.
Proof.
  intros H H'. apply map_eq. intros a. apply option_eq. intros p.
  by rewrite (H a p), (H' a p).
Qed.

Lemma abstracts_exists B G s : Shape B G s → ∃ m, abstracts s m.
Proof.
  intros HS.
  exists ((λ n, (key n, elem n)) <$>
            filter (λ an, an.1 ∈ gL G) (mem s)).
  intros a p. rewrite (live_ghost B G s a HS).
  rewrite lookup_fmap, fmap_Some. split.
  - intros (n & Hn & ->). apply map_lookup_filter_Some in Hn as [Hn Ha].
    eauto.
  - intros (Ha & n & Hn & ->). exists n. split; [|done].
    by apply map_lookup_filter_Some.
Qed.

Lemma wellformed_count B G s :
  Inv B G s → (nodesCount (heap s) = 0 ↔ gL G = ∅).
Proof.
  intros HI. rewrite (inv_cnt _ _ _ HI). split.
  - intros E. apply leibniz_equiv, size_empty_iff. lia.
  - intros ->. by rewrite size_empty.
Qed.

Lemma no_live_ghost B G s : Shape B G s → (gL G = ∅ ↔ ∀ a, ¬ live s a).
Proof.
  intros HS. split.
  - intros E a Ha. apply (live_ghost B G s a HS) in Ha. set_solver.
  - intros Hno. apply leibniz_equiv, elem_of_equiv_empty. intros a Ha.
    apply (Hno a). by apply (live_ghost B G s a HS).
Qed.

(** X1: [createFibHeap n], for [n] from 1 to [2^61 - 1], that is as long
    as the array of [n] list pointers has a byte count that fits [size_t],
    gives a heap with [n] empty lists, no cached minimum and a node counter
    of 0; this state satisfies the invariants of the library, it has no
    live node and [isHeapEmpty] answers 1 on it. *)
Theorem X1_createFibHeap n :
  0 < n < 2 ^ 61 →
  ∃ h, createFibHeap n = Some h ∧
       length (_forest h) = Z.to_nat n ∧
       (∀ i l, _forest h !! i = Some l → l = []) ∧
       min h = None ∧ _maxTreeOrd h = n ∧ nodesCount h = 0 ∧
       sound (init_state h) ∧ abstracts (init_state h) ∅ ∧
       isHeapEmpty (Some Heap) (init_state h) = Ok 1 (init_state h).
Proof.
  intros Hn.
  assert (createFibHeap n
          = Some (mkHeap (replicate (Z.to_nat n) createDLList) None n 0)) as E.
  { unfold createFibHeap, calloc_fits, sizeof_ptr.
    destruct (Z.eqb_spec n 0); [lia|].
    destruct (Z.ltb_spec (n * 8) (2 ^ 64)); [done|lia]. }
  eexists. split; [exact E|].
  destruct (Inv_init UINT64_MAX n _ ltac:(lia) E) as [HI HM].
  split; [apply length_replicate|]. split.
  { intros i l Hl. by apply lookup_replicate in Hl as [-> _]. }
  split; [done|]. split; [done|]. split; [done|].
  split; [by exists ghost_empty|]. split.
  { apply (abstracts_intro _ ghost_empty _ ∅ (inv_shape _ _ _ HI)).
    - by rewrite dom_empty_L.
    - intros a n0 Ha. simpl in Ha. set_solver. }
  rewrite isHeapEmpty_spec by apply (gs_len _ _ _ (sh_g _ _ _ (inv_shape _ _ _ HI))).
  assert (forest_empty (init_state
            (mkHeap (replicate (Z.to_nat n) createDLList) None n 0)) = true)
    as ->; [|done].
  by apply (forest_empty_live _ ghost_empty _ (inv_shape _ _ _ HI)).
Qed.

Lemma X1_createFibHeap_witness :
  ∃ h, createFibHeap 2 = Some h ∧
       length (_forest h) = Z.to_nat 2 ∧
       (∀ i l, _forest h !! i = Some l → l = []) ∧
       min h = None ∧ _maxTreeOrd h = 2 ∧ nodesCount h = 0 ∧
       sound (init_state h) ∧ abstracts (init_state h) ∅ ∧
       isHeapEmpty (Some Heap) (init_state h) = Ok 1 (init_state h).
Proof. apply (X1_createFibHeap 2). lia. Defined.

(** X2: on a well-formed heap [isHeapEmpty] answers 1 when the node
    counter is 0 and 0 otherwise, never -1, and leaves the state as it is;
    the node counter is 0 exactly when no node is live. *)
Theorem X2_isHeapEmpty s :
  wellformed s →
  isHeapEmpty (Some Heap) s
    = Ok (if decide (nodesCount (heap s) = 0) then 1 else 0) s ∧
  (nodesCount (heap s) = 0 ↔ ∀ a, ¬ live s a).
Proof.
  intros (G & HI). pose proof (inv_shape _ _ _ HI) as HS. split.
  - rewrite isHeapEmpty_spec by apply (gs_len _ _ _ (sh_g _ _ _ HS)).
    destruct (forest_empty s) eqn:Hfe.
    + apply (forest_empty_live _ G s HS) in Hfe.
      apply (wellformed_count _ G s HI) in Hfe. by rewrite decide_True.
    + rewrite decide_False; [done|]. intros E.
      apply (wellformed_count _ G s HI) in E.
      apply (forest_empty_live _ G s HS) in E. congruence.
  - rewrite (wellformed_count _ G s HI). apply (no_live_ghost _ G s HS).
Qed.

Lemma X2_isHeapEmpty_witness :
  isHeapEmpty (Some Heap) four_nodes
    = Ok (if decide (nodesCount (heap four_nodes) = 0) then 1 else 0)
         four_nodes ∧
  (nodesCount (heap four_nodes) = 0 ↔ ∀ a, ¬ live four_nodes a).
Proof.
  apply (X2_isHeapEmpty four_nodes).
  apply reachable_wellformed, reach_four_nodes. lia.
Defined.

(** X3: on a valid heap with a live node, [fhFindMin] returns the payload
    of the cached minimum, a live node whose key is the smallest among the
    live nodes, and leaves the state as it is. *)
Theorem X3_fhFindMin s a :
  valid s → live s a →
  ∃ m nm,
    min (heap s) = Some m ∧ live s m ∧ mem s !! m = Some nm ∧
    fhFindMin (Some Heap) s = Ok (elem nm) s ∧
    ∀ b nb, live s b → mem s !! b = Some nb → key nm ≤ key nb.
Proof.
  intros (G & HI & HM) Ha.
  pose proof (Inv_min_correct _ G s HI HM) as Hmc. unfold min_correct in Hmc.
  destruct (min (heap s)) as [m|] eqn:Hmin; [|by destruct (Hmc a)].
  destruct Hmc as (Hm & nm & Hnm & Hle).
  exists m, nm. split; [done|]. split; [done|]. split; [done|].
  split; [|done].
  unfold fhFindMin. rewrite bind_getHeap, Hmin.
  by rewrite (bind_load _ _ _ _ Hnm).
Qed.

Lemma X3_fhFindMin_witness :
  ∃ m nm,
    min (heap four_nodes) = Some m ∧ live four_nodes m ∧
    mem four_nodes !! m = Some nm ∧
    fhFindMin (Some Heap) four_nodes = Ok (elem nm) four_nodes ∧
    ∀ b nb, live four_nodes b → mem four_nodes !! b = Some nb →
            key nm ≤ key nb.
Proof.
  apply (X3_fhFindMin four_nodes 3%nat).
  - apply reachable_valid, reach_four_nodes. unfold UINT64_MAX. lia.
  - apply live_four_nodes_3.
Defined.

(** ** [fhInsert], as seen by a client *)

Lemma insertNode_exec s d nd l :
  Z.of_nat (length (_forest (heap s))) = _maxTreeOrd (heap s) →
  _forest (heap s) !! 0%nat = Some l → mem s !! d = Some nd →
  (∀ m, min (heap s) = Some m → is_Some (mem s !! m)) →
  ∃ m',
    _insertNode d s
    = Ok (Some d)
        (mkState
           (mkHeap (<[0%nat := l ++ [mkRec (mkTree d)]]> (_forest (heap s)))
                   m' (_maxTreeOrd (heap s))
                   (wrap64 (nodesCount (heap s) + 1)))
           (alter (set_posInForest (Some (mkRec (mkTree d)))) d (mem s))) ∧
    (min (heap s) = None → m' = Some d) ∧
    (∀ m nm, min (heap s) = Some m → mem s !! m = Some nm →
       m' = if key nd <? key nm then Some d else Some m).
Proof.
  intros Hlen Hl Hnd Hmin.
  set (s2 := with_forest (<[0%nat := l ++ [mkRec (mkTree d)]]>
                            (_forest (heap s)))
               (with_mem (alter (set_posInForest (Some (mkRec (mkTree d)))) d
                            (mem s)) s)).
  assert (mem s2 !! d = Some (set_posInForest (Some (mkRec (mkTree d))) nd))
    as Hnd2.
  { unfold s2. cbn [mem with_mem with_forest]. rewrite lookup_alter_eq.
    by rewrite Hnd. }
  assert (∀ x n, mem s !! x = Some n →
            ∃ n', mem s2 !! x = Some n' ∧ key n' = key n) as Hfwd.
  { intros x n Hn. unfold s2. cbn [mem with_mem with_forest].
    rewrite lookup_alter. case_decide; subst; rewrite Hn; simpl; eauto. }
  assert (forest_empty s2 = false) as Hfe.
  { apply not_true_iff_false. intros E.
    assert (l ++ [mkRec (mkTree d)] = []) as El; [|by destruct l].
    apply (proj1 (forest_empty_true s2) E 0%nat).
    unfold s2. cbn [heap with_forest _forest set_forest].
    apply list_lookup_insert_eq. by eapply lookup_lt_Some. }
  destruct (updateMin_fast s2 d _ ltac:(unfold s2; simpl;
                                        by rewrite length_insert) Hnd2)
    as (m' & Hum & _ & Hm2 & Hm3).
  { intros m Hm. destruct (Hmin m Hm) as [n Hn].
    destruct (Hfwd m n Hn) as (n' & ? & _). eauto. }
  exists m'. split.
  - unfold _insertNode.
    rewrite (bind_forest_get 0 _ _ _ Hl). simpl.
    rewrite (bind_forest_set 0 _ _ _ _ Hl).
    erewrite bind_assign by (simpl; exact Hnd).
    change (with_mem _ _) with s2.
    rewrite (bind_Ok _ _ _ _ _ Hum). done.
  - split; [by apply Hm2|]. intros m nm Hm Hnm.
    destruct (Hfwd m nm Hnm) as (n' & Hn' & Ek).
    rewrite (Hm3 Hfe m n' Hm Hn'). simpl. by rewrite Ek.
Qed.

Lemma fhInsert_exec s e k :
  nodesCount (heap s) ≠ ULONG_MAX →
  fhInsert (Some Heap) e k s
  = _insertNode (fresh (dom (mem s)))
      (mkState (heap s)
         (<[fresh (dom (mem s)) := mkNode k e None None None None None 0 0]>
            (mem s))).
Proof.
  intros Hfull. unfold fhInsert. unfold bind at 1. unfold getHeap.
  destruct (Z.eqb_spec (nodesCount (heap s)) ULONG_MAX) as [E|_]; [done|].
  unfold bind at 1. unfold calloc_node.
  erewrite bind_assign by (simpl; apply lookup_insert_eq).
  f_equal. unfold with_mem. simpl. f_equal.
  apply map_eq. intros x.
  destruct (decide (fresh (dom (mem s)) = x)) as [<-|Hne].
  - by rewrite lookup_alter_eq, !lookup_insert_eq.
  - by rewrite lookup_alter_ne, !lookup_insert_ne by done.
Qed.

(** How the view of a client follows the ghost data. *)
Lemma abstracts_insert B G s B' G' s' (m : gmap addr (Z * Z)) a n :
  Shape B G s → Shape B' G' s' → abstracts s m →
  gL G' = gL G ∪ {[a]} → mem s' !! a = Some n →
  (∀ x nx, x ∈ gL G → x ≠ a → mem s !! x = Some nx →
     ∃ nx', mem s' !! x = Some nx' ∧ key nx' = key nx ∧ elem nx' = elem nx) →
  abstracts s' (<[a := (key n, elem n)]> m).
Proof.
  intros HS HS' Habs EL Hn Hkeep.
  apply (abstracts_intro B' G' s' _ HS').
  - rewrite dom_insert_L, (abstracts_dom B G s m HS Habs), EL. set_solver.
  - intros x nx' Hx Hnx'. destruct (decide (x = a)) as [->|Hne].
    + rewrite lookup_insert_eq. congruence.
    + rewrite lookup_insert_ne by done.
      assert (x ∈ gL G) as HxL by (rewrite EL in Hx; set_solver).
      destruct (gs_lookup (sh_g _ _ _ HS) x HxL) as [nx Hnx].
      destruct (Hkeep x nx HxL Hne Hnx) as (n' & Hn' & Ek & Ee).
      assert (n' = nx') as -> by congruence.
      rewrite (abstracts_lookup B G s m x nx HS Habs HxL Hnx). by rewrite Ek, Ee.
Qed.

Lemma abstracts_delete B G s B' G' s' (m : gmap addr (Z * Z)) d :
  Shape B G s → Shape B' G' s' → abstracts s m →
  gL G' = gL G ∖ {[d]} →
  (∀ x nx, x ∈ gL G → x ≠ d → mem s !! x = Some nx →
     ∃ nx', mem s' !! x = Some nx' ∧ key nx' = key nx ∧ elem nx' = elem nx) →
  abstracts s' (delete d m).
Proof.
  intros HS HS' Habs EL Hkeep.
  apply (abstracts_intro B' G' s' _ HS').
  - rewrite dom_delete_L, (abstracts_dom B G s m HS Habs), EL. done.
  - intros x nx' Hx Hnx'. rewrite EL in Hx.
    assert (x ≠ d) as Hne by set_solver.
    assert (x ∈ gL G) as HxL by set_solver.
    rewrite lookup_delete_ne by done.
    destruct (gs_lookup (sh_g _ _ _ HS) x HxL) as [nx Hnx].
    destruct (Hkeep x nx HxL Hne Hnx) as (n' & Hn' & Ek & Ee).
    assert (n' = nx') as -> by congruence.
    rewrite (abstracts_lookup B G s m x nx HS Habs HxL Hnx). by rewrite Ek, Ee.
Qed.

Lemma fhInsert_ghost B G s e k :
  Inv B G s → 0 ≤ k < B → nodesCount (heap s) ≠ ULONG_MAX →
  ∃ a s' G',
    fhInsert (Some Heap) e k s = Ok (Some a) s' ∧ Inv B G' s' ∧
    mem s !! a = None ∧ gL G' = gL G ∪ {[a]} ∧ (MinS G s → MinS G' s') ∧
    (∀ x, x ≠ a → mem s' !! x = mem s !! x) ∧
    mem s' !! a
      = Some (mkNode k e None None None None (Some (mkRec (mkTree a))) 0 0) ∧
    (min (heap s) = None → min (heap s') = Some a) ∧
    (∀ mn nm, min (heap s) = Some mn → mem s !! mn = Some nm →
       min (heap s') = if k <? key nm then Some a else Some mn).
Proof.
  intros HI Hk Hfull.
  pose proof (inv_shape _ _ _ HI) as HS. pose proof (sh_g _ _ _ HS) as HG.
  destruct (fhInsert_inv _ G s e k HI Hk Hfull)
    as (a & s' & G' & Hex & HI' & Hfresh & EL & HM').
  set (a0 := fresh (dom (mem s))) in *.
  set (nd := mkNode k e None None None None None 0 0).
  set (s1 := mkState (heap s) (<[a0 := nd]> (mem s))).
  assert (mem s !! a0 = None) as Hfresh0.
  { apply not_elem_of_dom. apply is_fresh. }
  destruct (gs_len _ _ _ HG) as [Hlen Hmto].
  destruct (_forest (heap s) !! 0%nat) as [l|] eqn:Hl.
  2:{ apply lookup_ge_None in Hl. lia. }
  assert (∀ mn, min (heap s) = Some mn →
            mn ≠ a0 ∧ ∃ nm, mem s !! mn = Some nm ∧ mem s1 !! mn = Some nm)
    as Hmn.
  { intros mn Hmin. destruct (inv_min _ _ _ HI) as [HW _].
    destruct (HW mn Hmin) as (_ & nm & Hnm & _).
    assert (mn ≠ a0) as Hne by (intros ->; congruence).
    split; [done|]. exists nm. split; [done|].
    unfold s1. simpl. by rewrite lookup_insert_ne. }
  destruct (insertNode_exec s1 a0 nd l Hlen Hl) as (m' & Hex1 & Hm1 & Hm2).
  { unfold s1. simpl. apply lookup_insert_eq. }
  { intros mn Hmin. destruct (Hmn mn Hmin) as (_ & nm & _ & ?). eauto. }
  pose proof Hex as Hex0.
  rewrite (fhInsert_exec s e k Hfull) in Hex. fold a0 nd s1 in Hex.
  rewrite Hex1 in Hex. injection Hex as <- <-.
  exists a0. eexists. exists G'. split; [exact Hex0|]. split; [done|].
  split; [done|]. split; [done|]. split; [done|]. split.
  { intros x Hx. simpl. rewrite lookup_alter_ne by done.
    by rewrite lookup_insert_ne. }
  split.
  { simpl. rewrite lookup_alter_eq. by rewrite lookup_insert_eq. }
  split; [done|].
  intros mn nm Hmin Hnm. simpl.
  destruct (Hmn mn Hmin) as (Hne & nm' & Hnm' & Hnm1).
  assert (nm' = nm) as -> by congruence.
  by rewrite (Hm2 mn nm Hmin Hnm1).
Qed.

(** X4: on a valid heap with keys below [UINT64_MAX] that is not full,
    [fhInsert e k] returns a node at an address that was not allocated,
    with key [k], payload [e], no link and no mark, filed as a root; the
    other nodes are untouched, the node counter is one more, the heap is
    valid again and holds one more entry.  The new node becomes the cached
    minimum exactly when the heap was empty or [k] is strictly below the key
    of the old minimum. *)
Theorem X4_fhInsert s (m : gmap addr (Z * Z)) e k :
  sound s → abstracts s m → 0 ≤ k < UINT64_MAX →
  nodesCount (heap s) ≠ ULONG_MAX →
  ∃ a s',
    fhInsert (Some Heap) e k s = Ok (Some a) s' ∧
    mem s !! a = None ∧
    sound s' ∧ abstracts s' (<[a := (k, e)]> m) ∧
    nodesCount (heap s') = nodesCount (heap s) + 1 ∧
    (∀ x, x ≠ a → mem s' !! x = mem s !! x) ∧
    mem s' !! a
      = Some (mkNode k e None None None None (Some (mkRec (mkTree a))) 0 0) ∧
    (min (heap s) = None → min (heap s') = Some a) ∧
    (∀ mn kn en, min (heap s) = Some mn → m !! mn = Some (kn, en) →
       min (heap s') = if k <? kn then Some a else Some mn).
Proof.
  intros (G & HI & HM) Habs Hk Hfull.
  pose proof (inv_shape _ _ _ HI) as HS.
  destruct (fhInsert_ghost _ G s e k HI Hk Hfull)
    as (a & s' & G' & Hex & HI' & Hfresh & EL & HM' & Hold & Hnew & Hm1 & Hm2).
  assert (a ∉ gL G) as HaL.
  { intros Ha. destruct (gs_lookup (sh_g _ _ _ HS) a Ha). congruence. }
  exists a, s'. split; [done|]. split; [done|].
  split; [exists G'; split; [done|by apply HM']|]. split.
  { apply (abstracts_insert _ G s _ G' s' m a _ HS (inv_shape _ _ _ HI')
             Habs EL Hnew).
    intros x nx Hx Hne Hnx. exists nx. by rewrite Hold. }
  split.
  { rewrite (inv_cnt _ _ _ HI'), (inv_cnt _ _ _ HI), EL.
    rewrite size_union by set_solver. rewrite size_singleton. lia. }
  split; [done|]. split; [done|]. split; [done|].
  intros mn kn en Hmin Hmmn.
  destruct (inv_min _ _ _ HI) as [HW _].
  destruct (HW mn Hmin) as (HmnL & nm & Hnm & _).
  rewrite (abstracts_lookup _ G s m mn nm HS Habs HmnL Hnm) in Hmmn.
  injection Hmmn as <- <-. by apply Hm2.
Qed.

(** On a well-formed heap, as many live nodes as the node counter says
    are all the live nodes. *)
Lemma abstracts_count B G s (m : gmap addr (Z * Z)) :
  Inv B G s →
  (∀ a p, m !! a = Some p →
     live s a ∧ ∃ n, mem s !! a = Some n ∧ p = (key n, elem n)) →
  Z.of_nat (size (dom m)) = nodesCount (heap s) →
  abstracts s m.
Proof.
  intros HI Hm Hsz. pose proof (inv_shape _ _ _ HI) as HS.
  assert (dom m ⊆ gL G) as Hsub.
  { intros a Ha. apply elem_of_dom in Ha as [p Hp].
    apply Hm in Hp as [Ha _]. by apply (live_ghost B G s a HS). }
  assert (dom m = gL G) as Hdom.
  { apply (set_subseteq_size_eq (dom m) (gL G)); [done|].
    rewrite (inv_cnt _ _ _ HI) in Hsz. lia. }
  apply (abstracts_intro B G s m HS Hdom).
  intros a n Ha Hn. rewrite <- Hdom in Ha. apply elem_of_dom in Ha as [p Hp].
  destruct (Hm a p Hp) as (_ & n' & Hn' & ->). congruence.
Qed.

Lemma live_four_nodes_2 : live four_nodes 2%nat.
Proof.
  apply (live_son _ 1%nat); [apply live_four_nodes_1|].
  eapply son_first; [vm_compute; reflexivity|reflexivity].
Qed.

Lemma live_four_nodes_4 : live four_nodes 4%nat.
Proof.
  apply (live_son _ 1%nat); [apply live_four_nodes_1|].
  eapply (son_next _ _ 2%nat); [|vm_compute; reflexivity|reflexivity].
  eapply son_first; [vm_compute; reflexivity|reflexivity].
Qed.

Lemma sound_four_nodes : sound four_nodes.
Proof. apply reachable_sound, reach_four_nodes. unfold UINT64_MAX. lia. Qed.

Lemma abstracts_four_nodes : abstracts four_nodes four_entries.
Proof.
  destruct sound_four_nodes as (G & HI & _).
  apply (abstracts_count _ G _ _ HI); [|vm_compute; reflexivity].
  intros a p Hp. apply elem_of_list_to_map_2 in Hp.
  repeat (apply elem_of_cons in Hp as [[= -> ->]|Hp];
          [split;
           [first [apply live_four_nodes_1|apply live_four_nodes_2
                  |apply live_four_nodes_3|apply live_four_nodes_4]
           |eexists; split; [vm_compute; reflexivity|reflexivity]]|]).
  inversion Hp.
Qed.

Lemma X4_fhInsert_witness :
  ∃ a s',
    fhInsert (Some Heap) 7 5 four_nodes = Ok (Some a) s' ∧
    mem four_nodes !! a = None ∧
    sound s' ∧ abstracts s' (<[a := (5, 7)]> four_entries) ∧
    nodesCount (heap s') = nodesCount (heap four_nodes) + 1 ∧
    (∀ x, x ≠ a → mem s' !! x = mem four_nodes !! x) ∧
    mem s' !! a
      = Some (mkNode 5 7 None None None None (Some (mkRec (mkTree a))) 0 0) ∧
    (min (heap four_nodes) = None → min (heap s') = Some a) ∧
    (∀ mn kn en, min (heap four_nodes) = Some mn →
       four_entries !! mn = Some (kn, en) →
       min (heap s') = if 5 <? kn then Some a else Some mn).
Proof.
  apply (X4_fhInsert four_nodes four_entries 7 5).
  - apply sound_four_nodes.
  - apply abstracts_four_nodes.
  - unfold UINT64_MAX. lia.
  - vm_compute. discriminate.
Defined.

(** ** [fhDecreaseKey], as seen by a client *)

Lemma fhDecreaseKey_client s (m : gmap addr (Z * Z)) a k e d :
  sound s → abstracts s m → m !! a = Some (k, e) → 0 ≤ d ≤ k →
  ∃ s',
    fhDecreaseKey (Some Heap) (Some a) d s = Ok (Some a) s' ∧
    sound s' ∧ abstracts s' (<[a := (k - d, e)]> m) ∧
    nodesCount (heap s') = nodesCount (heap s).
Proof.
  intros (G & HI & HM) Habs Hma Hd.
  pose proof (inv_shape _ _ _ HI) as HS.
  destruct (proj1 (Habs a (k, e)) Hma) as (Ha & na & Hna & [= -> ->]).
  apply (live_ghost _ G s a HS) in Ha.
  destruct (gs_node _ _ _ (sh_g _ _ _ HS) a Ha) as (n0 & Hn0 & Hrange & _).
  assert (n0 = na) as -> by congruence. clear Hn0.
  assert (wrap64 (key na - d) = key na - d) as Ew.
  { apply wrap64_small. unfold UINT64_MAX in Hrange. lia. }
  destruct (fhDecreaseKey_ok _ G s a na d HI Ha Hna)
    as (s' & G' & Hex & HS' & HW' & Ecnt & EL & (na' & Hna' & Hk' & He')
        & Hoth & Hord' & HM'); [lia|].
  rewrite Ew in Hk', Hord', HM'.
  exists s'. split; [done|]. split.
  { exists G'. split; [|apply HM'; [lia|done]].
    split; [done|apply Hord'; lia|done|].
    rewrite Ecnt, EL. apply (inv_cnt _ _ _ HI). }
  split; [|done].
  rewrite <- Hk', <- He'.
  apply (abstracts_insert _ G s _ G' s' m a na' HS HS' Habs); [|done|].
  - rewrite EL. set_solver.
  - intros x nx _ Hne Hnx. by apply Hoth.
Qed.

(** X5: on a valid heap with keys below [UINT64_MAX], [fhDecreaseKey] on a
    live node of key [k] with an amount [d] of at most [k] returns the
    node; the heap is valid again, the node has key [k - d] and its
    payload, every other entry and the node counter are as before. *)
Theorem X5_fhDecreaseKey s (m : gmap addr (Z * Z)) a k e d :
  sound s → abstracts s m → m !! a = Some (k, e) → 0 ≤ d ≤ k →
  ∃ s',
    fhDecreaseKey (Some Heap) (Some a) d s = Ok (Some a) s' ∧
    sound s' ∧ abstracts s' (<[a := (k - d, e)]> m) ∧
    nodesCount (heap s') = nodesCount (heap s).
Proof.
  intros Hs Habs Hma Hd.
  exact (fhDecreaseKey_client s m a k e d Hs Habs Hma Hd).
Qed.

Lemma X5_fhDecreaseKey_witness :
  ∃ s',
    fhDecreaseKey (Some Heap) (Some 3%nat) 2 four_nodes = Ok (Some 3%nat) s' ∧
    sound s' ∧ abstracts s' (<[3%nat := (3 - 2, 0)]> four_entries) ∧
    nodesCount (heap s') = nodesCount (heap four_nodes).
Proof.
  apply (X5_fhDecreaseKey four_nodes four_entries 3%nat 3 0 2).
  - apply sound_four_nodes.
  - apply abstracts_four_nodes.
  - vm_compute. reflexivity.
  - lia.
Defined.

(** X6: on a well-formed heap, when the decreased key of a live node is
    not below the key of its father (or the node is a root), [fhDecreaseKey]
    only writes the key: no node is moved, cut or marked.  For a root the
    cached minimum becomes the node when there was none or when the new key
    is strictly below the key of the cached minimum; for a node with a
    father it is left alone. *)
Theorem X6_fhDecreaseKey_in_place s a na d :
  wellformed s → live s a → mem s !! a = Some na →
  (∀ f nf, _father na = Some f → mem s !! f = Some nf →
     key nf ≤ wrap64 (key na - d)) →
  ∃ m',
    fhDecreaseKey (Some Heap) (Some a) d s
    = Ok (Some a) (with_min m' (with_key a (wrap64 (key na - d)) s)) ∧
    (_father na ≠ None → m' = min (heap s)) ∧
    (_father na = None → min (heap s) = None → m' = Some a) ∧
    (_father na = None →
     ∀ mn nm, min (heap s) = Some mn →
       mem (with_key a (wrap64 (key na - d)) s) !! mn = Some nm →
       m' = if wrap64 (key na - d) <? key nm then Some a else Some mn).
Proof.
  intros (G & [HS Hord HW Hcnt]) Ha Hna Hge.
  apply (live_ghost _ G s a HS) in Ha.
  pose proof (sh_g _ _ _ HS) as HG.
  set (k' := wrap64 (key na - d)) in *.
  set (s0 := with_key a k' s).
  set (na0 := set_key k' na).
  assert (mem s0 !! a = Some na0) as Hna0.
  { unfold s0, with_key. cbn [mem with_mem]. rewrite lookup_alter_eq.
    by rewrite Hna. }
  assert (∀ x, x ≠ a → mem s0 !! x = mem s !! x) as Hs0.
  { intros x Hx. unfold s0, with_key. cbn [mem with_mem].
    by rewrite lookup_alter_ne. }
  assert (fhDecreaseKey (Some Heap) (Some a) d s
          = (n <- load a ;;
             (match _father n with
              | Some f =>
                  fn <- load f ;;
                  if key n <? key fn then _cascadedDetach a else ret tt
              | None => ret tt
              end) ;;;
             n <- load a ;;
             (match _father n with
              | None => _updateMin (Some a)
              | Some _ => ret tt
              end) ;;;
             ret (Some a)) s0) as ->.
  { unfold fhDecreaseKey. rewrite (bind_assign _ _ _ _ _ Hna).
    by rewrite (alter_ext_at (λ n, set_key (wrap64 (key n - d)) n)
                  (set_key k') a na (mem s) Hna eq_refl). }
  rewrite (bind_load _ _ _ _ Hna0). simpl _father.
  destruct (_father na) as [f|] eqn:Hfa.
  - destruct (gs_father _ _ _ HG a na f Ha Hna Hfa) as [HfL Hin].
    destruct (gs_lookup HG f HfL) as [nf Hnf].
    assert (a ≠ f) as Haf by (by apply (gs_son_ne HG f a)).
    assert (mem s0 !! f = Some nf) as Hnf0 by (by rewrite Hs0).
    pose proof (Hge f nf eq_refl Hnf) as Hle.
    assert ((fn <- load f;;
             if key na0 <? key fn then _cascadedDetach a else ret ()) s0
            = Ok tt s0) as Hinner.
    { rewrite (bind_load _ _ _ _ Hnf0). change (key na0) with k'.
      destruct (Z.ltb_spec k' (key nf)); [lia|done]. }
    rewrite (bind_Ok _ _ _ _ _ Hinner).
    rewrite (bind_load _ _ _ _ Hna0). simpl _father. rewrite Hfa.
    exists (min (heap s)). split.
    { change (min (heap s)) with (min (heap s0)). by rewrite with_min_id. }
    split; [done|]. split; [done|done].
  - unfold bind at 1. unfold ret at 1.
    rewrite (bind_load _ _ _ _ Hna0). simpl _father. rewrite Hfa.
    assert (Shape (2 ^ 64) G s0) as HS0.
    { apply Shape_alter_keep; [done|]. intros n Hn _.
      assert (n = na) as -> by congruence.
      split; [by repeat split|apply wrap64_range]. }
    destruct (updateMin_fast s0 a na0
                (proj1 (gs_len _ _ _ (sh_g _ _ _ HS0))) Hna0)
      as (m' & Hum & _ & Hm2 & Hm3).
    { intros mn Hmn. destruct HW as [HW _].
      destruct (HW mn Hmn) as (HmL & _).
      apply (gs_lookup (sh_g _ _ _ HS0) mn HmL). }
    assert (forest_empty s0 = false) as Hfe.
    { apply not_true_iff_false. rewrite (forest_empty_live _ G s0 HS0).
      set_solver. }
    rewrite (bind_Ok _ _ _ _ _ Hum). exists m'. split; [done|].
    split; [done|]. split; [intros _; by apply Hm2|].
    intros _ mn nm Hmn Hnm. by apply (Hm3 Hfe mn nm).
Qed.

Lemma X6_fhDecreaseKey_in_place_witness :
  ∃ m',
    fhDecreaseKey (Some Heap) (Some 3%nat) 1 four_nodes
    = Ok (Some 3%nat) (with_min m' (with_key 3%nat 2 four_nodes)) ∧
    (Some 2%nat ≠ None → m' = min (heap four_nodes)) ∧
    (Some 2%nat = None → min (heap four_nodes) = None → m' = Some 3%nat) ∧
    (Some 2%nat = None →
     ∀ mn nm, min (heap four_nodes) = Some mn →
       mem (with_key 3%nat 2 four_nodes) !! mn = Some nm →
       m' = if 2 <? key nm then Some 3%nat else Some mn).
Proof.
  apply (X6_fhDecreaseKey_in_place four_nodes 3%nat
           (mkNode 3 0 (Some 2%nat) None None None None 0 0) 1).
  - apply reachable_wellformed, reach_four_nodes. lia.
  - apply live_four_nodes_3.
  - vm_compute. reflexivity.
  - intros f nf [= <-] Hnf. vm_compute in Hnf. injection Hnf as <-.
    vm_compute. discriminate.
Defined.

(** ** [fhDeleteMin], as seen by a client *)

(** X7: on a valid heap with keys below [UINT64_MAX] that holds an entry,
    [fhDeleteMin] returns the node of the cached minimum, whose key is the
    smallest in the heap; the node keeps its key and payload and is out of
    the heap, every other entry is as before, the node counter is one less
    and the heap is valid again. *)
Theorem X7_fhDeleteMin s (m : gmap addr (Z * Z)) :
  sound s → abstracts s m → m ≠ ∅ →
  ∃ d k e s' nd,
    fhDeleteMin (Some Heap) s = Ok (Some d) s' ∧
    min (heap s) = Some d ∧ m !! d = Some (k, e) ∧
    (∀ x kx ex, m !! x = Some (kx, ex) → k ≤ kx) ∧
    sound s' ∧ abstracts s' (delete d m) ∧
    mem s' !! d = Some nd ∧ key nd = k ∧ elem nd = e ∧ detached nd ∧
    nodesCount (heap s') = nodesCount (heap s) - 1.
Proof.
  intros (G & HI & HM) Habs Hne.
  pose proof (inv_shape _ _ _ HI) as HS.
  apply map_choose in Hne as (a & p & Hp).
  destruct (proj1 (Habs a p) Hp) as (Ha & na & Hna & _).
  apply (live_ghost _ G s a HS) in Ha.
  destruct (HM a na Ha Hna) as (d & nd0 & Hmin & Hnd0 & _).
  destruct (fhDeleteMin_ok _ G s d HI Hmin)
    as (s' & G' & nm & nm' & Hex & HI' & EL' & HM' & _ & Ecnt & Hnm & Hnm'
        & Hk & He & Hf1 & Hf2 & Hf3 & Hf4 & Hf5 & Hf6 & Hf7 & Hoth).
  assert (nd0 = nm) as -> by congruence.
  destruct (inv_min _ _ _ HI) as [HW _].
  destruct (HW d Hmin) as (HdL & _).
  exists d, (key nm), (elem nm), s', nm'.
  split; [done|]. split; [done|].
  split; [by apply (abstracts_lookup _ G s m d nm HS Habs)|]. split.
  { intros x kx ex Hx.
    destruct (proj1 (Habs x (kx, ex)) Hx) as (Hxl & nx & Hnx & [= -> ->]).
    apply (live_ghost _ G s x HS) in Hxl.
    destruct (HM x nx Hxl Hnx) as (d' & nd' & Hmin' & Hnd' & Hle).
    assert (d' = d) as -> by congruence.
    by assert (nd' = nm) as -> by congruence. }
  split; [exists G'; split; [done|apply HM'; lia]|]. split.
  { apply (abstracts_delete _ G s _ G' s' m d HS (inv_shape _ _ _ HI')
             Habs EL').
    intros x nx _ Hxd Hnx. by apply Hoth. }
  split; [done|]. split; [done|]. split; [done|].
  split; [by repeat split|done].
Qed.

Lemma four_entries_ne : four_entries ≠ ∅.
Proof.
  intros E. assert (four_entries !! 1%nat = Some (1, 0)) as H
    by (vm_compute; reflexivity).
  rewrite E in H. by rewrite lookup_empty in H.
Qed.

Lemma X7_fhDeleteMin_witness :
  ∃ d k e s' nd,
    fhDeleteMin (Some Heap) four_nodes = Ok (Some d) s' ∧
    min (heap four_nodes) = Some d ∧ four_entries !! d = Some (k, e) ∧
    (∀ x kx ex, four_entries !! x = Some (kx, ex) → k ≤ kx) ∧
    sound s' ∧ abstracts s' (delete d four_entries) ∧
    mem s' !! d = Some nd ∧ key nd = k ∧ elem nd = e ∧ detached nd ∧
    nodesCount (heap s') = nodesCount (heap four_nodes) - 1.
Proof.
  apply (X7_fhDeleteMin four_nodes four_entries).
  - apply sound_four_nodes.
  - apply abstracts_four_nodes.
  - apply four_entries_ne.
Defined.

(** ** [fhDelete] and [fhIncreaseKey], as seen by a client *)

Lemma fhDelete_client B G s (m : gmap addr (Z * Z)) a na :
  B ≤ UINT64_MAX → Inv B G s → MinS G s → abstracts s m →
  a ∈ gL G → mem s !! a = Some na →
  ∃ d ed s2 G2 nd2,
    fhDelete (Some Heap) (Some a) s = Ok (Some d) (with_key d (key na) s2) ∧
    Inv B G2 (with_key d (key na) s2) ∧ MinS G2 (with_key d (key na) s2) ∧
    gL G2 = gL G ∖ {[d]} ∧ d ∈ gL G ∧
    (<[a := (0, elem na)]> m) !! d = Some (0, ed) ∧
    abstracts (with_key d (key na) s2) (delete d (<[a := (0, elem na)]> m)) ∧
    mem s2 !! d = Some nd2 ∧ elem nd2 = ed ∧ detached nd2 ∧
    nodesCount (heap s2) = nodesCount (heap s) - 1.
Proof.
  intros HB HI HM Habs Ha Hna.
  pose proof (inv_shape _ _ _ HI) as HS.
  destruct (fhDelete_run _ G s a na HI Ha Hna)
    as (s1 & G1 & na1 & Hex1 & HI1 & EL1 & Hna1 & Hk1 & He1 & Hoth1 & HM1
        & Hcase).
  specialize (HM1 HM).
  pose proof (inv_shape _ _ _ HI1) as HS1.
  assert (a ∈ gL G1) as Ha1 by (by rewrite EL1).
  destruct (HM1 a na1 Ha1 Hna1) as (d & nd1 & Hmin & Hnd1 & Hle).
  rewrite Hmin in Hcase.
  destruct Hcase as (s2 & G2 & nd1' & nd2 & Hex2 & Hex & HI2 & EL2 & HM2 & _
                     & Ecnt & Hnd1' & Hnd2 & Ek2 & Ee2 & Hdet & Hoth2).
  assert (nd1' = nd1) as -> by congruence.
  destruct (inv_min _ _ _ HI1) as [HW1 _].
  destruct (HW1 d Hmin) as (Hd1 & _).
  destruct (gs_node _ _ _ (sh_g _ _ _ HS1) d Hd1) as (n & Hn & Hr & _).
  assert (n = nd1) as -> by congruence.
  assert (key nd1 = 0) as Hk0 by lia.
  assert (abstracts s1 (<[a := (0, elem na)]> m)) as Habs1.
  { rewrite <- Hk1, <- He1.
    apply (abstracts_insert _ G s _ G1 s1 m a na1 HS HS1 Habs); [|done|].
    - rewrite EL1. set_solver.
    - intros x nx _ Hne Hnx. by apply Hoth1. }
  exists d, (elem nd1), s2, G2, nd2.
  split; [done|]. split; [done|]. split; [by apply HM2|].
  split; [done|]. split; [by rewrite <- EL1|]. split.
  { replace (0, elem nd1) with (key nd1, elem nd1) by (by rewrite Hk0).
    by apply (abstracts_lookup _ G1 s1 _ d nd1 HS1 Habs1). }
  split.
  { apply (abstracts_delete _ G1 s1 _ G2 _ _ d HS1 (inv_shape _ _ _ HI2)
             Habs1); [by rewrite EL1|].
    intros x nx _ Hne Hnx. unfold with_key. cbn [mem with_mem].
    rewrite lookup_alter_ne by done. by apply Hoth2. }
  split; [done|]. split; [done|]. split; [done|done].
Qed.

Lemma abstracts_frame B G s s' (m : gmap addr (Z * Z)) :
  Shape B G s → Shape B G s' →
  (∀ x, x ∈ gL G → mem s' !! x = mem s !! x) →
  abstracts s m → abstracts s' m.
Proof.
  intros HS HS' Hsame Habs.
  apply (abstracts_intro B G s' m HS' (abstracts_dom B G s m HS Habs)).
  intros a n Ha Hn. rewrite Hsame in Hn by done.
  by apply (abstracts_lookup B G s m a n HS Habs).
Qed.

(** X8: on a valid heap with keys below [UINT64_MAX], [fhDelete] on a
    live node [a] of key [k] returns a node [d] that had key 0 once the key
    of [a] was forced to 0; [d] is out of the heap, detached, and carries
    the key [k] of [a] with its own payload.  The heap is valid again, with
    one node less.  When no other node has key 0, [d] is [a] and the heap
    has lost exactly the entry of [a]; otherwise the node that left can be
    another one of key 0, and [a] stays in the heap with key 0. *)
Theorem X8_fhDelete s (m : gmap addr (Z * Z)) a k e :
  sound s → abstracts s m → m !! a = Some (k, e) →
  ∃ d ed s' nd,
    fhDelete (Some Heap) (Some a) s = Ok (Some d) s' ∧
    (<[a := (0, e)]> m) !! d = Some (0, ed) ∧
    sound s' ∧ abstracts s' (delete d (<[a := (0, e)]> m)) ∧
    mem s' !! d = Some nd ∧ key nd = k ∧ elem nd = ed ∧ detached nd ∧
    nodesCount (heap s') = nodesCount (heap s) - 1 ∧
    ((∀ x ex, x ≠ a → m !! x ≠ Some (0, ex)) →
     d = a ∧ ed = e ∧ abstracts s' (delete a m)).
Proof.
  intros (G & HI & HM) Habs Hma.
  pose proof (inv_shape _ _ _ HI) as HS.
  destruct (proj1 (Habs a (k, e)) Hma) as (Ha & na & Hna & [= -> ->]).
  apply (live_ghost _ G s a HS) in Ha.
  destruct (fhDelete_client UINT64_MAX G s m a na ltac:(lia) HI HM Habs Ha Hna)
    as (d & ed & s2 & G2 & nd2 & Hex & HI2 & HM2 & EL2 & Hd & Hmd & Habs2
        & Hnd2 & He2 & Hdet & Ecnt).
  exists d, ed, (with_key d (key na) s2), (set_key (key na) nd2).
  split; [done|]. split; [done|]. split; [by exists G2|].
  split; [done|]. split.
  { unfold with_key. cbn [mem with_mem]. rewrite lookup_alter_eq.
    by rewrite Hnd2. }
  split; [done|]. split; [done|]. split; [done|]. split; [done|].
  intros Hzero. destruct (decide (d = a)) as [->|Hne].
  - rewrite lookup_insert_eq in Hmd. injection Hmd as <-.
    split; [done|]. split; [done|]. by rewrite delete_insert_eq in Habs2.
  - exfalso. rewrite lookup_insert_ne in Hmd by done.
    by apply (Hzero d ed).
Qed.

Lemma X8_fhDelete_witness :
  ∃ d ed s' nd,
    fhDelete (Some Heap) (Some 3%nat) four_nodes = Ok (Some d) s' ∧
    (<[3%nat := (0, 0)]> four_entries) !! d = Some (0, ed) ∧
    sound s' ∧ abstracts s' (delete d (<[3%nat := (0, 0)]> four_entries)) ∧
    mem s' !! d = Some nd ∧ key nd = 3 ∧ elem nd = ed ∧ detached nd ∧
    nodesCount (heap s') = nodesCount (heap four_nodes) - 1 ∧
    ((∀ x ex, x ≠ 3%nat → four_entries !! x ≠ Some (0, ex)) →
     d = 3%nat ∧ ed = 0 ∧ abstracts s' (delete 3%nat four_entries)).
Proof.
  apply (X8_fhDelete four_nodes four_entries 3%nat 3 0).
  - apply sound_four_nodes.
  - apply abstracts_four_nodes.
  - vm_compute. reflexivity.
Defined.

Lemma fhIncreaseKey_client s (m : gmap addr (Z * Z)) a k e inc :
  sound s → abstracts s m → m !! a = Some (k, e) →
  wrap64 (k + inc) < UINT64_MAX →
  ∃ d ed s',
    fhIncreaseKey (Some Heap) (Some a) inc s = Ok (Some d) s' ∧
    (<[a := (0, e)]> m) !! d = Some (0, ed) ∧
    sound s' ∧
    abstracts s' (<[d := (wrap64 (k + inc), ed)]> (<[a := (0, e)]> m)) ∧
    nodesCount (heap s') = nodesCount (heap s).
Proof.
  intros (G & HI & HM) Habs Hma Hlt.
  pose proof (inv_shape _ _ _ HI) as HS.
  destruct (proj1 (Habs a (k, e)) Hma) as (Ha & na & Hna & [= -> ->]).
  apply (live_ghost _ G s a HS) in Ha.
  destruct (fhDelete_client UINT64_MAX G s m a na ltac:(lia) HI HM Habs Ha Hna)
    as (d & ed & s2 & G2 & nd2 & Hex & HI2 & HM2 & EL2 & Hd & Hmd & Habs2
        & Hnd2 & He2 & Hdet & Ecnt).
  set (s3 := with_key d (key na) s2) in *.
  set (k' := wrap64 (key na + inc)) in *.
  set (nd4 := set_key k' (set_key (key na) nd2)).
  set (s4 := with_mem (alter (λ n, set_key (wrap64 (key n + inc)) n) d
                         (mem s3)) s3).
  assert (mem s3 !! d = Some (set_key (key na) nd2)) as Hnd3.
  { unfold s3, with_key. cbn [mem with_mem]. rewrite lookup_alter_eq.
    by rewrite Hnd2. }
  assert (mem s4 !! d = Some nd4) as Hnd4.
  { unfold s4. cbn [mem with_mem]. rewrite lookup_alter_eq. by rewrite Hnd3. }
  assert (d ∉ gL G2) as HdL by (rewrite EL2; set_solver).
  assert (∀ x, x ∈ gL G2 → mem s4 !! x = mem s3 !! x) as Hsame.
  { intros x Hx. unfold s4. cbn [mem with_mem]. apply lookup_alter_ne.
    by intros ->. }
  assert (Inv UINT64_MAX G2 s4) as HI4 by (by apply (Inv_frame _ G2 s3)).
  assert (MinS G2 s4) as HM4.
  { apply (MinS_frame G2 s3); [apply HI2|done..]. }
  destruct Hdet as (Hf1 & Hf2 & _ & _ & _ & _ & Hf7).
  pose proof (gs_size _ _ _ (sh_g _ _ _ HS)) as Hsz.
  pose proof (inv_cnt _ _ _ HI) as Hcnt.
  destruct (insertNode_inv _ G2 s4 d nd4 HI4 HdL Hnd4)
    as (s5 & G5 & Hex5 & HI5 & EL5 & HM5); [done|done|done| | |].
  { simpl. pose proof (wrap64_range (key na + inc)). unfold k'. lia. }
  { change (nodesCount (heap s4)) with (nodesCount (heap s2)). lia. }
  pose proof (sh_g _ _ _ (inv_shape _ _ _ HI4)) as HG4.
  destruct (gs_len _ _ _ HG4) as [Hlen4 Hmto4].
  destruct (_forest (heap s4) !! 0%nat) as [l|] eqn:Hl.
  2:{ apply lookup_ge_None in Hl. lia. }
  destruct (insertNode_exec s4 d nd4 l Hlen4 Hl Hnd4) as (m' & Hex5' & _).
  { intros mn Hmn. destruct (inv_min _ _ _ HI4) as [HW _].
    destruct (HW mn Hmn) as (_ & n & ? & _). eauto. }
  assert (abstracts s4 (delete d (<[a := (0, elem na)]> m))) as Habs4.
  { by apply (abstracts_frame _ G2 s3 s4 _ (inv_shape _ _ _ HI2)
                (inv_shape _ _ _ HI4)). }
  assert (abstracts s5 (<[d := (k', ed)]> (<[a := (0, elem na)]> m)))
    as Habs5.
  { rewrite <- (insert_delete_eq (<[a := (0, elem na)]> m)).
    rewrite Hex5' in Hex5. injection Hex5 as <-.
    replace (k', ed)
      with (key (set_posInForest (Some (mkRec (mkTree d))) nd4),
            elem (set_posInForest (Some (mkRec (mkTree d))) nd4))
      by (simpl; by rewrite He2).
    apply (abstracts_insert _ G2 s4 _ G5 _ _ d _ (inv_shape _ _ _ HI4)
             (inv_shape _ _ _ HI5) Habs4 EL5).
    - cbn [mem]. rewrite lookup_alter_eq.
      change (alter _ d (alter _ d (mem s2))) with (mem s4). by rewrite Hnd4.
    - intros x nx _ Hne Hnx. exists nx. cbn [mem].
      rewrite lookup_alter_ne by done. done. }
  exists d, ed, s5. split.
  { unfold fhIncreaseKey. rewrite (bind_Ok _ _ _ _ _ Hex).
    rewrite (bind_assign _ _ _ _ _ Hnd3). fold s4.
    unfold bind at 1. by rewrite Hex5. }
  split; [done|]. split; [exists G5; split; [done|by apply HM5]|].
  split; [done|].
  rewrite (inv_cnt _ _ _ HI5), Hcnt, EL5, EL2. f_equal. f_equal.
  apply leibniz_equiv. intros x. rewrite elem_of_union, elem_of_difference.
  rewrite elem_of_singleton. destruct (decide (x = d)) as [->|]; naive_solver.
Qed.


(** X9: on a valid heap with keys below [UINT64_MAX], [fhIncreaseKey] on
    a live node [a] of key [k], when [k + inc] modulo [2^64] is below
    [UINT64_MAX], takes out of the heap a node [d] that had key 0 once the
    key of [a] was forced to 0, and files it again as a root with key
    [(k + inc) mod 2^64]; the heap is valid again, with as many nodes.
    When no other node has key 0, [d] is [a]: its key went from [k] to
    [(k + inc) mod 2^64] and nothing else changed. *)
Theorem X9_fhIncreaseKey s (m : gmap addr (Z * Z)) a k e inc :
  sound s → abstracts s m → m !! a = Some (k, e) →
  wrap64 (k + inc) < UINT64_MAX →
  ∃ d ed s',
    fhIncreaseKey (Some Heap) (Some a) inc s = Ok (Some d) s' ∧
    (<[a := (0, e)]> m) !! d = Some (0, ed) ∧
    sound s' ∧
    abstracts s' (<[d := (wrap64 (k + inc), ed)]> (<[a := (0, e)]> m)) ∧
    nodesCount (heap s') = nodesCount (heap s) ∧
    ((∀ x ex, x ≠ a → m !! x ≠ Some (0, ex)) →
     d = a ∧ abstracts s' (<[a := (wrap64 (k + inc), e)]> m)).
Proof.
  intros Hs Habs Hma Hlt.
  destruct (fhIncreaseKey_client s m a k e inc Hs Habs Hma Hlt)
    as (d & ed & s' & Hex & Hmd & Hs' & Habs' & Ecnt).
  exists d, ed, s'. split; [done|]. split; [done|]. split; [done|].
  split; [done|]. split; [done|].
  intros Hzero. destruct (decide (d = a)) as [->|Hne].
  - split; [done|]. rewrite lookup_insert_eq in Hmd. injection Hmd as <-.
    by rewrite insert_insert_eq in Habs'.
  - exfalso. rewrite lookup_insert_ne in Hmd by done. by apply (Hzero d ed).
Qed.

Lemma X9_fhIncreaseKey_witness :
  ∃ d ed s',
    fhIncreaseKey (Some Heap) (Some 3%nat) 4 four_nodes = Ok (Some d) s' ∧
    (<[3%nat := (0, 0)]> four_entries) !! d = Some (0, ed) ∧
    sound s' ∧
    abstracts s' (<[d := (wrap64 (3 + 4), ed)]>
                    (<[3%nat := (0, 0)]> four_entries)) ∧
    nodesCount (heap s') = nodesCount (heap four_nodes) ∧
    ((∀ x ex, x ≠ 3%nat → four_entries !! x ≠ Some (0, ex)) →
     d = 3%nat ∧ abstracts s' (<[3%nat := (wrap64 (3 + 4), 0)]> four_entries)).
Proof.
  apply (X9_fhIncreaseKey four_nodes four_entries 3%nat 3 0 4).
  - apply sound_four_nodes.
  - apply abstracts_four_nodes.
  - vm_compute. reflexivity.
  - vm_compute. reflexivity.
Defined.

(** ** Heapsort *)

Lemma fill_ok kes :
  ∀ s (m : gmap addr (Z * Z)),
    sound s → abstracts s m →
    Forall (λ ke, 0 ≤ ke.1 < UINT64_MAX) kes →
    nodesCount (heap s) + Z.of_nat (length kes) ≤ ULONG_MAX →
    ∃ s' (m' : gmap addr (Z * Z)),
      fill kes s = Ok true s' ∧ sound s' ∧ abstracts s' m' ∧
      (map_to_list m').*2 ≡ₚ kes ++ (map_to_list m).*2.
Proof.
  induction kes as [|[k e] kes IH]; intros s m Hs Habs Hkeys Hroom.
  - exists s, m. split; [done|]. split; [done|]. split; [done|]. reflexivity.
  - apply Forall_cons in Hkeys as [Hk Hkeys]. simpl in Hk, Hroom.
    destruct Hs as (G & HI & HM).
    pose proof (inv_shape _ _ _ HI) as HS.
    destruct (fhInsert_ghost _ G s e k HI Hk)
      as (a & s1 & G1 & Hex & HI1 & Hfresh & EL & HM1 & Hold & Hnew & _);
      [lia|].
    assert (abstracts s1 (<[a := (k, e)]> m)) as Habs1.
    { apply (abstracts_insert _ G s _ G1 s1 m a _ HS (inv_shape _ _ _ HI1)
               Habs EL Hnew).
      intros x nx _ Hne Hnx. exists nx. by rewrite Hold. }
    assert (m !! a = None) as Hma.
    { destruct (m !! a) as [p|] eqn:Hp; [|done].
      apply Habs in Hp as (_ & n & Hn & _). congruence. }
    assert (nodesCount (heap s1) = nodesCount (heap s) + 1) as Ecnt.
    { rewrite (inv_cnt _ _ _ HI1), (inv_cnt _ _ _ HI), EL.
      assert (a ∉ gL G) as HaL.
      { intros Ha. destruct (gs_lookup (sh_g _ _ _ HS) a Ha). congruence. }
      rewrite size_union by set_solver. rewrite size_singleton. lia. }
    destruct (IH s1 (<[a := (k, e)]> m)) as (s' & m' & Hex' & Hs' & Habs' & Hp);
      [by exists G1; split; [|apply HM1]|done|done|lia|].
    exists s', m'. split.
    { simpl. by rewrite (bind_Ok _ _ _ _ _ Hex). }
    split; [done|]. split; [done|].
    rewrite Hp, (map_to_list_insert m a (k, e) Hma). simpl.
    by rewrite Permutation_middle.
Qed.

Lemma drain_ok n :
  ∀ s (m : gmap addr (Z * Z)),
    sound s → abstracts s m → size m = n →
    ∃ out s',
      drain n s = Ok out s' ∧ out ≡ₚ (map_to_list m).*2 ∧
      StronglySorted (λ x y : Z * Z, x.1 ≤ y.1) out ∧
      sound s' ∧ abstracts s' ∅.
Proof.
  induction n as [|n IH]; intros s m Hs Habs Hsz.
  - apply map_size_empty_inv in Hsz as ->.
    exists [], s. rewrite map_to_list_empty.
    split; [done|]. split; [done|]. split; [constructor|]. done.
  - assert (m ≠ ∅) as Hne.
    { intros ->. by rewrite map_size_empty in Hsz. }
    destruct Hs as (G & HI & HM).
    pose proof (inv_shape _ _ _ HI) as HS.
    apply map_choose in Hne as (a & p & Hp).
    destruct (proj1 (Habs a p) Hp) as (Ha & na & Hna & _).
    apply (live_ghost _ G s a HS) in Ha.
    destruct (HM a na Ha Hna) as (d & nd0 & Hmin & Hnd0 & _).
    destruct (fhDeleteMin_ok _ G s d HI Hmin)
      as (s1 & G1 & nm & nm' & Hex & HI1 & EL1 & HM1 & _ & _ & Hnm & Hnm'
          & Hk & He & _ & _ & _ & _ & _ & _ & _ & Hoth).
    destruct (inv_min _ _ _ HI) as [HW _].
    destruct (HW d Hmin) as (HdL & _).
    assert (m !! d = Some (key nm, elem nm)) as Hmd
      by (by apply (abstracts_lookup _ G s m d nm HS Habs)).
    assert (abstracts s1 (delete d m)) as Habs1.
    { apply (abstracts_delete _ G s _ G1 s1 m d HS (inv_shape _ _ _ HI1)
               Habs EL1).
      intros x nx _ Hxd Hnx. by apply Hoth. }
    destruct (IH s1 (delete d m)) as (rest & s' & Hex' & Hperm & Hsort & Hs' & He');
      [exists G1; split; [done|apply HM1; lia]|done| |].
    { rewrite map_size_delete, Hmd, Hsz. done. }
    exists ((key nm, elem nm) :: rest), s'. split.
    { simpl. rewrite (bind_Ok _ _ _ _ _ Hex).
      rewrite (bind_load _ _ _ _ Hnm'). rewrite (bind_Ok _ _ _ _ _ Hex').
      by rewrite Hk, He. }
    split.
    { rewrite Hperm. rewrite <- (insert_delete_id m d _ Hmd) at 2.
      rewrite map_to_list_insert by apply lookup_delete_eq. done. }
    split; [|done].
    constructor; [done|]. apply Forall_forall. intros [ky ey] Hy.
    rewrite Hperm in Hy. apply list_elem_of_fmap in Hy as ([x p'] & -> & Hx).
    apply elem_of_map_to_list in Hx. simpl.
    apply lookup_delete_Some in Hx as [_ Hx].
    destruct (proj1 (Habs x _) Hx) as (Hxl & nx & Hnx & ->).
    apply (live_ghost _ G s x HS) in Hxl.
    destruct (HM x nx Hxl Hnx) as (d' & nd' & Hmin' & Hnd' & Hle).
    assert (d' = d) as -> by congruence.
    by assert (nd' = nm) as -> by congruence.
Qed.

(** X10: heapsort.  Starting from a freshly created heap, inserting pairs
    of key and payload with keys below [UINT64_MAX], fewer than the heap can
    count, and then calling [fhDeleteMin] as many times returns all the
    pairs, in non-decreasing order of key; the heap is empty afterwards. *)
Theorem X10_heapsort n h kes :
  0 < n < 2 ^ 64 → createFibHeap n = Some h →
  Forall (λ ke, 0 ≤ ke.1 < UINT64_MAX) kes →
  Z.of_nat (length kes) ≤ ULONG_MAX →
  ∃ out s',
    heapsort kes (init_state h) = Ok out s' ∧
    out ≡ₚ kes ∧
    StronglySorted (λ x y : Z * Z, x.1 ≤ y.1) out ∧
    (∀ a, ¬ live s' a) ∧ nodesCount (heap s') = 0.
Proof.
  intros Hn Hc Hkeys Hlen.
  destruct (Inv_init UINT64_MAX n h Hn Hc) as [HI0 HM0].
  assert (nodesCount h = 0) as Hcnt0.
  { pose proof (inv_cnt _ _ _ HI0) as H. simpl in H. exact H. }
  destruct (fill_ok kes (init_state h) ∅) as (s1 & m1 & Hex1 & Hs1 & Habs1 & Hp1).
  { by exists ghost_empty. }
  { apply (abstracts_intro _ ghost_empty _ ∅ (inv_shape _ _ _ HI0)).
    - by rewrite dom_empty_L.
    - intros a n0 Ha. simpl in Ha. set_solver. }
  { done. }
  { simpl. lia. }
  rewrite map_to_list_empty, app_nil_r in Hp1.
  destruct (drain_ok (length kes) s1 m1 Hs1 Habs1)
    as (out & s' & Hex & Hperm & Hsort & (G' & HI' & _) & Habs').
  { rewrite <- length_map_to_list. rewrite <- (length_fmap snd).
    by rewrite Hp1. }
  exists out, s'. split.
  { unfold heapsort. by rewrite (bind_Ok _ _ _ _ _ Hex1). }
  split; [by rewrite Hperm|]. split; [done|].
  assert (gL G' = ∅) as HL.
  { rewrite <- (abstracts_dom _ G' s' ∅ (inv_shape _ _ _ HI') Habs').
    by rewrite dom_empty_L. }
  split.
  - by apply (no_live_ghost _ G' s' (inv_shape _ _ _ HI')).
  - by apply (wellformed_count _ G' s' HI').
Qed.

Lemma X10_heapsort_witness :
  ∃ out s',
    heapsort [(5, 50); (3, 30); (8, 80); (3, 31)]
      (init_state (mkHeap (replicate 2 createDLList) None 2 0)) = Ok out s' ∧
    out ≡ₚ [(5, 50); (3, 30); (8, 80); (3, 31)] ∧
    StronglySorted (λ x y : Z * Z, x.1 ≤ y.1) out ∧
    (∀ a, ¬ live s' a) ∧ nodesCount (heap s') = 0.
Proof.
  apply (X10_heapsort 2).
  - lia.
  - reflexivity.
  - unfold UINT64_MAX. repeat constructor; simpl; lia.
  - unfold ULONG_MAX. simpl. lia.
Defined.

(** ** No crash, no endless loop *)

Lemma fhIncreaseKey_total B G s a na inc :
  Inv B G s → MinS G s → a ∈ gL G → mem s !! a = Some na →
  wrap64 (key na + inc) < B →
  ∃ d s', fhIncreaseKey (Some Heap) (Some a) inc s = Ok (Some d) s'.
Proof.
  intros HI HM Ha Hna Hlt.
  destruct (fhDelete_run B G s a na HI Ha Hna)
    as (s1 & G1 & na1 & _ & HI1 & EL1 & Hna1 & _ & _ & _ & HM1 & Hcase).
  assert (a ∈ gL G1) as Ha1 by (by rewrite EL1).
  destruct (HM1 HM a na1 Ha1 Hna1) as (d & nd1 & Hmin & _).
  rewrite Hmin in Hcase.
  destruct Hcase as (s2 & G2 & nd1' & nd2 & _ & Hex & HI2 & EL2 & _ & _
                     & Ecnt2 & _ & Hnd2 & _ & _ & Hdet & _).
  set (s3 := with_key d (key na) s2) in *.
  assert (mem s3 !! d = Some (set_key (key na) nd2)) as Hnd3.
  { unfold s3, with_key. cbn [mem with_mem]. rewrite lookup_alter_eq.
    by rewrite Hnd2. }
  set (s4 := with_mem (alter (λ n, set_key (wrap64 (key n + inc)) n) d
                         (mem s3)) s3).
  assert (d ∉ gL G2) as HdL by (rewrite EL2; set_solver).
  assert (mem s4 !! d
          = Some (set_key (wrap64 (key na + inc)) (set_key (key na) nd2)))
    as Hnd4.
  { unfold s4. cbn [mem with_mem]. rewrite lookup_alter_eq. by rewrite Hnd3. }
  assert (Inv B G2 s4) as HI4.
  { apply (Inv_frame B G2 s3); [done|done|]. intros x Hx. unfold s4.
    cbn [mem with_mem]. apply lookup_alter_ne. by intros ->. }
  destruct Hdet as (Hf1 & Hf2 & _ & _ & _ & _ & Hf7).
  pose proof (gs_size _ _ _ (sh_g _ _ _ (inv_shape _ _ _ HI))) as Hsz.
  pose proof (inv_cnt _ _ _ HI) as Hcnt.
  destruct (insertNode_inv B G2 s4 d _ HI4 HdL Hnd4)
    as (s5 & G5 & Hex5 & _); [done|done|done| | |].
  { simpl. pose proof (wrap64_range (key na + inc)). lia. }
  { change (nodesCount (heap s4)) with (nodesCount (heap s2)). lia. }
  exists d, s5. unfold fhIncreaseKey. rewrite (bind_Ok _ _ _ _ _ Hex).
  rewrite (bind_assign _ _ _ _ _ Hnd3). fold s4.
  unfold bind at 1. by rewrite Hex5.
Qed.

(** X11: on a valid heap no public operation crashes or runs out of
    its loops: with any key, amount or increment of type [uint64_t], and
    with live nodes where a node is expected, every call returns. *)
Theorem X11_no_crash s :
  valid s →
  (∀ e k, 0 ≤ k < 2 ^ 64 → ∃ r s', fhInsert (Some Heap) e k s = Ok r s') ∧
  (∀ a d, live s a →
     ∃ s', fhDecreaseKey (Some Heap) (Some a) d s = Ok (Some a) s') ∧
  (∃ r s', fhDeleteMin (Some Heap) s = Ok r s') ∧
  (∀ a, live s a → ∃ d s', fhDelete (Some Heap) (Some a) s = Ok (Some d) s') ∧
  (∀ a inc, live s a →
     ∃ d s', fhIncreaseKey (Some Heap) (Some a) inc s = Ok (Some d) s') ∧
  (∃ r, isHeapEmpty (Some Heap) s = Ok r s) ∧
  (∃ r, fhFindMin (Some Heap) s = Ok r s).
Proof.
  intros (G & HI & HM). pose proof (inv_shape _ _ _ HI) as HS.
  pose proof (sh_g _ _ _ HS) as HG.
  destruct (gs_len _ _ _ HG) as [Hlen _].
  split.
  { intros e k Hk.
    destruct (decide (nodesCount (heap s) = ULONG_MAX)) as [Hfull|Hfull].
    - exists None, s. by apply fhInsert_full.
    - destruct (fhInsert_inv _ G s e k HI Hk Hfull) as (a & s' & _ & Hex & _).
      eauto. }
  split.
  { intros a d Ha. apply (live_ghost _ G s a HS) in Ha.
    destruct (gs_lookup HG a Ha) as [na Hna].
    destruct (fhDecreaseKey_ok _ G s a na d HI Ha Hna (wrap64_range _))
      as (s' & _ & Hex & _). eauto. }
  split.
  { destruct (forest_empty s) eqn:Hfe.
    - exists None, s. by apply fhDeleteMin_empty.
    - assert (gL G ≠ ∅) as Hne.
      { intros E. apply (forest_empty_live _ G s HS) in E. congruence. }
      apply set_choose_L in Hne as [a Ha].
      destruct (gs_lookup HG a Ha) as [na Hna].
      destruct (HM a na Ha Hna) as (m & _ & Hmin & _).
      destruct (fhDeleteMin_ok _ G s m HI Hmin) as (s' & _ & _ & _ & Hex & _).
      eauto. }
  split.
  { intros a Ha. apply (live_ghost _ G s a HS) in Ha.
    destruct (gs_lookup HG a Ha) as [na Hna].
    destruct (fhDelete_run _ G s a na HI Ha Hna)
      as (s1 & G1 & na1 & _ & _ & EL1 & Hna1 & _ & _ & _ & HM1 & Hcase).
    assert (a ∈ gL G1) as Ha1 by (by rewrite EL1).
    destruct (HM1 HM a na1 Ha1 Hna1) as (d & _ & Hmin & _).
    rewrite Hmin in Hcase. destruct Hcase as (s2 & _ & _ & _ & _ & Hex & _).
    eauto. }
  split.
  { intros a inc Ha. apply (live_ghost _ G s a HS) in Ha.
    destruct (gs_lookup HG a Ha) as [na Hna].
    apply (fhIncreaseKey_total _ G s a na inc HI HM Ha Hna).
    apply wrap64_range. }
  split.
  { eexists. by apply isHeapEmpty_spec. }
  unfold fhFindMin. rewrite bind_getHeap.
  destruct (min (heap s)) as [m|] eqn:Hmin; [|by eexists].
  destruct (inv_min _ _ _ HI) as [HW _].
  destruct (HW m Hmin) as (_ & nm & Hnm & _).
  rewrite (bind_load _ _ _ _ Hnm). by eexists.
Qed.

Lemma X11_no_crash_witness :
  (∀ e k, 0 ≤ k < 2 ^ 64 →
     ∃ r s', fhInsert (Some Heap) e k four_nodes = Ok r s') ∧
  (∀ a d, live four_nodes a →
     ∃ s', fhDecreaseKey (Some Heap) (Some a) d four_nodes = Ok (Some a) s') ∧
  (∃ r s', fhDeleteMin (Some Heap) four_nodes = Ok r s') ∧
  (∀ a, live four_nodes a →
     ∃ d s', fhDelete (Some Heap) (Some a) four_nodes = Ok (Some d) s') ∧
  (∀ a inc, live four_nodes a →
     ∃ d s', fhIncreaseKey (Some Heap) (Some a) inc four_nodes
             = Ok (Some d) s') ∧
  (∃ r, isHeapEmpty (Some Heap) four_nodes = Ok r four_nodes) ∧
  (∃ r, fhFindMin (Some Heap) four_nodes = Ok r four_nodes).
Proof.
  apply (X11_no_crash four_nodes).
  apply reachable_valid, reach_four_nodes. unfold UINT64_MAX. lia.
Defined.

(** ** Invariants of the reachable states *)

(** X12: in every state reached from a freshly created heap through the
    public operations, with no decrease by more than the key of the node,
    the node counter is the number of live nodes. *)
Theorem X12_node_counter s :
  reachable (2 ^ 64) false s →
  ∃ L : gset addr,
    (∀ a, live s a ↔ a ∈ L) ∧ nodesCount (heap s) = Z.of_nat (size L).
Proof.
  intros Hr. destruct (reachable_good (2 ^ 64) s) as (G & HI & _); [lia|done|].
  exists (gL G). split.
  - intros a. apply (live_ghost _ G s a (inv_shape _ _ _ HI)).
  - apply (inv_cnt _ _ _ HI).
Qed.

Lemma X12_node_counter_witness :
  ∃ L : gset addr,
    (∀ a, live four_nodes a ↔ a ∈ L) ∧
    nodesCount (heap four_nodes) = Z.of_nat (size L).
Proof.
  apply (X12_node_counter four_nodes). apply reach_four_nodes. lia.
Defined.

(** X13: in every such state the forest has exactly [_maxTreeOrd] lists,
    no list holds a tree twice, and the roots filed in the forest are
    exactly the live nodes without father; each is filed once, in the list
    of its number of sons, which is below [_maxTreeOrd], and its handle
    [_posInForest] is its record in that list. *)
Theorem X13_forest_filing s :
  reachable (2 ^ 64) false s →
  Z.of_nat (length (_forest (heap s))) = _maxTreeOrd (heap s) ∧
  (∀ i l, _forest (heap s) !! i = Some l → NoDup l) ∧
  (∀ a n, live s a → mem s !! a = Some n → _father n = None →
     in_forest s a) ∧
  (∀ a n, in_forest s a → mem s !! a = Some n →
     live s a ∧ _father n = None ∧
     _posInForest n = Some (mkRec (mkTree a)) ∧
     0 ≤ _sonsCnt n < _maxTreeOrd (heap s) ∧
     ∀ i l, _forest (heap s) !! i = Some l →
       (mkRec (mkTree a) ∈ l ↔ i = Z.to_nat (_sonsCnt n))).
Proof.
  intros Hr. destruct (reachable_good (2 ^ 64) s) as (G & HI & _); [lia|done|].
  pose proof (inv_shape _ _ _ HI) as HS. destruct HS as [HG Ho Hrk].
  split; [apply (gs_len _ _ _ HG)|]. split; [apply (gs_fnodup _ _ _ HG)|].
  split.
  { intros a n Ha Hn Hf. apply (live_ghost _ G s a (inv_shape _ _ _ HI)) in Ha.
    destruct (gs_root _ _ _ HG a n Ha) as (_ & l & Hl & Hin);
      [rewrite Ho; set_solver|done..|].
    by exists (grk G a), l, (mkRec (mkTree a)). }
  intros a n Hin Hn. pose proof Hin as (i0 & l0 & r0 & Hl0 & Hr0 & Era).
  destruct (gs_forest _ _ _ HG i0 l0 r0 Hl0 Hr0) as (HL & Hno & Hi0 & n' & Hn' & Hf).
  rewrite Era in HL, Hno, Hi0, Hn'. assert (n' = n) as -> by congruence.
  destruct (gs_node _ _ _ HG a HL) as (n'' & Hn'' & _ & _ & Hc).
  assert (n'' = n) as -> by congruence.
  destruct (gs_root _ _ _ HG a n HL Hno Hn Hf) as (Hpos & l & Hl & Hal).
  pose proof (gs_rank _ _ _ HG a HL Hno) as Hrank.
  pose proof (Hrk a n HL Hn Hf) as Erk.
  split; [by apply (live_ghost _ G s a (inv_shape _ _ _ HI))|].
  split; [done|]. split; [done|]. split; [lia|].
  intros i l' Hl'. rewrite Hc, Nat2Z.id, <- Erk. split.
  - intros Hin'.
    by destruct (gs_forest _ _ _ HG i l' _ Hl' Hin') as (_ & _ & <- & _).
  - intros ->. rewrite Hl in Hl'. by injection Hl' as <-.
Qed.

Lemma X13_forest_filing_witness :
  Z.of_nat (length (_forest (heap four_nodes))) = _maxTreeOrd (heap four_nodes) ∧
  (∀ i l, _forest (heap four_nodes) !! i = Some l → NoDup l) ∧
  (∀ a n, live four_nodes a → mem four_nodes !! a = Some n →
     _father n = None → in_forest four_nodes a) ∧
  (∀ a n, in_forest four_nodes a → mem four_nodes !! a = Some n →
     live four_nodes a ∧ _father n = None ∧
     _posInForest n = Some (mkRec (mkTree a)) ∧
     0 ≤ _sonsCnt n < _maxTreeOrd (heap four_nodes) ∧
     ∀ i l, _forest (heap four_nodes) !! i = Some l →
       (mkRec (mkTree a) ∈ l ↔ i = Z.to_nat (_sonsCnt n))).
Proof.
  apply (X13_forest_filing four_nodes). apply reach_four_nodes. lia.
Defined.

(** X14: in every such state the sons of a live node [f] form a list
    without repetition, as long as the counter [_sonsCnt] of [f] says and
    starting at [_firstSon]; every son points to [f] as its father and to
    its neighbours in the list as its previous and next brothers; and a
    live node that has a father is one of the sons of that father, which is
    live. *)
Theorem X14_links s :
  reachable (2 ^ 64) false s →
  (∀ f nf, live s f → mem s !! f = Some nf →
     ∃ cs, NoDup cs ∧ (∀ c, son s f c ↔ c ∈ cs) ∧
           _sonsCnt nf = Z.of_nat (length cs) ∧ _firstSon nf = head cs ∧
           sibs (mem s) f cs) ∧
  (∀ c nc f, live s c → mem s !! c = Some nc → _father nc = Some f →
     live s f ∧ son s f c).
Proof.
  intros Hr. destruct (reachable_good (2 ^ 64) s) as (G & HI & _); [lia|done|].
  pose proof (inv_shape _ _ _ HI) as HS. pose proof (sh_g _ _ _ HS) as HG.
  split.
  - intros f nf Hf Hnf. apply (live_ghost _ G s f HS) in Hf.
    destruct (gs_node _ _ _ HG f Hf) as (n & Hn & _ & Hfs & Hc).
    assert (n = nf) as -> by congruence.
    exists (gch G f). split; [by apply (gs_nodup _ _ _ HG)|].
    split; [intros c; by apply (son_ghost _ G s f c HG)|].
    split; [done|]. split; [done|]. by apply (gs_sibs _ _ _ HG).
  - intros c nc f Hc Hnc Hfa. apply (live_ghost _ G s c HS) in Hc.
    destruct (gs_father _ _ _ HG c nc f Hc Hnc Hfa) as [HfL Hin].
    split; [by apply (live_ghost _ G s f HS)|].
    by apply (son_ghost _ G s f c HG).
Qed.

Lemma X14_links_witness :
  (∀ f nf, live four_nodes f → mem four_nodes !! f = Some nf →
     ∃ cs, NoDup cs ∧ (∀ c, son four_nodes f c ↔ c ∈ cs) ∧
           _sonsCnt nf = Z.of_nat (length cs) ∧ _firstSon nf = head cs ∧
           sibs (mem four_nodes) f cs) ∧
  (∀ c nc f, live four_nodes c → mem four_nodes !! c = Some nc →
     _father nc = Some f → live four_nodes f ∧ son four_nodes f c).
Proof.
  apply (X14_links four_nodes). apply reach_four_nodes. lia.
Defined.

(** ** [_rebuild] and the slow mode of [_updateMin] *)

Lemma rebuild_ok B G s :
  Shape B G s → Ordered G s →
  nodesCount (heap s) = Z.of_nat (size (gL G)) →
  ∃ s' G',
    _rebuild s = Ok tt s' ∧ Inv B G' s' ∧ (B ≤ UINT64_MAX → MinS G' s') ∧
    one_tree_per_rank s' ∧ gL G' = gL G ∧
    (∀ x n, mem s !! x = Some n →
       ∃ n', mem s' !! x = Some n' ∧ key n' = key n ∧ elem n' = elem n) ∧
    nodesCount (heap s') = nodesCount (heap s).
Proof.
  intros HS Hord Hcnt.
  destruct (rebuild_loop_ok B (rebuild_fuel s) G s 0 HS Hord)
    as (s5 & G5 & Hex5 & HS5 & Hord5 & Hone5 & EL5 & Hk5 & _ & _ & Ecnt5).
  { destruct (gs_len _ _ _ (sh_g _ _ _ HS)). lia. }
  { intros j l0 Hj. simpl in Hj. lia. }
  { unfold rebuild_fuel. lia. }
  destruct (updateMin_slow B G5 s5 (sh_g _ _ _ HS5))
    as (m' & Hex6 & Hm1 & Hm2 & Hm3).
  exists (with_min m' s5), G5. split.
  { unfold _rebuild. unfold bind at 1. by rewrite Hex5. }
  split.
  { split.
    - destruct HS5 as [HG5 Ho5 Hrk5]. split; [|done|done].
      by apply (GShape_heap B G5 s5).
    - exact Hord5.
    - split; simpl.
      + intros a Ha. destruct (Hm2 a Ha) as (na & HaL & Hna & Hfa & _). eauto.
      + intros E. apply Hm1. by apply (forest_empty_live B G5 s5 HS5).
    - simpl. by rewrite Ecnt5, EL5. }
  split.
  { intros HB b nb Hb Hnb. simpl in Hnb.
    destruct m' as [a|].
    - destruct (Hm2 a eq_refl) as (na & HaL & Hna & Hfa & Hleast).
      exists a, na. split; [done|]. split; [done|].
      apply (min_of_roots B G5 s5 (key na) HS5 Hord5 Hleast b nb Hb Hnb).
    - exfalso. pose proof (Hm3 eq_refl HB) as E.
      apply (forest_empty_live B G5 s5 HS5) in E. set_solver. }
  split; [exact Hone5|]. split; [done|]. split; [done|done].
Qed.

(** X15: on a valid heap with keys below [UINT64_MAX], [_rebuild] merges
    trees until every list of the forest holds at most one tree and elects
    the cached minimum again; the heap is still valid, it holds the same
    nodes with the same keys and payloads, and no node is freed. *)
Theorem X15_rebuild s (m : gmap addr (Z * Z)) :
  sound s → abstracts s m →
  ∃ s',
    _rebuild s = Ok tt s' ∧ sound s' ∧ abstracts s' m ∧
    one_tree_per_rank s' ∧
    nodesCount (heap s') = nodesCount (heap s) ∧
    (∀ x n, mem s !! x = Some n →
       ∃ n', mem s' !! x = Some n' ∧ key n' = key n ∧ elem n' = elem n).
Proof.
  intros (G & HI & HM) Habs.
  pose proof (inv_shape _ _ _ HI) as HS.
  destruct (rebuild_ok _ G s HS (inv_ord _ _ _ HI) (inv_cnt _ _ _ HI))
    as (s' & G' & Hex & HI' & HM' & Hone & EL & Hkeep & Ecnt).
  exists s'. split; [done|].
  split; [exists G'; split; [done|apply HM'; lia]|]. split.
  { apply (abstracts_intro _ G' s' m (inv_shape _ _ _ HI')).
    - by rewrite (abstracts_dom _ G s m HS Habs).
    - intros a n' Ha Hn'. rewrite EL in Ha.
      destruct (gs_lookup (sh_g _ _ _ HS) a Ha) as [n Hn].
      destruct (Hkeep a n Hn) as (n'' & Hn'' & Ek & Ee).
      assert (n'' = n') as -> by congruence.
      rewrite (abstracts_lookup _ G s m a n HS Habs Ha Hn). by rewrite Ek, Ee. }
  split; [done|]. split; [done|done].
Qed.

Lemma sound_five_nodes : sound five_nodes.
Proof. apply reachable_sound, reach_five_nodes. unfold UINT64_MAX. lia. Qed.

Lemma live_five_nodes a : (a < 5)%nat → live five_nodes a.
Proof.
  intros Ha. apply live_root.
  exists 0%nat, [mkRec (mkTree 0%nat); mkRec (mkTree 1%nat);
                 mkRec (mkTree 2%nat); mkRec (mkTree 3%nat);
                 mkRec (mkTree 4%nat)], (mkRec (mkTree a)).
  split; [vm_compute; reflexivity|]. split; [|done].
  do 5 (destruct a as [|a]; [repeat constructor|]). lia.
Qed.

Lemma abstracts_five_nodes : abstracts five_nodes five_entries.
Proof.
  destruct sound_five_nodes as (G & HI & _).
  apply (abstracts_count _ G _ _ HI); [|vm_compute; reflexivity].
  intros a p Hp. apply elem_of_list_to_map_2 in Hp.
  repeat (apply elem_of_cons in Hp as [[= -> ->]|Hp];
          [split;
           [apply live_five_nodes; lia
           |eexists; split; [vm_compute; reflexivity|reflexivity]]|]).
  inversion Hp.
Qed.

Lemma five_nodes_crowded : ¬ one_tree_per_rank five_nodes.
Proof.
  intros H.
  pose proof (H 0%nat [mkRec (mkTree 0%nat); mkRec (mkTree 1%nat);
                       mkRec (mkTree 2%nat); mkRec (mkTree 3%nat);
                       mkRec (mkTree 4%nat)] ltac:(vm_compute; reflexivity))
    as H5.
  cbn [length] in H5. lia.
Qed.

Lemma X15_rebuild_witness :
  ¬ one_tree_per_rank five_nodes ∧
  ∃ s',
    _rebuild five_nodes = Ok tt s' ∧ sound s' ∧ abstracts s' five_entries ∧
    one_tree_per_rank s' ∧
    nodesCount (heap s') = nodesCount (heap five_nodes) ∧
    (∀ x n, mem five_nodes !! x = Some n →
       ∃ n', mem s' !! x = Some n' ∧ key n' = key n ∧ elem n' = elem n).
Proof.
  split; [apply five_nodes_crowded|].
  apply (X15_rebuild five_nodes five_entries).
  - apply sound_five_nodes.
  - apply abstracts_five_nodes.
Defined.

(** The running minimum of the slow mode names a node only once a key
    below [UINT64_MAX] was met. *)
Lemma scan_list_lt m l acc :
  snd acc ≤ UINT64_MAX ∧ (fst acc ≠ None → snd acc < UINT64_MAX) →
  snd (scan_list m l acc) ≤ UINT64_MAX ∧
  (fst (scan_list m l acc) ≠ None → snd (scan_list m l acc) < UINT64_MAX).
Proof.
  revert acc. induction l as [|r l IH]; intros acc Hacc; [done|].
  simpl. apply IH.
  destruct (m !! _root (recData r)) as [n|]; [|done].
  destruct (Z.ltb_spec (key n) (snd acc)); [|done]. simpl. lia.
Qed.

Lemma scan_forest_lt m F acc :
  snd acc ≤ UINT64_MAX ∧ (fst acc ≠ None → snd acc < UINT64_MAX) →
  snd (scan_forest m F acc) ≤ UINT64_MAX ∧
  (fst (scan_forest m F acc) ≠ None → snd (scan_forest m F acc) < UINT64_MAX).
Proof.
  revert acc. induction F as [|l F IH]; intros acc Hacc; [done|].
  simpl. apply IH. by apply scan_list_lt.
Qed.

Lemma updateMin_slow_scan B G s :
  GShape B G s → forest_empty s = false →
  _updateMin None s
  = Ok tt (with_min (fst (scan_forest (mem s) (_forest (heap s))
                            (None, UINT64_MAX))) s).
Proof.
  intros HG Hfe. destruct (gs_len _ _ _ HG) as [Hlen Hmto].
  unfold _updateMin.
  rewrite (bind_Ok _ _ _ _ _ (isHeapEmpty_spec s Hlen)). rewrite Hfe. simpl.
  unfold bind at 1. unfold getHeap.
  assert (updateMin_for (Z.to_nat (_maxTreeOrd (heap s))) 0
            (None, UINT64_MAX) s
          = Ok (scan_forest (mem s) (drop (Z.to_nat 0) (_forest (heap s)))
                  (None, UINT64_MAX)) s) as Hfor.
  { apply updateMin_for_spec; [lia|lia|].
    intros j l r Hl Hr.
    destruct (gs_forest _ _ _ HG j l r Hl Hr) as (_ & _ & _ & n & Hn & _).
    eauto. }
  rewrite (bind_Ok _ _ _ _ _ Hfor). simpl. by rewrite drop_0.
Qed.

(** X16: on a well-formed heap, the slow mode of [_updateMin] sets the
    cached minimum to a root filed in the forest whose key is below
    [UINT64_MAX] and is the smallest key of the heap, when there is such a
    node; it sets it to NULL exactly when no live node has a key other
    than [UINT64_MAX], which is the case of the empty heap but also of a
    heap that only holds nodes of key [UINT64_MAX]. *)
Theorem X16_updateMin_slow s :
  wellformed s →
  ∃ m',
    _updateMin None s = Ok tt (with_min m' s) ∧
    (∀ a, m' = Some a →
       in_forest s a ∧
       ∃ na, mem s !! a = Some na ∧ key na < UINT64_MAX ∧
             ∀ b nb, live s b → mem s !! b = Some nb → key na ≤ key nb) ∧
    (m' = None ↔
     ∀ b nb, live s b → mem s !! b = Some nb → key nb = UINT64_MAX).
Proof.
  intros (G & HI). pose proof (inv_shape _ _ _ HI) as HS.
  pose proof (sh_g _ _ _ HS) as HG.
  destruct (updateMin_slow _ G s HG) as (m' & Hex & Hm1 & Hm2 & _).
  exists m'. split; [done|].
  pose proof (scan_forest_all (mem s) (_forest (heap s))) as [Hle Hacc].
  pose proof (scan_forest_lt (mem s) (_forest (heap s)) (None, UINT64_MAX))
    as [_ Hlt]; [by split|].
  set (acc := scan_forest (mem s) (_forest (heap s)) (None, UINT64_MAX)) in *.
  assert (forest_empty s = false → m' = fst acc) as Hm'.
  { intros Hfe. rewrite (updateMin_slow_scan _ G s HG Hfe) in Hex.
    fold acc in Hex. by injection Hex as <-. }
  assert (∀ a, m' = Some a →
            in_forest s a ∧
            ∃ na, mem s !! a = Some na ∧ key na < UINT64_MAX ∧
                  ∀ b nb, live s b → mem s !! b = Some nb → key na ≤ key nb)
    as Hsome.
  { intros a Ha. destruct (Hm2 a Ha) as (na & HaL & Hna & Hfa & Hleast).
    split.
    { destruct (gs_root _ _ _ HG a na HaL) as (_ & l & Hl & Hin);
        [rewrite (sh_orph _ _ _ HS); set_solver|done..|].
      by exists (grk G a), l, (mkRec (mkTree a)). }
    exists na. split; [done|]. split.
    - destruct (forest_empty s) eqn:Hfe; [by rewrite (Hm1 eq_refl) in Ha|].
      rewrite (Hm' eq_refl) in Ha. rewrite Ha in Hacc.
      destruct Hacc as (r & n & _ & _ & Hn & Hk).
      assert (n = na) as -> by congruence. rewrite Hk. apply Hlt.
      by rewrite Ha.
    - intros b nb Hb Hnb. apply (live_ghost _ G s b HS) in Hb.
      apply (min_of_roots _ G s (key na) HS (inv_ord _ _ _ HI) Hleast b nb Hb Hnb). }
  split; [done|]. split.
  - intros Hnone b nb Hb Hnb. apply (live_ghost _ G s b HS) in Hb.
    destruct (forest_empty s) eqn:Hfe.
    { apply (forest_empty_live _ G s HS) in Hfe. set_solver. }
    rewrite (Hm' eq_refl) in Hnone. rewrite Hnone in Hacc.
    assert (UINT64_MAX ≤ key nb).
    { apply (min_of_roots _ G s UINT64_MAX HS (inv_ord _ _ _ HI)) with (b := b);
        [|done..].
      intros i l r n Hl Hr Hn. rewrite <- Hacc. apply (Hle r n); [|done].
      apply elem_of_concat_lookup. eauto. }
    destruct (gs_node _ _ _ HG b Hb) as (n & Hn & Hrange & _).
    assert (n = nb) as -> by congruence. unfold UINT64_MAX in *. lia.
  - intros Hall. destruct m' as [a|]; [|done]. exfalso.
    destruct (Hsome a eq_refl) as (Hin & na & Hna & Hlt' & _).
    assert (live s a) as Hal by (by apply live_root).
    rewrite (Hall a na Hal Hna) in Hlt'. lia.
Qed.

Lemma X16_updateMin_slow_witness :
  ∃ m',
    _updateMin None four_nodes = Ok tt (with_min m' four_nodes) ∧
    (∀ a, m' = Some a →
       in_forest four_nodes a ∧
       ∃ na, mem four_nodes !! a = Some na ∧ key na < UINT64_MAX ∧
             ∀ b nb, live four_nodes b → mem four_nodes !! b = Some nb →
                     key na ≤ key nb) ∧
    (m' = None ↔
     ∀ b nb, live four_nodes b → mem four_nodes !! b = Some nb →
             key nb = UINT64_MAX).
Proof.
  apply (X16_updateMin_slow four_nodes).
  apply reachable_wellformed, reach_four_nodes. lia.
Defined.

(** ** Erasing a node that is out of the heap *)

(** X17: on a valid heap with keys below [UINT64_MAX],
    [eraseFibTreeNode] on an allocated node that is not live (a node that
    [fhDeleteMin] or [fhDelete] returned) frees that node and no other node:
    the heap structure is untouched, still valid, with the same entries. *)
Theorem X17_erase_extracted s (m : gmap addr (Z * Z)) d n opts :
  sound s → abstracts s m → mem s !! d = Some n → ¬ live s d →
  eraseFibTreeNode (Some d) opts s
    = Ok tt (mkState (heap s) (delete d (mem s))) ∧
  sound (mkState (heap s) (delete d (mem s))) ∧
  abstracts (mkState (heap s) (delete d (mem s))) m.
Proof.
  intros (G & HI & HM) Habs Hn Hd.
  pose proof (inv_shape _ _ _ HI) as HS.
  assert (d ∉ gL G) as HdL.
  { intros Hin. apply Hd. by apply (live_ghost _ G s d HS). }
  set (s' := mkState (heap s) (delete d (mem s))).
  assert (∀ x, x ∈ gL G → mem s' !! x = mem s !! x) as Hsame.
  { intros x Hx. unfold s'. simpl. apply lookup_delete_ne. by intros ->. }
  assert (Inv UINT64_MAX G s') as HI' by (by apply (Inv_frame _ G s)).
  split.
  { unfold eraseFibTreeNode. rewrite (bind_load _ _ _ _ Hn).
    unfold free_data.
    assert (∀ b : bool, ((if b then ret () else ret ());;; free d) s
                        = Ok tt s') as Hfree.
    { intros b. unfold bind, ret, free. destruct b; by rewrite Hn. }
    apply Hfree. }
  split.
  - exists G. split; [done|].
    apply (MinS_frame G s); [apply HI|done..].
  - by apply (abstracts_frame _ G s s' m HS (inv_shape _ _ _ HI')).
Qed.

Lemma X17_erase_extracted_witness :
  eraseFibTreeNode (Some 0%nat) 1 four_nodes
    = Ok tt (mkState (heap four_nodes) (delete 0%nat (mem four_nodes))) ∧
  sound (mkState (heap four_nodes) (delete 0%nat (mem four_nodes))) ∧
  abstracts (mkState (heap four_nodes) (delete 0%nat (mem four_nodes)))
    four_entries.
Proof.
  apply (X17_erase_extracted four_nodes four_entries 0%nat
           (mkNode 0 0 None None None None None 0 0) 1).
  - apply sound_four_nodes.
  - apply abstracts_four_nodes.
  - vm_compute. reflexivity.
  - intros Hl.
    assert (is_Some (four_entries !! 0%nat)) as [p Hp].
    { eexists. apply abstracts_four_nodes. split; [done|].
      eexists. split; [vm_compute; reflexivity|reflexivity]. }
    vm_compute in Hp. discriminate Hp.
Defined.

(** ** Nothing is freed, no payload is changed *)

Lemma keeps_ret {A} (x : A) : keeps (ret x).
Proof. intros s r s' [= _ <-] a n Hn. eauto. Qed.

Lemma keeps_crash {A} : keeps (@crash A).
Proof. by intros s r s' H. Qed.

Lemma keeps_loop {A} : keeps (@loop A).
Proof. by intros s r s' H. Qed.

Lemma keeps_bind {A B} (m : M A) (k : A → M B) :
  keeps m → (∀ x, keeps (k x)) → keeps (bind m k).
Proof.
  intros Hm Hk s r s' H a n Hn. unfold bind in H.
  destruct (m s) as [x s1| |] eqn:E; [|done..].
  destruct (Hm _ _ _ E a n Hn) as (n1 & Hn1 & E1).
  destruct (Hk x _ _ _ H a n1 Hn1) as (n2 & Hn2 & E2).
  exists n2. split; [done|congruence].
Qed.

Lemma keeps_fuel {A B C} (g : State → B) (f : B → C → M A) c :
  (∀ x, keeps (f x c)) → keeps (λ s, f (g s) c s).
Proof. intros H s r s' E. by apply (H (g s) s r s'). Qed.

Lemma keeps_getHeap : keeps getHeap.
Proof. intros s r s' [= _ <-] a n Hn. eauto. Qed.

Lemma keeps_modHeap f : keeps (modHeap f).
Proof. intros s r s' [= _ <-] a n Hn. eauto. Qed.

Lemma keeps_load a : keeps (load a).
Proof.
  intros s r s' H b n Hn. unfold load in H.
  destruct (mem s !! a); [|done]. injection H as _ <-. eauto.
Qed.

Lemma keeps_assign a f : (∀ n, elem (f n) = elem n) → keeps (assign a f).
Proof.
  intros Hf s r s' H b n Hn. unfold assign in H.
  destruct (mem s !! a) as [na|] eqn:Hna; [|done]. injection H as _ <-.
  simpl. destruct (decide (b = a)) as [->|Hne].
  - rewrite lookup_insert_eq. exists (f na). split; [done|].
    rewrite Hf. congruence.
  - rewrite lookup_insert_ne by done. eauto.
Qed.

Lemma keeps_forest_get i : keeps (forest_get i).
Proof.
  intros s r s' H b n Hn. unfold forest_get in H.
  destruct (_forest (heap s) !! Z.to_nat i); [|done]. injection H as _ <-.
  eauto.
Qed.

Lemma keeps_forest_set i l : keeps (forest_set i l).
Proof.
  intros s r s' H b n Hn. unfold forest_set in H.
  destruct (_forest (heap s) !! Z.to_nat i); [|done]. injection H as _ <-.
  eauto.
Qed.

(** A node is allocated and initialised: the nodes that were there are
    not touched. *)
Lemma keeps_alloc_init {A} X (k : addr → M A) :
  (∀ x, keeps (k x)) →
  keeps (newNode <- calloc_node ;; assign newNode (λ _, X) ;;; k newNode).
Proof.
  intros Hk s r s' H a n Hn.
  unfold bind at 1 in H. unfold calloc_node in H.
  unfold bind at 1 in H. unfold assign in H. simpl in H.
  rewrite lookup_insert_eq in H.
  apply (Hk _ _ _ _ H a n). simpl.
  assert (a ≠ fresh (dom (mem s))) as Hne.
  { intros ->. apply (is_fresh (dom (mem s))). apply elem_of_dom. eauto. }
  by rewrite !lookup_insert_ne.
Qed.

Create HintDb keeps.

Ltac keeps_step :=
  first
    [ apply keeps_ret | apply keeps_crash | apply keeps_loop
    | apply keeps_getHeap | apply keeps_modHeap | apply keeps_load
    | apply keeps_forest_get | apply keeps_forest_set
    | apply keeps_assign; intros ?; reflexivity
    | solve [auto 1 with keeps nocore]
    | match goal with H : _ |- keeps _ => apply H end
    | apply keeps_bind; [|intros ?]
    | match goal with
      | |- keeps (match ?x with _ => _ end) => destruct x
      | |- keeps (if ?b then _ else _) => destruct b
      | |- keeps (λ s, _) => apply keeps_fuel; intros ?
      end ].

Ltac keeps_tac := repeat keeps_step.

Lemma keeps_isHeapEmpty_for n : ∀ i, keeps (isHeapEmpty_for n i).
Proof. induction n as [|n IH]; intros i; simpl; keeps_tac. Qed.
#[local] Hint Resolve keeps_isHeapEmpty_for : keeps.

Lemma keeps_isHeapEmpty h : keeps (isHeapEmpty h).
Proof. unfold isHeapEmpty. keeps_tac. Qed.
#[local] Hint Resolve keeps_isHeapEmpty : keeps.

Lemma keeps_updateMin_while l : ∀ acc, keeps (updateMin_while l acc).
Proof. induction l as [|r l IH]; intros acc; simpl; keeps_tac. Qed.
#[local] Hint Resolve keeps_updateMin_while : keeps.

Lemma keeps_updateMin_for n : ∀ i acc, keeps (updateMin_for n i acc).
Proof. induction n as [|n IH]; intros i acc; simpl; keeps_tac. Qed.
#[local] Hint Resolve keeps_updateMin_for : keeps.

Lemma keeps_updateMin o : keeps (_updateMin o).
Proof. unfold _updateMin. keeps_tac. Qed.
#[local] Hint Resolve keeps_updateMin : keeps.

Lemma keeps_insertNode d : keeps (_insertNode d).
Proof. unfold _insertNode. simpl. keeps_tac. Qed.
#[local] Hint Resolve keeps_insertNode : keeps.

Lemma keeps_cascadedDetach_rec fuel : ∀ a, keeps (_cascadedDetach_rec fuel a).
Proof.
  induction fuel as [|fuel IH]; intros a; simpl; [keeps_tac|].
  unfold addAsLast. keeps_tac.
Qed.
#[local] Hint Resolve keeps_cascadedDetach_rec : keeps.

Lemma keeps_cascadedDetach a : keeps (_cascadedDetach a).
Proof. unfold _cascadedDetach. keeps_tac. Qed.
#[local] Hint Resolve keeps_cascadedDetach : keeps.

Lemma keeps_cutSubtrees_while fuel : ∀ c, keeps (cutSubtrees_while fuel c).
Proof.
  induction fuel as [|fuel IH]; intros [c|]; simpl; keeps_tac.
Qed.
#[local] Hint Resolve keeps_cutSubtrees_while : keeps.

Lemma keeps_cutSubtrees t : keeps (_cutSubtrees t).
Proof. unfold _cutSubtrees. keeps_tac. Qed.
#[local] Hint Resolve keeps_cutSubtrees : keeps.

Lemma keeps_mergeRecordedTrees t1 t2 r1 r2 :
  keeps (_mergeRecordedTrees t1 t2 r1 r2).
Proof. unfold _mergeRecordedTrees. keeps_tac. Qed.
#[local] Hint Resolve keeps_mergeRecordedTrees : keeps.

Lemma keeps_rebuild_loop fuel : ∀ i, keeps (rebuild_loop fuel i).
Proof. induction fuel as [|fuel IH]; intros i; simpl; keeps_tac. Qed.
#[local] Hint Resolve keeps_rebuild_loop : keeps.

Lemma keeps_rebuild : keeps _rebuild.
Proof. unfold _rebuild. keeps_tac. Qed.
#[local] Hint Resolve keeps_rebuild : keeps.

Lemma keeps_newRoots_while fuel : ∀ c, keeps (newRoots_while fuel c).
Proof.
  induction fuel as [|fuel IH]; intros [c|]; simpl; unfold addAsLast;
    keeps_tac.
Qed.
#[local] Hint Resolve keeps_newRoots_while : keeps.

Lemma keeps_fhDecreaseKey h a d : keeps (fhDecreaseKey h a d).
Proof. unfold fhDecreaseKey. destruct h, a; keeps_tac. Qed.
#[local] Hint Resolve keeps_fhDecreaseKey : keeps.

Lemma keeps_fhDeleteMin h : keeps (fhDeleteMin h).
Proof. unfold fhDeleteMin. destruct h; keeps_tac. Qed.
#[local] Hint Resolve keeps_fhDeleteMin : keeps.

Lemma keeps_fhDelete h a : keeps (fhDelete h a).
Proof. unfold fhDelete. destruct h, a; keeps_tac. Qed.
#[local] Hint Resolve keeps_fhDelete : keeps.

Lemma keeps_fhIncreaseKey h a inc : keeps (fhIncreaseKey h a inc).
Proof. unfold fhIncreaseKey. destruct h, a; keeps_tac. Qed.

Lemma keeps_fhInsert h e k : keeps (fhInsert h e k).
Proof.
  unfold fhInsert. destruct h; [|keeps_tac].
  apply keeps_bind; [keeps_tac|intros hp].
  destruct (nodesCount hp =? ULONG_MAX); [keeps_tac|].
  apply keeps_alloc_init. intros x. keeps_tac.
Qed.

(** X18: whatever the state, valid or not, when [fhInsert],
    [fhDecreaseKey], [fhDeleteMin], [fhDelete] or [fhIncreaseKey] returns,
    every node that was allocated before the call is still allocated and
    has the same payload: these operations free no node, not even the one
    they take out of the heap, and never write a payload. *)
Theorem X18_nothing_freed s h a e k d inc r s' :
  fhInsert h e k s = Ok r s' ∨ fhDecreaseKey h a d s = Ok r s' ∨
  fhDeleteMin h s = Ok r s' ∨ fhDelete h a s = Ok r s' ∨
  fhIncreaseKey h a inc s = Ok r s' →
  ∀ x n, mem s !! x = Some n →
    ∃ n', mem s' !! x = Some n' ∧ elem n' = elem n.
Proof.
  intros [H|[H|[H|[H|H]]]] x n Hn.
  - by apply (keeps_fhInsert h e k s r s' H x n).
  - by apply (keeps_fhDecreaseKey h a d s r s' H x n).
  - by apply (keeps_fhDeleteMin h s r s' H x n).
  - by apply (keeps_fhDelete h a s r s' H x n).
  - by apply (keeps_fhIncreaseKey h a inc s r s' H x n).
Qed.

Lemma X18_nothing_freed_witness :
  ∃ n', mem (after (fhDeleteMin (Some Heap)) four_nodes) !! 1%nat = Some n' ∧
        elem n' = 0.
Proof.
  apply (X18_nothing_freed four_nodes (Some Heap) None 0 0 0 0 (Some 1%nat)
           (after (fhDeleteMin (Some Heap)) four_nodes)
           ltac:(right; right; left; vm_compute; reflexivity)
           1%nat
           (mkNode 1 0 None (Some 2%nat) None None
              (Some (mkRec (mkTree 1%nat))) 2 0)).
  vm_compute. reflexivity.
Defined.

(** ** Erasing the heap *)

Section subtrees.
Context {B : Z} {G : Ghost} {s : State} (HG : GShape B G s).

Lemma anc_live x a : anc G x a → x ∈ gL G ∧ a ∈ gL G.
Proof.
  induction 1 as [a Ha|x f a Hf Hx _ [_ IH]]; [done|].
  split; [|done]. by destruct (gs_ch _ _ _ HG f x Hf Hx).
Qed.

Lemma anc_snoc x c a : anc G x c → a ∈ gL G → c ∈ gch G a → anc G x a.
Proof.
  intros Hxc Ha Hc. induction Hxc as [c Hc'|x f c Hf Hx _ IH].
  - apply (anc_step G c a a Ha Hc). by apply anc_refl.
  - apply (anc_step G x f a Hf Hx). by apply IH.
Qed.

Lemma anc_inv x a : anc G x a → x = a ∨ ∃ c, c ∈ gch G a ∧ anc G x c.
Proof.
  induction 1 as [a Ha|x f a Hf Hx Hfa IH]; [by left|]. right.
  destruct IH as [->|(c & Hc & Hfc)].
  - exists x. split; [done|]. apply anc_refl.
    by destruct (gs_ch _ _ _ HG a x Hf Hx).
  - exists c. split; [done|]. by apply (anc_step G x f c).
Qed.

Lemma anc_ght x a : anc G x a → (ght G x ≤ ght G a)%nat.
Proof.
  induction 1 as [a Ha|x f a Hf Hx _ IH]; [done|].
  destruct (gs_ch _ _ _ HG f x Hf Hx) as [_ Hlt]. lia.
Qed.

Lemma anc_linear x a b : anc G x a → anc G x b → anc G a b ∨ anc G b a.
Proof.
  intros Ha. revert b. induction Ha as [a Ha|x f a Hf Hx Hfa IH]; intros b Hb.
  - by left.
  - inversion Hb as [? Hb'|? f' ? Hf' Hx' Hfb]; subst.
    + right. by apply (anc_step G b f a).
    + assert (f' = f) as -> by (by apply (gs_son_unique HG f' f x)).
      by apply IH.
Qed.

(** The trees of two sons of a node share no node. *)
Lemma anc_sons_disjoint a c c' x :
  a ∈ gL G → c ∈ gch G a → c' ∈ gch G a → c ≠ c' →
  anc G x c → anc G x c' → False.
Proof.
  intros Ha Hc Hc' Hne Hxc Hxc'.
  assert (∀ c1 c2, c1 ∈ gch G a → c2 ∈ gch G a → c1 ≠ c2 →
            anc G c1 c2 → False) as Hno.
  { intros c1 c2 H1 H2 Hne' H12.
    inversion H12 as [|? f ? Hf Hc1 Hfa]; subst; [done|].
    assert (f = a) as -> by (by apply (gs_son_unique HG f a c1)).
    pose proof (anc_ght _ _ Hfa).
    destruct (gs_ch _ _ _ HG a c2 Ha H2). lia. }
  destruct (anc_linear x c c' Hxc Hxc') as [H|H].
  - by apply (Hno c c').
  - by apply (Hno c' c).
Qed.

(** A node is not in the tree of one of its sons. *)
Lemma anc_son_not a c : a ∈ gL G → c ∈ gch G a → ¬ anc G a c.
Proof.
  intros Ha Hc H. pose proof (anc_ght _ _ H).
  destruct (gs_ch _ _ _ HG a c Ha Hc). lia.
Qed.

(** The trees of two roots share no node. *)
Lemma anc_roots_disjoint r1 r2 n1 n2 x :
  mem s !! r1 = Some n1 → _father n1 = None →
  mem s !! r2 = Some n2 → _father n2 = None →
  r1 ≠ r2 → anc G x r1 → anc G x r2 → False.
Proof.
  intros Hn1 Hf1 Hn2 Hf2 Hne H1 H2.
  assert (∀ r r' n, mem s !! r = Some n → _father n = None → r ≠ r' →
            anc G r r' → False) as Hno.
  { intros r r' n Hn Hf Hne' H.
    inversion H as [|? f ? HfL Hr _]; subst; [done|].
    destruct (gs_son_father HG f r HfL Hr) as (n' & Hn' & Hf').
    congruence. }
  destruct (anc_linear x r1 r2 H1 H2) as [H|H].
  - by apply (Hno r1 r2 n1).
  - by apply (Hno r2 r1 n2).
Qed.

(** Every live node is in the tree of a root. *)
Lemma anc_root x :
  x ∈ gL G →
  ∃ r nr, anc G x r ∧ mem s !! r = Some nr ∧ _father nr = None.
Proof.
  revert x. apply (up_ind HG). intros a n Ha Hn IH.
  destruct (_father n) as [f|] eqn:Hf.
  - destruct (IH f eq_refl) as (r & nr & Hfr & Hnr & Hfn).
    destruct (gs_father _ _ _ HG a n f Ha Hn Hf) as [HfL Hin].
    exists r, nr. split; [|done]. by apply (anc_step G a f r).
  - exists a, n. split; [by apply anc_refl|done].
Qed.

Lemma below_son D D' a c :
  a ∈ gL G → c ∈ gch G a → c ∈ D → D' ⊆ D →
  (below G D' c < below G D a)%nat.
Proof.
  intros Ha Hc HcD Hsub.
  destruct (gs_ch _ _ _ HG a c Ha Hc) as [HcL Hlt].
  unfold below. apply subset_size. apply elem_of_subset. split.
  - intros y Hy. apply elem_of_filter in Hy as [Hy Hy'].
    apply elem_of_filter. split; [lia|set_solver].
  - intros Hall. specialize (Hall c).
    rewrite !elem_of_filter in Hall.
    assert ((ght G c < ght G c)%nat ∧ c ∈ gL G ∩ D'); [|lia].
    apply Hall. split; [done|set_solver].
Qed.

Lemma below_sons D a :
  a ∈ gL G → (∀ c, c ∈ gch G a → c ∈ D) →
  (length (gch G a) ≤ below G D a)%nat.
Proof.
  intros Ha Hin. unfold below.
  rewrite <- (size_list_to_set (C := gset addr) (gch G a))
    by apply (gs_nodup _ _ _ HG a Ha).
  apply subseteq_size. intros c Hc. apply elem_of_list_to_set in Hc.
  destruct (gs_ch _ _ _ HG a c Ha Hc) as [HcL Hlt].
  apply elem_of_filter. split; [done|]. specialize (Hin c Hc). set_solver.
Qed.

Lemma below_le_size D a : (below G D a ≤ size D)%nat.
Proof.
  unfold below. apply subseteq_size. intros y Hy.
  apply elem_of_filter in Hy as [_ Hy]. set_solver.
Qed.

End subtrees.

Lemma eraseSubtree_rec_S fuel root opts :
  _eraseSubtree_rec (S fuel) root opts
  = (r <- load root ;;
     erase_sons (λ c, _eraseSubtree_rec fuel c opts) fuel (_firstSon r) ;;;
     free_data opts (elem r) ;;;
     free root).
Proof. reflexivity. Qed.

Lemma erase_sons_None again n : erase_sons again n None = ret tt.
Proof. by destruct n. Qed.

Lemma erase_sons_Some again n c :
  erase_sons again (S n) (Some c)
  = (cn <- load c ;; again c ;;; erase_sons again n (_nextBro cn)).
Proof. reflexivity. Qed.

Lemma free_exec a n s :
  mem s !! a = Some n →
  ∀ opts e, (free_data opts e ;;; free a) s
            = Ok tt (mkState (heap s) (delete a (mem s))).
Proof.
  intros Hn opts e. unfold free_data, bind, ret, free.
  destruct (Z.land opts DELETE_FREE_DATA =? 0); by rewrite Hn.
Qed.

(** [_eraseSubtree] frees the tree of [a] and nothing else, provided that
    tree is as in the well-formed state [s]. *)
Lemma erase_subtree B G s opts fuel :
  GShape B G s →
  ∀ a s1, a ∈ gL G →
    (∀ x, anc G x a → mem s1 !! x = mem s !! x) →
    (below G (dom (mem s1)) a < fuel)%nat →
    ∃ s2,
      _eraseSubtree_rec fuel a opts s1 = Ok tt s2 ∧ heap s2 = heap s1 ∧
      (∀ x, anc G x a → mem s2 !! x = None) ∧
      (∀ x, ¬ anc G x a → mem s2 !! x = mem s1 !! x) ∧
      (∀ x n, mem s2 !! x = Some n → mem s1 !! x = Some n).
Proof.
  intros HG. induction fuel as [|fuel IH]; intros a s1 Ha Hint Hfuel; [lia|].
  destruct (gs_node _ _ _ HG a Ha) as (na & Hna & _ & Hfs & _).
  assert (mem s1 !! a = Some na) as Hna1.
  { rewrite Hint; [done|by apply anc_refl]. }
  set (cs := gch G a) in *.
  pose proof (gs_nodup _ _ _ HG a Ha) as Hnd. fold cs in Hnd.
  assert (∀ c, c ∈ cs → c ∈ dom (mem s1)) as Hdomc.
  { intros c Hc. apply elem_of_dom. rewrite Hint.
    - destruct (gs_son_father HG a c Ha Hc) as (nc & -> & _). eauto.
    - apply (anc_snoc c c a); [|done..]. apply anc_refl.
      by destruct (gs_ch _ _ _ HG a c Ha Hc). }
  (* the loop over the sons, from the son of index [i] on *)
  assert (∀ n i s1',
            (length cs - i ≤ n)%nat →
            (∀ j c, cs !! j = Some c → (i ≤ j)%nat →
               ∀ x, anc G x c → mem s1' !! x = mem s !! x) →
            dom (mem s1') ⊆ dom (mem s1) →
            ∃ s2',
              erase_sons (λ c, _eraseSubtree_rec fuel c opts) n (cs !! i) s1'
              = Ok tt s2' ∧ heap s2' = heap s1' ∧
              (∀ x j c, (i ≤ j)%nat → cs !! j = Some c → anc G x c →
                 mem s2' !! x = None) ∧
              (∀ x, (∀ j c, (i ≤ j)%nat → cs !! j = Some c → ¬ anc G x c) →
                 mem s2' !! x = mem s1' !! x) ∧
              (∀ x n, mem s2' !! x = Some n → mem s1' !! x = Some n))
    as Hloop.
  { induction n as [|n IHn]; intros i s1' Hn Hint' Hdom.
    - assert (cs !! i = None) as -> by (apply lookup_ge_None; lia).
      exists s1'. split; [done|]. split; [done|]. split; [|done].
      intros x j c Hj Hc. apply lookup_lt_Some in Hc. lia.
    - destruct (cs !! i) as [c|] eqn:Hc.
      2:{ rewrite erase_sons_None. exists s1'. split; [done|].
          split; [done|]. split; [|done].
          intros x j c Hj Hc'. apply lookup_ge_None in Hc.
          apply lookup_lt_Some in Hc'. lia. }
      assert (c ∈ cs) as Hcin by (by eapply list_elem_of_lookup_2).
      destruct (gs_ch _ _ _ HG a c Ha Hcin) as [HcL _].
      destruct (gs_sibs _ _ _ HG a Ha i c Hc) as (nc & Hnc & _ & _ & Hnx).
      assert (mem s1' !! c = Some nc) as Hnc1.
      { rewrite (Hint' i c Hc); [done|lia|by apply anc_refl]. }
      destruct (IH c s1' HcL) as (s3 & Hex3 & Hh3 & Hfree3 & Hkeep3 & Hshr3).
      { intros x Hx. by apply (Hint' i c Hc). }
      { pose proof (below_son HG (dom (mem s1)) (dom (mem s1')) a c Ha Hcin
                      (Hdomc c Hcin) Hdom). lia. }
      destruct (IHn (S i) s3) as (s2' & Hex2 & Hh2 & Hfree2 & Hkeep2 & Hshr2).
      { lia. }
      { intros j c' Hc' Hj x Hx. rewrite Hkeep3.
        - apply (Hint' j c' Hc'); [lia|done].
        - intros Hxc.
          assert (c ≠ c') as Hne.
          { intros <-. pose proof (NoDup_lookup _ _ _ _ Hnd Hc Hc'). lia. }
          apply (anc_sons_disjoint HG a c c' x Ha Hcin); try done.
          by eapply list_elem_of_lookup_2. }
      { intros x Hx. apply elem_of_dom in Hx as [n' Hn'].
        apply Hdom. apply elem_of_dom. rewrite (Hshr3 x n' Hn'). eauto. }
      exists s2'. split.
      { rewrite erase_sons_Some. rewrite (bind_load _ _ _ _ Hnc1).
        rewrite (bind_Ok _ _ _ _ _ Hex3). by rewrite Hnx. }
      split; [congruence|]. split; [|split].
      + intros x j c' Hj Hc' Hx.
        destruct (decide (j = i)) as [->|Hji].
        * assert (c' = c) as -> by congruence.
          destruct (mem s2' !! x) as [n'|] eqn:E; [|done].
          apply Hshr2 in E. rewrite (Hfree3 x Hx) in E. done.
        * apply (Hfree2 x j c'); [lia|done..].
      + intros x Hx. rewrite Hkeep2.
        * apply Hkeep3. by apply (Hx i c).
        * intros j c' Hj Hc'. apply (Hx j c'); [lia|done].
      + intros x n' Hn'. by apply Hshr3, Hshr2. }
  destruct (Hloop fuel 0%nat s1) as (s2' & Hex2 & Hh2 & Hfree2 & Hkeep2 & Hshr2).
  { pose proof (below_sons HG (dom (mem s1)) a Ha Hdomc). fold cs in H. lia. }
  { intros j c Hc _ x Hx. apply Hint.
    apply (anc_snoc x c a Hx Ha). by eapply list_elem_of_lookup_2. }
  { done. }
  assert (mem s2' !! a = Some na) as Hna2.
  { rewrite Hkeep2; [done|]. intros j c _ Hc.
    apply (anc_son_not HG a c Ha). by eapply list_elem_of_lookup_2. }
  exists (mkState (heap s2') (delete a (mem s2'))). split.
  { rewrite eraseSubtree_rec_S. rewrite (bind_load _ _ _ _ Hna1).
    rewrite Hfs. replace (head cs) with (cs !! 0%nat) by (by destruct cs).
    rewrite (bind_Ok _ _ _ _ _ Hex2). by apply (free_exec a na). }
  split; [done|]. split; [|split].
  - intros x Hx. simpl. apply lookup_delete_None.
    destruct (anc_inv HG x a Hx) as [->|(c & Hc & Hxc)]; [by left|right].
    apply list_elem_of_lookup_1 in Hc as [j Hj].
    apply (Hfree2 x j c); [lia|done..].
  - intros x Hx. simpl.
    assert (x ≠ a) as Hne by (intros ->; apply Hx; by apply anc_refl).
    rewrite lookup_delete_ne by done. apply Hkeep2.
    intros j c _ Hc Hxc. apply Hx.
    apply (anc_snoc x c a Hxc Ha). by eapply list_elem_of_lookup_2.
  - intros x n' Hn'. simpl in Hn'. apply lookup_delete_Some in Hn' as [_ Hn'].
    by apply Hshr2.
Qed.

(** The [while] of [eraseFibHeap] over one list of the forest. *)
Lemma erase_while_ok B G s opts i :
  GShape B G s →
  ∀ l fuel s1,
    (length l < fuel)%nat →
    _forest (heap s1) !! Z.to_nat i = Some l → NoDup l →
    (∀ r, r ∈ l →
       _root (recData r) ∈ gL G ∧
       ∃ n, mem s !! _root (recData r) = Some n ∧ _father n = None) →
    (∀ r x, r ∈ l → anc G x (_root (recData r)) →
       mem s1 !! x = mem s !! x) →
    ∃ s2,
      erase_while fuel i opts s1 = Ok tt s2 ∧
      length (_forest (heap s2)) = length (_forest (heap s1)) ∧
      (∀ j, j ≠ Z.to_nat i →
         _forest (heap s2) !! j = _forest (heap s1) !! j) ∧
      (∀ r x, r ∈ l → anc G x (_root (recData r)) → mem s2 !! x = None) ∧
      (∀ x, (∀ r, r ∈ l → ¬ anc G x (_root (recData r))) →
         mem s2 !! x = mem s1 !! x) ∧
      (∀ x n, mem s2 !! x = Some n → mem s1 !! x = Some n).
Proof.
  intros HG. induction l as [|r l IH]; intros fuel s1 Hfuel Hl Hnd Hroots Hint;
    (destruct fuel as [|fuel]; [simpl in Hfuel; lia|]).
  - exists s1. split.
    { simpl. by rewrite (bind_forest_get i _ _ _ Hl). }
    split; [done|]. split; [done|]. split; [|done].
    intros r x Hr. by apply elem_of_nil in Hr.
  - apply NoDup_cons in Hnd as [Hrl Hnd].
    set (s1a := with_forest (<[Z.to_nat i := l]> (_forest (heap s1))) s1).
    destruct (Hroots r) as (HrL & nr & Hnr & Hfr); [left|].
    destruct (erase_subtree B G s opts (walk_fuel s1a) HG
                (_root (recData r)) s1a HrL)
      as (s1b & Hexb & Hhb & Hfreeb & Hkeepb & Hshrb).
    { intros x Hx. apply (Hint r x); [left|done]. }
    { unfold walk_fuel.
      pose proof (below_le_size HG (dom (mem s1a)) (_root (recData r))).
      rewrite size_dom in H. lia. }
    destruct (IH fuel s1b) as (s2 & Hex2 & Hlen2 & Hoth2 & Hfree2 & Hkeep2 & Hshr2).
    { simpl in Hfuel. lia. }
    { rewrite Hhb. unfold s1a. simpl. apply list_lookup_insert_eq.
      by eapply lookup_lt_Some. }
    { done. }
    { intros r' Hr'. apply Hroots. by right. }
    { intros r' x Hr' Hx. rewrite Hkeepb.
      - apply (Hint r' x); [by right|done].
      - intros Hxr.
        destruct (Hroots r') as (_ & nr' & Hnr' & Hfr'); [by right|].
        apply (anc_roots_disjoint HG (_root (recData r)) (_root (recData r'))
                 nr nr' x Hnr Hfr Hnr' Hfr'); [|done..].
        intros E. apply rec_root_inj in E. by subst. }
    exists s2. split.
    { simpl. rewrite (bind_forest_get i _ _ _ Hl). simpl.
      rewrite (bind_forest_set i _ _ _ _ Hl). fold s1a.
      unfold _eraseTree, _eraseSubtree. unfold bind at 1.
      by rewrite Hexb. }
    split.
    { rewrite Hlen2, Hhb. unfold s1a. simpl. by rewrite length_insert. }
    split.
    { intros j Hj. rewrite (Hoth2 j Hj), Hhb. unfold s1a. simpl.
      by rewrite list_lookup_insert_ne. }
    split; [|split].
    + intros r' x Hr' Hx. apply elem_of_cons in Hr' as [->|Hr'].
      * destruct (mem s2 !! x) as [n'|] eqn:E; [|done].
        apply Hshr2 in E. by rewrite (Hfreeb x Hx) in E.
      * by apply (Hfree2 r' x).
    + intros x Hx. rewrite Hkeep2.
      * apply Hkeepb. apply Hx. by left.
      * intros r' Hr'. apply Hx. by right.
    + intros x n' Hn'. by apply Hshrb, Hshr2.
Qed.

Lemma covered_snoc G Fs l x :
  covered G (Fs ++ [l]) x ↔
  covered G Fs x ∨ ∃ r, r ∈ l ∧ anc G x (_root (recData r)).
Proof.
  unfold covered. split.
  - intros (l' & r & Hl' & Hr & Hx). apply elem_of_app in Hl' as [Hl'|Hl'].
    + left. eauto.
    + apply list_elem_of_singleton in Hl' as ->. right. eauto.
  - intros [(l' & r & Hl' & Hr & Hx)|(r & Hr & Hx)].
    + exists l', r. split; [|done]. apply elem_of_app. by left.
    + exists l, r. split; [|done]. apply elem_of_app. right.
      by apply list_elem_of_singleton.
Qed.

(** The [for] of [eraseFibHeap] over the lists of a forest that holds
    trees. *)
Lemma erase_for_ok B G s opts :
  GShape B G s →
  ∀ n i s1,
    0 ≤ i → (Z.to_nat i + n = length (_forest (heap s)))%nat →
    length (_forest (heap s1)) = length (_forest (heap s)) →
    (∀ j, (Z.to_nat i ≤ j)%nat →
       _forest (heap s1) !! j = _forest (heap s) !! j) →
    (∀ x, covered G (take (Z.to_nat i) (_forest (heap s))) x →
       mem s1 !! x = None) →
    (∀ x, ¬ covered G (take (Z.to_nat i) (_forest (heap s))) x →
       mem s1 !! x = mem s !! x) →
    ∃ s2,
      erase_for n i opts true s1 = Ok tt s2 ∧
      (∀ x, covered G (_forest (heap s)) x → mem s2 !! x = None) ∧
      (∀ x, ¬ covered G (_forest (heap s)) x → mem s2 !! x = mem s !! x).
Proof.
  intros HG. set (F := _forest (heap s)).
  induction n as [|n IH]; intros i s1 Hi Hn Hlen Hrest Hfreed Hkept.
  - rewrite take_ge in Hfreed, Hkept by (fold F; lia).
    exists s1. by split.
  - destruct (F !! Z.to_nat i) as [l|] eqn:Hl.
    2:{ apply lookup_ge_None in Hl. lia. }
    assert (_forest (heap s1) !! Z.to_nat i = Some l) as Hl1.
    { by rewrite Hrest. }
    assert (∀ r, r ∈ l →
              _root (recData r) ∈ gL G ∧
              ∃ n, mem s !! _root (recData r) = Some n ∧ _father n = None)
      as Hroots.
    { intros r Hr.
      destruct (gs_forest _ _ _ HG _ l r Hl Hr) as (HL & _ & _ & Hn'). eauto. }
    assert (∀ r x, r ∈ l → anc G x (_root (recData r)) →
              ¬ covered G (take (Z.to_nat i) F) x) as Hdisj.
    { intros r x Hr Hx (l0 & r0 & Hl0 & Hr0 & Hx0).
      apply list_elem_of_lookup_1 in Hl0 as [j Hj].
      pose proof (lookup_lt_Some _ _ _ Hj) as Hjlt.
      rewrite length_take in Hjlt.
      rewrite lookup_take_lt in Hj by lia.
      destruct (gs_forest _ _ _ HG j l0 r0 Hj Hr0) as (_ & _ & Erk0 & n0 & Hn0 & Hf0).
      destruct (gs_forest _ _ _ HG _ l r Hl Hr) as (_ & _ & Erk & n1 & Hn1 & Hf1).
      apply (anc_roots_disjoint HG (_root (recData r0)) (_root (recData r))
               n0 n1 x Hn0 Hf0 Hn1 Hf1); [|done..].
      intros E. rewrite E in Erk0. lia. }
    destruct (erase_while_ok B G s opts i HG l (S (length l)) s1)
      as (s2a & Hexa & Hlena & Hotha & Hfreea & Hkeepa & Hshra);
      [lia|done|by apply (gs_fnodup _ _ _ HG (Z.to_nat i))|done| |].
    { intros r x Hr Hx. apply Hkept. by apply (Hdisj r). }
    destruct (_forest (heap s2a) !! Z.to_nat i) as [l0|] eqn:Hl0.
    2:{ apply lookup_ge_None in Hl0. apply lookup_lt_Some in Hl1. lia. }
    set (s2b := with_forest (<[Z.to_nat i := []]> (_forest (heap s2a))) s2a).
    destruct (IH (i + 1) s2b) as (s2 & Hex2 & Hfree2 & Hkeep2).
    { lia. }
    { lia. }
    { unfold s2b. simpl. rewrite length_insert. congruence. }
    { intros j Hj. unfold s2b. simpl.
      rewrite list_lookup_insert_ne by lia. rewrite Hotha by lia.
      apply Hrest. lia. }
    { intros x Hx.
      replace (Z.to_nat (i + 1)) with (S (Z.to_nat i)) in Hx by lia.
      rewrite (take_S_r _ _ _ Hl) in Hx.
      apply covered_snoc in Hx as [Hx|(r & Hr & Hx)].
      - change (mem s2b) with (mem s2a).
        destruct (mem s2a !! x) as [n'|] eqn:E; [|done].
        apply Hshra in E. by rewrite (Hfreed x Hx) in E.
      - by apply (Hfreea r x). }
    { intros x Hx.
      replace (Z.to_nat (i + 1)) with (S (Z.to_nat i)) in Hx by lia.
      rewrite (take_S_r _ _ _ Hl) in Hx.
      change (mem s2b) with (mem s2a). rewrite Hkeepa.
      - apply Hkept. intros Hc. apply Hx. apply covered_snoc. by left.
      - intros r Hr Hc. apply Hx. apply covered_snoc. right. eauto. }
    exists s2. split; [|done].
    cbn [erase_for]. unfold bind at 1.
    rewrite (bind_forest_get i _ _ _ Hl1). rewrite Hexa.
    by rewrite (bind_forest_set i _ _ _ _ Hl0).
Qed.

(** The [for] of [eraseFibHeap] over the lists of an empty forest. *)
Lemma erase_for_empty opts :
  ∀ n i s1,
    0 ≤ i → (Z.to_nat i + n ≤ length (_forest (heap s1)))%nat →
    ∃ s2, erase_for n i opts false s1 = Ok tt s2 ∧ mem s2 = mem s1.
Proof.
  induction n as [|n IH]; intros i s1 Hi Hn; [by exists s1|].
  destruct (_forest (heap s1) !! Z.to_nat i) as [l|] eqn:Hl.
  2:{ apply lookup_ge_None in Hl. lia. }
  destruct (IH (i + 1)
              (with_forest (<[Z.to_nat i := []]> (_forest (heap s1))) s1))
    as (s2 & Hex & Hm); [lia|simpl; rewrite length_insert; lia|].
  exists s2. split; [|done]. simpl.
  unfold bind at 1. unfold ret at 1.
  by rewrite (bind_forest_set i _ _ _ _ Hl).
Qed.

Lemma covered_live B G s x :
  Shape B G s → (covered G (_forest (heap s)) x ↔ x ∈ gL G).
Proof.
  intros HS. pose proof (sh_g _ _ _ HS) as HG. split.
  - intros (l & r & _ & _ & Hx). by destruct (anc_live HG x _ Hx).
  - intros Hx. destruct (anc_root HG x Hx) as (r & nr & Hxr & Hnr & Hfr).
    destruct (anc_live HG x r Hxr) as [_ HrL].
    destruct (gs_root _ _ _ HG r nr HrL) as (_ & l & Hl & Hin);
      [rewrite (sh_orph _ _ _ HS); set_solver|done..|].
    exists l, (mkRec (mkTree r)). split; [|done].
    by eapply list_elem_of_lookup_2.
Qed.

(** X19: on a well-formed heap [eraseFibHeap] returns: it walks every
    tree without reading a node it has already freed, frees exactly the
    live nodes and leaves the heap without any list; a node that is not
    live, such as one returned earlier by [fhDeleteMin], stays allocated
    and untouched. *)
Theorem X19_eraseFibHeap s opts :
  wellformed s →
  ∃ s',
    eraseFibHeap (Some Heap) opts s = Ok tt s' ∧
    heap s' = mkHeap [] None 0 0 ∧
    (∀ x, live s x → mem s' !! x = None) ∧
    (∀ x, ¬ live s x → mem s' !! x = mem s !! x).
Proof.
  intros (G & HI). pose proof (inv_shape _ _ _ HI) as HS.
  pose proof (sh_g _ _ _ HS) as HG.
  destruct (gs_len _ _ _ HG) as [Hlen Hmto].
  unfold eraseFibHeap.
  rewrite (bind_Ok _ _ _ _ _ (isHeapEmpty_spec s Hlen)).
  rewrite bind_getHeap.
  destruct (forest_empty s) eqn:Hfe.
  - (* no tree: only the lists go *)
    destruct (erase_for_empty opts (Z.to_nat (_maxTreeOrd (heap s))) 0 s)
      as (s2 & Hex & Hm); [lia|lia|].
    exists (mkState (mkHeap [] None 0 0) (mem s2)). split.
    { change (1 =? 0) with false. by rewrite (bind_Ok _ _ _ _ _ Hex). }
    split; [done|]. simpl. rewrite Hm. split; [|done].
    intros x Hx. apply (live_ghost _ G s x HS) in Hx.
    apply (forest_empty_live _ G s HS) in Hfe. set_solver.
  - destruct (erase_for_ok _ G s opts HG (Z.to_nat (_maxTreeOrd (heap s))) 0 s)
      as (s2 & Hex & Hfreed & Hkept); try done; try lia.
    { intros x (l & r & Hl & _). by apply elem_of_nil in Hl. }
    exists (mkState (mkHeap [] None 0 0) (mem s2)). split.
    { change (0 =? 0) with true. by rewrite (bind_Ok _ _ _ _ _ Hex). }
    split; [done|]. simpl. split.
    + intros x Hx. apply Hfreed. apply (covered_live _ G s x HS).
      by apply (live_ghost _ G s x HS).
    + intros x Hx. apply Hkept. intros Hc. apply Hx.
      apply (live_ghost _ G s x HS). by apply (covered_live _ G s x HS).
Qed.

Lemma X19_eraseFibHeap_witness :
  ∃ s',
    eraseFibHeap (Some Heap) 0 four_nodes = Ok tt s' ∧
    heap s' = mkHeap [] None 0 0 ∧
    (∀ x, live four_nodes x → mem s' !! x = None) ∧
    (∀ x, ¬ live four_nodes x → mem s' !! x = mem four_nodes !! x).
Proof.
  apply (X19_eraseFibHeap four_nodes 0).
  apply reachable_wellformed, reach_four_nodes. lia.
Defined.

(** ** Round trips *)

(** X20: on a valid heap with keys below [UINT64_MAX], inserting a key
    strictly below every key of the heap and then calling [fhDeleteMin]
    gives back the node just inserted, with its key and payload, detached;
    the heap holds the same entries and counts as many nodes as before the
    insertion. *)
Theorem X20_insert_deleteMin s (m : gmap addr (Z * Z)) e k :
  sound s → abstracts s m → 0 ≤ k < UINT64_MAX →
  nodesCount (heap s) ≠ ULONG_MAX →
  (∀ x kx ex, m !! x = Some (kx, ex) → k < kx) →
  ∃ a s1 s2 na,
    fhInsert (Some Heap) e k s = Ok (Some a) s1 ∧
    fhDeleteMin (Some Heap) s1 = Ok (Some a) s2 ∧
    mem s2 !! a = Some na ∧ key na = k ∧ elem na = e ∧ detached na ∧
    sound s2 ∧ abstracts s2 m ∧
    nodesCount (heap s2) = nodesCount (heap s).
Proof.
  intros (G & HI & HM) Habs Hk Hfull Hlow.
  pose proof (inv_shape _ _ _ HI) as HS.
  destruct (fhInsert_ghost _ G s e k HI Hk Hfull)
    as (a & s1 & G1 & Hex1 & HI1 & Hfresh & EL1 & HM1 & Hold & Hnew & Hm1 & Hm2).
  assert (a ∉ gL G) as HaL.
  { intros Ha. destruct (gs_lookup (sh_g _ _ _ HS) a Ha). congruence. }
  assert (m !! a = None) as Hma.
  { destruct (m !! a) as [p|] eqn:Hp; [|done].
    apply Habs in Hp as (_ & n & Hn & _). congruence. }
  assert (abstracts s1 (<[a := (k, e)]> m)) as Habs1.
  { apply (abstracts_insert _ G s _ G1 s1 m a _ HS (inv_shape _ _ _ HI1)
             Habs EL1 Hnew).
    intros x nx _ Hne Hnx. exists nx. by rewrite Hold. }
  assert (min (heap s1) = Some a) as Hmin1.
  { destruct (min (heap s)) as [mn|] eqn:Hmin; [|by apply Hm1].
    destruct (inv_min _ _ _ HI) as [HW _].
    destruct (HW mn Hmin) as (HmnL & nm & Hnm & _).
    rewrite (Hm2 mn nm eq_refl Hnm).
    pose proof (Hlow mn _ _ (abstracts_lookup _ G s m mn nm HS Habs HmnL Hnm)).
    destruct (Z.ltb_spec k (key nm)); [done|lia]. }
  destruct (fhDeleteMin_ok _ G1 s1 a HI1 Hmin1)
    as (s2 & G2 & nm & nm' & Hex2 & HI2 & EL2 & HM2 & _ & Ecnt & Hnm & Hnm'
        & Hk2 & He2 & Hf1 & Hf2 & Hf3 & Hf4 & Hf5 & Hf6 & Hf7 & Hoth).
  rewrite Hnew in Hnm. injection Hnm as <-. simpl in Hk2, He2.
  exists a, s1, s2, nm'. split; [done|]. split; [done|]. split; [done|].
  split; [done|]. split; [done|]. split; [by repeat split|].
  split; [exists G2; split; [done|apply HM2; lia]|]. split.
  - rewrite <- (delete_insert_id m a (k, e) Hma).
    apply (abstracts_delete _ G1 s1 _ G2 s2 _ a (inv_shape _ _ _ HI1)
             (inv_shape _ _ _ HI2) Habs1 EL2).
    intros x nx _ Hxa Hnx. by apply Hoth.
  - rewrite Ecnt, (inv_cnt _ _ _ HI1), (inv_cnt _ _ _ HI), EL1.
    rewrite size_union by set_solver. rewrite size_singleton. lia.
Qed.

Lemma X20_insert_deleteMin_witness :
  ∃ a s1 s2 na,
    fhInsert (Some Heap) 9 0 four_nodes = Ok (Some a) s1 ∧
    fhDeleteMin (Some Heap) s1 = Ok (Some a) s2 ∧
    mem s2 !! a = Some na ∧ key na = 0 ∧ elem na = 9 ∧ detached na ∧
    sound s2 ∧ abstracts s2 four_entries ∧
    nodesCount (heap s2) = nodesCount (heap four_nodes).
Proof.
  apply (X20_insert_deleteMin four_nodes four_entries 9 0).
  - apply sound_four_nodes.
  - apply abstracts_four_nodes.
  - unfold UINT64_MAX. lia.
  - vm_compute. discriminate.
  - intros x kx ex Hx. apply elem_of_list_to_map_2 in Hx.
    repeat (apply elem_of_cons in Hx as [[= -> -> ->]|Hx]; [lia|]).
    inversion Hx.
Defined.

(** X21: on a valid heap with keys below [UINT64_MAX] in which no other
    node has key 0, [fhIncreaseKey] on a live node by [inc] followed by
    [fhDecreaseKey] on it by the same [inc] returns the node both times
    and gives a valid heap with the keys, payloads and node counter it
    had before, provided the increased key stays below [UINT64_MAX]. *)
Theorem X21_increase_decrease s (m : gmap addr (Z * Z)) a k e inc :
  sound s → abstracts s m → m !! a = Some (k, e) →
  (∀ x ex, x ≠ a → m !! x ≠ Some (0, ex)) →
  0 ≤ inc → k + inc < UINT64_MAX →
  ∃ s1 s2,
    fhIncreaseKey (Some Heap) (Some a) inc s = Ok (Some a) s1 ∧
    abstracts s1 (<[a := (k + inc, e)]> m) ∧
    fhDecreaseKey (Some Heap) (Some a) inc s1 = Ok (Some a) s2 ∧
    sound s2 ∧ abstracts s2 m ∧
    nodesCount (heap s2) = nodesCount (heap s).
Proof.
  intros Hs Habs Hma Hzero Hinc Hlt.
  assert (0 ≤ k) as Hk.
  { destruct Hs as (G & HI & _). pose proof (inv_shape _ _ _ HI) as HS.
    destruct (proj1 (Habs a (k, e)) Hma) as (Ha & na & Hna & [= -> ->]).
    apply (live_ghost _ G s a HS) in Ha.
    destruct (gs_node _ _ _ (sh_g _ _ _ HS) a Ha) as (n0 & Hn0 & Hrange & _).
    assert (n0 = na) as -> by congruence. lia. }
  assert (wrap64 (k + inc) = k + inc) as Ew.
  { apply wrap64_small. unfold UINT64_MAX in Hlt. lia. }
  destruct (fhIncreaseKey_client s m a k e inc Hs Habs Hma)
    as (d & ed & s1 & Hex1 & Hmd & Hs1 & Habs1 & Ecnt1); [by rewrite Ew|].
  rewrite Ew in Habs1.
  assert (d = a) as ->.
  { destruct (decide (d = a)) as [|Hne]; [done|]. exfalso.
    rewrite lookup_insert_ne in Hmd by done. by apply (Hzero d ed). }
  rewrite lookup_insert_eq in Hmd. injection Hmd as <-.
  rewrite insert_insert_eq in Habs1.
  destruct (fhDecreaseKey_client s1 _ a (k + inc) e inc Hs1 Habs1)
    as (s2 & Hex2 & Hs2 & Habs2 & Ecnt2);
    [by rewrite lookup_insert_eq|lia|].
  exists s1, s2. split; [done|]. split; [done|]. split; [done|].
  split; [done|]. split; [|lia].
  rewrite insert_insert_eq in Habs2.
  replace (k + inc - inc) with k in Habs2 by lia.
  by rewrite insert_id in Habs2.
Qed.

Lemma X21_increase_decrease_witness :
  ∃ s1 s2,
    fhIncreaseKey (Some Heap) (Some 3%nat) 5 four_nodes = Ok (Some 3%nat) s1 ∧
    abstracts s1 (<[3%nat := (3 + 5, 0)]> four_entries) ∧
    fhDecreaseKey (Some Heap) (Some 3%nat) 5 s1 = Ok (Some 3%nat) s2 ∧
    sound s2 ∧ abstracts s2 four_entries ∧
    nodesCount (heap s2) = nodesCount (heap four_nodes).
Proof.
  apply (X21_increase_decrease four_nodes four_entries 3%nat 3 0 5).
  - apply sound_four_nodes.
  - apply abstracts_four_nodes.
  - vm_compute. reflexivity.
  - intros x ex _ Hx. apply elem_of_list_to_map_2 in Hx.
    repeat (apply elem_of_cons in Hx as [Hx|Hx]; [discriminate|]).
    inversion Hx.
  - lia.
  - unfold UINT64_MAX. lia.
Defined.

(** X22: on a well-formed heap that still holds a node while the cached
    minimum is empty, [isHeapEmpty] answers 0, [fhFindMin] returns the null
    payload without touching the heap, and [fhDeleteMin] dereferences the
    empty minimum. *)
Theorem X22_lost_minimum s a :
  wellformed s → live s a → min (heap s) = None →
  isHeapEmpty (Some Heap) s = Ok 0 s ∧
  fhFindMin (Some Heap) s = Ok 0 s ∧
  fhDeleteMin (Some Heap) s = Crash.
Proof.
  intros (G & HI) Ha Hmin.
  pose proof (inv_shape _ _ _ HI) as HS.
  pose proof (proj1 (gs_len _ _ _ (sh_g _ _ _ HS))) as Hlen.
  assert (forest_empty s = false) as Hfe.
  { destruct (forest_empty s) eqn:E; [|done]. exfalso.
    apply (forest_empty_live _ G s HS) in E.
    apply (live_ghost _ G s a HS) in Ha. set_solver. }
  split; [|split].
  - rewrite isHeapEmpty_spec by done. by rewrite Hfe.
  - unfold fhFindMin. rewrite bind_getHeap. by rewrite Hmin.
  - by apply fhDeleteMin_crash.
Qed.

Lemma X22_lost_minimum_witness :
  isHeapEmpty (Some Heap) lost_min = Ok 0 lost_min ∧
  fhFindMin (Some Heap) lost_min = Ok 0 lost_min ∧
  fhDeleteMin (Some Heap) lost_min = Crash.
Proof.
  apply (X22_lost_minimum lost_min 1%nat).
  - apply reachable_wellformed. unfold lost_min. apply reach_deleteMin.
    unfold two_max, insert_all. simpl.
    repeat (apply reach_insert; [unfold UINT64_MAX; lia|]). apply reach_fresh.
  - left. exists 0%nat, [mkRec (mkTree 1%nat)], (mkRec (mkTree 1%nat)).
    split; [vm_compute; reflexivity|]. split; [repeat constructor|done].
  - vm_compute. reflexivity.
Defined.
